(** * The batched update scheduler of React 15.6.1 (stack reconciler)

    A shallow embedding of
      - [src/renderers/shared/utils/CallbackQueue.js]
      - [src/renderers/shared/stack/reconciler/ReactUpdates.js]
      - [src/renderers/shared/stack/reconciler/ReactRef.js]
      - [ReactReconciler] (receiveComponent, performUpdateIfNecessary)
    as state-passing functions over one explicit [World]: the module
    variables of ReactUpdates, the heap of objects the modules share by
    reference, and a chronological log of the observable calls.

    JavaScript exceptions are the [Throw] result; the state reached at
    the throw is kept, since mutations made before a throw persist.
    Code of user land and of the node kinds (composite / host
    components) is not part of the scheduler: it enters through
    [Program], as lists of the scheduler calls it makes. *)

From Stdlib Require Import String.
From Stdlib Require Import List Arith ZArith Lia Bool.
From Stdlib Require Import Permutation Sorted.
Import ListNotations.

Set Implicit Arguments.

(** ** Identities of heap objects *)

Definition CompId := nat.   (* an internal component instance *)
Definition QueueId := nat.  (* a CallbackQueue instance *)
Definition TxId := nat.     (* a ReactUpdatesFlushTransaction instance *)
Definition RtxId := nat.    (* a ReactReconcileTransaction instance *)
Definition ElemId := nat.   (* a ReactElement object *)
Definition FnId := nat.     (* a user function (setState callback, ref callback) *)
Definition CtxId := nat.    (* a context object *)

(** ** Values *)

Inductive Error : Type :=
| InvariantViolation (msg : string)   (* invariant(false, msg) *)
| TypeError                           (* property access on null/undefined, call of a non-function *)
| UserError (code : nat).             (* thrown by user code *)

(** What is passed as [this] or as an argument to a callback. *)
Inductive Value : Type :=
| VUndefined
| VNull
| VInternal (c : CompId)   (* the internal instance itself *)
| VPublic (c : CompId)     (* component.getPublicInstance() *)
| VData (n : nat).

(** The functions a CallbackQueue holds: user functions, and the
    [attachRefs] helper of ReactReconciler. *)
Inductive Callback : Type :=
| UserFn (f : FnId)
| AttachRefs.

(** [element.ref]: null, a function, or a string (legacy name). *)
Inductive Ref : Type :=
| RefNull
| RefFn (f : FnId)
| RefName (name : string).

Record ReactElement : Type := {
  ref : Ref;
  _owner : option CompId
}.

(** [ReactElement | string | number | null | false]; an element is an
    object, compared by reference. *)
Inductive Node : Type :=
| NNull
| NFalse
| NText (s : string)
| NNumber (z : Z)
| NElement (e : ElemId).

Record Component : Type := {
  _mountOrder : Z;
  _updateBatchNumber : option nat;
  _pendingCallbacks : option (list Callback);
  _currentElement : Node;
  _context : CtxId
}.

(** class CallbackQueue: two parallel arrays, or null. An array slot is
    [None] (callbacks) or [VUndefined] (contexts) where the array has a
    hole. *)
Record CallbackQueue : Type := {
  _callbacks : option (list (option Callback));
  _contexts : option (list Value);
  _arg : Value
}.

Record FlushTransaction : Type := {
  dirtyComponentsLength : option nat;
  callbackQueue : option QueueId;
  reconcileTransaction : option RtxId
}.

Record ReconcileTransaction : Type := {
  reactMountReady : option QueueId
}.

Inductive PoolClass : Type :=
| KCallbackQueue
| KFlushTransaction
| KReconcileTransaction.

(** ** The log of observable calls *)

Inductive Event : Type :=
| EvSchedule (c : CompId) (g : nat)
    (* enqueueUpdate wrote c._updateBatchNumber = g *)
| EvPerformUpdate (c : CompId) (g : nat)
    (* ReactReconciler.performUpdateIfNecessary(c, _, g) was called *)
| EvReconcile (c : CompId) (g : nat)
    (* ... and delegated to c.performUpdateIfNecessary(transaction) *)
| EvWarning (c : CompId) (g : nat)
    (* warning: unexpected batch number *)
| EvInvoke (cb : Callback) (this : Value) (arg : Value)
    (* CallbackQueue.notifyAll: cb.call(this, arg) *)
| EvRefCall (f : FnId) (arg : Value)
    (* ReactRef: ref(arg), for a function ref *)
| EvReceive (c : CompId) (next : Node)
    (* c.receiveComponent(next, transaction, context) *)
| EvRemoveRef (c : CompId) (r : Ref) (owner : option CompId)
    (* ReactOwner.removeComponentAsRefFrom(c, r, owner) *)
| EvAddRef (c : CompId) (r : Ref) (owner : option CompId)
    (* ReactOwner.addComponentAsRefTo(c, r, owner) *)
| EvEnqueue (q : QueueId) (cb : Callback) (ctx : Value)
    (* q.enqueue(cb, ctx) *)
| EvAcquire (k : PoolClass) (id : nat)
    (* Klass.getPooled() returned instance id *)
| EvRelease (k : PoolClass) (id : nat).
    (* Klass.release(instance id) *)

(** ** The world *)

Record World : Type := {
  (* module variables of ReactUpdates *)
  dirtyComponents : list CompId;
  updateBatchNumber : nat;
  asapCallbackQueue : QueueId;
  asapEnqueued : bool;
  (* injection *)
  batchingStrategy : bool;            (* batchingStrategy !== null *)
  isBatchingUpdates : bool;           (* batchingStrategy.isBatchingUpdates *)
  ReactReconcileTransaction : bool;   (* ReactUpdates.ReactReconcileTransaction !== null *)
  (* heap *)
  components : CompId -> Component;
  elements : ElemId -> ReactElement;
  queues : list CallbackQueue;
  flushTxs : list FlushTransaction;
  reconcileTxs : list ReconcileTransaction;
  (* instancePool of each pooled class *)
  queuePool : list QueueId;
  flushPool : list TxId;
  reconcilePool : list RtxId;
  (* observation *)
  log : list Event
}.

Definition set_dirtyComponents (v : list CompId) (s : World) : World :=
  {| dirtyComponents := v; updateBatchNumber := updateBatchNumber s;
     asapCallbackQueue := asapCallbackQueue s; asapEnqueued := asapEnqueued s;
     batchingStrategy := batchingStrategy s; isBatchingUpdates := isBatchingUpdates s;
     ReactReconcileTransaction := ReactReconcileTransaction s;
     components := components s; elements := elements s; queues := queues s;
     flushTxs := flushTxs s; reconcileTxs := reconcileTxs s;
     queuePool := queuePool s; flushPool := flushPool s;
     reconcilePool := reconcilePool s; log := log s |}.

Definition set_updateBatchNumber (v : nat) (s : World) : World :=
  {| dirtyComponents := dirtyComponents s; updateBatchNumber := v;
     asapCallbackQueue := asapCallbackQueue s; asapEnqueued := asapEnqueued s;
     batchingStrategy := batchingStrategy s; isBatchingUpdates := isBatchingUpdates s;
     ReactReconcileTransaction := ReactReconcileTransaction s;
     components := components s; elements := elements s; queues := queues s;
     flushTxs := flushTxs s; reconcileTxs := reconcileTxs s;
     queuePool := queuePool s; flushPool := flushPool s;
     reconcilePool := reconcilePool s; log := log s |}.

Definition set_asapCallbackQueue (v : QueueId) (s : World) : World :=
  {| dirtyComponents := dirtyComponents s; updateBatchNumber := updateBatchNumber s;
     asapCallbackQueue := v; asapEnqueued := asapEnqueued s;
     batchingStrategy := batchingStrategy s; isBatchingUpdates := isBatchingUpdates s;
     ReactReconcileTransaction := ReactReconcileTransaction s;
     components := components s; elements := elements s; queues := queues s;
     flushTxs := flushTxs s; reconcileTxs := reconcileTxs s;
     queuePool := queuePool s; flushPool := flushPool s;
     reconcilePool := reconcilePool s; log := log s |}.

Definition set_asapEnqueued (v : bool) (s : World) : World :=
  {| dirtyComponents := dirtyComponents s; updateBatchNumber := updateBatchNumber s;
     asapCallbackQueue := asapCallbackQueue s; asapEnqueued := v;
     batchingStrategy := batchingStrategy s; isBatchingUpdates := isBatchingUpdates s;
     ReactReconcileTransaction := ReactReconcileTransaction s;
     components := components s; elements := elements s; queues := queues s;
     flushTxs := flushTxs s; reconcileTxs := reconcileTxs s;
     queuePool := queuePool s; flushPool := flushPool s;
     reconcilePool := reconcilePool s; log := log s |}.

Definition set_components (v : CompId -> Component) (s : World) : World :=
  {| dirtyComponents := dirtyComponents s; updateBatchNumber := updateBatchNumber s;
     asapCallbackQueue := asapCallbackQueue s; asapEnqueued := asapEnqueued s;
     batchingStrategy := batchingStrategy s; isBatchingUpdates := isBatchingUpdates s;
     ReactReconcileTransaction := ReactReconcileTransaction s;
     components := v; elements := elements s; queues := queues s;
     flushTxs := flushTxs s; reconcileTxs := reconcileTxs s;
     queuePool := queuePool s; flushPool := flushPool s;
     reconcilePool := reconcilePool s; log := log s |}.

Definition set_queues (v : list CallbackQueue) (s : World) : World :=
  {| dirtyComponents := dirtyComponents s; updateBatchNumber := updateBatchNumber s;
     asapCallbackQueue := asapCallbackQueue s; asapEnqueued := asapEnqueued s;
     batchingStrategy := batchingStrategy s; isBatchingUpdates := isBatchingUpdates s;
     ReactReconcileTransaction := ReactReconcileTransaction s;
     components := components s; elements := elements s; queues := v;
     flushTxs := flushTxs s; reconcileTxs := reconcileTxs s;
     queuePool := queuePool s; flushPool := flushPool s;
     reconcilePool := reconcilePool s; log := log s |}.

Definition set_flushTxs (v : list FlushTransaction) (s : World) : World :=
  {| dirtyComponents := dirtyComponents s; updateBatchNumber := updateBatchNumber s;
     asapCallbackQueue := asapCallbackQueue s; asapEnqueued := asapEnqueued s;
     batchingStrategy := batchingStrategy s; isBatchingUpdates := isBatchingUpdates s;
     ReactReconcileTransaction := ReactReconcileTransaction s;
     components := components s; elements := elements s; queues := queues s;
     flushTxs := v; reconcileTxs := reconcileTxs s;
     queuePool := queuePool s; flushPool := flushPool s;
     reconcilePool := reconcilePool s; log := log s |}.

Definition set_reconcileTxs (v : list ReconcileTransaction) (s : World) : World :=
  {| dirtyComponents := dirtyComponents s; updateBatchNumber := updateBatchNumber s;
     asapCallbackQueue := asapCallbackQueue s; asapEnqueued := asapEnqueued s;
     batchingStrategy := batchingStrategy s; isBatchingUpdates := isBatchingUpdates s;
     ReactReconcileTransaction := ReactReconcileTransaction s;
     components := components s; elements := elements s; queues := queues s;
     flushTxs := flushTxs s; reconcileTxs := v;
     queuePool := queuePool s; flushPool := flushPool s;
     reconcilePool := reconcilePool s; log := log s |}.

Definition set_queuePool (v : list QueueId) (s : World) : World :=
  {| dirtyComponents := dirtyComponents s; updateBatchNumber := updateBatchNumber s;
     asapCallbackQueue := asapCallbackQueue s; asapEnqueued := asapEnqueued s;
     batchingStrategy := batchingStrategy s; isBatchingUpdates := isBatchingUpdates s;
     ReactReconcileTransaction := ReactReconcileTransaction s;
     components := components s; elements := elements s; queues := queues s;
     flushTxs := flushTxs s; reconcileTxs := reconcileTxs s;
     queuePool := v; flushPool := flushPool s;
     reconcilePool := reconcilePool s; log := log s |}.

Definition set_flushPool (v : list TxId) (s : World) : World :=
  {| dirtyComponents := dirtyComponents s; updateBatchNumber := updateBatchNumber s;
     asapCallbackQueue := asapCallbackQueue s; asapEnqueued := asapEnqueued s;
     batchingStrategy := batchingStrategy s; isBatchingUpdates := isBatchingUpdates s;
     ReactReconcileTransaction := ReactReconcileTransaction s;
     components := components s; elements := elements s; queues := queues s;
     flushTxs := flushTxs s; reconcileTxs := reconcileTxs s;
     queuePool := queuePool s; flushPool := v;
     reconcilePool := reconcilePool s; log := log s |}.

Definition set_reconcilePool (v : list RtxId) (s : World) : World :=
  {| dirtyComponents := dirtyComponents s; updateBatchNumber := updateBatchNumber s;
     asapCallbackQueue := asapCallbackQueue s; asapEnqueued := asapEnqueued s;
     batchingStrategy := batchingStrategy s; isBatchingUpdates := isBatchingUpdates s;
     ReactReconcileTransaction := ReactReconcileTransaction s;
     components := components s; elements := elements s; queues := queues s;
     flushTxs := flushTxs s; reconcileTxs := reconcileTxs s;
     queuePool := queuePool s; flushPool := flushPool s;
     reconcilePool := v; log := log s |}.

Definition set_log (v : list Event) (s : World) : World :=
  {| dirtyComponents := dirtyComponents s; updateBatchNumber := updateBatchNumber s;
     asapCallbackQueue := asapCallbackQueue s; asapEnqueued := asapEnqueued s;
     batchingStrategy := batchingStrategy s; isBatchingUpdates := isBatchingUpdates s;
     ReactReconcileTransaction := ReactReconcileTransaction s;
     components := components s; elements := elements s; queues := queues s;
     flushTxs := flushTxs s; reconcileTxs := reconcileTxs s;
     queuePool := queuePool s; flushPool := flushPool s;
     reconcilePool := reconcilePool s; log := v |}.

(** ** Results and the state-and-exception monad *)

Inductive Result (A : Type) : Type :=
| Ok (a : A) (s : World)
| Throw (e : Error) (s : World)
| OutOfFuel.

Arguments Ok {A} a s.
Arguments Throw {A} e s.
Arguments OutOfFuel {A}.

Definition M (A : Type) : Type := World -> Result A.

Definition ret {A : Type} (a : A) : M A := fun s => Ok a s.

Definition bind {A B : Type} (m : M A) (k : A -> M B) : M B :=
  fun s =>
    match m s with
    | Ok a s' => k a s'
    | Throw e s' => Throw e s'
    | OutOfFuel => OutOfFuel
    end.

Definition throw {A : Type} (e : Error) : M A := fun s => Throw e s.

Definition get {A : Type} (f : World -> A) : M A := fun s => Ok (f s) s.

Definition modify (f : World -> World) : M unit := fun s => Ok tt (f s).

Declare Scope js_scope.
Delimit Scope js_scope with js.

Notation "x <- m ;; k" := (bind m (fun x => k))
  (at level 61, m at next level, right associativity) : js_scope.
Notation "m ;; k" := (bind m (fun _ => k))
  (at level 61, right associativity) : js_scope.

Open Scope js_scope.

Definition emit (e : Event) : M unit :=
  modify (fun s => set_log (log s ++ [e]) s).

(** ** What user code and node kinds may do

    The calls into the scheduler that code outside it makes. The
    functions it can hand over are its own ([FnId]); [attachRefs] is
    private to ReactReconciler. *)

Inductive Cmd : Type :=
| CEnqueueUpdate (c : CompId)
    (* ReactUpdates.enqueueUpdate(c) *)
| CAsap (f : FnId) (ctx : Value)
    (* ReactUpdates.asap(f, ctx) *)
| CEnqueueCallback (c : CompId) (f : FnId)
    (* c._pendingCallbacks.push(f), creating the array when null *)
| CClearBatchNumber (c : CompId)
    (* c._updateBatchNumber = null *)
| CSetCurrentElement (c : CompId) (e : Node)
    (* c._currentElement = e *)
| CSetContext (c : CompId) (k : CtxId)
    (* c._context = k *)
| CQueueEnqueue (q : QueueId) (f : FnId) (ctx : Value)
    (* q.enqueue(f, ctx) *)
| CThrow (e : Error).
    (* throw e *)

(** The injected collaborators and the user functions. Each returns the
    scheduler calls it makes, chosen from the world it is run in. *)
Record Program : Type := {
  (* batchingStrategy.batchedUpdates(callback, a), with the call
     callback(a) as its first argument *)
  strategy_batchedUpdates : M unit -> M unit;
  (* internalInstance.performUpdateIfNecessary(transaction) *)
  impl_performUpdateIfNecessary : CompId -> option RtxId -> World -> list Cmd;
  (* internalInstance.receiveComponent(nextElement, transaction, context) *)
  impl_receiveComponent : CompId -> Node -> RtxId -> CtxId -> World -> list Cmd;
  (* the body of user function f, called with this and one argument *)
  fn_body : FnId -> Value -> Value -> World -> list Cmd
}.

(** ** Arrays and the heap *)

(** [l[i] = x] for [i] in range (the model never writes out of range). *)
Fixpoint list_set {A : Type} (i : nat) (x : A) (l : list A) : list A :=
  match l, i with
  | [], _ => []
  | _ :: t, 0 => x :: t
  | h :: t, S j => h :: list_set j x t
  end.

(** Writing instance [id] of a heap: in place, or as the next address. *)
Definition store {A : Type} (id : nat) (x : A) (l : list A) : list A :=
  if Nat.ltb id (length l) then list_set id x l else l ++ [x].

(** [array.length = len]: truncates, or extends with holes. *)
Definition set_length {A : Type} (hole : A) (len : nat) (l : list A) : list A :=
  firstn len l ++ repeat hole (len - length l).

(** [Array.prototype.sort(comparator)], as a stable insertion sort. *)
Fixpoint sort_insert {A : Type} (comparator : A -> A -> Z) (x : A) (l : list A) : list A :=
  match l with
  | [] => [x]
  | y :: t => if (comparator x y <=? 0)%Z then x :: y :: t
              else y :: sort_insert comparator x t
  end.

Fixpoint array_sort {A : Type} (comparator : A -> A -> Z) (l : list A) : list A :=
  match l with
  | [] => []
  | x :: t => sort_insert comparator x (array_sort comparator t)
  end.

Definition upd {A : Type} (f : nat -> A) (k : nat) (v : A) : nat -> A :=
  fun k' => if Nat.eqb k' k then v else f k'.

Definition with_component (c : CompId) (f : Component -> Component) (s : World) : World :=
  set_components (upd (components s) c (f (components s c))) s.

Definition comp_set_updateBatchNumber (v : option nat) (o : Component) : Component :=
  {| _mountOrder := _mountOrder o; _updateBatchNumber := v;
     _pendingCallbacks := _pendingCallbacks o;
     _currentElement := _currentElement o; _context := _context o |}.

Definition comp_set_pendingCallbacks (v : option (list Callback)) (o : Component) : Component :=
  {| _mountOrder := _mountOrder o; _updateBatchNumber := _updateBatchNumber o;
     _pendingCallbacks := v;
     _currentElement := _currentElement o; _context := _context o |}.

Definition comp_set_currentElement (v : Node) (o : Component) : Component :=
  {| _mountOrder := _mountOrder o; _updateBatchNumber := _updateBatchNumber o;
     _pendingCallbacks := _pendingCallbacks o;
     _currentElement := v; _context := _context o |}.

Definition comp_set_context (v : CtxId) (o : Component) : Component :=
  {| _mountOrder := _mountOrder o; _updateBatchNumber := _updateBatchNumber o;
     _pendingCallbacks := _pendingCallbacks o;
     _currentElement := _currentElement o; _context := v |}.

(** [a || []] *)
Definition or_empty {A : Type} (o : option (list A)) : list A :=
  match o with Some l => l | None => [] end.

(** ** CallbackQueue.js: the methods, on one instance *)

Definition CallbackQueue_constructor (arg : Value) : CallbackQueue :=
  {| _callbacks := None; _contexts := None; _arg := arg |}.

Definition CallbackQueue_enqueue (callback : Callback) (context : Value)
    (this : CallbackQueue) : CallbackQueue :=
  {| _callbacks := Some (or_empty (_callbacks this) ++ [Some callback]);
     _contexts := Some (or_empty (_contexts this) ++ [context]);
     _arg := _arg this |}.

Definition CallbackQueue_checkpoint (this : CallbackQueue) : nat :=
  match _callbacks this with
  | Some callbacks => length callbacks
  | None => 0
  end.

Definition CallbackQueue_rollback (len : nat) (this : CallbackQueue) : CallbackQueue :=
  match _callbacks this, _contexts this with
  | Some callbacks, Some contexts =>
      {| _callbacks := Some (set_length None len callbacks);
         _contexts := Some (set_length VUndefined len contexts);
         _arg := _arg this |}
  | _, _ => this
  end.

Definition CallbackQueue_reset (this : CallbackQueue) : CallbackQueue :=
  {| _callbacks := None; _contexts := None; _arg := _arg this |}.

Definition CallbackQueue_destructor (this : CallbackQueue) : CallbackQueue :=
  CallbackQueue_reset this.

(** A method call [q.m(...)] on the instance at address [q]. *)
Definition with_queue (q : QueueId) (f : CallbackQueue -> CallbackQueue) : M unit :=
  fun s =>
    match nth_error (queues s) q with
    | Some this => Ok tt (set_queues (list_set q (f this) (queues s)) s)
    | None => Throw TypeError s
    end.

(** [q.enqueue(callback, context)] *)
Definition queue_enqueue (q : QueueId) (callback : Callback) (context : Value) : M unit :=
  with_queue q (CallbackQueue_enqueue callback context) ;;
  emit (EvEnqueue q callback context).

(** ** ReactUpdates.js: enqueueUpdate, asap *)

Definition ensureInjected : M unit :=
  fun s =>
    if ReactReconcileTransaction s && batchingStrategy s then Ok tt s
    else Throw (InvariantViolation
      "ReactUpdates: must inject a reconcile transaction class and batching strategy") s.

(** Lines 283-286: push, then tag when untagged. *)
Definition markDirty (component : CompId) : M unit :=
  modify (fun s => set_dirtyComponents (dirtyComponents s ++ [component]) s) ;;
  fun s =>
    match _updateBatchNumber (components s component) with
    | None =>
        (modify (with_component component
                   (comp_set_updateBatchNumber (Some (updateBatchNumber s + 1)))) ;;
         emit (EvSchedule component (updateBatchNumber s + 1))) s
    | Some _ => Ok tt s
    end.

Fixpoint enqueueUpdate (P : Program) (n : nat) (component : CompId) : M unit :=
  match n with
  | 0 => fun _ => OutOfFuel
  | S n' =>
      ensureInjected ;;
      fun s =>
        if negb (isBatchingUpdates s)
        then strategy_batchedUpdates P (enqueueUpdate P n' component) s
        else markDirty component s
  end.

Definition asap (callback : Callback) (context : Value) : M unit :=
  fun s =>
    if negb (batchingStrategy s) then Throw TypeError s
    else if negb (isBatchingUpdates s) then
      Throw (InvariantViolation
        "ReactUpdates.asap: Can't enqueue an asap callback in a context whereupdates are not being batched.") s
    else
      (queue_enqueue (asapCallbackQueue s) callback context ;;
       modify (set_asapEnqueued true)) s.

(** ** Running the calls of user code *)

Definition runCmd (P : Program) (n : nat) (cmd : Cmd) : M unit :=
  match cmd with
  | CEnqueueUpdate c => enqueueUpdate P n c
  | CAsap f ctx => asap (UserFn f) ctx
  | CEnqueueCallback c f =>
      modify (fun s => with_component c
        (comp_set_pendingCallbacks
           (Some (or_empty (_pendingCallbacks (components s c)) ++ [UserFn f]))) s)
  | CClearBatchNumber c =>
      modify (with_component c (comp_set_updateBatchNumber None))
  | CSetCurrentElement c e =>
      modify (with_component c (comp_set_currentElement e))
  | CSetContext c k =>
      modify (with_component c (comp_set_context k))
  | CQueueEnqueue q f ctx => queue_enqueue q (UserFn f) ctx
  | CThrow e => throw e
  end.

Fixpoint runCmds (P : Program) (n : nat) (l : list Cmd) : M unit :=
  match l with
  | [] => ret tt
  | cmd :: rest => runCmd P n cmd ;; runCmds P n rest
  end.

(** [f.call(this, arg)] for a user function held by a CallbackQueue. *)
Definition call_fn (P : Program) (n : nat) (f : FnId) (this arg : Value) : M unit :=
  emit (EvInvoke (UserFn f) this arg) ;;
  fun s => runCmds P n (fn_body P f this arg s) s.

(** [ref(arg)] for a function ref: a plain call, [this] is undefined. *)
Definition call_ref (P : Program) (n : nat) (f : FnId) (arg : Value) : M unit :=
  emit (EvRefCall f arg) ;;
  fun s => runCmds P n (fn_body P f VUndefined arg s) s.

(** ** ReactRef.js *)

Definition attachRef (P : Program) (n : nat) (r : Ref) (component : CompId)
    (owner : option CompId) : M unit :=
  match r with
  | RefFn f => call_ref P n f (VPublic component)
  | _ => emit (EvAddRef component r owner)
  end.

Definition detachRef (P : Program) (n : nat) (r : Ref) (component : CompId)
    (owner : option CompId) : M unit :=
  match r with
  | RefFn f => call_ref P n f VNull
  | _ => emit (EvRemoveRef component r owner)
  end.

Definition ReactRef_attachRefs (P : Program) (n : nat) (instance : CompId)
    (element : Node) : M unit :=
  match element with
  | NElement e =>
      fun s =>
        match ref (elements s e) with
        | RefNull => Ok tt s
        | r => attachRef P n r instance (_owner (elements s e)) s
        end
  | _ => ret tt
  end.

Definition ReactRef_detachRefs (P : Program) (n : nat) (instance : CompId)
    (element : Node) : M unit :=
  match element with
  | NElement e =>
      fun s =>
        match ref (elements s e) with
        | RefNull => Ok tt s
        | r => detachRef P n r instance (_owner (elements s e)) s
        end
  | _ => ret tt
  end.

(** [a === b] on refs and on owners. *)
Definition ref_eqb (a b : Ref) : bool :=
  match a, b with
  | RefNull, RefNull => true
  | RefFn f, RefFn g => Nat.eqb f g
  | RefName x, RefName y => String.eqb x y
  | _, _ => false
  end.

Definition owner_eqb (a b : option CompId) : bool :=
  match a, b with
  | None, None => true
  | Some x, Some y => Nat.eqb x y
  | _, _ => false
  end.

Definition is_string (r : Ref) : bool :=
  match r with RefName _ => true | _ => false end.

(** The [(ref, _owner)] the function reads off an element: null, null
    unless the element is an object. *)
Definition ref_and_owner (elems : ElemId -> ReactElement) (element : Node)
    : Ref * option CompId :=
  match element with
  | NElement e => (ref (elems e), _owner (elems e))
  | _ => (RefNull, None)
  end.

Definition ReactRef_shouldUpdateRefs (elems : ElemId -> ReactElement)
    (prevElement nextElement : Node) : bool :=
  let (prevRef, prevOwner) := ref_and_owner elems prevElement in
  let (nextRef, nextOwner) := ref_and_owner elems nextElement in
  negb (ref_eqb prevRef nextRef)
  || (is_string nextRef && negb (owner_eqb nextOwner prevOwner)).

(** ** CallbackQueue.js: notifyAll *)

(** [callbacks[i].call(contexts[i], arg)] *)
Definition invoke (P : Program) (n : nat) (cb : option Callback)
    (this arg : Value) : M unit :=
  match cb with
  | None => throw TypeError
  | Some (UserFn f) => call_fn P n f this arg
  | Some AttachRefs =>
      emit (EvInvoke AttachRefs this arg) ;;
      match this with
      | VInternal c =>
          fun s => ReactRef_attachRefs P n c (_currentElement (components s c)) s
      | _ => throw TypeError
      end
  end.

Fixpoint invokeAll (P : Program) (n : nat) (callbacks : list (option Callback))
    (contexts : list Value) (arg : Value) : M unit :=
  match callbacks with
  | [] => ret tt
  | cb :: rest =>
      invoke P n cb (hd VUndefined contexts) arg ;;
      invokeAll P n rest (tl contexts) arg
  end.

(** The two arrays are read into locals and the fields set to null
    before the loop; clearing the detached arrays afterwards has no
    effect on the heap. *)
Definition CallbackQueue_notifyAll (P : Program) (n : nat) (q : QueueId) : M unit :=
  fun s =>
    match nth_error (queues s) q with
    | None => Throw TypeError s
    | Some this =>
        match _callbacks this, _contexts this with
        | Some callbacks, Some contexts =>
            if Nat.eqb (length callbacks) (length contexts) then
              (with_queue q (fun o => {| _callbacks := None; _contexts := None;
                                         _arg := _arg o |}) ;;
               invokeAll P n callbacks contexts (_arg this)) s
            else
              Throw (InvariantViolation
                "Mismatched list of contexts in callback queue") s
        | _, _ => Ok tt s
        end
    end.

(** ** PooledClass *)

(** Modelled from the spec: PooledClass (module PooledClass is not among
    the sources). "Per reusable type, a free-list of retired instances;
    acquire pops-or-constructs, release calls the instance's reset hook
    and pushes it back." A popped instance has its constructor run again.
    The head of the list is the top of the free-list. *)
Definition pop_or_construct (pool : list nat) (heap_size : nat) : nat * list nat :=
  match pool with
  | id :: rest => (id, rest)
  | [] => (heap_size, [])
  end.

Definition CallbackQueue_getPooled (arg : Value) : M QueueId :=
  fun s =>
    let (q, rest) := pop_or_construct (queuePool s) (length (queues s)) in
    (modify (set_queuePool rest) ;;
     modify (fun s => set_queues (store q (CallbackQueue_constructor arg) (queues s)) s) ;;
     emit (EvAcquire KCallbackQueue q) ;;
     ret q) s.

Definition CallbackQueue_release (q : QueueId) : M unit :=
  with_queue q CallbackQueue_destructor ;;
  modify (fun s => set_queuePool (q :: queuePool s) s) ;;
  emit (EvRelease KCallbackQueue q).

(** Modelled from the spec: the reconcile-pass execution context (module
    ReactReconcileTransaction is not among the sources). "Supplied by the
    host collaborator, exposes its own pre/post hook list (e.g., to run
    structural-mutation completion callbacks) and a post-update callback
    queue accessor." The instance owns one pooled CallbackQueue. *)
Definition ReconcileTransaction_getPooled : M RtxId :=
  fun s =>
    let (r, rest) := pop_or_construct (reconcilePool s) (length (reconcileTxs s)) in
    (modify (set_reconcilePool rest) ;;
     q <- CallbackQueue_getPooled VNull ;;
     modify (fun s => set_reconcileTxs
               (store r {| reactMountReady := Some q |} (reconcileTxs s)) s) ;;
     emit (EvAcquire KReconcileTransaction r) ;;
     ret r) s.

Definition get_reconcileTx (r : RtxId) : M ReconcileTransaction :=
  fun s =>
    match nth_error (reconcileTxs s) r with
    | Some o => Ok o s
    | None => Throw TypeError s
    end.

(** [transaction.getReactMountReady()] *)
Definition getReactMountReady (r : RtxId) : M QueueId :=
  o <- get_reconcileTx r ;;
  match reactMountReady o with
  | Some q => ret q
  | None => throw TypeError
  end.

Definition ReconcileTransaction_release (r : RtxId) : M unit :=
  o <- get_reconcileTx r ;;
  match reactMountReady o with
  | Some q => CallbackQueue_release q
  | None => throw TypeError
  end ;;
  modify (fun s => set_reconcileTxs
            (list_set r {| reactMountReady := None |} (reconcileTxs s)) s) ;;
  modify (fun s => set_reconcilePool (r :: reconcilePool s) s) ;;
  emit (EvRelease KReconcileTransaction r).

(** ** Transaction *)

Record Wrapper : Type := {
  initialize : M unit;
  close : M unit
}.

(** Modelled from the spec: Transaction.perform (module Transaction is
    not among the sources). "[perform] executes [method], guaranteed to
    be preceded by every wrapper's initialize (in registration order) and
    followed by every successfully-initialized wrapper's close (in the
    same order). If a wrapper's initialize throws, no further wrappers
    initialize and method does not run; whichever wrappers already
    initialized still have their close invoked. If method or any close
    throws, remaining close hooks still execute; the first error
    encountered is the one ultimately propagated to the caller once all
    closes have been attempted."

    [initializeAll] returns the wrappers that initialized, with the
    outcome. *)
Fixpoint initializeAll (wrappers : list Wrapper) (s : World)
    : list Wrapper * Result unit :=
  match wrappers with
  | [] => ([], Ok tt s)
  | w :: rest =>
      match initialize w s with
      | Ok _ s' =>
          let (initialized, r) := initializeAll rest s' in (w :: initialized, r)
      | Throw e s' => ([], Throw e s')
      | OutOfFuel => ([], OutOfFuel)
      end
  end.

Definition first_error (first : option Error) (e : Error) : Error :=
  match first with Some e0 => e0 | None => e end.

Fixpoint closeAll (initialized : list Wrapper) (first : option Error) (s : World)
    : Result unit :=
  match initialized with
  | [] => match first with
          | None => Ok tt s
          | Some e => Throw e s
          end
  | w :: rest =>
      match close w s with
      | Ok _ s' => closeAll rest first s'
      | Throw e s' => closeAll rest (Some (first_error first e)) s'
      | OutOfFuel => OutOfFuel
      end
  end.

Definition Transaction_perform (wrappers : list Wrapper) (method : M unit) : M unit :=
  fun s =>
    match initializeAll wrappers s with
    | (initialized, Ok _ s1) =>
        match method s1 with
        | Ok _ s2 => closeAll initialized None s2
        | Throw e s2 => closeAll initialized (Some e) s2
        | OutOfFuel => OutOfFuel
        end
    | (initialized, Throw e s1) => closeAll initialized (Some e) s1
    | (_, OutOfFuel) => OutOfFuel
    end.

(** ** ReactReconciler *)

Definition node_eqb (a b : Node) : bool :=
  match a, b with
  | NNull, NNull => true
  | NFalse, NFalse => true
  | NText x, NText y => String.eqb x y
  | NNumber x, NNumber y => Z.eqb x y
  | NElement x, NElement y => Nat.eqb x y
  | _, _ => false
  end.

(** [element && element.ref != null] *)
Definition has_ref (elems : ElemId -> ReactElement) (element : Node) : bool :=
  match element with
  | NElement e => match ref (elems e) with RefNull => false | _ => true end
  | _ => false
  end.

Definition ReactReconciler_receiveComponent (P : Program) (n : nat)
    (internalInstance : CompId) (nextElement : Node) (transaction : RtxId)
    (context : CtxId) : M unit :=
  fun s =>
    let prevElement := _currentElement (components s internalInstance) in
    if node_eqb nextElement prevElement
       && Nat.eqb context (_context (components s internalInstance))
    then Ok tt s
    else
      let refsChanged := ReactRef_shouldUpdateRefs (elements s) prevElement nextElement in
      ((if refsChanged then ReactRef_detachRefs P n internalInstance prevElement
        else ret tt) ;;
       emit (EvReceive internalInstance nextElement) ;;
       (fun s1 => runCmds P n
          (impl_receiveComponent P internalInstance nextElement transaction context s1) s1) ;;
       (fun s2 =>
          if refsChanged
             && has_ref (elements s2) (_currentElement (components s2 internalInstance))
          then (q <- getReactMountReady transaction ;;
                queue_enqueue q AttachRefs (VInternal internalInstance)) s2
          else Ok tt s2)) s.

Definition ReactReconciler_performUpdateIfNecessary (P : Program) (n : nat)
    (internalInstance : CompId) (transaction : option RtxId)
    (updateBatchNumber : nat) : M unit :=
  emit (EvPerformUpdate internalInstance updateBatchNumber) ;;
  fun s =>
    let tag := _updateBatchNumber (components s internalInstance) in
    match tag with
    | Some g =>
        if Nat.eqb g updateBatchNumber then
          (emit (EvReconcile internalInstance updateBatchNumber) ;;
           fun s1 => runCmds P n
             (impl_performUpdateIfNecessary P internalInstance transaction s1) s1) s
        else if Nat.eqb g (updateBatchNumber + 1) then Ok tt s
        else emit (EvWarning internalInstance updateBatchNumber) s
    | None => Ok tt s
    end.

(** ** ReactUpdates.js: the flush transaction *)

Definition get_flushTx (t : TxId) : M FlushTransaction :=
  fun s =>
    match nth_error (flushTxs s) t with
    | Some o => Ok o s
    | None => Throw TypeError s
    end.

Definition option_nat_eqb (a b : option nat) : bool :=
  match a, b with
  | None, None => true
  | Some x, Some y => Nat.eqb x y
  | _, _ => false
  end.

Definition NESTED_UPDATES (flushBatchedUpdates : M unit) (this : TxId) : Wrapper :=
  {| initialize :=
       o <- get_flushTx this ;;
       modify (fun s => set_flushTxs
         (list_set this
            {| dirtyComponentsLength := Some (length (dirtyComponents s));
               callbackQueue := callbackQueue o;
               reconcileTransaction := reconcileTransaction o |}
            (flushTxs s)) s);
     close :=
       o <- get_flushTx this ;;
       fun s =>
         if negb (option_nat_eqb (dirtyComponentsLength o)
                    (Some (length (dirtyComponents s))))
         then
           (* dirtyComponents.splice(0, this.dirtyComponentsLength) *)
           (modify (set_dirtyComponents
                      (skipn (match dirtyComponentsLength o with
                              | Some l => l
                              | None => 0
                              end) (dirtyComponents s))) ;;
            flushBatchedUpdates) s
         else
           Ok tt (set_dirtyComponents [] s) |}.

Definition UPDATE_QUEUEING (P : Program) (n : nat) (this : TxId) : Wrapper :=
  {| initialize :=
       o <- get_flushTx this ;;
       match callbackQueue o with
       | Some q => with_queue q CallbackQueue_reset
       | None => throw TypeError
       end;
     close :=
       o <- get_flushTx this ;;
       match callbackQueue o with
       | Some q => CallbackQueue_notifyAll P n q
       | None => throw TypeError
       end |}.

Definition TRANSACTION_WRAPPERS (P : Program) (n : nat)
    (flushBatchedUpdates : M unit) (this : TxId) : list Wrapper :=
  [NESTED_UPDATES flushBatchedUpdates this; UPDATE_QUEUEING P n this].

(** Modelled from the spec: the hook list of the reconcile transaction,
    whose close runs the structural-mutation completion callbacks (the
    post-update queue): initialize resets the queue, close notifies it. *)
Definition RECONCILE_WRAPPERS (P : Program) (n : nat) (r : RtxId) : list Wrapper :=
  [{| initialize := q <- getReactMountReady r ;; with_queue q CallbackQueue_reset;
      close := q <- getReactMountReady r ;; CallbackQueue_notifyAll P n q |}].

(** function ReactUpdatesFlushTransaction(), through getPooled *)
Definition FlushTransaction_getPooled : M TxId :=
  fun s =>
    let (t, rest) := pop_or_construct (flushPool s) (length (flushTxs s)) in
    (modify (set_flushPool rest) ;;
     q <- CallbackQueue_getPooled VUndefined ;;
     (fun s => if ReactReconcileTransaction s then Ok tt s else Throw TypeError s) ;;
     r <- ReconcileTransaction_getPooled ;;
     modify (fun s => set_flushTxs
               (store t {| dirtyComponentsLength := None;
                           callbackQueue := Some q;
                           reconcileTransaction := Some r |} (flushTxs s)) s) ;;
     emit (EvAcquire KFlushTransaction t) ;;
     ret t) s.

(** destructor, lines 117-123 *)
Definition FlushTransaction_destructor (this : TxId) : M unit :=
  o <- get_flushTx this ;;
  modify (fun s => set_flushTxs
            (list_set this {| dirtyComponentsLength := None;
                              callbackQueue := callbackQueue o;
                              reconcileTransaction := reconcileTransaction o |}
               (flushTxs s)) s) ;;
  match callbackQueue o with
  | Some q => CallbackQueue_release q
  | None => throw TypeError
  end ;;
  modify (fun s => set_flushTxs
            (list_set this {| dirtyComponentsLength := None;
                              callbackQueue := None;
                              reconcileTransaction := reconcileTransaction o |}
               (flushTxs s)) s) ;;
  match reconcileTransaction o with
  | Some r => ReconcileTransaction_release r
  | None => throw TypeError
  end ;;
  modify (fun s => set_flushTxs
            (list_set this {| dirtyComponentsLength := None;
                              callbackQueue := None;
                              reconcileTransaction := None |}
               (flushTxs s)) s).

Definition FlushTransaction_release (t : TxId) : M unit :=
  FlushTransaction_destructor t ;;
  modify (fun s => set_flushPool (t :: flushPool s) s) ;;
  emit (EvRelease KFlushTransaction t).

(** perform, lines 127-138: this transaction's wrappers around
    [this.reconcileTransaction.perform(method, scope, a)]. *)
Definition FlushTransaction_perform (P : Program) (n : nat)
    (flushBatchedUpdates : M unit) (this : TxId) (method : M unit) : M unit :=
  o <- get_flushTx this ;;
  match reconcileTransaction o with
  | None => throw TypeError
  | Some r =>
      Transaction_perform (TRANSACTION_WRAPPERS P n flushBatchedUpdates this)
        (Transaction_perform (RECONCILE_WRAPPERS P n r) method)
  end.

(** ** ReactUpdates.js: runBatchedUpdates, flushBatchedUpdates *)

Definition mountOrderComparator (s : World) (c1 c2 : CompId) : Z :=
  (_mountOrder (components s c1) - _mountOrder (components s c2))%Z.

(** [transaction.callbackQueue.enqueue(callbacks[j], context)] for each j *)
Fixpoint enqueueCallbacks (q : option QueueId) (callbacks : list Callback)
    (context : Value) : M unit :=
  match callbacks with
  | [] => ret tt
  | cb :: rest =>
      match q with
      | Some q' => queue_enqueue q' cb context
      | None => throw TypeError
      end ;;
      enqueueCallbacks q rest context
  end.

(** The body of the loop, lines 203-239, for [component = dirtyComponents[i]].
    ReactFeatureFlags.logTopLevelRenders is off (its default): the
    console timing is not modelled. *)
Definition batchIteration (P : Program) (n : nat) (transaction : TxId)
    (component : CompId) : M unit :=
  callbacks <- get (fun s => _pendingCallbacks (components s component)) ;;
  modify (with_component component (comp_set_pendingCallbacks None)) ;;
  o <- get_flushTx transaction ;;
  g <- get updateBatchNumber ;;
  ReactReconciler_performUpdateIfNecessary P n component (reconcileTransaction o) g ;;
  match callbacks with
  | Some cbs =>
      o' <- get_flushTx transaction ;;
      enqueueCallbacks (callbackQueue o') cbs (VPublic component)
  | None => ret tt
  end.

(** The loop [for (var i = 0; i < len; i++)], with [k] iterations left. *)
Fixpoint batchLoop (P : Program) (n : nat) (transaction : TxId) (i k : nat) : M unit :=
  match k with
  | 0 => ret tt
  | S k' =>
      dirty <- get dirtyComponents ;;
      match nth_error dirty i with
      | None => throw TypeError
      | Some component =>
          batchIteration P n transaction component ;;
          batchLoop P n transaction (S i) k'
      end
  end.

Definition runBatchedUpdates (P : Program) (n : nat) (transaction : TxId) : M unit :=
  o <- get_flushTx transaction ;;
  fun s =>
    match dirtyComponentsLength o with
    | Some len =>
        if Nat.eqb len (length (dirtyComponents s)) then
          (modify (fun s => set_dirtyComponents
                     (array_sort (mountOrderComparator s) (dirtyComponents s)) s) ;;
           modify (fun s => set_updateBatchNumber (updateBatchNumber s + 1) s) ;;
           batchLoop P n transaction 0 len) s
        else
          Throw (InvariantViolation
            "Expected flush transaction's stored dirty-components length to match dirty-components array length.") s
    | None =>
        Throw (InvariantViolation
          "Expected flush transaction's stored dirty-components length to match dirty-components array length.") s
    end.

Definition is_nonempty {A : Type} (l : list A) : bool :=
  match l with [] => false | _ :: _ => true end.

Fixpoint flushBatchedUpdates (P : Program) (n : nat) : M unit :=
  match n with
  | 0 => fun _ => OutOfFuel
  | S n' =>
      fun s =>
        if is_nonempty (dirtyComponents s) || asapEnqueued s then
          ((fun s =>
              if is_nonempty (dirtyComponents s) then
                (transaction <- FlushTransaction_getPooled ;;
                 FlushTransaction_perform P n' (flushBatchedUpdates P n')
                   transaction (runBatchedUpdates P n' transaction) ;;
                 FlushTransaction_release transaction) s
              else Ok tt s) ;;
           (fun s =>
              if asapEnqueued s then
                (modify (set_asapEnqueued false) ;;
                 queue <- get asapCallbackQueue ;;
                 q' <- CallbackQueue_getPooled VUndefined ;;
                 modify (set_asapCallbackQueue q') ;;
                 CallbackQueue_notifyAll P n' queue ;;
                 CallbackQueue_release queue) s
              else Ok tt s) ;;
           flushBatchedUpdates P n') s
        else Ok tt s
  end.

(** batchedUpdates, lines 157-163 *)
Definition batchedUpdates (P : Program) (callback : M unit) : M unit :=
  ensureInjected ;;
  strategy_batchedUpdates P callback.

(** ** Concrete worlds and programs

    Used by the examples, witnesses and counterexamples below. *)

(** Component [c] was mounted [c]-th; nothing pending. *)
Definition fresh_component (c : CompId) : Component :=
  {| _mountOrder := Z.of_nat c; _updateBatchNumber := None;
     _pendingCallbacks := None; _currentElement := NNull; _context := 0 |}.

(** ReactUpdates after module load and injection, inside a batching
    scope: [asapCallbackQueue] is queue 0, nothing is dirty. *)
Definition world0 : World :=
  {| dirtyComponents := []; updateBatchNumber := 0;
     asapCallbackQueue := 0; asapEnqueued := false;
     batchingStrategy := true; isBatchingUpdates := true;
     ReactReconcileTransaction := true;
     components := fresh_component;
     elements := fun _ => {| ref := RefNull; _owner := None |};
     queues := [CallbackQueue_constructor VUndefined];
     flushTxs := []; reconcileTxs := [];
     queuePool := []; flushPool := []; reconcilePool := [];
     log := [] |}.

(** A strategy that only runs the callback (the scope is already open). *)
Definition run_callback : M unit -> M unit := fun callback => callback.

(** Every component update clears its own batch number and does nothing
    else; user functions do nothing. *)
Definition quiet : Program :=
  {| strategy_batchedUpdates := run_callback;
     impl_performUpdateIfNecessary := fun c _ _ => [CClearBatchNumber c];
     impl_receiveComponent := fun c next _ k _ => [CSetCurrentElement c next; CSetContext c k];
     fn_body := fun _ _ _ _ => [] |}.

(** Component 1, when updated, schedules component 2 and registers a
    callback on it; component 3 throws. *)
Definition cascade : Program :=
  {| strategy_batchedUpdates := run_callback;
     impl_performUpdateIfNecessary := fun c _ _ =>
       match c with
       | 1 => [CClearBatchNumber 1; CEnqueueCallback 2 7; CEnqueueUpdate 2]
       | 3 => [CThrow (UserError 3)]
       | _ => [CClearBatchNumber c]
       end;
     impl_receiveComponent := fun c next _ k _ => [CSetCurrentElement c next; CSetContext c k];
     fn_body := fun _ _ _ _ => [] |}.

(** A node kind that leaves _updateBatchNumber as it is. *)
Definition stubborn : Program :=
  {| strategy_batchedUpdates := run_callback;
     impl_performUpdateIfNecessary := fun _ _ _ => [];
     impl_receiveComponent := fun c next _ k _ => [CSetCurrentElement c next; CSetContext c k];
     fn_body := fun _ _ _ _ => [] |}.

(** The final world of an outcome, if it has one. *)
Definition final {A : Type} (r : Result A) : option World :=
  match r with
  | Ok _ s => Some s
  | Throw _ s => Some s
  | OutOfFuel => None
  end.

Definition final_log {A : Type} (r : Result A) : list Event :=
  match final r with Some s => log s | None => [] end.

(** ** Properties of outcomes

    [always R m]: whatever world [m] ends in, by returning or by
    throwing, is [R]-related to the world it started in.
    [on_ok R m]: the same for the worlds [m] returns in. *)
Definition always {A : Type} (R : World -> World -> Prop) (m : M A) : Prop :=
  forall s s', final (m s) = Some s' -> R s s'.

Definition on_ok {A : Type} (R : World -> World -> Prop) (m : M A) : Prop :=
  forall s a s', m s = Ok a s' -> R s s'.

(** ** Vocabulary of the statements *)

(** The class invariant of CallbackQueue: both arrays null, or both
    arrays of one length. *)
Definition well_formed (q : CallbackQueue) : Prop :=
  match _callbacks q, _contexts q with
  | None, None => True
  | Some callbacks, Some contexts => length callbacks = length contexts
  | _, _ => False
  end.

(** [q.enqueue(cb, ctx)] for each item in turn. *)
Fixpoint enqueue_all (items : list (Callback * Value)) (q : CallbackQueue) : CallbackQueue :=
  match items with
  | [] => q
  | (cb, ctx) :: rest => enqueue_all rest (CallbackQueue_enqueue cb ctx q)
  end.

(** The world with the instance at address [i] replaced. *)
Definition put_queue (i : QueueId) (q : CallbackQueue) (s : World) : World :=
  set_queues (list_set i q (queues s)) s.

(** A queue holding two callbacks, then left in world0 as queue 1. *)
Definition two_callbacks : CallbackQueue :=
  enqueue_all [(UserFn 1, VData 10); (UserFn 2, VData 20)]
    (CallbackQueue_constructor (VData 0)).

Definition world_with_queue (q : CallbackQueue) : World :=
  set_queues (queues world0 ++ [q]) world0.

(** Two wrappers and a method that leave their mark in the log;
    [failing] throws instead. *)
Definition mark (n : nat) : M unit := emit (EvRefCall n VNull).

Definition failing (n : nat) : M unit := mark n ;; throw (UserError n).

Definition w1_ok : Wrapper := {| initialize := mark 10; close := mark 11 |}.
Definition w2_ok : Wrapper := {| initialize := mark 20; close := mark 21 |}.
Definition w2_bad_init : Wrapper := {| initialize := failing 20; close := mark 21 |}.
Definition w1_bad_close : Wrapper := {| initialize := mark 10; close := failing 11 |}.

(** ** The atomic effects of running code

    Every world change made while user code runs is one of these. *)
Inductive Atom : Type :=
| AMark (c : CompId)
    (* dirtyComponents.push(c), and c._updateBatchNumber =
       updateBatchNumber + 1 (logged) when it was null *)
| AEnqueue (q : QueueId) (cb : Callback) (ctx : Value)
    (* q.enqueue(cb, ctx), logged *)
| AAsapEnqueued
    (* asapEnqueued = true *)
| APending (c : CompId) (f : FnId)
| AStash (c : CompId)
    (* c._pendingCallbacks = null *)
| AReset (q : QueueId)
    (* q._callbacks = null; q._contexts = null *)
| AClear (c : CompId)
| ASetElement (c : CompId) (e : Node)
| ASetContext (c : CompId) (k : CtxId)
| AEmit (e : Event).

Definition do_atom (a : Atom) (s : World) : World :=
  match a with
  | AMark c =>
      match _updateBatchNumber (components s c) with
      | None =>
          set_log (log s ++ [EvSchedule c (updateBatchNumber s + 1)])
            (with_component c
               (comp_set_updateBatchNumber (Some (updateBatchNumber s + 1)))
               (set_dirtyComponents (dirtyComponents s ++ [c]) s))
      | Some _ => set_dirtyComponents (dirtyComponents s ++ [c]) s
      end
  | AEnqueue q cb ctx =>
      match nth_error (queues s) q with
      | Some this =>
          set_log (log s ++ [EvEnqueue q cb ctx])
            (set_queues (list_set q (CallbackQueue_enqueue cb ctx this) (queues s)) s)
      | None => s
      end
  | AAsapEnqueued => set_asapEnqueued true s
  | APending c f =>
      with_component c
        (comp_set_pendingCallbacks
           (Some (or_empty (_pendingCallbacks (components s c)) ++ [UserFn f]))) s
  | AStash c => with_component c (comp_set_pendingCallbacks None) s
  | AReset q =>
      match nth_error (queues s) q with
      | Some this => set_queues (list_set q (CallbackQueue_reset this) (queues s)) s
      | None => s
      end
  | AClear c => with_component c (comp_set_updateBatchNumber None) s
  | ASetElement c e => with_component c (comp_set_currentElement e) s
  | ASetContext c k => with_component c (comp_set_context k) s
  | AEmit e => set_log (log s ++ [e]) s
  end.

(** When the code performs the atom. *)
Definition atom_enabled (a : Atom) (s : World) : Prop :=
  match a with
  | AEnqueue q _ _ => nth_error (queues s) q <> None
  | _ => True
  end.

(** [steps K s s']: s' is reached from s by enabled atoms of class K. *)
Inductive steps (K : Atom -> Prop) : World -> World -> Prop :=
| steps_refl (s : World) : steps K s s
| steps_atom (a : Atom) (s s' : World) :
    K a -> atom_enabled a s -> steps K (do_atom a s) s' -> steps K s s'.

(** What user code and node kinds do. *)
Definition user_atom (a : Atom) : Prop :=
  match a with
  | AEnqueue _ (UserFn _) _ => True
  | AEnqueue _ AttachRefs _ => False
  | AEmit _ => False
  | AStash _ => False
  | AReset _ => False
  | _ => True
  end.

(** What ReactRef.attachRefs / detachRefs do: the ref call or the
    ReactOwner registration, then the body of the ref function. *)
Definition ref_atom (a : Atom) : Prop :=
  match a with
  | AEmit (EvRefCall _ _) => True
  | AEmit (EvAddRef _ _ _) => True
  | AEmit (EvRemoveRef _ _ _) => True
  | _ => user_atom a
  end.

(** ** Reading the log and the heap *)

(** The calls [cb.call(this, arg)] made by notifyAll, in order. *)
Definition invocations (l : list Event) : list (Callback * Value * Value) :=
  flat_map (fun e => match e with
                     | EvInvoke cb this arg => [(cb, this, arg)]
                     | _ => []
                     end) l.

(** The pairs enqueued on queue [q], in order. *)
Definition enqueued_on (q : QueueId) (l : list Event) : list (Callback * Value) :=
  flat_map (fun e => match e with
                     | EvEnqueue q' cb ctx => if Nat.eqb q' q then [(cb, ctx)] else []
                     | _ => []
                     end) l.

(** The arrays of the queue at address [q] ([] when null). *)
Definition callbacks_of (q : QueueId) (s : World) : list (option Callback) :=
  match nth_error (queues s) q with
  | Some this => or_empty (_callbacks this)
  | None => []
  end.

Definition contexts_of (q : QueueId) (s : World) : list Value :=
  match nth_error (queues s) q with
  | Some this => or_empty (_contexts this)
  | None => []
  end.

(** Between two worlds: the log grew by [new], in which notifyAll made
    no call, and every queue grew by what [new] enqueued on it. *)
Definition queues_follow_log (s s' : World) : Prop :=
  length (queues s') = length (queues s)
  /\ exists new,
       log s' = log s ++ new
       /\ invocations new = []
       /\ forall q,
            callbacks_of q s' = callbacks_of q s ++ map (fun p => Some (fst p)) (enqueued_on q new)
            /\ contexts_of q s' = contexts_of q s ++ map snd (enqueued_on q new).

(** A callback that enqueues another one on queue 1 while it runs. *)
Definition reentrant : Program :=
  {| strategy_batchedUpdates := run_callback;
     impl_performUpdateIfNecessary := fun c _ _ => [CClearBatchNumber c];
     impl_receiveComponent := fun c next _ k _ => [CSetCurrentElement c next; CSetContext c k];
     fn_body := fun f _ _ _ =>
       match f with
       | 1 => [CQueueEnqueue 1 9 (VData 90)]
       | _ => []
       end |}.

(** The calls notifyAll is to make for its two arrays, in index order. *)
Definition scheduled (callbacks : list (option Callback)) (contexts : list Value)
    (arg : Value) : list (option Callback * Value * Value) :=
  map (fun p => (fst p, snd p, arg)) (combine callbacks contexts).

(** The calls the log shows, in the same form. *)
Definition calls (l : list Event) : list (option Callback * Value * Value) :=
  map (fun x => (Some (fst (fst x)), snd (fst x), snd x)) (invocations l).

(** ** Frames *)

(** Events that user code causes: taggings and enqueues of its own functions. *)
Definition user_event (e : Event) : Prop :=
  match e with
  | EvSchedule _ _ => True
  | EvEnqueue _ (UserFn _) _ => True
  | _ => False
  end.

(** ... and those of attaching or detaching a ref. *)
Definition ref_event (e : Event) : Prop :=
  match e with
  | EvRefCall _ _ => True
  | EvAddRef _ _ _ => True
  | EvRemoveRef _ _ _ => True
  | _ => user_event e
  end.

(** What no atom changes, and how the log and the dirty list grow. *)
Record frame (Q : Event -> Prop) (s s' : World) : Prop := {
  fr_isBatchingUpdates : isBatchingUpdates s' = isBatchingUpdates s;
  fr_batchingStrategy : batchingStrategy s' = batchingStrategy s;
  fr_ReactReconcileTransaction : ReactReconcileTransaction s' = ReactReconcileTransaction s;
  fr_updateBatchNumber : updateBatchNumber s' = updateBatchNumber s;
  fr_asapCallbackQueue : asapCallbackQueue s' = asapCallbackQueue s;
  fr_elements : elements s' = elements s;
  fr_flushTxs : flushTxs s' = flushTxs s;
  fr_reconcileTxs : reconcileTxs s' = reconcileTxs s;
  fr_queuePool : queuePool s' = queuePool s;
  fr_flushPool : flushPool s' = flushPool s;
  fr_reconcilePool : reconcilePool s' = reconcilePool s;
  fr_queues : length (queues s') = length (queues s);
  fr_mountOrder : forall c, _mountOrder (components s' c) = _mountOrder (components s c);
  fr_dirty : exists extra, dirtyComponents s' = dirtyComponents s ++ extra;
  fr_log : exists new, log s' = log s ++ new /\ Forall Q new
}.

(** The event logged when a non-null ref is detached. *)
Definition detach_event (c : CompId) (r : Ref) (owner : option CompId) : Event :=
  match r with
  | RefFn f => EvRefCall f VNull
  | _ => EvRemoveRef c r owner
  end.

(** The enqueues of [attachRefs] in a log. *)
Definition attach_enqueues (l : list Event) : list (QueueId * Value) :=
  flat_map (fun e => match e with
                     | EvEnqueue q AttachRefs ctx => [(q, ctx)]
                     | _ => []
                     end) l.

(** The node-kind updates in a log. *)
Definition receives (l : list Event) : list (CompId * Node) :=
  flat_map (fun e => match e with
                     | EvReceive c next => [(c, next)]
                     | _ => []
                     end) l.

(** Component 3 shows element 1, which carries the string ref "a" of
    owner 7. Element 2 has no ref, element 3 the function ref 5 of owner
    7, element 4 the same function ref of owner 8. Reconcile transaction
    0 holds queue 1 as its mount-ready queue. *)
Definition world_refs : World :=
  {| dirtyComponents := []; updateBatchNumber := 0;
     asapCallbackQueue := 0; asapEnqueued := false;
     batchingStrategy := true; isBatchingUpdates := true;
     ReactReconcileTransaction := true;
     components := fun c =>
       {| _mountOrder := Z.of_nat c; _updateBatchNumber := None;
          _pendingCallbacks := None;
          _currentElement := match c with 3 => NElement 1 | _ => NNull end;
          _context := 0 |};
     elements := fun e =>
       match e with
       | 1 => {| ref := RefName "a"; _owner := Some 7 |}
       | 3 => {| ref := RefFn 5; _owner := Some 7 |}
       | 4 => {| ref := RefFn 5; _owner := Some 8 |}
       | _ => {| ref := RefNull; _owner := Some 7 |}
       end;
     queues := [CallbackQueue_constructor VUndefined; CallbackQueue_constructor VNull];
     flushTxs := []; reconcileTxs := [{| reactMountReady := Some 1 |}];
     queuePool := []; flushPool := []; reconcilePool := [];
     log := [] |}.

(** The events an atom logs all satisfy [Q]. *)
Definition atom_events_in (Q : Event -> Prop) (a : Atom) : Prop :=
  match a with
  | AMark c => forall g, Q (EvSchedule c g)
  | AEnqueue q cb ctx => Q (EvEnqueue q cb ctx)
  | AEmit e => Q e
  | _ => True
  end.

(** What one iteration of the flush loop does besides running the node
    kind: the stash, the dispatcher's log entries, the enqueues. *)
Definition loop_atom (a : Atom) : Prop :=
  match a with
  | AStash _ => True
  | AEnqueue _ _ _ => True
  | AEmit (EvPerformUpdate _ _) => True
  | AEmit (EvReconcile _ _) => True
  | AEmit (EvWarning _ _) => True
  | _ => user_atom a
  end.

Definition loop_event (e : Event) : Prop :=
  match e with
  | EvPerformUpdate _ _ => True
  | EvReconcile _ _ => True
  | EvWarning _ _ => True
  | EvEnqueue _ _ _ => True
  | _ => user_event e
  end.

(** ** One iteration of the flush loop, symbolically *)

(** After the dispatcher skipped component [c]: it warned unless the tag
    is null or the next generation. *)
Definition skip_world (c : CompId) (g : nat) (tag : option nat) (sp : World) : World :=
  match tag with
  | Some t => if Nat.eqb t (g + 1) then sp else do_atom (AEmit (EvWarning c g)) sp
  | None => sp
  end.

(** Lines 232-239: the stashed callbacks go to the transaction's queue. *)
Definition enqueue_stashed (o : FlushTransaction) (callbacks : option (list Callback))
    (c : CompId) : M unit :=
  match callbacks with
  | Some cbs => enqueueCallbacks (callbackQueue o) cbs (VPublic c)
  | None => ret tt
  end.

(** The calls of the dispatcher, and its delegations, in a log. *)
Definition performed (l : list Event) : list (CompId * nat) :=
  flat_map (fun e => match e with
                     | EvPerformUpdate c g => [(c, g)]
                     | _ => []
                     end) l.

Definition reconciled (l : list Event) : list (CompId * nat) :=
  flat_map (fun e => match e with
                     | EvReconcile c g => [(c, g)]
                     | _ => []
                     end) l.

(** The taggings made by enqueueUpdate, in a log. *)
Definition scheduled_updates (l : list Event) : list (CompId * nat) :=
  flat_map (fun e => match e with
                     | EvSchedule c g => [(c, g)]
                     | _ => []
                     end) l.

Definition update_eqb (x y : CompId * nat) : bool :=
  Nat.eqb (fst x) (fst y) && Nat.eqb (snd x) (snd y).

(** Reading a log from its start: a tagging is outstanding until the
    component is reconciled in the generation of the tag. *)
Definition record_event (out : list (CompId * nat)) (e : Event) : list (CompId * nat) :=
  match e with
  | EvSchedule c g => out ++ [(c, g)]
  | EvReconcile c g => filter (fun x => negb (update_eqb x (c, g))) out
  | _ => out
  end.

Definition outstanding (l : list Event) : list (CompId * nat) :=
  fold_left record_event l [].

Definition mountOrder_of (s : World) (c : CompId) : Z := _mountOrder (components s c).

(** What one iteration does after the dispatcher was called. *)
Definition post_atom (a : Atom) : Prop :=
  match a with
  | AEnqueue _ _ _ => True
  | AEmit (EvReconcile _ _) => True
  | AEmit (EvWarning _ _) => True
  | _ => user_atom a
  end.

Definition post_event (e : Event) : Prop :=
  match e with
  | EvReconcile _ _ => True
  | EvWarning _ _ => True
  | EvEnqueue _ _ _ => True
  | _ => user_event e
  end.

(** A flush transaction whose initialize has recorded [len]. *)
Definition recorded (len : nat) (q : QueueId) (r : RtxId) : FlushTransaction :=
  {| dirtyComponentsLength := Some len; callbackQueue := Some q;
     reconcileTransaction := Some r |}.

(** Components 5, 2 and 9 were scheduled in that order; transaction 0
    (queue 1, reconcile transaction 0 with queue 2) has recorded 3. *)
Definition world_529 : World :=
  {| dirtyComponents := [5; 2; 9]; updateBatchNumber := 0;
     asapCallbackQueue := 0; asapEnqueued := false;
     batchingStrategy := true; isBatchingUpdates := true;
     ReactReconcileTransaction := true;
     components := fun c =>
       {| _mountOrder := Z.of_nat c; _updateBatchNumber := Some 1;
          _pendingCallbacks := None; _currentElement := NNull; _context := 0 |};
     elements := fun _ => {| ref := RefNull; _owner := None |};
     queues := [CallbackQueue_constructor VUndefined;
                CallbackQueue_constructor VUndefined;
                CallbackQueue_constructor VNull];
     flushTxs := [recorded 3 1 0];
     reconcileTxs := [{| reactMountReady := Some 2 |}];
     queuePool := []; flushPool := []; reconcilePool := [];
     log := [] |}.

(** ** The flush as a whole *)

(** Inside a batching scope: the scope stays open and the log grows by
    events of class [Q]. *)
Definition logs (Q : Event -> Prop) (s s' : World) : Prop :=
  isBatchingUpdates s = true ->
  isBatchingUpdates s' = true
  /\ exists new, log s' = log s ++ new /\ Forall Q new.

(** What notifyAll logs: its calls, and what the callbacks cause. *)
Definition notify_event (e : Event) : Prop :=
  match e with
  | EvInvoke _ _ _ => True
  | _ => ref_event e
  end.

Definition pool_event (e : Event) : Prop :=
  match e with
  | EvAcquire _ _ => True
  | EvRelease _ _ => True
  | _ => False
  end.

Definition no_pool_event (e : Event) : Prop := ~ pool_event e.

Definition poolclass_eqb (a b : PoolClass) : bool :=
  match a, b with
  | KCallbackQueue, KCallbackQueue => true
  | KFlushTransaction, KFlushTransaction => true
  | KReconcileTransaction, KReconcileTransaction => true
  | _, _ => false
  end.

(** The instances of class [k] acquired, and released, in a log. *)
Definition acquired (k : PoolClass) (l : list Event) : list nat :=
  flat_map (fun e => match e with
                     | EvAcquire k' id => if poolclass_eqb k' k then [id] else []
                     | _ => []
                     end) l.

Definition released (k : PoolClass) (l : list Event) : list nat :=
  flat_map (fun e => match e with
                     | EvRelease k' id => if poolclass_eqb k' k then [id] else []
                     | _ => []
                     end) l.

(** Every flush transaction acquired was released, as often as it was
    acquired; as many reconcile transactions and callback queues were
    released as were acquired. *)
Definition balanced (l : list Event) : Prop :=
  Permutation (acquired KFlushTransaction l) (released KFlushTransaction l)
  /\ length (acquired KReconcileTransaction l) = length (released KReconcileTransaction l)
  /\ length (acquired KCallbackQueue l) = length (released KCallbackQueue l).

Definition releases_all (s s' : World) : Prop :=
  isBatchingUpdates s = true ->
  isBatchingUpdates s' = true
  /\ exists new, log s' = log s ++ new /\ balanced new.

(** world0 after the given calls of user code (world0 itself if they fail). *)
Definition after (P : Program) (l : list Cmd) : World :=
  match runCmds P 1 l world0 with
  | Ok _ s => s
  | _ => world0
  end.

(** ** Well-behaved programs *)

Definition no_clear (l : list Cmd) : Prop :=
  forall c, ~ In (CClearBatchNumber c) l.

(** The update of component [c] resets its own batch number somewhere. *)
Definition clears_own (c : CompId) (l : list Cmd) : Prop :=
  exists pre post, l = pre ++ CClearBatchNumber c :: post.

(** ... once, and no other. *)
Definition clears_once (c : CompId) (l : list Cmd) : Prop :=
  exists pre post,
    l = pre ++ CClearBatchNumber c :: post /\ no_clear pre /\ no_clear post.

(** The update throws. *)
Definition raises (l : list Cmd) : Prop := exists e, In (CThrow e) l.

(** A node kind whose update does not throw resets _updateBatchNumber of
    the component it updates, and of no other; user functions never
    touch the field. *)
Record well_behaved (P : Program) : Prop := {
  wb_update : forall c tx w,
      clears_once c (impl_performUpdateIfNecessary P c tx w)
      \/ raises (impl_performUpdateIfNecessary P c tx w);
  wb_function : forall f this arg w, no_clear (fn_body P f this arg w)
}.

(** The atoms a command performs are all of class [K]. *)
Definition cmd_atoms_in (K : Atom -> Prop) (cmd : Cmd) : Prop :=
  match cmd with
  | CEnqueueUpdate c => K (AMark c)
  | CAsap f ctx => (forall q, K (AEnqueue q (UserFn f) ctx)) /\ K AAsapEnqueued
  | CEnqueueCallback c f => K (APending c f)
  | CClearBatchNumber c => K (AClear c)
  | CSetCurrentElement c e => K (ASetElement c e)
  | CSetContext c k => K (ASetContext c k)
  | CQueueEnqueue q f ctx => K (AEnqueue q (UserFn f) ctx)
  | CThrow _ => True
  end.

(** Every atom but the reset of a batch number, and the bare logging of
    a scheduling. *)
Definition calm_atom (a : Atom) : Prop :=
  match a with
  | AClear _ => False
  | AEmit (EvSchedule _ _) => False
  | AEmit (EvReconcile _ _) => False
  | _ => True
  end.

(** ** Invariants of the scheduler *)

Definition tag_of (s : World) (c : CompId) : option nat :=
  _updateBatchNumber (components s c).

(** Between passes, inside a batching scope: every tagged component is
    tagged for the next generation and is in dirtyComponents; every
    outstanding tagging on record is still the tag of its component. *)
Record settled (s : World) : Prop := {
  st_batching : isBatchingUpdates s = true;
  st_tags : forall c t,
      tag_of s c = Some t ->
      t = updateBatchNumber s + 1 /\ In c (dirtyComponents s);
  st_outstanding : forall c t,
      In (c, t) (outstanding (log s)) -> tag_of s c = Some t
}.

(** During a pass over the first [len] entries of dirtyComponents, with
    the entries before index [i] done: a component tagged for the
    running generation is still to come; one tagged for the next
    generation was pushed after the first [len] entries. *)
Record in_pass (len i : nat) (s : World) : Prop := {
  ip_batching : isBatchingUpdates s = true;
  ip_len : len <= length (dirtyComponents s);
  ip_tags : forall c t,
      tag_of s c = Some t ->
      (t = updateBatchNumber s
       /\ In c (skipn i (firstn len (dirtyComponents s))))
      \/ (t = updateBatchNumber s + 1
          /\ In c (skipn len (dirtyComponents s)));
  ip_outstanding : forall c t,
      In (c, t) (outstanding (log s)) -> tag_of s c = Some t
}.

(** Two worlds that agree on what the two invariants read, the second
    with no more taggings outstanding. *)
Record same_schedule (s s' : World) : Prop := {
  ss_batching : isBatchingUpdates s' = isBatchingUpdates s;
  ss_tags : forall c, tag_of s' c = tag_of s c;
  ss_generation : updateBatchNumber s' = updateBatchNumber s;
  ss_dirty : dirtyComponents s' = dirtyComponents s;
  ss_outstanding : forall x, In x (outstanding (log s')) -> In x (outstanding (log s))
}.

(** While the node kind updates component [c], found at index [i], in
    the running generation: [c] still carries the running generation,
    and its tagging is no longer outstanding. *)
Record updating (len i : nat) (c : CompId) (s : World) : Prop := {
  up_pass : in_pass len i s;
  up_tag : tag_of s c = Some (updateBatchNumber s);
  up_index : nth_error (dirtyComponents s) i = Some c;
  up_reconciled : ~ In (c, updateBatchNumber s) (outstanding (log s))
}.

(** The monadic steps [ms] all return, one after the other, from [s] to [s']. *)
Fixpoint chain (ms : list (M unit)) (s s' : World) : Prop :=
  match ms with
  | [] => s' = s
  | m :: rest => exists s1, m s = Ok tt s1 /\ chain rest s1 s'
  end.

Definition enqueue_atom (a : Atom) : Prop :=
  match a with
  | AEnqueue _ _ _ => True
  | _ => False
  end.

(** Every atom but the record of a reconciliation. *)
Definition plain_atom (a : Atom) : Prop :=
  match a with
  | AEmit (EvReconcile _ _) => False
  | _ => True
  end.

Definition plain_event (e : Event) : Prop :=
  match e with
  | EvReconcile _ _ => False
  | _ => True
  end.

(** Inside a batching scope: no component was reconciled twice in one
    generation, and no generation on record is yet to come. *)
Record once (s : World) : Prop := {
  on_batching : isBatchingUpdates s = true;
  on_nodup : NoDup (reconciled (log s));
  on_bound : forall c g, In (c, g) (reconciled (log s)) -> g <= updateBatchNumber s
}.

(** A component reconciled in the running generation no longer carries it. *)
Definition cleared (s : World) (c : CompId) : Prop :=
  In (c, updateBatchNumber s) (reconciled (log s)) ->
  tag_of s c <> Some (updateBatchNumber s).

Definition keeps_once (s s' : World) : Prop := once s -> once s'.

(** ** Callbacks owed *)

Definition value_eqb (a b : Value) : bool :=
  match a, b with
  | VUndefined, VUndefined => true
  | VNull, VNull => true
  | VInternal x, VInternal y => Nat.eqb x y
  | VPublic x, VPublic y => Nat.eqb x y
  | VData x, VData y => Nat.eqb x y
  | _, _ => false
  end.

Definition callback_eqb (a b : Callback) : bool :=
  match a, b with
  | UserFn f, UserFn g => Nat.eqb f g
  | AttachRefs, AttachRefs => true
  | _, _ => false
  end.

Definition notice_eqb (x y : Callback * Value) : bool :=
  callback_eqb (fst x) (fst y) && value_eqb (snd x) (snd y).

(** Reading a log from its start: a callback enqueued with its context
    is owed until notifyAll calls it on that context. *)
Definition note (owed : list (Callback * Value)) (e : Event) : list (Callback * Value) :=
  match e with
  | EvEnqueue _ cb ctx => owed ++ [(cb, ctx)]
  | EvInvoke cb ctx _ => filter (fun x => negb (notice_eqb x (cb, ctx))) owed
  | _ => owed
  end.

Definition unnotified (l : list Event) : list (Callback * Value) :=
  fold_left note l [].

(** The pairs queue [q] holds. *)
Definition entries (q : QueueId) (s : World) : list (option Callback * Value) :=
  combine (callbacks_of q s) (contexts_of q s).

Definition holds (q : QueueId) (s : World) (x : Callback * Value) : Prop :=
  In (Some (fst x), snd x) (entries q s).

Definition queue_ok (q : QueueId) (s : World) : Prop :=
  length (callbacks_of q s) = length (contexts_of q s).

(** User code that registers callbacks through the scheduler only:
    no direct enqueue on a CallbackQueue. *)
Definition no_direct_enqueue_in (l : list Cmd) : Prop :=
  forall q f ctx, ~ In (CQueueEnqueue q f ctx) l.

Record no_direct_enqueue (P : Program) : Prop := {
  nd_update : forall c tx w, no_direct_enqueue_in (impl_performUpdateIfNecessary P c tx w);
  nd_function : forall f this arg w, no_direct_enqueue_in (fn_body P f this arg w)
}.

(** What code that enqueues on the asap queue and on the queues [Qs]
    only, and calls no callback, keeps and changes. *)
Record rel (Qs : list QueueId) (s s' : World) : Prop := {
  r_batching : isBatchingUpdates s' = isBatchingUpdates s;
  r_asap : asapCallbackQueue s' = asapCallbackQueue s;
  r_queuePool : queuePool s' = queuePool s;
  r_flushPool : flushPool s' = flushPool s;
  r_reconcilePool : reconcilePool s' = reconcilePool s;
  r_flushTxs : flushTxs s' = flushTxs s;
  r_reconcileTxs : reconcileTxs s' = reconcileTxs s;
  r_length : length (queues s') = length (queues s);
  r_other : forall q, q <> asapCallbackQueue s -> ~ In q Qs ->
                      nth_error (queues s') q = nth_error (queues s) q;
  r_grow : forall q x, In x (entries q s) -> In x (entries q s');
  r_ok : forall q, queue_ok q s -> queue_ok q s';
  r_flag : asapEnqueued s' = false ->
           asapEnqueued s = false
           /\ entries (asapCallbackQueue s) s' = entries (asapCallbackQueue s) s;
  r_owed : forall x, In x (unnotified (log s')) ->
                     In x (unnotified (log s))
                     \/ holds (asapCallbackQueue s) s' x
                     \/ exists q, In q Qs /\ holds q s' x
}.

(** ... inside a batching scope, with every queue well formed. *)
Definition brel (Qs : list QueueId) (s s' : World) : Prop :=
  isBatchingUpdates s = true -> (forall q, queue_ok q s) ->
  ~ In (asapCallbackQueue s) Qs -> rel Qs s s'.

(** What [q0.notifyAll()] keeps and changes when it returns: [q0] is
    left empty ... *)
Record notified (q0 : QueueId) (s s' : World) : Prop := {
  n_batching : isBatchingUpdates s' = isBatchingUpdates s;
  n_asap : asapCallbackQueue s' = asapCallbackQueue s;
  n_queuePool : queuePool s' = queuePool s;
  n_flushPool : flushPool s' = flushPool s;
  n_reconcilePool : reconcilePool s' = reconcilePool s;
  n_flushTxs : flushTxs s' = flushTxs s;
  n_reconcileTxs : reconcileTxs s' = reconcileTxs s;
  n_length : length (queues s') = length (queues s);
  n_other : forall q, q <> asapCallbackQueue s -> q <> q0 ->
                      nth_error (queues s') q = nth_error (queues s) q;
  n_empty : entries q0 s' = [];
  n_grow : forall x, In x (entries (asapCallbackQueue s) s) ->
                     In x (entries (asapCallbackQueue s) s');
  n_ok : forall q, queue_ok q s';
  n_flag : asapEnqueued s' = false ->
           asapEnqueued s = false
           /\ entries (asapCallbackQueue s) s' = entries (asapCallbackQueue s) s
}.

(** ... and what it held is no longer owed. *)
Definition called (q0 : QueueId) (s s' : World) : Prop :=
  forall x, In x (unnotified (log s')) ->
            (In x (unnotified (log s)) /\ ~ holds q0 s x)
            \/ holds (asapCallbackQueue s) s' x.

(** ... for the loop of a flush transaction [tx] whose callback queue
    is [q]. *)
Definition lrel (tx : TxId) (q : QueueId) (s s' : World) : Prop :=
  (forall o, nth_error (flushTxs s) tx = Some o -> callbackQueue o = Some q) ->
  brel [q] s s'.

(** ** The heaps and their pools *)

(** Instance [id] of a heap is allocated and not in the pool. *)
Definition live {A : Type} (heap : list A) (pool : list nat) (id : nat) : Prop :=
  id < length heap /\ ~ In id pool.

Definition pool_ok {A : Type} (heap : list A) (pool : list nat) : Prop :=
  NoDup pool /\ forall id, In id pool -> id < length heap.

(** The pools hold distinct allocated instances, the asap queue is not
    among them and is empty unless asapEnqueued is set, and every queue
    has as many contexts as callbacks. *)
Record heap_ok (s : World) : Prop := {
  ho_queues : forall q, queue_ok q s;
  ho_queuePool : pool_ok (queues s) (queuePool s);
  ho_flushPool : pool_ok (flushTxs s) (flushPool s);
  ho_reconcilePool : pool_ok (reconcileTxs s) (reconcilePool s);
  ho_asap : live (queues s) (queuePool s) (asapCallbackQueue s);
  ho_flag : asapEnqueued s = false -> entries (asapCallbackQueue s) s = []
}.

(** From [s] to [s']: the live instances of [s], but the asap queue,
    the queues [Xq], the flush transactions [Xt] and the reconcile
    transactions [Xr], are live and unchanged in [s']. *)
Record guards_but (Xq : list QueueId) (Xt : list TxId) (Xr : list RtxId)
    (s s' : World) : Prop := {
  g_queues : forall q,
      live (queues s) (queuePool s) q -> q <> asapCallbackQueue s -> ~ In q Xq ->
      live (queues s') (queuePool s') q /\ q <> asapCallbackQueue s'
      /\ nth_error (queues s') q = nth_error (queues s) q;
  g_flushTxs : forall t,
      live (flushTxs s) (flushPool s) t -> ~ In t Xt ->
      live (flushTxs s') (flushPool s') t
      /\ nth_error (flushTxs s') t = nth_error (flushTxs s) t;
  g_reconcileTxs : forall r,
      live (reconcileTxs s) (reconcilePool s) r -> ~ In r Xr ->
      live (reconcileTxs s') (reconcilePool s') r
      /\ nth_error (reconcileTxs s') r = nth_error (reconcileTxs s) r
}.

(** Flush transaction [tx] is live and owns the callback queue [q] and
    the reconcile transaction [r], which owns the queue [qr]. *)
Record owns (tx : TxId) (q : QueueId) (r : RtxId) (qr : QueueId) (s : World) : Prop := {
  ow_tx : exists o, nth_error (flushTxs s) tx = Some o
                    /\ callbackQueue o = Some q /\ reconcileTransaction o = Some r;
  ow_tx_live : ~ In tx (flushPool s);
  ow_r : nth_error (reconcileTxs s) r = Some {| reactMountReady := Some qr |};
  ow_r_live : ~ In r (reconcilePool s);
  ow_q : live (queues s) (queuePool s) q;
  ow_qr : live (queues s) (queuePool s) qr;
  ow_distinct : q <> qr /\ q <> asapCallbackQueue s /\ qr <> asapCallbackQueue s
}.

(** What is owed is owed by the pairs [O] or held by the asap queue. *)
Definition owed_in (O : list (Callback * Value)) (s : World) : Prop :=
  forall x, In x (unnotified (log s)) -> In x O \/ holds (asapCallbackQueue s) s x.

(** What the pools leave alone. *)
Record housekeeping (s s' : World) : Prop := {
  hk_batching : isBatchingUpdates s' = isBatchingUpdates s;
  hk_injected : ReactReconcileTransaction s' = ReactReconcileTransaction s;
  hk_asap : asapCallbackQueue s' = asapCallbackQueue s;
  hk_asapEnqueued : asapEnqueued s' = asapEnqueued s;
  hk_owed : unnotified (log s') = unnotified (log s)
}.

(** Inside a batching scope, with the heaps in order, flush transaction
    [tx] is running. *)
Record session (tx : TxId) (q : QueueId) (r : RtxId) (qr : QueueId) (s : World) : Prop := {
  se_batching : isBatchingUpdates s = true;
  se_heap : heap_ok s;
  se_owns : owns tx q r qr s
}.

(** The pairs with a callback among the entries of a queue. *)
Definition pairs_of (l : list (option Callback * Value)) : list (Callback * Value) :=
  flat_map (fun e => match fst e with
                     | Some cb => [(cb, snd e)]
                     | None => []
                     end) l.

(** What is owed is owed by the pairs [O], or held by the asap queue
    or by queue [q]. *)
Definition owed_with (O : list (Callback * Value)) (q : QueueId) (s : World) : Prop :=
  forall x, In x (unnotified (log s)) ->
            In x O \/ holds (asapCallbackQueue s) s x \/ holds q s x.

(** What the induction on the fuel of flushBatchedUpdates gives: inside a
    batching scope and with the heaps in order, when what is owed is
    owed by the pairs [O] or held by the asap queue, a flush that
    returns leaves owed only what the pairs [O] owe. *)
Definition flush_spec (P : Program) (n : nat) : Prop :=
  forall O s s',
    isBatchingUpdates s = true -> heap_ok s -> owed_in O s ->
    flushBatchedUpdates P n s = Ok tt s' ->
    isBatchingUpdates s' = true /\ heap_ok s' /\ guards_but [] [] [] s s'
    /\ forall x, In x (unnotified (log s')) -> In x O.

(** What a callback does once it was called. *)
Definition callback_body (P : Program) (n : nat) (cb : Callback) (this arg : Value)
    : M unit :=
  match cb with
  | UserFn f => fun s => runCmds P n (fn_body P f this arg s) s
  | AttachRefs =>
      match this with
      | VInternal c =>
          fun s => ReactRef_attachRefs P n c (_currentElement (components s c)) s
      | _ => throw TypeError
      end
  end.

(** * More of the code: the remaining entry points and their callers

    The rest of CallbackQueue's interface as a client drives it, the
    injection of ReactUpdates, the mount and unmount entry points of
    ReactReconciler, and [firstDifferenceIndex] of ReactMount. *)

(** ** CallbackQueue.js: a client's calls on one instance *)

Inductive QueueOp : Type :=
| QEnqueue (callback : Callback) (context : Value)   (* q.enqueue(callback, context) *)
| QRollback (len : nat)                              (* q.rollback(len) *)
| QReset                                             (* q.reset() *)
| QDestructor.                                       (* q.destructor() *)

Definition apply_op (op : QueueOp) (q : CallbackQueue) : CallbackQueue :=
  match op with
  | QEnqueue callback context => CallbackQueue_enqueue callback context q
  | QRollback len => CallbackQueue_rollback len q
  | QReset => CallbackQueue_reset q
  | QDestructor => CallbackQueue_destructor q
  end.

Definition apply_ops (ops : list QueueOp) (q : CallbackQueue) : CallbackQueue :=
  fold_left (fun this op => apply_op op this) ops q.

(** ** ReactUpdates.js: injection, lines 303-327 *)

Definition set_ReactReconcileTransaction (v : bool) (s : World) : World :=
  {| dirtyComponents := dirtyComponents s; updateBatchNumber := updateBatchNumber s;
     asapCallbackQueue := asapCallbackQueue s; asapEnqueued := asapEnqueued s;
     batchingStrategy := batchingStrategy s; isBatchingUpdates := isBatchingUpdates s;
     ReactReconcileTransaction := v;
     components := components s; elements := elements s; queues := queues s;
     flushTxs := flushTxs s; reconcileTxs := reconcileTxs s;
     queuePool := queuePool s; flushPool := flushPool s;
     reconcilePool := reconcilePool s; log := log s |}.

(** [batchingStrategy = strategy], for a strategy object whose
    [isBatchingUpdates] field holds [b]. *)
Definition set_batchingStrategy (b : bool) (s : World) : World :=
  {| dirtyComponents := dirtyComponents s; updateBatchNumber := updateBatchNumber s;
     asapCallbackQueue := asapCallbackQueue s; asapEnqueued := asapEnqueued s;
     batchingStrategy := true; isBatchingUpdates := b;
     ReactReconcileTransaction := ReactReconcileTransaction s;
     components := components s; elements := elements s; queues := queues s;
     flushTxs := flushTxs s; reconcileTxs := reconcileTxs s;
     queuePool := queuePool s; flushPool := flushPool s;
     reconcilePool := reconcilePool s; log := log s |}.

(** What injectBatchingStrategy reads off a truthy argument. *)
Record StrategyObject : Type := {
  (* typeof _batchingStrategy.batchedUpdates === 'function' *)
  batchedUpdates_is_function : bool;
  (* the boolean in _batchingStrategy.isBatchingUpdates, if it is one *)
  isBatchingUpdates_field : option bool
}.

(** The argument is a class, or a falsy value ([false]). *)
Definition injectReconcileTransaction (ReconcileTransaction : bool) : M unit :=
  fun s =>
    if ReconcileTransaction then Ok tt (set_ReactReconcileTransaction true s)
    else Throw (InvariantViolation
      "ReactUpdates: must provide a reconcile transaction class") s.

(** The argument is an object, or a falsy value ([None]). *)
Definition injectBatchingStrategy (_batchingStrategy : option StrategyObject) : M unit :=
  fun s =>
    match _batchingStrategy with
    | None =>
        Throw (InvariantViolation "ReactUpdates: must provide a batching strategy") s
    | Some o =>
        if negb (batchedUpdates_is_function o) then
          Throw (InvariantViolation
            "ReactUpdates: must provide a batchedUpdates() function") s
        else
          match isBatchingUpdates_field o with
          | None =>
              Throw (InvariantViolation
                "ReactUpdates: must provide an isBatchingUpdates boolean attribute") s
          | Some b => Ok tt (set_batchingStrategy b s)
          end
    end.

(** ReactUpdates as the module leaves it when loaded, before injection. *)
Definition world_loaded : World :=
  {| dirtyComponents := []; updateBatchNumber := 0;
     asapCallbackQueue := 0; asapEnqueued := false;
     batchingStrategy := false; isBatchingUpdates := false;
     ReactReconcileTransaction := false;
     components := fresh_component;
     elements := fun _ => {| ref := RefNull; _owner := None |};
     queues := [CallbackQueue_constructor VUndefined];
     flushTxs := []; reconcileTxs := [];
     queuePool := []; flushPool := []; reconcilePool := [];
     log := [] |}.

(** ** ReactReconciler: mountComponent, unmountComponent *)

Definition Markup := string.

(** The node kind's side of mounting and unmounting: the scheduler
    calls each method makes, chosen from the world it is run in, and the
    markup mountComponent returns. *)
Record Lifecycle : Type := {
  (* internalInstance.mountComponent(transaction, hostParent,
       hostContainerInfo, context, parentDebugID) *)
  impl_mountComponent :
    CompId -> RtxId -> option CompId -> nat -> CtxId -> nat -> World -> list Cmd * Markup;
  (* internalInstance.unmountComponent(safely) *)
  impl_unmountComponent : CompId -> bool -> World -> list Cmd
}.

Definition ReactReconciler_mountComponent (L : Lifecycle) (P : Program) (n : nat)
    (internalInstance : CompId) (transaction : RtxId) (hostParent : option CompId)
    (hostContainerInfo : nat) (context : CtxId) (parentDebugID : nat) : M Markup :=
  fun s =>
    let (cmds, markup) :=
      impl_mountComponent L internalInstance transaction hostParent
        hostContainerInfo context parentDebugID s in
    (runCmds P n cmds ;;
     (fun s1 =>
        if has_ref (elements s1) (_currentElement (components s1 internalInstance))
        then (q <- getReactMountReady transaction ;;
              queue_enqueue q AttachRefs (VInternal internalInstance)) s1
        else Ok tt s1) ;;
     ret markup) s.

Definition ReactReconciler_unmountComponent (L : Lifecycle) (P : Program) (n : nat)
    (internalInstance : CompId) (safely : bool) : M unit :=
  (fun s => ReactRef_detachRefs P n internalInstance
              (_currentElement (components s internalInstance)) s) ;;
  (fun s1 => runCmds P n (impl_unmountComponent L internalInstance safely s1) s1).

(** ** ReactMount.js: firstDifferenceIndex, lines 62-70 *)

(** [string.charAt(i)]: the empty string out of range. *)
Definition charAt (s : string) (i : nat) : string :=
  match String.get i s with
  | Some c => String c EmptyString
  | None => EmptyString
  end.

(** The loop [for (; i < minLen; i++)] with [k] iterations left: the
    index it returns at, if it does. *)
Fixpoint firstDifferenceIndex_loop (string1 string2 : string) (i k : nat) : option nat :=
  match k with
  | 0 => None
  | S k' =>
      if negb (String.eqb (charAt string1 i) (charAt string2 i)) then Some i
      else firstDifferenceIndex_loop string1 string2 (S i) k'
  end.

Definition firstDifferenceIndex (string1 string2 : string) : Z :=
  let minLen := Nat.min (String.length string1) (String.length string2) in
  match firstDifferenceIndex_loop string1 string2 0 minLen with
  | Some i => Z.of_nat i
  | None =>
      if Nat.eqb (String.length string1) (String.length string2) then (-1)%Z
      else Z.of_nat minLen
  end.

(** ** Vocabulary of the statements about them *)

(** The invariant the entry points check. *)
Definition must_inject : Error :=
  InvariantViolation
    "ReactUpdates: must inject a reconcile transaction class and batching strategy".

(** Inside a batching scope: the scope stays open and the generation
    counter does not go back. *)
Definition generation_grows (s s' : World) : Prop :=
  isBatchingUpdates s = true ->
  isBatchingUpdates s' = true /\ updateBatchNumber s <= updateBatchNumber s'.

Definition any_atom (a : Atom) : Prop := True.

(** The warnings of the dispatcher in a log. *)
Definition warnings (l : list Event) : list (CompId * nat) :=
  flat_map (fun e => match e with EvWarning c g => [(c, g)] | _ => [] end) l.

Definition no_warning (e : Event) : Prop :=
  match e with
  | EvWarning _ _ => False
  | _ => True
  end.

(** Every atom but the record of a warning. *)
Definition hush_atom (a : Atom) : Prop :=
  match a with
  | AEmit (EvWarning _ _) => False
  | _ => True
  end.

(** What ReactRef does to refs, in a log: the calls of function refs
    and the registrations with ReactOwner. *)
Definition ref_events (l : list Event) : list Event :=
  flat_map (fun e => match e with
                     | EvRefCall _ _ => [e]
                     | EvAddRef _ _ _ => [e]
                     | EvRemoveRef _ _ _ => [e]
                     | _ => []
                     end) l.

(** The event logged when a non-null ref is attached. *)
Definition attach_event (c : CompId) (r : Ref) (owner : option CompId) : Event :=
  match r with
  | RefFn f => EvRefCall f (VPublic c)
  | _ => EvAddRef c r owner
  end.

(** Code that does not replace the element of component [c]. *)
Definition keeps_element (c : CompId) (l : list Cmd) : Prop :=
  forall e, ~ In (CSetCurrentElement c e) l.

(** What such code does, and the record of a call of a user function. *)
Definition callback_atom (c : CompId) (a : Atom) : Prop :=
  match a with
  | AEmit (EvInvoke (UserFn _) _ _) => True
  | ASetElement c' _ => c' <> c
  | _ => user_atom a
  end.

(** Events that are neither the call of a ref nor the enqueue of attachRefs. *)
Definition callback_event (e : Event) : Prop :=
  match e with
  | EvInvoke (UserFn _) _ _ => True
  | _ => user_event e
  end.

Definition is_user (cb : option Callback) : Prop := exists g, cb = Some (UserFn g).

(** Queue [q] is well formed and holds user functions only. *)
Definition user_queue (q : QueueId) (s : World) : Prop :=
  exists this,
    nth_error (queues s) q = Some this
    /\ well_formed this
    /\ Forall is_user (or_empty (_callbacks this)).

(** A node kind whose mountComponent and unmountComponent call nothing back. *)
Definition plain_kind : Lifecycle :=
  {| impl_mountComponent := fun _ _ _ _ _ _ _ => ([], "<div></div>"%string);
     impl_unmountComponent := fun _ _ _ => [] |}.

(** [world_refs] with component 4 constructed for element 3 (function ref 5). *)
Definition world_mount : World :=
  with_component 4 (comp_set_currentElement (NElement 3)) world_refs.

(** The world a run returns in ([d] if it does not return). *)
Definition returned {A : Type} (r : Result A) (d : World) : World :=
  match r with
  | Ok _ w => w
  | _ => d
  end.

(** The functions a run of commands pushes on [c._pendingCallbacks]. *)
Definition registered (c : CompId) (l : list Cmd) : list Callback :=
  flat_map (fun cmd => match cmd with
                       | CEnqueueCallback c' f => if Nat.eqb c' c then [UserFn f] else []
                       | _ => []
                       end) l.

(** [pending.push(cb)] for each, the array created when null. *)
Definition push_all (pending : option (list Callback)) (cbs : list Callback)
    : option (list Callback) :=
  match cbs with
  | [] => pending
  | _ => Some (or_empty pending ++ cbs)
  end.

(** Every component, when updated, clears its batch number and
    registers callback 7 on itself. *)
Definition reregister : Program :=
  {| strategy_batchedUpdates := run_callback;
     impl_performUpdateIfNecessary := fun c _ _ => [CClearBatchNumber c; CEnqueueCallback c 7];
     impl_receiveComponent := fun c next _ k _ => [CSetCurrentElement c next; CSetContext c k];
     fn_body := fun _ _ _ _ => [] |}.

(** Every atom but the enqueue of attachRefs. *)
Definition not_attach (a : Atom) : Prop :=
  match a with
  | AEnqueue _ AttachRefs _ => False
  | _ => True
  end.

(** ** What the scheduler never does *)

(** Every reconciliation in a log comes after a scheduling of the same
    component for the same generation. *)
Definition justified (l : list Event) : Prop :=
  forall l1 l2 c g, l = l1 ++ EvReconcile c g :: l2 -> In (EvSchedule c g) l1.

(** Inside a batching scope: the batch number a component carries was
    given to it by a scheduling on record, and so was the generation of
    every reconciliation on record. *)
Record sound (s : World) : Prop := {
  so_batching : isBatchingUpdates s = true;
  so_tags : forall c t, tag_of s c = Some t -> In (EvSchedule c t) (log s);
  so_justified : justified (log s)
}.

Definition keeps_sound (s s' : World) : Prop := sound s -> sound s'.

(** * Reasoning about outcomes *)

Ltac unfold_monad := unfold bind, ret, throw, get, modify, emit in *.

(** From [Hrun : run = r], where [run] is closed: the value of [f r], by
    evaluating [f run]. *)
Ltac by_evaluation Hrun f :=
  let H := fresh in
  pose proof (f_equal f Hrun) as H; vm_compute in H; symmetry; exact H.

Section Always.
Variable R : World -> World -> Prop.
Hypothesis R_refl : forall s, R s s.
Hypothesis R_trans : forall a b c, R a b -> R b c -> R a c.

Lemma always_ret {A : Type} (a : A) : always R (ret a).
Proof. intros s s' H. inversion H. subst. apply R_refl. Qed.

Lemma always_throw {A : Type} (e : Error) : always R (@throw A e).
Proof. intros s s' H. inversion H. subst. apply R_refl. Qed.

Lemma always_get {A : Type} (f : World -> A) : always R (get f).
Proof. intros s s' H. inversion H. subst. apply R_refl. Qed.

Lemma always_modify (f : World -> World) :
  (forall s, R s (f s)) -> always R (modify f).
Proof. intros Hf s s' H. inversion H. subst. apply Hf. Qed.

Lemma always_bind {A B : Type} (m : M A) (k : A -> M B) :
  always R m -> (forall a, always R (k a)) -> always R (bind m k).
Proof.
  intros Hm Hk s s' H. unfold bind in H.
  specialize (Hm s). destruct (m s) as [a s1 | e s1 | ]; simpl in *.
  - eapply R_trans; [apply Hm; reflexivity | eapply Hk; eassumption].
  - inversion H. subst. apply Hm. reflexivity.
  - discriminate.
Qed.

(** A computation that first inspects the world. *)
Lemma always_read {A : Type} (f : World -> M A) :
  (forall s0, always R (f s0)) -> always R (fun s => f s s).
Proof. intros Hf s s' H. eapply Hf. eassumption. Qed.

Lemma always_initializeAll (ws : list Wrapper) :
  (forall w, In w ws -> always R (initialize w)) ->
  forall s, (forall w, In w (fst (initializeAll ws s)) -> In w ws)
            /\ (forall s', final (snd (initializeAll ws s)) = Some s' -> R s s').
Proof.
  induction ws as [| w rest IH]; intros Hws s; simpl.
  - split; [tauto | intros s' H; inversion H; subst; apply R_refl].
  - assert (Hw : always R (initialize w)) by (apply Hws; left; reflexivity).
    specialize (Hw s).
    destruct (initialize w s) as [[] s1 | e s1 | ]; simpl in *.
    + destruct (IH (fun w' H => Hws w' (or_intror H)) s1) as [Hin Hr].
      destruct (initializeAll rest s1) as [done r]; simpl in *. split.
      * intros w' [-> | H']; [left; reflexivity | right; apply Hin, H'].
      * intros s' H. eapply R_trans; [apply Hw; reflexivity | apply Hr, H].
    + split; [tauto | intros s' H; inversion H; subst; apply Hw; reflexivity].
    + split; [tauto | discriminate].
Qed.

Lemma always_closeAll (ws : list Wrapper) :
  (forall w, In w ws -> always R (close w)) ->
  forall first s s', final (closeAll ws first s) = Some s' -> R s s'.
Proof.
  induction ws as [| w rest IH]; intros Hws first s s' H; simpl in H.
  - destruct first; inversion H; subst; apply R_refl.
  - assert (Hw : always R (close w)) by (apply Hws; left; reflexivity).
    specialize (Hw s).
    destruct (close w s) as [[] s1 | e s1 | ]; simpl in *; try discriminate.
    + eapply R_trans; [apply Hw; reflexivity |].
      eapply IH; [intros w' H'; apply Hws; right; exact H' | exact H].
    + eapply R_trans; [apply Hw; reflexivity |].
      eapply IH; [intros w' H'; apply Hws; right; exact H' | exact H].
Qed.

Lemma always_perform (ws : list Wrapper) (method : M unit) :
  (forall w, In w ws -> always R (initialize w) /\ always R (close w)) ->
  always R method ->
  always R (Transaction_perform ws method).
Proof.
  intros Hws Hm s s' H. unfold Transaction_perform in H.
  destruct (always_initializeAll ws (fun w Hw => proj1 (Hws w Hw)) s) as [Hin Hr].
  destruct (initializeAll ws s) as [done r]; simpl in *.
  assert (Hc : forall w, In w done -> always R (close w))
    by (intros w Hw; apply Hws, Hin, Hw).
  destruct r as [[] s1 | e s1 | ]; try discriminate.
  - specialize (Hm s1).
    destruct (method s1) as [[] s2 | e s2 | ]; simpl in *; try discriminate.
    + eapply R_trans; [apply Hr; reflexivity |].
      eapply R_trans; [apply Hm; reflexivity |].
      eapply always_closeAll; eassumption.
    + eapply R_trans; [apply Hr; reflexivity |].
      eapply R_trans; [apply Hm; reflexivity |].
      eapply always_closeAll; eassumption.
  - eapply R_trans; [apply Hr; reflexivity |].
    eapply always_closeAll; eassumption.
Qed.

(** The same for the returning outcomes only. *)

Lemma on_ok_ret {A : Type} (a : A) : on_ok R (ret a).
Proof. intros s a' s' H. inversion H. subst. apply R_refl. Qed.

Lemma on_ok_throw {A : Type} (e : Error) : on_ok R (@throw A e).
Proof. intros s a' s' H. inversion H. Qed.

Lemma on_ok_get {A : Type} (f : World -> A) : on_ok R (get f).
Proof. intros s a' s' H. inversion H. subst. apply R_refl. Qed.

Lemma on_ok_modify (f : World -> World) :
  (forall s, R s (f s)) -> on_ok R (modify f).
Proof. intros Hf s a' s' H. inversion H. subst. apply Hf. Qed.

Lemma on_ok_bind {A B : Type} (m : M A) (k : A -> M B) :
  on_ok R m -> (forall a, on_ok R (k a)) -> on_ok R (bind m k).
Proof.
  intros Hm Hk s b s' H. unfold bind in H.
  specialize (Hm s). destruct (m s) as [a s1 | e s1 | ]; try discriminate.
  eapply R_trans; [eapply Hm; reflexivity | eapply Hk; eassumption].
Qed.

Lemma on_ok_read {A : Type} (f : World -> M A) :
  (forall s0, on_ok R (f s0)) -> on_ok R (fun s => f s s).
Proof. intros Hf s a s' H. eapply Hf. eassumption. Qed.

Lemma always_on_ok {A : Type} (m : M A) : always R m -> on_ok R m.
Proof. intros Hm s a s' H. apply Hm. rewrite H. reflexivity. Qed.

Lemma on_ok_initializeAll (ws : list Wrapper) :
  (forall w, In w ws -> on_ok R (initialize w)) ->
  forall s s', snd (initializeAll ws s) = Ok tt s' ->
               fst (initializeAll ws s) = ws /\ R s s'.
Proof.
  induction ws as [| w rest IH]; intros Hws s s' H; simpl in *.
  - inversion H. subst. split; [reflexivity | apply R_refl].
  - assert (Hw : on_ok R (initialize w)) by (apply Hws; left; reflexivity).
    specialize (Hw s).
    destruct (initialize w s) as [[] s1 | e s1 | ]; simpl in *; try discriminate.
    specialize (IH (fun w' H' => Hws w' (or_intror H')) s1 s').
    destruct (initializeAll rest s1) as [done r]; simpl in *.
    destruct (IH H) as [-> Hr]. split; [reflexivity |].
    eapply R_trans; [eapply Hw; reflexivity | exact Hr].
Qed.

Lemma closeAll_error (ws : list Wrapper) (e : Error) (s : World) (s' : World) :
  closeAll ws (Some e) s <> Ok tt s'.
Proof.
  revert e s. induction ws as [| w rest IH]; intros e s; simpl.
  - discriminate.
  - destruct (close w s) as [[] s1 | e1 s1 | ]; try discriminate; apply IH.
Qed.

Lemma on_ok_closeAll (ws : list Wrapper) :
  (forall w, In w ws -> on_ok R (close w)) ->
  forall first s s', closeAll ws first s = Ok tt s' -> R s s'.
Proof.
  induction ws as [| w rest IH]; intros Hws first s s' H; simpl in H.
  - destruct first; inversion H; subst; apply R_refl.
  - assert (Hw : on_ok R (close w)) by (apply Hws; left; reflexivity).
    specialize (Hw s).
    destruct (close w s) as [[] s1 | e s1 | ]; try discriminate.
    + eapply R_trans; [eapply Hw; reflexivity |].
      eapply IH; [intros w' H'; apply Hws; right; exact H' | exact H].
    + exfalso. eapply closeAll_error. exact H.
Qed.

Lemma on_ok_perform (ws : list Wrapper) (method : M unit) :
  (forall w, In w ws -> on_ok R (initialize w) /\ on_ok R (close w)) ->
  on_ok R method ->
  on_ok R (Transaction_perform ws method).
Proof.
  intros Hws Hm s [] s' H. unfold Transaction_perform in H.
  pose proof (on_ok_initializeAll ws (fun w Hw => proj1 (Hws w Hw)) s) as Hi.
  destruct (initializeAll ws s) as [done r]; simpl in *.
  destruct r as [[] s1 | e s1 | ]; try discriminate.
  - destruct (Hi s1 eq_refl) as [-> Hr].
    specialize (Hm s1).
    destruct (method s1) as [[] s2 | e s2 | ]; try discriminate.
    + eapply R_trans; [exact Hr |].
      eapply R_trans; [eapply Hm; reflexivity |].
      eapply on_ok_closeAll; [intros w Hw; apply Hws, Hw | exact H].
    + exfalso. eapply closeAll_error. exact H.
  - exfalso. eapply closeAll_error. exact H.
Qed.
End Always.

(** * Arrays and heaps *)

Lemma count_occ_snoc (l : list nat) (c : nat) :
  count_occ Nat.eq_dec (l ++ [c]) c = S (count_occ Nat.eq_dec l c).
Proof.
  rewrite count_occ_app. simpl.
  destruct (Nat.eq_dec c c) as [_ | Hne]; [lia | contradiction].
Qed.

Lemma upd_same {A : Type} (f : nat -> A) (k : nat) (v : A) : upd f k v k = v.
Proof. unfold upd. rewrite Nat.eqb_refl. reflexivity. Qed.

Lemma upd_other {A : Type} (f : nat -> A) (k k' : nat) (v : A) :
  k' <> k -> upd f k v k' = f k'.
Proof. intros H. unfold upd. apply Nat.eqb_neq in H. rewrite H. reflexivity. Qed.

Lemma list_set_same {A : Type} (l : list A) (i : nat) (x : A) :
  nth_error l i = Some x -> list_set i x l = l.
Proof.
  revert i. induction l as [| h t IH]; intros [| j] H; simpl in *;
    try discriminate; try reflexivity.
  - inversion H. reflexivity.
  - rewrite IH; [reflexivity | exact H].
Qed.

Lemma list_set_twice {A : Type} (l : list A) (i : nat) (x y : A) :
  list_set i x (list_set i y l) = list_set i x l.
Proof.
  revert i. induction l as [| h t IH]; intros [| j]; simpl; try reflexivity.
  rewrite IH. reflexivity.
Qed.

Lemma length_list_set {A : Type} (l : list A) (i : nat) (x : A) :
  length (list_set i x l) = length l.
Proof.
  revert i. induction l as [| h t IH]; intros [| j]; simpl; try reflexivity.
  rewrite IH. reflexivity.
Qed.

Lemma nth_error_list_set_eq {A : Type} (l : list A) (i : nat) (x : A) :
  i < length l -> nth_error (list_set i x l) i = Some x.
Proof.
  revert i. induction l as [| h t IH]; intros [| j] H; simpl in *; try lia.
  - reflexivity.
  - apply IH. lia.
Qed.

Lemma nth_error_list_set_neq {A : Type} (l : list A) (i j : nat) (x : A) :
  i <> j -> nth_error (list_set i x l) j = nth_error l j.
Proof.
  revert i j. induction l as [| h t IH]; intros [| i] [| j] H; simpl;
    try reflexivity; try contradiction.
  apply IH. lia.
Qed.

Lemma set_queues_self (s : World) : set_queues (queues s) s = s.
Proof. destruct s. reflexivity. Qed.

Lemma put_queue_same (i : QueueId) (q : CallbackQueue) (s : World) :
  nth_error (queues s) i = Some q -> put_queue i q s = s.
Proof.
  intros H. unfold put_queue. rewrite list_set_same by exact H.
  apply set_queues_self.
Qed.

Lemma set_length_prefix {A : Type} (hole : A) (l extra : list A) :
  set_length hole (length l) (l ++ extra) = l.
Proof.
  unfold set_length. rewrite firstn_app, firstn_all, Nat.sub_diag. simpl.
  rewrite length_app.
  replace (length l - (length l + length extra)) with 0 by lia.
  simpl. rewrite !app_nil_r. reflexivity.
Qed.


(** ** Array.prototype.sort *)

Lemma sort_insert_perm {A : Type} (cmp : A -> A -> Z) (x : A) (l : list A) :
  Permutation (sort_insert cmp x l) (x :: l).
Proof.
  induction l as [| y t IH]; simpl.
  - apply Permutation_refl.
  - destruct (cmp x y <=? 0)%Z.
    + apply Permutation_refl.
    + eapply perm_trans; [apply perm_skip, IH | apply perm_swap].
Qed.

Lemma array_sort_perm {A : Type} (cmp : A -> A -> Z) (l : list A) :
  Permutation (array_sort cmp l) l.
Proof.
  induction l as [| x t IH]; simpl.
  - apply perm_nil.
  - eapply perm_trans; [apply sort_insert_perm | apply perm_skip, IH].
Qed.

Section SortByKey.
Variable A : Type.
Variable key : A -> Z.

Definition by_key (a b : A) : Z := (key a - key b)%Z.
Definition key_le (a b : A) : Prop := (key a <= key b)%Z.

Lemma sort_insert_sorted (x : A) (l : list A) :
  StronglySorted key_le l -> StronglySorted key_le (sort_insert by_key x l).
Proof.
  induction 1 as [| y t Ht IH Hy]; simpl.
  - repeat constructor.
  - unfold by_key at 1. destruct (key x - key y <=? 0)%Z eqn:E.
    + apply Z.leb_le in E. constructor; [constructor; assumption |].
      constructor; [unfold key_le; lia |].
      eapply Forall_impl; [| exact Hy]. unfold key_le. intros a Ha. lia.
    + apply Z.leb_gt in E. constructor; [exact IH |].
      eapply Permutation_Forall; [apply Permutation_sym, sort_insert_perm |].
      constructor; [unfold key_le; lia | exact Hy].
Qed.

Lemma array_sort_sorted (l : list A) :
  StronglySorted key_le (array_sort by_key l).
Proof.
  induction l as [| x t IH]; simpl.
  - constructor.
  - apply sort_insert_sorted, IH.
Qed.

(** Sorted by key with pairwise distinct keys: strictly ascending keys. *)
Lemma sorted_distinct_strict (l : list A) :
  StronglySorted key_le l -> NoDup (map key l) ->
  StronglySorted Z.lt (map key l).
Proof.
  induction 1 as [| y t Ht IH Hy]; simpl; intros Hnd.
  - constructor.
  - inversion Hnd as [| k ks Hnotin Hnd']. subst.
    constructor; [apply IH, Hnd' |].
    apply Forall_forall. intros k Hk. apply in_map_iff in Hk.
    destruct Hk as [a [<- Ha]].
    rewrite Forall_forall in Hy. specialize (Hy a Ha). unfold key_le in Hy.
    assert (key y <> key a) by (intros Heq; apply Hnotin; rewrite Heq; apply in_map, Ha).
    lia.
Qed.
End SortByKey.

Lemma In_firstn {A : Type} (j : nat) (l : list A) (x : A) :
  In x (firstn j l) -> In x l.
Proof.
  intros H. rewrite <- (firstn_skipn j l). apply in_or_app. left. exact H.
Qed.

Lemma StronglySorted_firstn {A : Type} (R : A -> A -> Prop) (j : nat) (l : list A) :
  StronglySorted R l -> StronglySorted R (firstn j l).
Proof.
  intros H. revert j. induction H as [| x t Ht IH Hx]; intros [| j]; simpl;
    try constructor.
  - apply IH.
  - apply Forall_forall. intros y Hy. rewrite Forall_forall in Hx.
    apply Hx. eapply In_firstn; eassumption.
Qed.

(** * What running user code can do *)

Lemma steps_trans (K : Atom -> Prop) (s1 s2 s3 : World) :
  steps K s1 s2 -> steps K s2 s3 -> steps K s1 s3.
Proof.
  induction 1 as [| a s s' Ha Hen _ IH]; intros H23; [exact H23 |].
  eapply steps_atom; eauto.
Qed.

Lemma steps_one (K : Atom -> Prop) (a : Atom) (s : World) :
  K a -> atom_enabled a s -> steps K s (do_atom a s).
Proof. intros Ha Hen. eapply steps_atom; eauto using steps_refl. Qed.

Lemma steps_weaken (K K' : Atom -> Prop) (s s' : World) :
  (forall a, K a -> K' a) -> steps K s s' -> steps K' s s'.
Proof.
  intros HK. induction 1 as [| a s s' Ha Hen _ IH]; [apply steps_refl |].
  eapply steps_atom; eauto.
Qed.

(** An invariant kept by every enabled atom is kept by the steps. *)
Lemma steps_invariant (K : Atom -> Prop) (I : World -> Prop) :
  (forall a s, K a -> atom_enabled a s -> I s -> I (do_atom a s)) ->
  forall s s', steps K s s' -> I s -> I s'.
Proof.
  intros HI s s' H. induction H as [| a s s' Ha Hen _ IH]; intros Hs; eauto.
Qed.

(** A reflexive, transitive relation that holds of every enabled atom
    holds of the steps. *)
Lemma steps_relation (K : Atom -> Prop) (R : World -> World -> Prop) :
  (forall s, R s s) ->
  (forall a b c, R a b -> R b c -> R a c) ->
  (forall a s, K a -> atom_enabled a s -> R s (do_atom a s)) ->
  forall s s', steps K s s' -> R s s'.
Proof.
  intros Hrefl Htrans HR s s' H.
  induction H as [| a s s' Ha Hen _ IH]; eauto.
Qed.

Lemma do_atom_isBatchingUpdates (a : Atom) (s : World) :
  isBatchingUpdates (do_atom a s) = isBatchingUpdates s.
Proof.
  destruct a; simpl; try reflexivity;
    try (destruct (_updateBatchNumber (components s c)); reflexivity);
    destruct (nth_error (queues s) q); reflexivity.
Qed.

Lemma steps_isBatchingUpdates (K : Atom -> Prop) (s s' : World) :
  steps K s s' -> isBatchingUpdates s' = isBatchingUpdates s.
Proof.
  induction 1 as [| a s s' _ _ _ IH]; [reflexivity |].
  rewrite IH. apply do_atom_isBatchingUpdates.
Qed.

(** [steps] as a relation on outcomes, inside a batching scope. *)
Definition batching_steps (K : Atom -> Prop) (s s' : World) : Prop :=
  isBatchingUpdates s = true -> steps K s s'.

Lemma batching_steps_refl (K : Atom -> Prop) (s : World) : batching_steps K s s.
Proof. intros _. apply steps_refl. Qed.

Lemma batching_steps_trans (K : Atom -> Prop) (a b c : World) :
  batching_steps K a b -> batching_steps K b c -> batching_steps K a c.
Proof.
  intros Hab Hbc Ha. specialize (Hab Ha).
  eapply steps_trans; [exact Hab |]. apply Hbc.
  rewrite (steps_isBatchingUpdates Hab). exact Ha.
Qed.

Lemma batching_steps_weaken (K K' : Atom -> Prop) (s s' : World) :
  (forall a, K a -> K' a) -> batching_steps K s s' -> batching_steps K' s s'.
Proof. intros HK H Hs. eapply steps_weaken; eauto. Qed.

Lemma always_weaken {A : Type} (R R' : World -> World -> Prop) (m : M A) :
  (forall s s', R s s' -> R' s s') -> always R m -> always R' m.
Proof. intros HR Hm s s' H. apply HR, Hm, H. Qed.

Ltac steps_bind :=
  apply always_bind; [apply batching_steps_trans | | intros ?].

Lemma always_emit (K : Atom -> Prop) (e : Event) :
  K (AEmit e) -> always (batching_steps K) (emit e).
Proof.
  intros HK s s' H. inversion H. subst. intros _.
  apply (steps_one K (AEmit e) s HK I).
Qed.

Lemma always_queue_enqueue (K : Atom -> Prop) (q : QueueId) (cb : Callback) (ctx : Value) :
  K (AEnqueue q cb ctx) -> always (batching_steps K) (queue_enqueue q cb ctx).
Proof.
  intros HK s s' H _. unfold queue_enqueue, bind, with_queue, emit, modify in H.
  destruct (nth_error (queues s) q) as [this |] eqn:Hq; simpl in H;
    inversion H; subst; [| apply steps_refl].
  pose proof (steps_one K (AEnqueue q cb ctx) s HK) as Hs. simpl in Hs.
  rewrite Hq in Hs. apply Hs. discriminate.
Qed.

Lemma always_markDirty (K : Atom -> Prop) (c : CompId) :
  K (AMark c) -> always (batching_steps K) (markDirty c).
Proof.
  intros HK s s' H _. unfold markDirty, bind, modify in H. simpl in H.
  pose proof (steps_one K (AMark c) s HK I) as Hs. simpl in Hs.
  destruct (_updateBatchNumber (components s c)) eqn:Htag; simpl in H.
  - inversion H. subst. exact Hs.
  - unfold emit, modify in H. simpl in H. inversion H. subst. exact Hs.
Qed.

Lemma always_enqueueUpdate (P : Program) (K : Atom -> Prop) (n : nat) (c : CompId) :
  K (AMark c) -> always (batching_steps K) (enqueueUpdate P n c).
Proof.
  intros HK s s' H Hb. destruct n as [| n']; simpl in H; [discriminate |].
  unfold bind, ensureInjected in H.
  destruct (ReactReconcileTransaction s && batchingStrategy s); simpl in H.
  - rewrite Hb in H. simpl in H. eapply always_markDirty; eauto.
  - inversion H. subst. apply steps_refl.
Qed.

Lemma always_asap (K : Atom -> Prop) (cb : Callback) (ctx : Value) :
  (forall q, K (AEnqueue q cb ctx)) -> K AAsapEnqueued ->
  always (batching_steps K) (asap cb ctx).
Proof.
  intros HE HA s s' H Hb. unfold asap in H.
  destruct (batchingStrategy s); simpl in H;
    [| inversion H; subst; apply steps_refl].
  rewrite Hb in H. simpl in H.
  assert (Hall : always (batching_steps K)
            (queue_enqueue (asapCallbackQueue s) cb ctx ;;
             modify (set_asapEnqueued true))).
  { steps_bind.
    - apply always_queue_enqueue. apply HE.
    - apply always_modify. intros s0 _.
      apply (steps_one K AAsapEnqueued s0 HA I). }
  exact (Hall s s' H Hb).
Qed.

Lemma always_runCmd_in (P : Program) (K : Atom -> Prop) (n : nat) (cmd : Cmd) :
  cmd_atoms_in K cmd -> always (batching_steps K) (runCmd P n cmd).
Proof.
  destruct cmd; simpl; intros HK.
  - apply always_enqueueUpdate. exact HK.
  - apply always_asap; [intros q; apply HK | apply HK].
  - apply always_modify. intros s _. apply (steps_one K (APending c f) s HK I).
  - apply always_modify. intros s _. apply (steps_one K (AClear c) s HK I).
  - apply always_modify. intros s _. apply (steps_one K (ASetElement c e) s HK I).
  - apply always_modify. intros s _. apply (steps_one K (ASetContext c k) s HK I).
  - apply always_queue_enqueue. exact HK.
  - apply always_throw. apply batching_steps_refl.
Qed.

Lemma always_runCmds_in (P : Program) (K : Atom -> Prop) (n : nat) (l : list Cmd) :
  Forall (cmd_atoms_in K) l -> always (batching_steps K) (runCmds P n l).
Proof.
  induction 1 as [| cmd rest Hcmd _ IH]; simpl.
  - apply always_ret. apply batching_steps_refl.
  - steps_bind; [apply always_runCmd_in; exact Hcmd | exact IH].
Qed.

Lemma cmd_atoms_user (cmd : Cmd) : cmd_atoms_in user_atom cmd.
Proof. destruct cmd; simpl; auto. Qed.

Lemma always_runCmds (P : Program) (n : nat) (l : list Cmd) :
  always (batching_steps user_atom) (runCmds P n l).
Proof.
  apply always_runCmds_in. apply Forall_forall. intros cmd _. apply cmd_atoms_user.
Qed.

(** Without a reset of a batch number in the list, no such atom. *)
Lemma cmd_atoms_calm (l : list Cmd) :
  no_clear l -> Forall (cmd_atoms_in (fun a => user_atom a /\ calm_atom a)) l.
Proof.
  intros Hl. apply Forall_forall. intros cmd Hin.
  destruct cmd; simpl; auto. exfalso. exact (Hl c Hin).
Qed.

Lemma user_atom_ref_atom (a : Atom) : user_atom a -> ref_atom a.
Proof. destruct a; simpl; tauto. Qed.


(** * The frame of user code *)

Lemma frame_refl (Q : Event -> Prop) (s : World) : frame Q s s.
Proof.
  constructor; try reflexivity.
  - exists []. rewrite app_nil_r. reflexivity.
  - exists []. rewrite app_nil_r. split; [reflexivity | constructor].
Qed.

Lemma frame_trans (Q : Event -> Prop) (a b c : World) :
  frame Q a b -> frame Q b c -> frame Q a c.
Proof.
  intros H1 H2.
  destruct (fr_dirty H1) as [e1 Hd1]. destruct (fr_dirty H2) as [e2 Hd2].
  destruct (fr_log H1) as [n1 [Hl1 F1]]. destruct (fr_log H2) as [n2 [Hl2 F2]].
  pose proof (fr_mountOrder H1) as Hm1. pose proof (fr_mountOrder H2) as Hm2.
  destruct H1, H2. constructor; try congruence.
  - exists (e1 ++ e2). rewrite Hd2, Hd1, app_assoc. reflexivity.
  - exists (n1 ++ n2). rewrite Hl2, Hl1, app_assoc.
    split; [reflexivity | apply Forall_app; split; assumption].
Qed.

Lemma frame_weaken (Q Q' : Event -> Prop) (s s' : World) :
  (forall e, Q e -> Q' e) -> frame Q s s' -> frame Q' s s'.
Proof.
  intros HQ H. destruct (fr_log H) as [new [Hl F]].
  destruct H. constructor; try assumption.
  exists new. split; [exact Hl |]. eapply Forall_impl; eassumption.
Qed.

Ltac frame_nil := exists []; rewrite app_nil_r; first [reflexivity | split; [reflexivity | constructor]].

Lemma mountOrder_upd (s : World) (c c0 : CompId) (o : Component) :
  _mountOrder o = _mountOrder (components s c) ->
  _mountOrder (upd (components s) c o c0) = _mountOrder (components s c0).
Proof.
  intros H. unfold upd. destruct (Nat.eqb c0 c) eqn:E; [| reflexivity].
  apply Nat.eqb_eq in E. subst. exact H.
Qed.

Lemma frame_atom (Q : Event -> Prop) (a : Atom) (s : World) :
  atom_events_in Q a -> frame Q s (do_atom a s).
Proof.
  intros Ha.
  destruct a; simpl in *;
    try (destruct (nth_error (queues s) q); [| apply frame_refl]);
    try (destruct (_updateBatchNumber (components s c)));
    constructor; try reflexivity; simpl;
    try (intros c0; apply mountOrder_upd; reflexivity);
    try apply length_list_set;
    try frame_nil;
    try (eexists; reflexivity);
    try (eexists; split; [reflexivity |]; constructor; [| constructor]; auto).
Qed.

Lemma steps_frame (K : Atom -> Prop) (Q : Event -> Prop) (s s' : World) :
  (forall a, K a -> atom_events_in Q a) ->
  steps K s s' -> frame Q s s'.
Proof.
  intros HK. apply steps_relation.
  - apply frame_refl.
  - apply frame_trans.
  - intros a s0 Ha _. apply frame_atom, HK, Ha.
Qed.

Lemma user_atom_events (a : Atom) : user_atom a -> atom_events_in user_event a.
Proof.
  destruct a; simpl; try tauto;
    try (destruct cb; simpl; tauto); try (destruct e; simpl; tauto).
Qed.

Lemma ref_atom_events (a : Atom) : ref_atom a -> atom_events_in ref_event a.
Proof.
  destruct a; simpl; try tauto;
    try (destruct cb; simpl; tauto); try (destruct e; simpl; tauto).
Qed.

Lemma loop_atom_events (a : Atom) : loop_atom a -> atom_events_in loop_event a.
Proof.
  destruct a; simpl; try tauto;
    try (destruct cb; simpl; tauto); try (destruct e; simpl; tauto).
Qed.

Lemma user_atom_loop_atom (a : Atom) : user_atom a -> loop_atom a.
Proof.
  destruct a; simpl; try tauto;
    try (destruct cb; simpl; tauto); try (destruct e; simpl; tauto).
Qed.

Lemma steps_user_frame (s s' : World) :
  steps user_atom s s' -> frame user_event s s'.
Proof. apply steps_frame, user_atom_events. Qed.

Lemma steps_ref_frame (s s' : World) :
  steps ref_atom s s' -> frame ref_event s s'.
Proof. apply steps_frame, ref_atom_events. Qed.

Lemma steps_loop_frame (s s' : World) :
  steps loop_atom s s' -> frame loop_event s s'.
Proof. apply steps_frame, loop_atom_events. Qed.

Lemma atom_events_in_weaken (Q Q' : Event -> Prop) (a : Atom) :
  (forall e, Q e -> Q' e) -> atom_events_in Q a -> atom_events_in Q' a.
Proof. intros HQ. destruct a; simpl; auto. Qed.

(** * enqueueUpdate *)

(** C10. Inside a batching scope (collaborators injected),
    enqueueUpdate(c) returns, having appended c to dirtyComponents
    whether or not c was already there (its number of occurrences grows
    by one); it writes c._updateBatchNumber = updateBatchNumber + 1 only
    when that field was null, and when the field held a generation the
    whole component heap is left as it was, so the first tag wins. The
    generation counter is not touched. *)
Theorem enqueueUpdate_appends_first_tag_wins
    (P : Program) (n : nat) (c : CompId) (s : World)
    (Hrt : ReactReconcileTransaction s = true)
    (Hbs : batchingStrategy s = true)
    (Hb : isBatchingUpdates s = true) :
  exists s',
    enqueueUpdate P (S n) c s = Ok tt s'
    /\ dirtyComponents s' = dirtyComponents s ++ [c]
    /\ count_occ Nat.eq_dec (dirtyComponents s') c
       = S (count_occ Nat.eq_dec (dirtyComponents s) c)
    /\ (_updateBatchNumber (components s c) = None ->
        _updateBatchNumber (components s' c) = Some (updateBatchNumber s + 1))
    /\ (forall g, _updateBatchNumber (components s c) = Some g ->
        components s' = components s)
    /\ (forall c', c' <> c -> components s' c' = components s c')
    /\ updateBatchNumber s' = updateBatchNumber s.
Proof.
  simpl. unfold bind, ensureInjected. rewrite Hrt, Hbs. simpl. rewrite Hb. simpl.
  unfold markDirty, bind, modify. simpl.
  destruct (_updateBatchNumber (components s c)) as [g |] eqn:Htag.
  - eexists. split; [reflexivity |]. simpl.
    repeat split; auto using count_occ_snoc. discriminate.
  - unfold emit, modify, with_component. simpl.
    eexists. split; [reflexivity |]. simpl.
    repeat split; auto using count_occ_snoc.
    + intros _. rewrite upd_same. reflexivity.
    + discriminate.
    + intros c' Hc'. apply upd_other. exact Hc'.
Qed.

(** Scheduling component 4 twice in world0: two entries, tagged once. *)
Lemma enqueueUpdate_appends_first_tag_wins_witness :
  ReactReconcileTransaction world0 = true
  /\ batchingStrategy world0 = true
  /\ isBatchingUpdates world0 = true
  /\ exists s', enqueueUpdate quiet 1 4 world0 = Ok tt s'
                /\ dirtyComponents s' = dirtyComponents world0 ++ [4].
Proof.
  split; [reflexivity |]. split; [reflexivity |]. split; [reflexivity |].
  destruct (enqueueUpdate_appends_first_tag_wins quiet 0 4 world0
              eq_refl eq_refl eq_refl) as [s' [H1 [H2 _]]].
  exists s'. split; assumption.
Defined.

Example enqueue_twice :
  match runCmds quiet 1 [CEnqueueUpdate 4; CEnqueueUpdate 4] world0 with
  | Ok _ s => dirtyComponents s = [4; 4]
              /\ _updateBatchNumber (components s 4) = Some 1
  | _ => False
  end.
Proof. simpl. split; reflexivity. Qed.

(** Outside a batching scope the call is handed to the strategy. *)
Lemma enqueueUpdate_not_batching (P : Program) (n : nat) (c : CompId) (s : World) :
  ReactReconcileTransaction s = true -> batchingStrategy s = true ->
  isBatchingUpdates s = false ->
  enqueueUpdate P (S n) c s = strategy_batchedUpdates P (enqueueUpdate P n c) s.
Proof.
  intros Hrt Hbs Hb. simpl. unfold bind, ensureInjected.
  rewrite Hrt, Hbs. simpl. rewrite Hb. reflexivity.
Qed.

(** * ReactReconciler.receiveComponent: the identity bypass *)

Lemma node_eqb_refl (a : Node) : node_eqb a a = true.
Proof.
  destruct a; simpl; auto using String.eqb_refl, Z.eqb_refl, Nat.eqb_refl.
Qed.

Lemma node_eqb_eq (a b : Node) : node_eqb a b = true <-> a = b.
Proof.
  split; [| intros ->; apply node_eqb_refl].
  destruct a, b; simpl; try discriminate; try reflexivity; intros H.
  - apply String.eqb_eq in H. congruence.
  - apply Z.eqb_eq in H. congruence.
  - apply Nat.eqb_eq in H. congruence.
Qed.

(** C8. When nextElement is the instance's _currentElement and context
    is its _context, ReactReconciler.receiveComponent returns at once in
    the world it was called in: no ref is detached or attached, the node
    kind is not called, nothing is logged, and the instance and the
    scheduler state are unchanged. This holds for every program and
    whatever the fuel. *)
Theorem receiveComponent_identity_bypass
    (P : Program) (n : nat) (c : CompId) (nextElement : Node)
    (transaction : RtxId) (context : CtxId) (s : World)
    (Helem : nextElement = _currentElement (components s c))
    (Hctx : context = _context (components s c)) :
  ReactReconciler_receiveComponent P n c nextElement transaction context s = Ok tt s.
Proof.
  unfold ReactReconciler_receiveComponent. subst.
  rewrite node_eqb_refl, Nat.eqb_refl. reflexivity.
Qed.

Lemma receiveComponent_identity_bypass_witness :
  NNull = _currentElement (components world0 3)
  /\ 0 = _context (components world0 3)
  /\ ReactReconciler_receiveComponent cascade 0 3 NNull 0 0 world0 = Ok tt world0.
Proof.
  split; [reflexivity |]. split; [reflexivity |].
  apply receiveComponent_identity_bypass; reflexivity.
Defined.

(** * CallbackQueue: checkpoint and rollback *)

(** What a run of enqueue calls leaves in the two arrays. *)
Lemma enqueue_all_arrays (items : list (Callback * Value)) (q : CallbackQueue) :
  items <> [] ->
  enqueue_all items q =
    {| _callbacks := Some (or_empty (_callbacks q) ++ map (fun p => Some (fst p)) items);
       _contexts := Some (or_empty (_contexts q) ++ map snd items);
       _arg := _arg q |}.
Proof.
  revert q. induction items as [| [cb ctx] rest IH]; intros q Hne.
  - contradiction.
  - simpl. destruct rest as [| p rest'].
    + reflexivity.
    + rewrite IH by discriminate. simpl. rewrite <- !app_assoc. reflexivity.
Qed.

Lemma rollback_enqueue_all (q : CallbackQueue) (items : list (Callback * Value)) :
  well_formed q ->
  CallbackQueue_rollback (CallbackQueue_checkpoint q) (enqueue_all items q) =
    match _callbacks q, items with
    | None, _ :: _ => {| _callbacks := Some []; _contexts := Some []; _arg := _arg q |}
    | _, _ => q
    end.
Proof.
  intros Hwf. destruct items as [| p rest].
  - simpl. destruct q as [[cbs |] [ctxs |] arg]; simpl in *; try contradiction.
    + unfold CallbackQueue_rollback, CallbackQueue_checkpoint. simpl.
      rewrite <- (app_nil_r cbs) at 2. rewrite set_length_prefix.
      rewrite Hwf. rewrite <- (app_nil_r ctxs) at 2. rewrite set_length_prefix.
      reflexivity.
    + reflexivity.
  - rewrite enqueue_all_arrays by discriminate.
    destruct q as [[cbs |] [ctxs |] arg]; simpl in *; try contradiction.
    + unfold CallbackQueue_rollback, CallbackQueue_checkpoint. simpl.
      rewrite (set_length_prefix None cbs).
      rewrite Hwf. rewrite (set_length_prefix VUndefined ctxs). reflexivity.
    + reflexivity.
Qed.

(** C7. For every well-formed queue state q (both arrays null, or
    arrays of one length), every list of items: with n = q.checkpoint(),
    the queue q' reached by enqueueing the items and calling rollback(n)
    has checkpoint n again, is well formed, is q itself when q held
    arrays, and in every world notifyAll on q' has the very outcome
    notifyAll has on q: the same callbacks are invoked, in the same
    order, with the same contexts, reaching the same world. *)
Theorem checkpoint_rollback_restores
    (q : CallbackQueue) (items : list (Callback * Value))
    (Hwf : well_formed q) :
  let n := CallbackQueue_checkpoint q in
  let q' := CallbackQueue_rollback n (enqueue_all items q) in
  CallbackQueue_checkpoint q' = n
  /\ well_formed q'
  /\ (_callbacks q <> None -> q' = q)
  /\ forall (P : Program) (fuel : nat) (i : QueueId) (s : World),
       nth_error (queues s) i = Some q ->
       CallbackQueue_notifyAll P fuel i (put_queue i q' s)
       = CallbackQueue_notifyAll P fuel i s.
Proof.
  intros n q'. subst n q'. rewrite rollback_enqueue_all by exact Hwf.
  destruct q as [[cbs |] [ctxs |] arg] eqn:Hq; simpl in Hwf; try contradiction.
  - simpl. repeat split; try assumption.
    intros P fuel i s Hi. rewrite put_queue_same by exact Hi. reflexivity.
  - destruct items as [| p rest]; simpl.
    + repeat split; try congruence.
      intros P fuel i s Hi. rewrite put_queue_same by exact Hi. reflexivity.
    + repeat split; try congruence.
      intros P fuel i s Hi.
      assert (Hlt : i < length (queues s))
        by (apply nth_error_Some; rewrite Hi; discriminate).
      unfold CallbackQueue_notifyAll, put_queue. simpl.
      rewrite nth_error_list_set_eq by exact Hlt. rewrite Hi. simpl.
      unfold bind, with_queue, ret. simpl.
      rewrite nth_error_list_set_eq by exact Hlt. simpl.
      rewrite list_set_twice.
      rewrite list_set_same by exact Hi.
      destruct s. reflexivity.
Qed.

(** checkpoint, three enqueues, rollback: the queue of two callbacks is back. *)
Lemma checkpoint_rollback_restores_witness :
  well_formed two_callbacks
  /\ CallbackQueue_rollback (CallbackQueue_checkpoint two_callbacks)
       (enqueue_all [(UserFn 3, VData 30); (UserFn 4, VData 40); (AttachRefs, VInternal 5)]
          two_callbacks)
     = two_callbacks.
Proof.
  split; [reflexivity |].
  apply (checkpoint_rollback_restores two_callbacks
           [(UserFn 3, VData 30); (UserFn 4, VData 40); (AttachRefs, VInternal 5)]
           eq_refl).
  discriminate.
Defined.

(** Without the class invariant the statement fails: a queue with
    callbacks but null contexts gains contexts. *)
Example rollback_needs_well_formed :
  let q := {| _callbacks := Some [Some (UserFn 1)]; _contexts := None; _arg := VNull |} in
  CallbackQueue_rollback (CallbackQueue_checkpoint q)
    (enqueue_all [(UserFn 2, VData 2)] q) <> q.
Proof. simpl. discriminate. Qed.

(** * Transaction.perform *)

Lemma final_cases {A : Type} (r : Result A) (s : World) :
  final r = Some s -> (exists a, r = Ok a s) \/ (exists e, r = Throw e s).
Proof.
  destruct r as [a s0 | e s0 |]; simpl; intros H; inversion H; subst; eauto.
Qed.

(** C4. For a transaction with wrappers [w1, w2], from any world s:
    (a) if w1.initialize returns and w2.initialize throws e, perform
        throws e, in the world w1.close (returning or throwing) leaves
        when run right after the failed initialize: w1.close has run,
        method and w2.close have not;
    (b) if both initialize and method throws e, perform throws e in the
        world reached by running w1.close and then w2.close, each
        whether it returns or throws;
    (c) if method returns and w1.close throws e, w2.close still runs and
        perform throws e;
    (d) if only w2.close throws, perform throws that error;
    (e) if nothing throws, perform returns after both closes. *)
Theorem perform_closes_initialized_wrappers
    (w1 w2 : Wrapper) (method : M unit) (s : World) :
  (forall s1 e s2 s3,
      initialize w1 s = Ok tt s1 ->
      initialize w2 s1 = Throw e s2 ->
      final (close w1 s2) = Some s3 ->
      Transaction_perform [w1; w2] method s = Throw e s3)
  /\ (forall s1 s2 e s3 s4 s5,
      initialize w1 s = Ok tt s1 ->
      initialize w2 s1 = Ok tt s2 ->
      method s2 = Throw e s3 ->
      final (close w1 s3) = Some s4 ->
      final (close w2 s4) = Some s5 ->
      Transaction_perform [w1; w2] method s = Throw e s5)
  /\ (forall s1 s2 s3 e s4 s5,
      initialize w1 s = Ok tt s1 ->
      initialize w2 s1 = Ok tt s2 ->
      method s2 = Ok tt s3 ->
      close w1 s3 = Throw e s4 ->
      final (close w2 s4) = Some s5 ->
      Transaction_perform [w1; w2] method s = Throw e s5)
  /\ (forall s1 s2 s3 s4 e s5,
      initialize w1 s = Ok tt s1 ->
      initialize w2 s1 = Ok tt s2 ->
      method s2 = Ok tt s3 ->
      close w1 s3 = Ok tt s4 ->
      close w2 s4 = Throw e s5 ->
      Transaction_perform [w1; w2] method s = Throw e s5)
  /\ (forall s1 s2 s3 s4 s5,
      initialize w1 s = Ok tt s1 ->
      initialize w2 s1 = Ok tt s2 ->
      method s2 = Ok tt s3 ->
      close w1 s3 = Ok tt s4 ->
      close w2 s4 = Ok tt s5 ->
      Transaction_perform [w1; w2] method s = Ok tt s5).
Proof.
  unfold Transaction_perform. simpl. repeat split.
  - intros s1 e s2 s3 H1 H2 Hc. rewrite H1, H2. simpl.
    destruct (final_cases _ Hc) as [[[] ->] | [e' ->]]; reflexivity.
  - intros s1 s2 e s3 s4 s5 H1 H2 Hm Hc1 Hc2. rewrite H1, H2; simpl; rewrite Hm; simpl.
    destruct (final_cases _ Hc1) as [[[] ->] | [e1 ->]];
      destruct (final_cases _ Hc2) as [[[] ->] | [e2 ->]]; reflexivity.
  - intros s1 s2 s3 e s4 s5 H1 H2 Hm Hc1 Hc2. rewrite H1, H2; simpl; rewrite Hm; simpl; rewrite Hc1; simpl.
    destruct (final_cases _ Hc2) as [[[] ->] | [e2 ->]]; reflexivity.
  - intros s1 s2 s3 s4 e s5 H1 H2 Hm Hc1 Hc2.
    rewrite H1, H2; simpl; rewrite Hm; simpl; rewrite Hc1; simpl; rewrite Hc2.
    reflexivity.
  - intros s1 s2 s3 s4 s5 H1 H2 Hm Hc1 Hc2.
    rewrite H1, H2; simpl; rewrite Hm; simpl; rewrite Hc1; simpl; rewrite Hc2.
    reflexivity.
Qed.

(** w2.initialize throws: the log shows w1.initialize, the failed
    w2.initialize, then w1.close, and neither method (30) nor w2.close (21). *)
Lemma perform_closes_initialized_wrappers_witness :
  exists s3,
    Transaction_perform [w1_ok; w2_bad_init] (mark 30) world0 = Throw (UserError 20) s3
    /\ log s3 = [EvRefCall 10 VNull; EvRefCall 20 VNull; EvRefCall 11 VNull].
Proof.
  eexists. split.
  - eapply (proj1 (perform_closes_initialized_wrappers w1_ok w2_bad_init
                     (mark 30) world0)); reflexivity.
  - reflexivity.
Defined.

(** method throws: both closes run, the method's error comes out. *)
Example perform_method_throws :
  match Transaction_perform [w1_ok; w2_ok] (failing 30) world0 with
  | Throw e s =>
      e = UserError 30
      /\ log s = [EvRefCall 10 VNull; EvRefCall 20 VNull; EvRefCall 30 VNull;
                  EvRefCall 11 VNull; EvRefCall 21 VNull]
  | _ => False
  end.
Proof. simpl. split; reflexivity. Qed.

(** method and w1.close both throw: w2.close still runs, and the first
    error (the method's) is the one that comes out. *)
Example perform_first_error_wins :
  match Transaction_perform [w1_bad_close; w2_ok] (failing 30) world0 with
  | Throw e s =>
      e = UserError 30
      /\ log s = [EvRefCall 10 VNull; EvRefCall 20 VNull; EvRefCall 30 VNull;
                  EvRefCall 11 VNull; EvRefCall 21 VNull]
  | _ => False
  end.
Proof. simpl. split; reflexivity. Qed.

(** * ReactRef: attaching and detaching *)

Lemma always_body (P : Program) (n : nat) (body : World -> list Cmd) :
  always (batching_steps user_atom) (fun s => runCmds P n (body s) s).
Proof. intros s s' H. exact (always_runCmds P n (body s) s H). Qed.

Lemma always_call_ref (P : Program) (n : nat) (f : FnId) (arg : Value) :
  always (batching_steps ref_atom) (call_ref P n f arg).
Proof.
  unfold call_ref. steps_bind.
  - apply always_emit. exact I.
  - eapply always_weaken; [| apply always_body].
    intros s s'. apply batching_steps_weaken, user_atom_ref_atom.
Qed.

Lemma always_attachRef (P : Program) (n : nat) (r : Ref) (c : CompId)
    (owner : option CompId) :
  always (batching_steps ref_atom) (attachRef P n r c owner).
Proof.
  destruct r; simpl; try (apply always_emit; exact I). apply always_call_ref.
Qed.

Lemma always_detachRef (P : Program) (n : nat) (r : Ref) (c : CompId)
    (owner : option CompId) :
  always (batching_steps ref_atom) (detachRef P n r c owner).
Proof.
  destruct r; simpl; try (apply always_emit; exact I). apply always_call_ref.
Qed.

Lemma always_attachRefs (P : Program) (n : nat) (c : CompId) (element : Node) :
  always (batching_steps ref_atom) (ReactRef_attachRefs P n c element).
Proof.
  destruct element; simpl; try (apply always_ret; apply batching_steps_refl).
  intros s s' H. destruct (ref (elements s e)) eqn:Hr.
  - inversion H. subst. apply batching_steps_refl.
  - exact (always_attachRef P n (RefFn f) c (_owner (elements s e)) s H).
  - exact (always_attachRef P n (RefName name) c (_owner (elements s e)) s H).
Qed.

Lemma always_detachRefs (P : Program) (n : nat) (c : CompId) (element : Node) :
  always (batching_steps ref_atom) (ReactRef_detachRefs P n c element).
Proof.
  destruct element; simpl; try (apply always_ret; apply batching_steps_refl).
  intros s s' H. destruct (ref (elements s e)) eqn:Hr.
  - inversion H. subst. apply batching_steps_refl.
  - exact (always_detachRef P n (RefFn f) c (_owner (elements s e)) s H).
  - exact (always_detachRef P n (RefName name) c (_owner (elements s e)) s H).
Qed.

(** * CallbackQueue.notifyAll *)

Lemma invocations_app (l1 l2 : list Event) :
  invocations (l1 ++ l2) = invocations l1 ++ invocations l2.
Proof. apply flat_map_app. Qed.

Lemma enqueued_on_app (q : QueueId) (l1 l2 : list Event) :
  enqueued_on q (l1 ++ l2) = enqueued_on q l1 ++ enqueued_on q l2.
Proof. apply flat_map_app. Qed.

Lemma queues_follow_log_refl (s : World) : queues_follow_log s s.
Proof.
  split; [reflexivity |]. exists []. rewrite app_nil_r.
  repeat split; simpl; rewrite app_nil_r; reflexivity.
Qed.

Lemma queues_follow_log_trans (a b c : World) :
  queues_follow_log a b -> queues_follow_log b c -> queues_follow_log a c.
Proof.
  intros [Hl1 [n1 [Hlog1 [Hi1 Hq1]]]] [Hl2 [n2 [Hlog2 [Hi2 Hq2]]]].
  split; [congruence |]. exists (n1 ++ n2).
  split; [rewrite Hlog2, Hlog1, app_assoc; reflexivity |].
  split; [rewrite invocations_app, Hi1, Hi2; reflexivity |].
  intros q. destruct (Hq1 q) as [Hc1 Hx1]. destruct (Hq2 q) as [Hc2 Hx2].
  rewrite Hc2, Hc1, Hx2, Hx1, enqueued_on_app, !map_app, !app_assoc.
  split; reflexivity.
Qed.

Lemma callbacks_of_put (q q' : QueueId) (o : CallbackQueue) (s : World) (l : list Event) :
  q < length (queues s) ->
  callbacks_of q' (set_log l (set_queues (list_set q o (queues s)) s))
  = if Nat.eqb q q' then or_empty (_callbacks o) else callbacks_of q' s.
Proof.
  intros Hlt. unfold callbacks_of. simpl.
  destruct (Nat.eqb q q') eqn:Heq.
  - apply Nat.eqb_eq in Heq. subst. rewrite nth_error_list_set_eq by exact Hlt.
    reflexivity.
  - apply Nat.eqb_neq in Heq. rewrite nth_error_list_set_neq by exact Heq.
    reflexivity.
Qed.

Lemma contexts_of_put (q q' : QueueId) (o : CallbackQueue) (s : World) (l : list Event) :
  q < length (queues s) ->
  contexts_of q' (set_log l (set_queues (list_set q o (queues s)) s))
  = if Nat.eqb q q' then or_empty (_contexts o) else contexts_of q' s.
Proof.
  intros Hlt. unfold contexts_of. simpl.
  destruct (Nat.eqb q q') eqn:Heq.
  - apply Nat.eqb_eq in Heq. subst. rewrite nth_error_list_set_eq by exact Hlt.
    reflexivity.
  - apply Nat.eqb_neq in Heq. rewrite nth_error_list_set_neq by exact Heq.
    reflexivity.
Qed.

Lemma queues_follow_log_atom (a : Atom) (s : World) :
  ref_atom a -> queues_follow_log s (do_atom a s).
Proof.
  intros Ha. destruct a; simpl in *; try contradiction;
    try (split; [reflexivity |]; exists []; rewrite app_nil_r;
         repeat split; simpl; rewrite app_nil_r; reflexivity).
  - (* AMark *)
    destruct (_updateBatchNumber (components s c)).
    + split; [reflexivity |]. exists []. rewrite app_nil_r.
      repeat split; simpl; rewrite app_nil_r; reflexivity.
    + split; [reflexivity |]. eexists. split; [reflexivity |].
      repeat split; simpl; rewrite app_nil_r; reflexivity.
  - (* AEnqueue *)
    destruct (nth_error (queues s) q) as [this |] eqn:Hq;
      [| apply queues_follow_log_refl].
    assert (Hlt : q < length (queues s))
      by (apply nth_error_Some; rewrite Hq; discriminate).
    split; [simpl; apply length_list_set |].
    eexists. split; [reflexivity |]. split; [reflexivity |].
    intros q'. rewrite callbacks_of_put, contexts_of_put by exact Hlt.
    simpl. destruct (Nat.eqb q q') eqn:Heq; simpl.
    + apply Nat.eqb_eq in Heq. subst q'.
      unfold callbacks_of, contexts_of. rewrite Hq. split; reflexivity.
    + rewrite !app_nil_r. split; reflexivity.
  - (* AEmit *)
    destruct e; try contradiction;
      (split; [reflexivity |]; eexists; split; [reflexivity |];
       repeat split; simpl; rewrite app_nil_r; reflexivity).
Qed.

Lemma steps_queues_follow_log (s s' : World) :
  steps ref_atom s s' -> queues_follow_log s s'.
Proof.
  apply steps_relation.
  - apply queues_follow_log_refl.
  - apply queues_follow_log_trans.
  - intros a s0 Ha _. apply queues_follow_log_atom, Ha.
Qed.

Lemma invoke_outcome (P : Program) (n : nat) (cb : option Callback)
    (this arg : Value) (s s' : World) :
  isBatchingUpdates s = true ->
  final (invoke P n cb this arg s) = Some s' ->
  (cb = None /\ s' = s /\ invoke P n cb this arg s = Throw TypeError s)
  \/ (exists c, cb = Some c
                /\ steps ref_atom (do_atom (AEmit (EvInvoke c this arg)) s) s').
Proof.
  intros Hb H. destruct cb as [[f |] |]; simpl in H.
  - right. exists (UserFn f). split; [reflexivity |].
    unfold call_fn, bind, emit, modify in H. simpl in H.
    eapply steps_weaken; [apply user_atom_ref_atom |].
    eapply (always_body P n (fn_body P f this arg)); [exact H | exact Hb].
  - right. exists AttachRefs. split; [reflexivity |].
    unfold bind, emit, modify in H. simpl in H.
    destruct this; simpl in H; try (inversion H; subst; apply steps_refl).
    eapply (always_attachRefs P n c); [exact H | exact Hb].
  - left. inversion H. auto.
Qed.

Lemma invokeAll_outcome (P : Program) (n : nat) (arg : Value)
    (callbacks : list (option Callback)) :
  forall (contexts : list Value) (s s' : World),
    isBatchingUpdates s = true ->
    length callbacks = length contexts ->
    final (invokeAll P n callbacks contexts arg s) = Some s' ->
    isBatchingUpdates s' = true
    /\ length (queues s') = length (queues s)
    /\ exists new k,
         log s' = log s ++ new
         /\ calls new = firstn k (scheduled callbacks contexts arg)
         /\ (invokeAll P n callbacks contexts arg s = Ok tt s' -> k = length callbacks)
         /\ forall q,
              callbacks_of q s' = callbacks_of q s
                                  ++ map (fun p => Some (fst p)) (enqueued_on q new)
              /\ contexts_of q s' = contexts_of q s ++ map snd (enqueued_on q new).
Proof.
  induction callbacks as [| cb rest IH]; intros contexts s s' Hb Hlen H.
  - simpl in H. inversion H. subst. split; [exact Hb |]. split; [reflexivity |].
    exists [], 0. rewrite app_nil_r. repeat split; simpl; rewrite app_nil_r; reflexivity.
  - destruct contexts as [| ctx crest]; [discriminate |].
    simpl in Hlen. injection Hlen as Hlen.
    simpl in H. unfold bind in H.
    destruct (invoke P n cb ctx arg s) as [[] s1 | e s1 |] eqn:Hinv;
      try discriminate.
    + (* the call returned *)
      assert (Hf : final (invoke P n cb ctx arg s) = Some s1)
        by (rewrite Hinv; reflexivity).
      destruct (invoke_outcome P n cb ctx arg s Hb Hf)
        as [[_ [_ Hthrow]] | [c [-> Hsteps]]]; [congruence |].
      assert (Hb1 : isBatchingUpdates s1 = true)
        by (rewrite (steps_isBatchingUpdates Hsteps); exact Hb).
      destruct (steps_queues_follow_log Hsteps) as [Hl1 [new1 [Hlog1 [Hi1 Hq1]]]].
      destruct (IH crest s1 s' Hb1 Hlen H)
        as [Hb' [Hl2 [new2 [k [Hlog2 [Hcalls [Hk Hq2]]]]]]].
      split; [exact Hb' |]. split; [rewrite Hl2, Hl1; reflexivity |].
      exists ((EvInvoke c ctx arg :: new1) ++ new2), (S k).
      split; [rewrite Hlog2, Hlog1; simpl; rewrite <- !app_assoc; reflexivity |].
      split.
      { unfold calls in *. rewrite invocations_app. simpl.
        fold (invocations new1). rewrite Hi1. simpl. rewrite Hcalls. reflexivity. }
      split.
      { intros Hok. cbn [invokeAll hd tl] in Hok. unfold bind in Hok. rewrite Hinv in Hok.
        rewrite (Hk Hok). reflexivity. }
      intros q. destruct (Hq1 q) as [Hc1 Hx1]. destruct (Hq2 q) as [Hc2 Hx2].
      rewrite Hc2, Hc1, Hx2, Hx1. simpl.
      rewrite enqueued_on_app. simpl. fold (enqueued_on q new1).
      rewrite !map_app, !app_assoc. split; reflexivity.
    + (* the call threw *)
      inversion H. subst s1.
      assert (Hf : final (invoke P n cb ctx arg s) = Some s')
        by (rewrite Hinv; reflexivity).
      destruct (invoke_outcome P n cb ctx arg s Hb Hf)
        as [[-> [-> _]] | [c [-> Hsteps]]].
      * split; [exact Hb |]. split; [reflexivity |].
        exists [], 0. rewrite app_nil_r.
        split; [reflexivity |]. split; [reflexivity |].
        split.
        { intros Hok. cbn [invokeAll hd tl] in Hok. unfold bind in Hok. rewrite Hinv in Hok.
          discriminate. }
        intros q. simpl. rewrite !app_nil_r. split; reflexivity.
      * assert (Hb1 : isBatchingUpdates s' = true)
          by (rewrite (steps_isBatchingUpdates Hsteps); exact Hb).
        destruct (steps_queues_follow_log Hsteps) as [Hl1 [new1 [Hlog1 [Hi1 Hq1]]]].
        split; [exact Hb1 |]. split; [exact Hl1 |].
        exists (EvInvoke c ctx arg :: new1), 1.
        split; [rewrite Hlog1; simpl; rewrite <- app_assoc; reflexivity |].
        split.
        { unfold calls. simpl. fold (invocations new1). rewrite Hi1. reflexivity. }
        split.
        { intros Hok. cbn [invokeAll hd tl] in Hok. unfold bind in Hok. rewrite Hinv in Hok.
          discriminate. }
        intros q. destruct (Hq1 q) as [Hc1 Hx1]. rewrite Hc1, Hx1. simpl.
        split; reflexivity.
Qed.

(** C6. Let queue q hold the arrays callbacks and contexts.
    (1) If their lengths differ, notifyAll throws the invariant
        "Mismatched list of contexts in callback queue", in the world it
        was called in (no callback is invoked).
    (2) Otherwise notifyAll is the run of the calls
        callbacks[i].call(contexts[i], arg), in index order, started in
        the world where both fields of q are already null.
    (3) Inside a batching scope, in whatever world s' that run ends (by
        returning, or by a callback throwing): the calls made are an
        initial part of the enqueued pairs, in enqueue order, each with
        its own context and the queue's argument, and all of them when
        notifyAll returns; and the arrays of q in s' hold exactly what
        was enqueued on q during the run, none of which was called. *)
Theorem notifyAll_fifo_on_detached_arrays
    (P : Program) (n : nat) (q : QueueId) (s : World) (this : CallbackQueue)
    (callbacks : list (option Callback)) (contexts : list Value)
    (Hq : nth_error (queues s) q = Some this)
    (Hcbs : _callbacks this = Some callbacks)
    (Hctxs : _contexts this = Some contexts) :
  (length callbacks <> length contexts ->
     CallbackQueue_notifyAll P n q s
     = Throw (InvariantViolation "Mismatched list of contexts in callback queue") s)
  /\ (length callbacks = length contexts ->
        CallbackQueue_notifyAll P n q s
        = invokeAll P n callbacks contexts (_arg this)
            (put_queue q (CallbackQueue_reset this) s)
        /\ (isBatchingUpdates s = true ->
            forall s', final (CallbackQueue_notifyAll P n q s) = Some s' ->
              exists new k,
                log s' = log s ++ new
                /\ calls new = firstn k (scheduled callbacks contexts (_arg this))
                /\ (CallbackQueue_notifyAll P n q s = Ok tt s' -> k = length callbacks)
                /\ callbacks_of q s' = map (fun p => Some (fst p)) (enqueued_on q new)
                /\ contexts_of q s' = map snd (enqueued_on q new))).
Proof.
  assert (Hlt : q < length (queues s))
    by (apply nth_error_Some; rewrite Hq; discriminate).
  split.
  - intros Hne. unfold CallbackQueue_notifyAll. rewrite Hq, Hcbs, Hctxs.
    apply Nat.eqb_neq in Hne. rewrite Hne. reflexivity.
  - intros Heq.
    assert (Hrun : CallbackQueue_notifyAll P n q s
                   = invokeAll P n callbacks contexts (_arg this)
                       (put_queue q (CallbackQueue_reset this) s)).
    { unfold CallbackQueue_notifyAll. rewrite Hq, Hcbs, Hctxs.
      rewrite (proj2 (Nat.eqb_eq _ _) Heq).
      unfold bind, with_queue. rewrite Hq. reflexivity. }
    split; [exact Hrun |].
    intros Hb s' Hfinal. rewrite Hrun in Hfinal.
    destruct (invokeAll_outcome P n (_arg this) callbacks contexts
                (put_queue q (CallbackQueue_reset this) s) (s' := s') Hb Heq Hfinal)
      as [_ [_ [new [k [Hlog [Hcalls [Hk Hqs]]]]]]].
    exists new, k. split; [exact Hlog |]. split; [exact Hcalls |].
    split; [rewrite Hrun; exact Hk |].
    destruct (Hqs q) as [Hc Hx]. rewrite Hc, Hx.
    unfold callbacks_of, contexts_of, put_queue. simpl.
    rewrite nth_error_list_set_eq by exact Hlt. simpl. split; reflexivity.
Qed.

(** Queue 1 of the world holds callback 1 then callback 2; callback 1
    enqueues callback 9 on queue 1 while it runs. notifyAll calls 1 and
    2, in that order; 9 is left in the queue for the next cycle. *)
Lemma notifyAll_fifo_on_detached_arrays_witness :
  nth_error (queues (world_with_queue two_callbacks)) 1 = Some two_callbacks
  /\ isBatchingUpdates (world_with_queue two_callbacks) = true
  /\ exists s',
       CallbackQueue_notifyAll reentrant 1 1 (world_with_queue two_callbacks) = Ok tt s'
       /\ invocations (log s')
          = [(UserFn 1, VData 10, VData 0); (UserFn 2, VData 20, VData 0)]
       /\ callbacks_of 1 s' = [Some (UserFn 9)].
Proof.
  split; [reflexivity |]. split; [reflexivity |].
  destruct (notifyAll_fifo_on_detached_arrays reentrant 1 1
              (world_with_queue two_callbacks) (this := two_callbacks)
              (callbacks := [Some (UserFn 1); Some (UserFn 2)])
              (contexts := [VData 10; VData 20])
              eq_refl eq_refl eq_refl) as [_ Heq].
  destruct (Heq eq_refl) as [Hrun _].
  eexists. split; [rewrite Hrun; reflexivity |]. split; reflexivity.
Defined.

Example notifyAll_mismatch :
  CallbackQueue_notifyAll quiet 1 1
    (world_with_queue {| _callbacks := Some [Some (UserFn 1)];
                         _contexts := Some []; _arg := VNull |})
  = Throw (InvariantViolation "Mismatched list of contexts in callback queue")
      (world_with_queue {| _callbacks := Some [Some (UserFn 1)];
                           _contexts := Some []; _arg := VNull |}).
Proof. reflexivity. Qed.

(** * ReactRef.shouldUpdateRefs and the refs of receiveComponent *)

Lemma ref_eqb_eq (a b : Ref) : ref_eqb a b = true <-> a = b.
Proof.
  destruct a, b; simpl; split; intros H; try discriminate; try reflexivity.
  - apply Nat.eqb_eq in H. congruence.
  - inversion H. apply Nat.eqb_refl.
  - apply String.eqb_eq in H. congruence.
  - inversion H. apply String.eqb_refl.
Qed.

Lemma owner_eqb_eq (a b : option CompId) : owner_eqb a b = true <-> a = b.
Proof.
  destruct a, b; simpl; split; intros H; try discriminate; try reflexivity.
  - apply Nat.eqb_eq in H. congruence.
  - inversion H. apply Nat.eqb_refl.
Qed.

Lemma is_string_name (r : Ref) : is_string r = true <-> exists name, r = RefName name.
Proof.
  destruct r; simpl; split; intros H; try discriminate; eauto;
    destruct H as [name H]; discriminate.
Qed.

Lemma shouldUpdateRefs_iff (elems : ElemId -> ReactElement) (prev next : Node) :
  ReactRef_shouldUpdateRefs elems prev next = true
  <-> fst (ref_and_owner elems prev) <> fst (ref_and_owner elems next)
      \/ ((exists name, fst (ref_and_owner elems next) = RefName name)
          /\ snd (ref_and_owner elems next) <> snd (ref_and_owner elems prev)).
Proof.
  unfold ReactRef_shouldUpdateRefs.
  destruct (ref_and_owner elems prev) as [prevRef prevOwner].
  destruct (ref_and_owner elems next) as [nextRef nextOwner]. simpl.
  rewrite orb_true_iff, andb_true_iff, !negb_true_iff, is_string_name.
  split; intros [H | [H1 H2]].
  - left. intros Heq. apply ref_eqb_eq in Heq. congruence.
  - right. split; [exact H1 |]. intros Heq. apply owner_eqb_eq in Heq. congruence.
  - left. destruct (ref_eqb prevRef nextRef) eqn:E; [| reflexivity].
    apply ref_eqb_eq in E. contradiction.
  - right. split; [exact H1 |].
    destruct (owner_eqb nextOwner prevOwner) eqn:E; [| reflexivity].
    apply owner_eqb_eq in E. contradiction.
Qed.

Lemma shouldUpdateRefs_same_function (elems : ElemId -> ReactElement)
    (prev next : Node) (f : FnId) :
  fst (ref_and_owner elems prev) = RefFn f ->
  fst (ref_and_owner elems next) = RefFn f ->
  ReactRef_shouldUpdateRefs elems prev next = false.
Proof.
  unfold ReactRef_shouldUpdateRefs.
  destruct (ref_and_owner elems prev) as [prevRef prevOwner].
  destruct (ref_and_owner elems next) as [nextRef nextOwner]. simpl.
  intros -> ->. simpl. rewrite Nat.eqb_refl. reflexivity.
Qed.

Lemma detachRefs_log (P : Program) (n : nat) (c : CompId) (element : Node)
    (s s1 : World) :
  isBatchingUpdates s = true ->
  final (ReactRef_detachRefs P n c element s) = Some s1 ->
  frame ref_event s s1
  /\ exists pre,
       log s1 = log s ++ pre
       /\ if has_ref (elements s) element
          then exists body,
                 pre = detach_event c (fst (ref_and_owner (elements s) element))
                         (snd (ref_and_owner (elements s) element)) :: body
                 /\ Forall user_event body
          else pre = [].
Proof.
  intros Hb H.
  assert (Hnone : s1 = s -> has_ref (elements s) element = false ->
          frame ref_event s s1
          /\ exists pre, log s1 = log s ++ pre
               /\ if has_ref (elements s) element
                  then exists body,
                    pre = detach_event c (fst (ref_and_owner (elements s) element))
                            (snd (ref_and_owner (elements s) element)) :: body
                    /\ Forall user_event body
                  else pre = []).
  { intros -> Hr. split; [apply frame_refl |]. exists []. rewrite Hr, app_nil_r.
    split; reflexivity. }
  destruct element; simpl in H; try (inversion H; subst; apply Hnone; reflexivity).
  simpl. destruct (ref (elements s e)) as [| f | name] eqn:Hr.
  - inversion H. subst. split; [apply frame_refl |].
    exists []. rewrite app_nil_r. split; reflexivity.
  - simpl in H. unfold call_ref, bind, emit, modify in H. simpl in H.
    pose proof (always_body P n (fn_body P f VUndefined VNull) _ H Hb) as Hsteps.
    pose proof (steps_user_frame Hsteps) as Hfr.
    split.
    + eapply frame_trans; [apply (frame_atom ref_event (AEmit (EvRefCall f VNull)) s I) |].
      eapply frame_weaken; [| exact Hfr]. intros ev; destruct ev; simpl; tauto.
    + destruct (fr_log Hfr) as [body [Hlog Hbody]]. simpl in Hlog.
      exists (EvRefCall f VNull :: body).
      split; [rewrite Hlog, <- app_assoc; reflexivity |].
      exists body. split; [reflexivity | exact Hbody].
  - simpl in H. unfold emit, modify in H. inversion H. subst.
    split; [apply (frame_atom ref_event (AEmit (EvRemoveRef c (RefName name) (_owner (elements s e)))) s I) |].
    eexists. split; [reflexivity |]. exists []. split; [reflexivity | constructor].
Qed.

Lemma receives_user (l : list Event) : Forall user_event l -> receives l = [].
Proof.
  induction 1 as [| e l He _ IH]; [reflexivity |].
  simpl. fold (receives l). rewrite IH. destruct e; simpl in *; tauto.
Qed.

Lemma attach_enqueues_user (l : list Event) :
  Forall user_event l -> attach_enqueues l = [].
Proof.
  induction 1 as [| e l He _ IH]; [reflexivity |].
  simpl. fold (attach_enqueues l). rewrite IH.
  destruct e; simpl in *; try tauto. destruct cb; simpl in *; tauto.
Qed.

(** C9, amended. (1) shouldUpdateRefs is true exactly when the previous
    and next refs differ, or the next ref is a string and the owners
    differ. (2) For elements carrying one function ref it is false,
    whatever the owners. (3) Inside a batching scope, when
    receiveComponent does not take the identity bypass and returns: the
    log grows by pre, the node-kind update, post, with no other
    node-kind update in it; pre starts with the detach of the old ref
    when shouldUpdateRefs is true and the previous element has a
    non-null ref, and is empty otherwise; post ends with the enqueue of
    attachRefs on the transaction's mount-ready queue when
    shouldUpdateRefs is true and the instance's element after the update
    has a non-null ref, and holds no enqueue of attachRefs otherwise. *)
Theorem receiveComponent_detaches_then_attaches :
  (forall elems prev next,
      ReactRef_shouldUpdateRefs elems prev next = true
      <-> fst (ref_and_owner elems prev) <> fst (ref_and_owner elems next)
          \/ ((exists name, fst (ref_and_owner elems next) = RefName name)
              /\ snd (ref_and_owner elems next) <> snd (ref_and_owner elems prev)))
  /\ (forall elems prev next f,
      fst (ref_and_owner elems prev) = RefFn f ->
      fst (ref_and_owner elems next) = RefFn f ->
      ReactRef_shouldUpdateRefs elems prev next = false)
  /\ (forall (P : Program) (n : nat) (c : CompId) (next : Node) (tx : RtxId)
             (ctx : CtxId) (s s' : World),
      isBatchingUpdates s = true ->
      node_eqb next (_currentElement (components s c))
        && Nat.eqb ctx (_context (components s c)) = false ->
      ReactReconciler_receiveComponent P n c next tx ctx s = Ok tt s' ->
      let prev := _currentElement (components s c) in
      let refsChanged := ReactRef_shouldUpdateRefs (elements s) prev next in
      exists pre post,
        log s' = log s ++ pre ++ EvReceive c next :: post
        /\ receives (pre ++ post) = []
        /\ (if refsChanged && has_ref (elements s) prev
            then exists body,
                   pre = detach_event c (fst (ref_and_owner (elements s) prev))
                           (snd (ref_and_owner (elements s) prev)) :: body
                   /\ Forall user_event body
            else pre = [])
        /\ (if refsChanged
               && has_ref (elements s') (_currentElement (components s' c))
            then exists body q,
                   post = body ++ [EvEnqueue q AttachRefs (VInternal c)]
                   /\ Forall user_event body
                   /\ getReactMountReady tx s' = Ok q s'
            else attach_enqueues (pre ++ post) = [])).
Proof.
  split; [exact shouldUpdateRefs_iff |].
  split; [exact shouldUpdateRefs_same_function |].
  intros P n c next tx ctx s s' Hb Hnew Hrun prev refsChanged.
  unfold ReactReconciler_receiveComponent in Hrun. rewrite Hnew in Hrun.
  fold prev in Hrun. fold refsChanged in Hrun.
  unfold bind in Hrun.
  (* the detach *)
  destruct ((if refsChanged then ReactRef_detachRefs P n c prev else ret tt) s)
    as [[] s1 | |] eqn:Hdetach; try discriminate.
  assert (Hpre : frame ref_event s s1
                 /\ exists pre, log s1 = log s ++ pre
                      /\ if refsChanged && has_ref (elements s) prev
                         then exists body,
                           pre = detach_event c (fst (ref_and_owner (elements s) prev))
                                   (snd (ref_and_owner (elements s) prev)) :: body
                           /\ Forall user_event body
                         else pre = []).
  { destruct refsChanged; simpl.
    - apply (detachRefs_log P n c prev s Hb). rewrite Hdetach. reflexivity.
    - inversion Hdetach. subst. split; [apply frame_refl |].
      exists []. rewrite app_nil_r. split; reflexivity. }
  destruct Hpre as [Hfr1 [pre [Hlog1 Hpre]]].
  assert (Hb1 : isBatchingUpdates s1 = true)
    by (rewrite (fr_isBatchingUpdates Hfr1); exact Hb).
  (* the node-kind update *)
  unfold emit, modify in Hrun.
  remember (set_log (log s1 ++ [EvReceive c next]) s1) as s1e eqn:Hs1e.
  destruct (runCmds P n (impl_receiveComponent P c next tx ctx s1e) s1e)
    as [[] s2 | |] eqn:Hupdate; try discriminate.
  assert (Hsteps : steps user_atom s1e s2).
  { eapply (always_runCmds P n _ s1e); [rewrite Hupdate; reflexivity |].
    subst s1e. exact Hb1. }
  pose proof (steps_user_frame Hsteps) as Hfr2.
  destruct (fr_log Hfr2) as [body2 [Hlog2 Hbody2]].
  assert (Hlog2' : log s2 = log s ++ pre ++ EvReceive c next :: body2).
  { rewrite Hlog2. subst s1e. simpl. rewrite Hlog1, <- !app_assoc. reflexivity. }
  assert (Hpre_user : receives pre = [] /\ attach_enqueues pre = []).
  { destruct (refsChanged && has_ref (elements s) prev).
    - destruct Hpre as [body [-> Hbody]]. simpl.
      fold (receives body). fold (attach_enqueues body).
      rewrite (receives_user Hbody), (attach_enqueues_user Hbody).
      destruct (fst (ref_and_owner (elements s) prev)); split; reflexivity.
    - subst pre. split; reflexivity. }
  destruct Hpre_user as [Hrec_pre Hatt_pre].
  (* the attach *)
  destruct (refsChanged && has_ref (elements s2) (_currentElement (components s2 c)))
    eqn:Hattach.
  - unfold getReactMountReady, get_reconcileTx, bind in Hrun.
    destruct (nth_error (reconcileTxs s2) tx) as [o |] eqn:Htx; try discriminate.
    destruct (reactMountReady o) as [q |] eqn:Hq; try discriminate.
    unfold ret, queue_enqueue, bind, with_queue, emit, modify in Hrun.
    destruct (nth_error (queues s2) q) as [this |] eqn:Hthis; try discriminate.
    simpl in Hrun. inversion Hrun. subst s'. clear Hrun. simpl.
    rewrite Hattach.
    exists pre, (body2 ++ [EvEnqueue q AttachRefs (VInternal c)]).
    split; [rewrite Hlog2', <- !app_assoc; reflexivity |].
    split.
    { unfold receives in *. rewrite !flat_map_app, Hrec_pre.
      fold (receives body2). rewrite (receives_user Hbody2). reflexivity. }
    split; [exact Hpre |].
    exists body2, q. split; [reflexivity |]. split; [exact Hbody2 |].
    unfold getReactMountReady, get_reconcileTx, bind. simpl.
    rewrite Htx, Hq. reflexivity.
  - inversion Hrun. subst s'. clear Hrun. rewrite Hattach.
    exists pre, body2. split; [exact Hlog2' |].
    split.
    { unfold receives in *. rewrite !flat_map_app, Hrec_pre.
      fold (receives body2). rewrite (receives_user Hbody2). reflexivity. }
    split; [exact Hpre |].
    unfold attach_enqueues in *. rewrite !flat_map_app, Hatt_pre.
    fold (attach_enqueues body2). rewrite (attach_enqueues_user Hbody2). reflexivity.
Qed.

(** Scenario D: the ref of component 3 changes from the name "a" to the
    function 5. The named ref is removed first, then the node kind
    updates, then attachRefs is enqueued on the mount-ready queue. *)
Lemma receiveComponent_detaches_then_attaches_witness :
  isBatchingUpdates world_refs = true
  /\ exists s',
       ReactReconciler_receiveComponent quiet 1 3 (NElement 3) 0 0 world_refs = Ok tt s'
       /\ log s' = [EvRemoveRef 3 (RefName "a") (Some 7); EvReceive 3 (NElement 3);
                    EvEnqueue 1 AttachRefs (VInternal 3)]
       /\ exists pre post, log s' = log world_refs ++ pre ++ EvReceive 3 (NElement 3) :: post.
Proof.
  split; [reflexivity |]. eexists. split; [reflexivity |]. split; [reflexivity |].
  destruct (proj2 (proj2 receiveComponent_detaches_then_attaches)
              quiet 1 3 (NElement 3) 0 0 world_refs _ eq_refl eq_refl eq_refl)
    as [pre [post [Hlog _]]].
  exists pre, post. exact Hlog.
Defined.

(** C9 as stated fails where the next element has no ref: the ref of
    component 3 changes from "a" to null, shouldUpdateRefs is true, the
    old ref is detached, yet no attachRefs is enqueued. *)
Lemma attach_not_enqueued_when_next_ref_is_null :
  ReactRef_shouldUpdateRefs (elements world_refs)
    (_currentElement (components world_refs 3)) (NElement 2) = true
  /\ exists s',
       ReactReconciler_receiveComponent quiet 1 3 (NElement 2) 0 0 world_refs = Ok tt s'
       /\ log s' = [EvRemoveRef 3 (RefName "a") (Some 7); EvReceive 3 (NElement 2)]
       /\ attach_enqueues (log s') = [].
Proof.
  split; [reflexivity |]. eexists. split; [reflexivity |]. split; reflexivity.
Qed.

(** The same function ref under another owner: no ref update at all. *)
Example owner_change_keeps_function_ref :
  ReactRef_shouldUpdateRefs (elements world_refs) (NElement 3) (NElement 4) = false.
Proof. reflexivity. Qed.

(** * One iteration of the flush loop *)

Lemma always_enqueueCallbacks (K : Atom -> Prop) (q : option QueueId)
    (cbs : list Callback) (ctx : Value) :
  (forall q' cb, K (AEnqueue q' cb ctx)) ->
  always (batching_steps K) (enqueueCallbacks q cbs ctx).
Proof.
  intros HK. induction cbs as [| cb rest IH]; simpl.
  - apply always_ret. apply batching_steps_refl.
  - steps_bind; [| exact IH].
    destruct q as [q' |].
    + apply always_queue_enqueue. apply HK.
    + apply always_throw. apply batching_steps_refl.
Qed.

Lemma always_enqueue_stashed (K : Atom -> Prop) (o : FlushTransaction)
    (callbacks : option (list Callback)) (c : CompId) :
  (forall q' cb, K (AEnqueue q' cb (VPublic c))) ->
  always (batching_steps K) (enqueue_stashed o callbacks c).
Proof.
  intros HK. destruct callbacks; simpl.
  - apply always_enqueueCallbacks. exact HK.
  - apply always_ret. apply batching_steps_refl.
Qed.

Lemma final_bind {A B : Type} (m : M A) (k : A -> M B) (s s' : World) :
  final (bind m k s) = Some s' ->
  (exists e, m s = Throw e s' /\ bind m k s = Throw e s')
  \/ (exists a s1, m s = Ok a s1 /\ final (k a s1) = Some s' /\ bind m k s = k a s1).
Proof.
  unfold bind. destruct (m s) as [a s1 | e s1 |]; simpl; intros H.
  - right. exists a, s1. auto.
  - left. inversion H. subst. exists e. auto.
  - discriminate.
Qed.

Lemma batchIteration_outcome (P : Program) (n : nat) (tx : TxId) (c : CompId) (s : World) :
  isBatchingUpdates s = true ->
  let s0 := do_atom (AStash c) s in
  let g := updateBatchNumber s in
  let tag := _updateBatchNumber (components s c) in
  let sp := do_atom (AEmit (EvPerformUpdate c g)) s0 in
  let sr := do_atom (AEmit (EvReconcile c g)) sp in
  batchIteration P n tx c s =
  match nth_error (flushTxs s) tx with
  | None => Throw TypeError s0
  | Some o =>
      if option_nat_eqb tag (Some g) then
        match runCmds P n (impl_performUpdateIfNecessary P c (reconcileTransaction o) sr) sr with
        | Ok _ s2 => enqueue_stashed o (_pendingCallbacks (components s c)) c s2
        | Throw e s2 => Throw e s2
        | OutOfFuel => OutOfFuel
        end
      else enqueue_stashed o (_pendingCallbacks (components s c)) c (skip_world c g tag sp)
  end.
Proof.
  intros Hb s0 g tag sp sr.
  unfold batchIteration, bind, get, modify, get_flushTx. simpl.
  destruct (nth_error (flushTxs s) tx) as [o |] eqn:Htx; [| reflexivity].
  unfold ReactReconciler_performUpdateIfNecessary, bind, emit, modify. simpl.
  rewrite upd_same. simpl. fold tag. fold g.
  destruct tag as [t |] eqn:Htag; simpl.
  - destruct (Nat.eqb t g) eqn:Htg.
    + match goal with
      | |- context [runCmds P n (impl_performUpdateIfNecessary P c _ ?st) ?st] =>
          change st with sr
      end.
      destruct (runCmds P n (impl_performUpdateIfNecessary P c (reconcileTransaction o) sr) sr)
        as [[] s2 | e s2 |] eqn:Hrun; try reflexivity.
      assert (Hsteps : steps user_atom sr s2).
      { eapply (always_runCmds P n _ sr); [rewrite Hrun; reflexivity | exact Hb]. }
      pose proof (steps_user_frame Hsteps) as Hfr.
      destruct (_pendingCallbacks (components s c)); [| reflexivity].
      rewrite (fr_flushTxs Hfr). simpl. rewrite Htx. reflexivity.
    + destruct (Nat.eqb t (g + 1)); simpl;
        (destruct (_pendingCallbacks (components s c)); [| reflexivity]);
        unfold set_log, with_component, set_components; simpl;
        rewrite Htx; reflexivity.
  - destruct (_pendingCallbacks (components s c)); [| reflexivity].
    unfold set_log, with_component, set_components; simpl.
    rewrite Htx. reflexivity.
Qed.

Lemma ok_bind_inv {A B : Type} (m : M A) (k : A -> M B) (s s' : World) (b : B) :
  bind m k s = Ok b s' -> exists a s1, m s = Ok a s1 /\ k a s1 = Ok b s'.
Proof.
  unfold bind. destruct (m s) as [a s1 | e s1 |]; try discriminate. eauto.
Qed.

Lemma user_atom_post_atom (a : Atom) : user_atom a -> post_atom a.
Proof.
  destruct a; simpl; try tauto;
    try (destruct cb; simpl; tauto); try (destruct e; simpl; tauto).
Qed.

Lemma post_atom_events (a : Atom) : post_atom a -> atom_events_in post_event a.
Proof.
  destruct a; simpl; try tauto;
    try (destruct cb; simpl; tauto); try (destruct e; simpl; tauto).
Qed.

Lemma steps_post_frame (s s' : World) :
  steps post_atom s s' -> frame post_event s s'.
Proof. apply steps_frame, post_atom_events. Qed.

(** After the stash and the dispatcher's log entry, an iteration only
    does [post_atom]s; it throws before them only for want of the
    transaction. *)
Lemma batchIteration_post (P : Program) (n : nat) (tx : TxId) (c : CompId)
    (s s1 : World) :
  isBatchingUpdates s = true ->
  final (batchIteration P n tx c s) = Some s1 ->
  match nth_error (flushTxs s) tx with
  | None => s1 = do_atom (AStash c) s
            /\ batchIteration P n tx c s = Throw TypeError s1
  | Some _ =>
      steps post_atom
        (do_atom (AEmit (EvPerformUpdate c (updateBatchNumber s))) (do_atom (AStash c) s))
        s1
  end.
Proof.
  intros Hb H. rewrite (batchIteration_outcome P n tx c s Hb) in *.
  destruct (nth_error (flushTxs s) tx) as [o |].
  - set (sp := do_atom (AEmit (EvPerformUpdate c (updateBatchNumber s)))
                 (do_atom (AStash c) s)) in *.
    assert (Hbp : isBatchingUpdates sp = true) by exact Hb.
    assert (Henq : forall s2, isBatchingUpdates s2 = true ->
              final (enqueue_stashed o (_pendingCallbacks (components s c)) c s2) = Some s1 ->
              steps post_atom s2 s1).
    { intros s2 Hb2 Hf.
      eapply (always_enqueue_stashed post_atom); [| exact Hf | exact Hb2].
      intros q' cb. exact I. }
    destruct (option_nat_eqb (_updateBatchNumber (components s c))
                (Some (updateBatchNumber s))).
    + set (sr := do_atom (AEmit (EvReconcile c (updateBatchNumber s))) sp) in *.
      assert (Hsr : steps post_atom sp sr) by (apply steps_one; exact I).
      destruct (runCmds P n _ sr) as [[] s2 | e s2 |] eqn:Hrun; try discriminate.
      * assert (Hs2 : steps user_atom sr s2).
        { eapply (always_runCmds P n _ sr); [rewrite Hrun; reflexivity | exact Hb]. }
        eapply steps_trans; [exact Hsr |].
        eapply steps_trans; [eapply steps_weaken; [apply user_atom_post_atom | exact Hs2] |].
        apply Henq; [| exact H].
        rewrite (steps_isBatchingUpdates Hs2). exact Hb.
      * inversion H. subst s2.
        assert (Hs2 : steps user_atom sr s1).
        { eapply (always_runCmds P n _ sr); [rewrite Hrun; reflexivity | exact Hb]. }
        eapply steps_trans; [exact Hsr |].
        eapply steps_weaken; [apply user_atom_post_atom | exact Hs2].
    + unfold skip_world in H.
      destruct (_updateBatchNumber (components s c)) as [t |].
      * destruct (Nat.eqb t (updateBatchNumber s + 1)).
        -- apply Henq; assumption.
        -- eapply steps_trans; [apply (steps_one post_atom (AEmit (EvWarning c (updateBatchNumber s))) sp I I) |].
           apply Henq; [exact Hb | exact H].
      * apply Henq; assumption.
  - inversion H. subst. split; reflexivity.
Qed.

(** * runBatchedUpdates: the order of one pass *)

Lemma performed_app (l1 l2 : list Event) :
  performed (l1 ++ l2) = performed l1 ++ performed l2.
Proof. apply flat_map_app. Qed.

Lemma performed_post (l : list Event) : Forall post_event l -> performed l = [].
Proof.
  induction 1 as [| e l He _ IH]; [reflexivity |].
  simpl. fold (performed l). rewrite IH. destruct e; simpl in *; tauto.
Qed.

Lemma nth_error_skipn_cons {A : Type} (l : list A) (i : nat) (x : A) :
  nth_error l i = Some x -> skipn i l = x :: skipn (S i) l.
Proof.
  revert i. induction l as [| h t IH]; intros [| i] H; simpl in *; try discriminate.
  - inversion H. reflexivity.
  - apply IH. exact H.
Qed.

(** The dispatcher calls of the iterations [i, i+k) are those of the
    next entries of the list the loop started on, in their order. *)
Lemma batchLoop_performed (P : Program) (n : nat) (tx : TxId) (L : list CompId)
    (k : nat) :
  forall (i : nat) (s s' : World),
    isBatchingUpdates s = true ->
    (exists extra, dirtyComponents s = L ++ extra) ->
    i + k = length L ->
    final (batchLoop P n tx i k s) = Some s' ->
    exists new j,
      log s' = log s ++ new
      /\ performed new = map (fun c => (c, updateBatchNumber s)) (firstn j (skipn i L))
      /\ (batchLoop P n tx i k s = Ok tt s' -> j = k).
Proof.
  induction k as [| k IH]; intros i s s' Hb [extra Hdirty] Hlen H.
  - simpl in H. inversion H. subst. exists [], 0.
    rewrite app_nil_r. repeat split; reflexivity.
  - cbn [batchLoop] in *. unfold bind at 1, get at 1 in H.
    unfold bind at 1, get at 1.
    assert (Hi : i < length L) by lia.
    destruct (nth_error L i) as [c |] eqn:Hc;
      [| apply nth_error_None in Hc; lia].
    rewrite Hdirty in *. rewrite nth_error_app1 in * by exact Hi.
    rewrite Hc in *.
    rewrite (nth_error_skipn_cons L i Hc).
    destruct (final_bind _ _ _ H) as [[e [Hit Hall]] | [[] [s1 [Hit [Hnext Hall]]]]].
    + (* the iteration threw *)
      assert (Hf : final (batchIteration P n tx c s) = Some s')
        by (rewrite Hit; reflexivity).
      pose proof (batchIteration_post P n tx c s Hb Hf) as Hpost.
      destruct (nth_error (flushTxs s) tx).
      * pose proof (steps_post_frame Hpost) as Hfr.
        destruct (fr_log Hfr) as [rest [Hlog Hrest]]. simpl in Hlog.
        exists (EvPerformUpdate c (updateBatchNumber s) :: rest), 1.
        split; [rewrite Hlog, <- app_assoc; reflexivity |].
        split; [simpl; fold (performed rest); rewrite (performed_post Hrest); reflexivity |].
        rewrite Hall. discriminate.
      * destruct Hpost as [-> _]. exists [], 0. rewrite app_nil_r.
        split; [reflexivity |]. split; [reflexivity |]. rewrite Hall. discriminate.
    + (* the iteration returned *)
      assert (Hf : final (batchIteration P n tx c s) = Some s1)
        by (rewrite Hit; reflexivity).
      pose proof (batchIteration_post P n tx c s Hb Hf) as Hpost.
      destruct (nth_error (flushTxs s) tx);
        [| destruct Hpost as [_ Hthrow]; congruence].
      pose proof (steps_post_frame Hpost) as Hfr.
      destruct (fr_log Hfr) as [rest [Hlog Hrest]]. simpl in Hlog.
      destruct (fr_dirty Hfr) as [extra1 Hd1]. simpl in Hd1.
      assert (Hb1 : isBatchingUpdates s1 = true)
        by (rewrite (fr_isBatchingUpdates Hfr); exact Hb).
      assert (Hubn : updateBatchNumber s1 = updateBatchNumber s)
        by (rewrite (fr_updateBatchNumber Hfr); reflexivity).
      destruct (IH (S i) s1 s' Hb1) as [new2 [j [Hlog2 [Hperf2 Hj]]]].
      { exists (extra ++ extra1). rewrite Hd1, Hdirty, app_assoc. reflexivity. }
      { lia. }
      { exact Hnext. }
      exists ((EvPerformUpdate c (updateBatchNumber s) :: rest) ++ new2), (S j).
      split; [rewrite Hlog2, Hlog, <- !app_assoc; reflexivity |].
      split.
      { rewrite performed_app. simpl. fold (performed rest).
        rewrite (performed_post Hrest), Hperf2, Hubn. reflexivity. }
      intros Hok. rewrite Hall in Hok. rewrite (Hj Hok). reflexivity.
Qed.

(** C2. Take a pass of runBatchedUpdates, run inside a batching scope on
    a flush transaction whose recorded length is that of dirtyComponents,
    the dirty components having pairwise distinct _mountOrder. However
    the pass ends (returning, or with an update throwing), the calls of
    ReactReconciler.performUpdateIfNecessary it made are, in order, an
    initial part of dirtyComponents sorted by _mountOrder, each made with
    the new generation; their mount orders are strictly ascending; and
    when the pass returns, every dirty component was dispatched (the
    dispatched components are a permutation of dirtyComponents). The
    order in which the components were enqueued plays no part. *)
Theorem runBatchedUpdates_ascending_mount_order
    (P : Program) (n : nat) (tx : TxId) (s s' : World) (o : FlushTransaction)
    (Hb : isBatchingUpdates s = true)
    (Htx : nth_error (flushTxs s) tx = Some o)
    (Hlen : dirtyComponentsLength o = Some (length (dirtyComponents s)))
    (Hdistinct : NoDup (map (mountOrder_of s) (dirtyComponents s)))
    (Hrun : final (runBatchedUpdates P n tx s) = Some s') :
  exists new j,
    log s' = log s ++ new
    /\ performed new
       = map (fun c => (c, updateBatchNumber s + 1))
           (firstn j (array_sort (mountOrderComparator s) (dirtyComponents s)))
    /\ StronglySorted Z.lt (map (mountOrder_of s) (map fst (performed new)))
    /\ (runBatchedUpdates P n tx s = Ok tt s' ->
        Permutation (map fst (performed new)) (dirtyComponents s)).
Proof.
  unfold runBatchedUpdates, bind, get_flushTx in *. rewrite Htx in *.
  rewrite Hlen in *. rewrite Nat.eqb_refl in *.
  unfold modify in *. simpl in *.
  set (sorted := array_sort (mountOrderComparator s) (dirtyComponents s)) in *.
  set (s0 := set_updateBatchNumber (updateBatchNumber s + 1)
               (set_dirtyComponents sorted s)) in *.
  assert (Hperm : Permutation sorted (dirtyComponents s)) by apply array_sort_perm.
  assert (Hls : length sorted = length (dirtyComponents s))
    by (apply Permutation_length, Hperm).
  rewrite <- Hls in *.
  destruct (batchLoop_performed P n tx sorted (length sorted) 0 s0 (s' := s'))
    as [new [j [Hlog [Hperf Hj]]]]; try assumption; try reflexivity.
  { exists []. rewrite app_nil_r. reflexivity. }
  exists new, j. simpl in Hperf. split; [exact Hlog |]. split; [exact Hperf |].
  assert (Hfst : map fst (performed new) = firstn j sorted).
  { rewrite Hperf, map_map. simpl. apply map_id. }
  rewrite Hfst. split.
  - rewrite <- firstn_map. apply StronglySorted_firstn.
    apply sorted_distinct_strict.
    + apply (array_sort_sorted (mountOrder_of s)).
    + eapply Permutation_NoDup; [| exact Hdistinct].
      apply Permutation_map, Permutation_sym, Hperm.
  - intros Hok. rewrite (Hj Hok), firstn_all. exact Hperm.
Qed.

(** Scenario A: enqueued in the order 5, 2, 9; dispatched 2, 5, 9. *)
Lemma runBatchedUpdates_ascending_mount_order_witness :
  isBatchingUpdates world_529 = true
  /\ nth_error (flushTxs world_529) 0 = Some (recorded 3 1 0)
  /\ NoDup (map (mountOrder_of world_529) (dirtyComponents world_529))
  /\ exists s',
       final (runBatchedUpdates quiet 1 0 world_529) = Some s'
       /\ performed (log s') = [(2, 1); (5, 1); (9, 1)]
       /\ StronglySorted Z.lt (map (mountOrder_of world_529) (map fst (performed (log s')))).
Proof.
  split; [reflexivity |]. split; [reflexivity |].
  assert (Hnd : NoDup (map (mountOrder_of world_529) (dirtyComponents world_529))).
  { repeat constructor; simpl; intuition discriminate. }
  split; [exact Hnd |].
  destruct (final (runBatchedUpdates quiet 1 0 world_529)) as [s' |] eqn:Hrun;
    [| vm_compute in Hrun; discriminate].
  exists s'. split; [reflexivity |].
  destruct (runBatchedUpdates_ascending_mount_order quiet 1 0 world_529
              (o := recorded 3 1 0) eq_refl eq_refl eq_refl Hnd Hrun)
    as [new [j [Hlog [_ [Hsorted _]]]]].
  change (log world_529) with (@nil Event) in Hlog. simpl in Hlog. rewrite Hlog.
  split; [| exact Hsorted].
  rewrite <- Hlog. vm_compute in Hrun. injection Hrun as <-. reflexivity.
Defined.

Example dispatch_order_529 :
  performed (final_log (runBatchedUpdates quiet 1 0 world_529))
  = [(2, 1); (5, 1); (9, 1)].
Proof. vm_compute. reflexivity. Qed.

(** * The log of a flush *)

Lemma logs_refl (Q : Event -> Prop) (s : World) : logs Q s s.
Proof.
  intros Hb. split; [exact Hb |]. exists []. rewrite app_nil_r.
  split; [reflexivity | constructor].
Qed.

Lemma logs_trans (Q : Event -> Prop) (a b c : World) :
  logs Q a b -> logs Q b c -> logs Q a c.
Proof.
  intros Hab Hbc Ha. destruct (Hab Ha) as [Hb [n1 [H1 F1]]].
  destruct (Hbc Hb) as [Hc [n2 [H2 F2]]]. split; [exact Hc |].
  exists (n1 ++ n2). rewrite H2, H1, app_assoc.
  split; [reflexivity | apply Forall_app; split; assumption].
Qed.

Lemma logs_weaken (Q Q' : Event -> Prop) (s s' : World) :
  (forall e, Q e -> Q' e) -> logs Q s s' -> logs Q' s s'.
Proof.
  intros HQ H Hb. destruct (H Hb) as [Hb' [new [Hl F]]]. split; [exact Hb' |].
  exists new. split; [exact Hl |]. eapply Forall_impl; eassumption.
Qed.

Lemma frame_logs (Q : Event -> Prop) (s s' : World) : frame Q s s' -> logs Q s s'.
Proof.
  intros H Hb. split; [rewrite (fr_isBatchingUpdates H); exact Hb |].
  exact (fr_log H).
Qed.

Lemma steps_logs (K : Atom -> Prop) (Q : Event -> Prop) (s s' : World) :
  (forall a, K a -> atom_events_in Q a) ->
  batching_steps K s s' -> logs Q s s'.
Proof.
  intros HK H Hb. apply frame_logs; [| exact Hb].
  eapply steps_frame; [exact HK | exact (H Hb)].
Qed.

Ltac logs_bind :=
  apply always_bind; [apply logs_trans | | intros ?].

(** The primitive steps. *)

Lemma always_logs_same {A : Type} (Q : Event -> Prop) (m : M A) :
  (forall s s', final (m s) = Some s' ->
     log s' = log s /\ isBatchingUpdates s' = isBatchingUpdates s) ->
  always (logs Q) m.
Proof.
  intros Hm s s' H Hb. destruct (Hm s s' H) as [Hl Hf].
  split; [rewrite Hf; exact Hb |]. exists []. rewrite app_nil_r.
  split; [exact Hl | constructor].
Qed.

Lemma always_logs_modify (Q : Event -> Prop) (f : World -> World) :
  (forall s, log (f s) = log s /\ isBatchingUpdates (f s) = isBatchingUpdates s) ->
  always (logs Q) (modify f).
Proof.
  intros Hf. apply always_logs_same. intros s s' H. inversion H. subst. apply Hf.
Qed.

Lemma always_logs_emit (Q : Event -> Prop) (e : Event) :
  Q e -> always (logs Q) (emit e).
Proof.
  intros He s s' H Hb. inversion H. subst. split; [exact Hb |].
  exists [e]. split; [reflexivity | repeat constructor; exact He].
Qed.

Lemma always_logs_with_queue (Q : Event -> Prop) (q : QueueId)
    (f : CallbackQueue -> CallbackQueue) :
  always (logs Q) (with_queue q f).
Proof.
  apply always_logs_same. intros s s' H. unfold with_queue in H.
  destruct (nth_error (queues s) q); inversion H; subst; split; reflexivity.
Qed.

Lemma always_logs_get_flushTx (Q : Event -> Prop) (t : TxId) :
  always (logs Q) (get_flushTx t).
Proof.
  apply always_logs_same. intros s s' H. unfold get_flushTx in H.
  destruct (nth_error (flushTxs s) t); inversion H; subst; split; reflexivity.
Qed.

Lemma always_logs_getReactMountReady (Q : Event -> Prop) (r : RtxId) :
  always (logs Q) (getReactMountReady r).
Proof.
  apply always_logs_same. intros s s' H.
  unfold getReactMountReady, get_reconcileTx, bind, ret, throw in H.
  destruct (nth_error (reconcileTxs s) r) as [o |]; simpl in H.
  - destruct (reactMountReady o); inversion H; subst; split; reflexivity.
  - inversion H; subst; split; reflexivity.
Qed.

(** notifyAll *)

Lemma always_logs_invoke (P : Program) (n : nat) (cb : option Callback)
    (this arg : Value) :
  always (logs notify_event) (invoke P n cb this arg).
Proof.
  intros s s' H Hb.
  destruct (invoke_outcome P n cb this arg s Hb H)
    as [[_ [-> _]] | [c [_ Hsteps]]].
  - apply logs_refl. exact Hb.
  - eapply logs_trans; [| | exact Hb].
    + apply (@always_logs_emit notify_event (EvInvoke c this arg) I s). reflexivity.
    + eapply steps_logs; [| intros _; exact Hsteps].
      intros a Ha. eapply atom_events_in_weaken; [| apply ref_atom_events, Ha].
      intros e He. destruct e; simpl in *; tauto.
Qed.

Lemma always_logs_invokeAll (P : Program) (n : nat) (arg : Value)
    (callbacks : list (option Callback)) :
  forall contexts, always (logs notify_event) (invokeAll P n callbacks contexts arg).
Proof.
  induction callbacks as [| cb rest IH]; intros contexts; simpl.
  - apply always_ret. apply logs_refl.
  - logs_bind; [apply always_logs_invoke | apply IH].
Qed.

Lemma always_logs_notifyAll (P : Program) (n : nat) (q : QueueId) :
  always (logs notify_event) (CallbackQueue_notifyAll P n q).
Proof.
  intros s s' H. unfold CallbackQueue_notifyAll in H.
  destruct (nth_error (queues s) q) as [this |] eqn:Hq;
    [| inversion H; subst; apply logs_refl].
  destruct (_callbacks this) as [callbacks |];
    [| inversion H; subst; apply logs_refl].
  destruct (_contexts this) as [contexts |];
    [| inversion H; subst; apply logs_refl].
  destruct (Nat.eqb (length callbacks) (length contexts));
    [| inversion H; subst; apply logs_refl].
  revert H. revert s'. 
  assert (Hall : always (logs notify_event)
            (with_queue q (fun o => {| _callbacks := None; _contexts := None;
                                       _arg := _arg o |}) ;;
             invokeAll P n callbacks contexts (_arg this))).
  { logs_bind; [apply always_logs_with_queue | apply always_logs_invokeAll]. }
  intros s'. apply Hall.
Qed.

(** One pass *)

Lemma post_atom_loop_atom (a : Atom) : post_atom a -> loop_atom a.
Proof.
  destruct a; simpl; try tauto;
    try (destruct cb; simpl; tauto); try (destruct e; simpl; tauto).
Qed.

Lemma always_steps_batchIteration (P : Program) (n : nat) (tx : TxId) (c : CompId) :
  always (batching_steps loop_atom) (batchIteration P n tx c).
Proof.
  intros s s1 H Hb.
  pose proof (batchIteration_post P n tx c s Hb H) as Hpost.
  apply (@steps_atom loop_atom (AStash c) s s1 I I).
  destruct (nth_error (flushTxs s) tx).
  - apply (@steps_atom loop_atom (AEmit (EvPerformUpdate c (updateBatchNumber s)))
             (do_atom (AStash c) s) s1 I I).
    eapply steps_weaken; [apply post_atom_loop_atom | exact Hpost].
  - destruct Hpost as [-> _]. apply steps_refl.
Qed.

Lemma always_steps_batchLoop (P : Program) (n : nat) (tx : TxId) (k : nat) :
  forall i, always (batching_steps loop_atom) (batchLoop P n tx i k).
Proof.
  induction k as [| k IH]; intros i; simpl.
  - apply always_ret. apply batching_steps_refl.
  - steps_bind; [apply always_get; apply batching_steps_refl |].
    destruct (nth_error a i).
    + steps_bind; [apply always_steps_batchIteration | apply IH].
    + apply always_throw. apply batching_steps_refl.
Qed.

Lemma always_logs_runBatchedUpdates (P : Program) (n : nat) (tx : TxId) :
  always (logs loop_event) (runBatchedUpdates P n tx).
Proof.
  unfold runBatchedUpdates. logs_bind; [apply always_logs_get_flushTx |].
  intros s s' H.
  destruct (dirtyComponentsLength a) as [len |];
    [| inversion H; subst; apply logs_refl].
  destruct (Nat.eqb len (length (dirtyComponents s)));
    [| inversion H; subst; apply logs_refl].
  revert s' H.
  assert (Hall : always (logs loop_event)
    (modify (fun s => set_dirtyComponents
               (array_sort (mountOrderComparator s) (dirtyComponents s)) s) ;;
     modify (fun s => set_updateBatchNumber (updateBatchNumber s + 1) s) ;;
     batchLoop P n tx 0 len)).
  { logs_bind; [apply always_logs_modify; intros s0; split; reflexivity |].
    logs_bind; [apply always_logs_modify; intros s0; split; reflexivity |].
    eapply always_weaken; [| apply always_steps_batchLoop].
    intros s0 s1. apply steps_logs, loop_atom_events. }
  intros s'. apply Hall.
Qed.

(** The pools *)

Lemma always_logs_CallbackQueue_getPooled (arg : Value) :
  always (logs pool_event) (CallbackQueue_getPooled arg).
Proof.
  intros s s' H Hb. unfold CallbackQueue_getPooled in H.
  destruct (pop_or_construct (queuePool s) (length (queues s))) as [q rest].
  unfold bind, modify, emit, ret in H. simpl in H. inversion H. subst.
  split; [exact Hb |]. simpl. eexists. split; [reflexivity |].
  repeat constructor.
Qed.

Lemma always_logs_CallbackQueue_release (q : QueueId) :
  always (logs pool_event) (CallbackQueue_release q).
Proof.
  unfold CallbackQueue_release.
  logs_bind; [apply always_logs_with_queue |].
  logs_bind; [apply always_logs_modify; intros s0; split; reflexivity |].
  apply always_logs_emit. exact I.
Qed.

Lemma always_logs_ReconcileTransaction_getPooled :
  always (logs pool_event) ReconcileTransaction_getPooled.
Proof.
  intros s s' H. unfold ReconcileTransaction_getPooled in H.
  destruct (pop_or_construct (reconcilePool s) (length (reconcileTxs s))) as [r rest].
  revert s' H.
  assert (Hall : always (logs pool_event)
    (modify (set_reconcilePool rest) ;;
     q <- CallbackQueue_getPooled VNull ;;
     modify (fun s => set_reconcileTxs
               (store r {| reactMountReady := Some q |} (reconcileTxs s)) s) ;;
     emit (EvAcquire KReconcileTransaction r) ;;
     ret r)).
  { logs_bind; [apply always_logs_modify; intros s0; split; reflexivity |].
    logs_bind; [apply always_logs_CallbackQueue_getPooled |].
    logs_bind; [apply always_logs_modify; intros s0; split; reflexivity |].
    logs_bind; [apply always_logs_emit; exact I |].
    apply always_ret. apply logs_refl. }
  intros s'. apply Hall.
Qed.

Lemma always_logs_ReconcileTransaction_release (r : RtxId) :
  always (logs pool_event) (ReconcileTransaction_release r).
Proof.
  unfold ReconcileTransaction_release.
  logs_bind.
  { apply always_logs_same. intros s s' H. unfold get_reconcileTx in H.
    destruct (nth_error (reconcileTxs s) r); inversion H; subst; split; reflexivity. }
  logs_bind.
  { destruct (reactMountReady a).
    - apply always_logs_CallbackQueue_release.
    - apply always_throw. apply logs_refl. }
  logs_bind; [apply always_logs_modify; intros s0; split; reflexivity |].
  logs_bind; [apply always_logs_modify; intros s0; split; reflexivity |].
  apply always_logs_emit. exact I.
Qed.

Lemma always_logs_FlushTransaction_getPooled :
  always (logs pool_event) FlushTransaction_getPooled.
Proof.
  intros s s' H. unfold FlushTransaction_getPooled in H.
  destruct (pop_or_construct (flushPool s) (length (flushTxs s))) as [t rest].
  revert s' H.
  assert (Hall : always (logs pool_event)
    (modify (set_flushPool rest) ;;
     q <- CallbackQueue_getPooled VUndefined ;;
     (fun s => if ReactReconcileTransaction s then Ok tt s else Throw TypeError s) ;;
     r <- ReconcileTransaction_getPooled ;;
     modify (fun s => set_flushTxs
               (store t {| dirtyComponentsLength := None;
                           callbackQueue := Some q;
                           reconcileTransaction := Some r |} (flushTxs s)) s) ;;
     emit (EvAcquire KFlushTransaction t) ;;
     ret t)).
  { logs_bind; [apply always_logs_modify; intros s0; split; reflexivity |].
    logs_bind; [apply always_logs_CallbackQueue_getPooled |].
    logs_bind.
    { apply always_logs_same. intros s0 s1 H.
      destruct (ReactReconcileTransaction s0); inversion H; subst; split; reflexivity. }
    logs_bind; [apply always_logs_ReconcileTransaction_getPooled |].
    logs_bind; [apply always_logs_modify; intros s0; split; reflexivity |].
    logs_bind; [apply always_logs_emit; exact I |].
    apply always_ret. apply logs_refl. }
  intros s'. apply Hall.
Qed.

Lemma always_logs_FlushTransaction_release (t : TxId) :
  always (logs pool_event) (FlushTransaction_release t).
Proof.
  unfold FlushTransaction_release, FlushTransaction_destructor.
  logs_bind.
  { logs_bind; [apply always_logs_get_flushTx |].
    logs_bind; [apply always_logs_modify; intros s0; split; reflexivity |].
    logs_bind.
    { destruct (callbackQueue a).
      - apply always_logs_CallbackQueue_release.
      - apply always_throw. apply logs_refl. }
    logs_bind; [apply always_logs_modify; intros s0; split; reflexivity |].
    logs_bind.
    { destruct (reconcileTransaction a).
      - apply always_logs_ReconcileTransaction_release.
      - apply always_throw. apply logs_refl. }
    apply always_logs_modify; intros s0; split; reflexivity. }
  logs_bind; [apply always_logs_modify; intros s0; split; reflexivity |].
  apply always_logs_emit. exact I.
Qed.

(** * Pool discipline of the flush *)

Lemma acquired_app (k : PoolClass) (l1 l2 : list Event) :
  acquired k (l1 ++ l2) = acquired k l1 ++ acquired k l2.
Proof. apply flat_map_app. Qed.

Lemma released_app (k : PoolClass) (l1 l2 : list Event) :
  released k (l1 ++ l2) = released k l1 ++ released k l2.
Proof. apply flat_map_app. Qed.

Lemma acquired_no_pool (k : PoolClass) (l : list Event) :
  Forall no_pool_event l -> acquired k l = [].
Proof.
  induction 1 as [| e l He _ IH]; [reflexivity |].
  simpl. fold (acquired k l). rewrite IH.
  destruct e; try reflexivity. exfalso. apply He. exact I.
Qed.

Lemma released_no_pool (k : PoolClass) (l : list Event) :
  Forall no_pool_event l -> released k l = [].
Proof.
  induction 1 as [| e l He _ IH]; [reflexivity |].
  simpl. fold (released k l). rewrite IH.
  destruct e; try reflexivity. exfalso. apply He. exact I.
Qed.

Lemma balanced_nil : balanced [].
Proof. repeat split. apply perm_nil. Qed.

Lemma balanced_app (l1 l2 : list Event) :
  balanced l1 -> balanced l2 -> balanced (l1 ++ l2).
Proof.
  intros [P1 [R1 Q1]] [P2 [R2 Q2]]. unfold balanced.
  rewrite !acquired_app, !released_app, !length_app.
  split; [apply Permutation_app; assumption | lia].
Qed.

Lemma balanced_no_pool (l : list Event) : Forall no_pool_event l -> balanced l.
Proof.
  intros H. unfold balanced.
  rewrite !(acquired_no_pool _ H), !(released_no_pool _ H).
  repeat split. apply perm_nil.
Qed.

Lemma releases_all_refl (s : World) : releases_all s s.
Proof.
  intros Hb. split; [exact Hb |]. exists []. rewrite app_nil_r.
  split; [reflexivity | apply balanced_nil].
Qed.

Lemma releases_all_trans (a b c : World) :
  releases_all a b -> releases_all b c -> releases_all a c.
Proof.
  intros Hab Hbc Ha. destruct (Hab Ha) as [Hb [n1 [H1 B1]]].
  destruct (Hbc Hb) as [Hc [n2 [H2 B2]]]. split; [exact Hc |].
  exists (n1 ++ n2). rewrite H2, H1, app_assoc.
  split; [reflexivity | apply balanced_app; assumption].
Qed.

Lemma logs_releases_all (Q : Event -> Prop) (s s' : World) :
  (forall e, Q e -> no_pool_event e) -> logs Q s s' -> releases_all s s'.
Proof.
  intros HQ H Hb. destruct (H Hb) as [Hb' [new [Hl F]]]. split; [exact Hb' |].
  exists new. split; [exact Hl |]. apply balanced_no_pool.
  eapply Forall_impl; eassumption.
Qed.

Lemma on_ok_of_logs {A : Type} (Q : Event -> Prop) (m : M A) :
  (forall e, Q e -> no_pool_event e) -> always (logs Q) m -> on_ok releases_all m.
Proof.
  intros HQ Hm. apply always_on_ok. eapply always_weaken; [| exact Hm].
  intros s s'. apply logs_releases_all, HQ.
Qed.

Lemma loop_event_no_pool (e : Event) : loop_event e -> no_pool_event e.
Proof. destruct e; simpl; unfold no_pool_event; simpl; tauto. Qed.

Lemma notify_event_no_pool (e : Event) : notify_event e -> no_pool_event e.
Proof. destruct e; simpl; unfold no_pool_event; simpl; tauto. Qed.

Lemma no_event_no_pool (e : Event) : False -> no_pool_event e.
Proof. tauto. Qed.

Ltac ok_bind :=
  apply on_ok_bind; [apply releases_all_trans | | intros ?].

(** What the acquisitions and releases log when they return. *)

Lemma CallbackQueue_getPooled_log (arg : Value) (s s1 : World) (q : QueueId) :
  CallbackQueue_getPooled arg s = Ok q s1 ->
  isBatchingUpdates s1 = isBatchingUpdates s
  /\ ReactReconcileTransaction s1 = ReactReconcileTransaction s
  /\ log s1 = log s ++ [EvAcquire KCallbackQueue q].
Proof.
  unfold CallbackQueue_getPooled.
  destruct (pop_or_construct (queuePool s) (length (queues s))) as [q0 rest].
  unfold bind, modify, emit, ret. simpl. intros H. inversion H. subst.
  repeat split.
Qed.

Lemma CallbackQueue_release_log (q : QueueId) (s s1 : World) :
  CallbackQueue_release q s = Ok tt s1 ->
  isBatchingUpdates s1 = isBatchingUpdates s
  /\ reconcileTxs s1 = reconcileTxs s
  /\ flushTxs s1 = flushTxs s
  /\ log s1 = log s ++ [EvRelease KCallbackQueue q].
Proof.
  unfold CallbackQueue_release, bind, with_queue, modify, emit.
  destruct (nth_error (queues s) q); simpl; intros H; inversion H; subst.
  repeat split.
Qed.

Lemma ReconcileTransaction_getPooled_log (s s1 : World) (r : RtxId) :
  ReconcileTransaction_getPooled s = Ok r s1 ->
  isBatchingUpdates s1 = isBatchingUpdates s
  /\ exists q, log s1 = log s ++ [EvAcquire KCallbackQueue q;
                                  EvAcquire KReconcileTransaction r].
Proof.
  unfold ReconcileTransaction_getPooled.
  destruct (pop_or_construct (reconcilePool s) (length (reconcileTxs s))) as [r0 rest].
  unfold bind at 1, modify at 1. simpl.
  unfold bind at 1.
  destruct (CallbackQueue_getPooled VNull (set_reconcilePool rest s))
    as [q s0 | |] eqn:Hq; try discriminate.
  destruct (CallbackQueue_getPooled_log _ _ Hq) as [Hb [_ Hl]].
  unfold bind, modify, emit, ret. simpl. intros H. inversion H. subst.
  split; [exact Hb |]. exists q. rewrite Hl. simpl. rewrite <- app_assoc.
  reflexivity.
Qed.

Lemma ReconcileTransaction_release_log (r : RtxId) (s s1 : World) :
  ReconcileTransaction_release r s = Ok tt s1 ->
  isBatchingUpdates s1 = isBatchingUpdates s
  /\ flushTxs s1 = flushTxs s
  /\ exists q, log s1 = log s ++ [EvRelease KCallbackQueue q;
                                  EvRelease KReconcileTransaction r].
Proof.
  unfold ReconcileTransaction_release, get_reconcileTx.
  unfold bind at 1.
  destruct (nth_error (reconcileTxs s) r) as [o |]; try discriminate.
  unfold bind at 1.
  destruct (reactMountReady o) as [q |]; [| discriminate].
  destruct (CallbackQueue_release q s) as [[] s0 | |] eqn:Hq; try discriminate.
  destruct (CallbackQueue_release_log _ _ Hq) as [Hb [_ [Hf Hl]]].
  unfold bind, modify, emit. simpl. intros H. inversion H. subst.
  split; [exact Hb |]. split; [exact Hf |].
  exists q. rewrite Hl. simpl. rewrite <- app_assoc. reflexivity.
Qed.

Lemma FlushTransaction_getPooled_log (s s1 : World) (t : TxId) :
  FlushTransaction_getPooled s = Ok t s1 ->
  isBatchingUpdates s1 = isBatchingUpdates s
  /\ exists q q' r, log s1 = log s ++ [EvAcquire KCallbackQueue q;
                                       EvAcquire KCallbackQueue q';
                                       EvAcquire KReconcileTransaction r;
                                       EvAcquire KFlushTransaction t].
Proof.
  unfold FlushTransaction_getPooled.
  destruct (pop_or_construct (flushPool s) (length (flushTxs s))) as [t0 rest].
  unfold bind at 1, modify at 1. simpl.
  unfold bind at 1.
  destruct (CallbackQueue_getPooled VUndefined (set_flushPool rest s))
    as [q s0 | |] eqn:Hq; try discriminate.
  destruct (CallbackQueue_getPooled_log _ _ Hq) as [Hb [_ Hl]].
  unfold bind at 1.
  destruct (ReactReconcileTransaction s0); [| discriminate].
  unfold bind at 1.
  destruct (ReconcileTransaction_getPooled s0) as [r s2 | |] eqn:Hr; try discriminate.
  destruct (ReconcileTransaction_getPooled_log _ Hr) as [Hb2 [q' Hl2]].
  unfold bind, modify, emit, ret. simpl. intros H. inversion H. subst.
  split; [simpl in *; congruence |]. exists q, q', r. rewrite Hl2, Hl. simpl.
  rewrite <- !app_assoc. reflexivity.
Qed.

Lemma FlushTransaction_release_log (t : TxId) (s s1 : World) :
  FlushTransaction_release t s = Ok tt s1 ->
  isBatchingUpdates s1 = isBatchingUpdates s
  /\ exists q q' r, log s1 = log s ++ [EvRelease KCallbackQueue q;
                                       EvRelease KCallbackQueue q';
                                       EvRelease KReconcileTransaction r;
                                       EvRelease KFlushTransaction t].
Proof.
  unfold FlushTransaction_release, FlushTransaction_destructor, get_flushTx.
  unfold bind at 1. unfold bind at 1.
  destruct (nth_error (flushTxs s) t) as [o |]; try discriminate.
  unfold bind at 1, modify at 1. simpl.
  unfold bind at 1.
  destruct (callbackQueue o) as [q |]; [| discriminate].
  match goal with
  | |- context [CallbackQueue_release q ?st] =>
      destruct (CallbackQueue_release q st) as [[] s0 | |] eqn:Hq; try discriminate
  end.
  destruct (CallbackQueue_release_log _ _ Hq) as [Hb [_ [Hf Hl]]]. simpl in *.
  unfold bind at 1, modify at 1. simpl.
  unfold bind at 1.
  destruct (reconcileTransaction o) as [r |]; [| discriminate].
  match goal with
  | |- context [ReconcileTransaction_release r ?st] =>
      destruct (ReconcileTransaction_release r st) as [[] s2 | |] eqn:Hr;
        try discriminate
  end.
  destruct (ReconcileTransaction_release_log _ _ Hr) as [Hb2 [Hf2 [q' Hl2]]].
  simpl in *.
  unfold bind, modify, emit. simpl. intros H. inversion H. subst.
  split; [simpl in *; congruence |]. exists q, q', r. rewrite Hl2, Hl. simpl.
  rewrite <- !app_assoc. reflexivity.
Qed.

Lemma on_ok_NESTED_UPDATES (flush : M unit) (t : TxId) :
  on_ok releases_all flush ->
  on_ok releases_all (initialize (NESTED_UPDATES flush t))
  /\ on_ok releases_all (close (NESTED_UPDATES flush t)).
Proof.
  intros Hflush. split; simpl.
  - apply (@on_ok_of_logs _ (fun _ => False)); [apply no_event_no_pool |].
    logs_bind; [apply always_logs_get_flushTx |].
    apply always_logs_modify. intros s0. split; reflexivity.
  - ok_bind.
    { apply (@on_ok_of_logs _ (fun _ => False)); [apply no_event_no_pool |].
      apply always_logs_get_flushTx. }
    intros s [] s' H.
    destruct (negb (option_nat_eqb (dirtyComponentsLength a)
                      (Some (length (dirtyComponents s))))).
    + unfold bind, modify in H. simpl in H.
      intros Hb. apply (Hflush _ _ _ H). exact Hb.
    + inversion H. subst. intros Hb. split; [exact Hb |].
      exists []. simpl. rewrite app_nil_r. split; [reflexivity | apply balanced_nil].
Qed.

Lemma on_ok_UPDATE_QUEUEING (P : Program) (n : nat) (t : TxId) :
  on_ok releases_all (initialize (UPDATE_QUEUEING P n t))
  /\ on_ok releases_all (close (UPDATE_QUEUEING P n t)).
Proof.
  split; simpl.
  - apply (@on_ok_of_logs _ notify_event); [apply notify_event_no_pool |].
    logs_bind; [apply always_logs_get_flushTx |].
    destruct (callbackQueue a).
    + apply always_logs_with_queue.
    + apply always_throw. apply logs_refl.
  - apply (@on_ok_of_logs _ notify_event); [apply notify_event_no_pool |].
    logs_bind; [apply always_logs_get_flushTx |].
    destruct (callbackQueue a).
    + apply always_logs_notifyAll.
    + apply always_throw. apply logs_refl.
Qed.

Lemma always_logs_RECONCILE_WRAPPERS (P : Program) (n : nat) (r : RtxId) (w : Wrapper) :
  In w (RECONCILE_WRAPPERS P n r) ->
  always (logs notify_event) (initialize w) /\ always (logs notify_event) (close w).
Proof.
  intros [<- | []]. split; simpl.
  - logs_bind; [apply always_logs_getReactMountReady | apply always_logs_with_queue].
  - logs_bind; [apply always_logs_getReactMountReady | apply always_logs_notifyAll].
Qed.

Lemma on_ok_FlushTransaction_perform (P : Program) (n : nat) (flush : M unit) (t : TxId) :
  on_ok releases_all flush ->
  on_ok releases_all (FlushTransaction_perform P n flush t (runBatchedUpdates P n t)).
Proof.
  intros Hflush. unfold FlushTransaction_perform.
  ok_bind.
  { apply (@on_ok_of_logs _ (fun _ => False)); [apply no_event_no_pool |].
    apply always_logs_get_flushTx. }
  destruct (reconcileTransaction a) as [r |]; [| apply on_ok_throw].
  apply on_ok_perform.
  - apply releases_all_refl.
  - apply releases_all_trans.
  - intros w [<- | [<- | []]].
    + apply on_ok_NESTED_UPDATES, Hflush.
    + apply on_ok_UPDATE_QUEUEING.
  - apply on_ok_perform.
    + apply releases_all_refl.
    + apply releases_all_trans.
    + intros w Hw.
      destruct (always_logs_RECONCILE_WRAPPERS Hw) as [Hi Hc].
      split; (eapply on_ok_of_logs; [apply notify_event_no_pool | assumption]).
    + eapply on_ok_of_logs; [apply loop_event_no_pool |].
      apply always_logs_runBatchedUpdates.
Qed.

(** A flush that returns has released what it acquired. *)
Lemma on_ok_releases_flush (P : Program) (n : nat) :
  on_ok releases_all (flushBatchedUpdates P n).
Proof.
  induction n as [| n IH]; intros s [] s' H; [discriminate |].
  cbn [flushBatchedUpdates] in H.
  destruct (is_nonempty (dirtyComponents s) || asapEnqueued s);
    [| inversion H; subst; apply releases_all_refl].
  apply ok_bind_inv in H. destruct H as [[] [s3 [H1 H]]].
  apply ok_bind_inv in H. destruct H as [[] [s4 [H2 H]]].
  eapply releases_all_trans; [| eapply releases_all_trans; [| eapply IH; exact H]].
  - (* the flush transaction *)
    destruct (is_nonempty (dirtyComponents s));
      [| inversion H1; subst; apply releases_all_refl].
    apply ok_bind_inv in H1. destruct H1 as [t [s1 [Hg H1]]].
    apply ok_bind_inv in H1. destruct H1 as [[] [s2 [Hp H1]]].
    destruct (FlushTransaction_getPooled_log _ Hg) as [Hb1 [q [q' [r Hl1]]]].
    destruct (FlushTransaction_release_log _ _ H1) as [Hb3 [q2 [q2' [r2 Hl3]]]].
    intros Hb.
    destruct (@on_ok_FlushTransaction_perform P n _ t IH _ _ _ Hp) as [Hb2 [mid [Hl2 Hmid]]];
      [congruence |].
    split; [congruence |].
    exists ([EvAcquire KCallbackQueue q; EvAcquire KCallbackQueue q';
             EvAcquire KReconcileTransaction r; EvAcquire KFlushTransaction t]
            ++ mid
            ++ [EvRelease KCallbackQueue q2; EvRelease KCallbackQueue q2';
                EvRelease KReconcileTransaction r2; EvRelease KFlushTransaction t]).
    split; [rewrite Hl3, Hl2, Hl1, <- !app_assoc; reflexivity |].
    destruct Hmid as [Pm [Rm Qm]]. unfold balanced.
    rewrite !acquired_app, !released_app, !length_app. simpl.
    rewrite !app_nil_r. split; [| lia].
    apply Permutation_cons_app. rewrite app_nil_r. exact Pm.
  - (* the asap queue *)
    destruct (asapEnqueued s3); [| inversion H2; subst; apply releases_all_refl].
    apply ok_bind_inv in H2. destruct H2 as [[] [s5 [Hm H2]]].
    inversion Hm. subst s5. clear Hm.
    apply ok_bind_inv in H2. destruct H2 as [queue [s5 [Hm H2]]].
    inversion Hm. subst s5 queue. clear Hm.
    apply ok_bind_inv in H2. destruct H2 as [q' [s5 [Hg H2]]].
    apply ok_bind_inv in H2. destruct H2 as [[] [s6 [Hm H2]]].
    inversion Hm. subst s6. clear Hm.
    apply ok_bind_inv in H2. destruct H2 as [[] [s6 [Hn H2]]].
    destruct (CallbackQueue_getPooled_log _ _ Hg) as [Hb5 [_ Hl5]].
    destruct (CallbackQueue_release_log _ _ H2) as [Hb7 [_ [_ Hl7]]].
    intros Hb.
    assert (Hlogs : logs notify_event (set_asapCallbackQueue q' s5) s6).
    { apply (@always_logs_notifyAll P n _ _ _ ltac:(rewrite Hn; reflexivity)). }
    destruct Hlogs as [Hb6 [mid [Hl6 Hmid]]]; [simpl in *; congruence |].
    split; [congruence |].
    simpl in *.
    exists ([EvAcquire KCallbackQueue q'] ++ mid
            ++ [EvRelease KCallbackQueue (asapCallbackQueue s3)]).
    split; [rewrite Hl7, Hl6, Hl5, <- !app_assoc; reflexivity |].
    assert (Hnp : Forall no_pool_event mid)
      by (eapply Forall_impl; [| exact Hmid]; apply notify_event_no_pool).
    unfold balanced. simpl.
    rewrite !acquired_app, !released_app, !length_app.
    rewrite !(acquired_no_pool _ Hnp), !(released_no_pool _ Hnp). simpl.
    repeat split. apply perm_nil.
Qed.




(** * Callbacks of a well-behaved program *)

Section CalmCallbacks.
Variable P : Program.
Hypothesis Hfn : forall f this arg w, no_clear (fn_body P f this arg w).

Lemma always_calm_body (n : nat) (f : FnId) (this arg : Value) :
  always (batching_steps calm_atom) (fun s => runCmds P n (fn_body P f this arg s) s).
Proof.
  intros s s' H.
  eapply batching_steps_weaken;
    [| exact (@always_runCmds_in P _ n _ (cmd_atoms_calm (Hfn f this arg s)) s s' H)].
  intros a [_ Ha]. exact Ha.
Qed.

Lemma always_calm_call_fn (n : nat) (f : FnId) (this arg : Value) :
  always (batching_steps calm_atom) (call_fn P n f this arg).
Proof.
  unfold call_fn. steps_bind; [apply always_emit; exact I | apply always_calm_body].
Qed.

Lemma always_calm_call_ref (n : nat) (f : FnId) (arg : Value) :
  always (batching_steps calm_atom) (call_ref P n f arg).
Proof.
  unfold call_ref. steps_bind; [apply always_emit; exact I | apply always_calm_body].
Qed.

Lemma always_calm_attachRefs (n : nat) (c : CompId) (element : Node) :
  always (batching_steps calm_atom) (ReactRef_attachRefs P n c element).
Proof.
  destruct element; simpl; try (apply always_ret; apply batching_steps_refl).
  intros s s' H. destruct (ref (elements s e)) eqn:Hr.
  - inversion H. subst. apply batching_steps_refl.
  - exact (always_calm_call_ref n f (VPublic c) s H).
  - exact (@always_emit calm_atom (EvAddRef c (RefName name) (_owner (elements s e))) I s s' H).
Qed.

Lemma always_calm_invoke (n : nat) (cb : option Callback) (this arg : Value) :
  always (batching_steps calm_atom) (invoke P n cb this arg).
Proof.
  destruct cb as [[f |] |]; simpl.
  - apply always_calm_call_fn.
  - steps_bind; [apply always_emit; exact I |].
    destruct this; try (apply always_throw; apply batching_steps_refl).
    intros s s' H. exact (always_calm_attachRefs n c _ s H).
  - apply always_throw. apply batching_steps_refl.
Qed.

Lemma always_calm_invokeAll (n : nat) (arg : Value) (callbacks : list (option Callback)) :
  forall contexts,
    always (batching_steps calm_atom) (invokeAll P n callbacks contexts arg).
Proof.
  induction callbacks as [| cb rest IH]; intros contexts; simpl.
  - apply always_ret. apply batching_steps_refl.
  - steps_bind; [apply always_calm_invoke | apply IH].
Qed.

Lemma always_calm_reset (q : QueueId) :
  always (batching_steps calm_atom) (with_queue q CallbackQueue_reset).
Proof.
  intros s s' H _. unfold with_queue in H.
  pose proof (steps_one calm_atom (AReset q) s I I) as Hs. simpl in Hs.
  destruct (nth_error (queues s) q); inversion H; subst;
    [exact Hs | apply steps_refl].
Qed.

Lemma always_calm_notifyAll (n : nat) (q : QueueId) :
  always (batching_steps calm_atom) (CallbackQueue_notifyAll P n q).
Proof.
  intros s s' H. unfold CallbackQueue_notifyAll in H.
  destruct (nth_error (queues s) q) as [this |] eqn:Hq;
    [| inversion H; subst; apply batching_steps_refl].
  destruct (_callbacks this) as [callbacks |];
    [| inversion H; subst; apply batching_steps_refl].
  destruct (_contexts this) as [contexts |];
    [| inversion H; subst; apply batching_steps_refl].
  destruct (Nat.eqb (length callbacks) (length contexts));
    [| inversion H; subst; apply batching_steps_refl].
  assert (Hall : always (batching_steps calm_atom)
            (with_queue q CallbackQueue_reset ;;
             invokeAll P n callbacks contexts (_arg this))).
  { steps_bind; [apply always_calm_reset | apply always_calm_invokeAll]. }
  exact (Hall s s' H).
Qed.

Lemma always_calm_enqueue_stashed (o : FlushTransaction)
    (callbacks : option (list Callback)) (c : CompId) :
  always (batching_steps calm_atom) (enqueue_stashed o callbacks c).
Proof. apply always_enqueue_stashed. intros q' cb. exact I. Qed.
End CalmCallbacks.

(** * The invariants and the atoms *)

Lemma same_schedule_refl (s : World) : same_schedule s s.
Proof. constructor; auto. Qed.

Lemma same_schedule_trans (a b c : World) :
  same_schedule a b -> same_schedule b c -> same_schedule a c.
Proof.
  intros [Hb1 Ht1 Hg1 Hd1 Hr1] [Hb2 Ht2 Hg2 Hd2 Hr2]. constructor.
  - congruence.
  - intros c0. rewrite Ht2. apply Ht1.
  - congruence.
  - congruence.
  - intros x Hx. apply Hr1, Hr2, Hx.
Qed.

Lemma settled_same (s s' : World) : same_schedule s s' -> settled s -> settled s'.
Proof.
  intros [Hb Ht Hg Hd Hr] [Sb St Ss]. constructor.
  - congruence.
  - intros c t H. rewrite Ht in H. rewrite Hg, Hd. apply St, H.
  - intros c t H. rewrite Ht. apply Ss, Hr, H.
Qed.

Lemma in_pass_same (len i : nat) (s s' : World) :
  same_schedule s s' -> in_pass len i s -> in_pass len i s'.
Proof.
  intros [Hb Ht Hg Hd Hr] [Sb Sl St Ss]. constructor.
  - congruence.
  - congruence.
  - intros c t H. rewrite Ht in H. rewrite Hg, Hd. apply St, H.
  - intros c t H. rewrite Ht. apply Ss, Hr, H.
Qed.

Lemma scheduled_updates_app (l1 l2 : list Event) :
  scheduled_updates (l1 ++ l2) = scheduled_updates l1 ++ scheduled_updates l2.
Proof. apply flat_map_app. Qed.

Lemma outstanding_app (l1 l2 : list Event) :
  outstanding (l1 ++ l2) = fold_left record_event l2 (outstanding l1).
Proof. apply fold_left_app. Qed.

Lemma outstanding_snoc (l : list Event) (e : Event) :
  outstanding (l ++ [e]) = record_event (outstanding l) e.
Proof. apply outstanding_app. Qed.

Lemma update_eqb_eq (x y : CompId * nat) : update_eqb x y = true <-> x = y.
Proof.
  destruct x as [a b], y as [c d]. unfold update_eqb. simpl.
  rewrite andb_true_iff, !Nat.eqb_eq. split; [intros [-> ->] | intros H; inversion H]; auto.
Qed.

(** Only a tagging adds to what is outstanding. *)
Lemma record_event_incl (out : list (CompId * nat)) (e : Event) (x : CompId * nat) :
  (forall c g, e <> EvSchedule c g) -> In x (record_event out e) -> In x out.
Proof.
  intros He H. destruct e; simpl in H; auto.
  - exfalso. exact (He _ _ eq_refl).
  - apply filter_In in H. apply H.
Qed.

Lemma outstanding_emit (l : list Event) (e : Event) (x : CompId * nat) :
  (forall c g, e <> EvSchedule c g) -> In x (outstanding (l ++ [e])) -> In x (outstanding l).
Proof. rewrite outstanding_snoc. apply record_event_incl. Qed.

Lemma outstanding_schedule (l : list Event) (c : CompId) (g : nat) (x : CompId * nat) :
  In x (outstanding (l ++ [EvSchedule c g])) <-> In x (outstanding l) \/ x = (c, g).
Proof.
  rewrite outstanding_snoc. simpl. rewrite in_app_iff. simpl.
  split; intros [H | H]; auto.
  - destruct H as [H | []]. auto.
Qed.

Lemma outstanding_reconcile (l : list Event) (c : CompId) (g : nat) :
  ~ In (c, g) (outstanding (l ++ [EvReconcile c g])).
Proof.
  rewrite outstanding_snoc. simpl. intros H. apply filter_In in H.
  destruct H as [_ H]. apply negb_true_iff in H.
  assert (E : update_eqb (c, g) (c, g) = true) by (apply update_eqb_eq; reflexivity).
  congruence.
Qed.

Lemma reconciled_app (l1 l2 : list Event) :
  reconciled (l1 ++ l2) = reconciled l1 ++ reconciled l2.
Proof. apply flat_map_app. Qed.

Lemma tag_of_with_component (s : World) (c c' : CompId) (f : Component -> Component) :
  (forall o, _updateBatchNumber (f o) = _updateBatchNumber o) ->
  tag_of (with_component c f s) c' = tag_of s c'.
Proof.
  intros Hf. unfold tag_of, with_component. simpl. unfold upd.
  destruct (Nat.eqb c' c) eqn:E; [| reflexivity].
  apply Nat.eqb_eq in E. subst. apply Hf.
Qed.

(** Every calm atom but the mark leaves the schedule as it is. *)
Lemma calm_same_schedule (a : Atom) (s : World) :
  calm_atom a -> (forall c, a <> AMark c) -> same_schedule s (do_atom a s).
Proof.
  intros Ha Hmark. destruct a; simpl in *; try contradiction.
  - exfalso. exact (Hmark c eq_refl).
  - destruct (nth_error (queues s) q); [| apply same_schedule_refl].
    constructor; simpl; auto.
    intros x. apply outstanding_emit. discriminate.
  - constructor; simpl; auto.
  - constructor; simpl; auto.
    intros c0. apply tag_of_with_component. reflexivity.
  - constructor; simpl; auto.
    intros c0. apply (tag_of_with_component s c c0). reflexivity.
  - destruct (nth_error (queues s) q); [| apply same_schedule_refl].
    constructor; simpl; auto.
  - constructor; simpl; auto.
    intros c0. apply (tag_of_with_component s c c0). reflexivity.
  - constructor; simpl; auto.
    intros c0. apply (tag_of_with_component s c c0). reflexivity.
  - constructor; simpl; auto.
    intros x. apply outstanding_emit. intros c g ->. exact Ha.
Qed.

Lemma tag_of_mark_tagged (s : World) (c c' : CompId) (l : list CompId) (ev : list Event) :
  tag_of (set_log ev
            (with_component c (comp_set_updateBatchNumber (Some (updateBatchNumber s + 1)))
               (set_dirtyComponents l s))) c'
  = if Nat.eqb c' c then Some (updateBatchNumber s + 1) else tag_of s c'.
Proof. unfold tag_of. simpl. unfold upd. destruct (Nat.eqb c' c); reflexivity. Qed.

Lemma settled_mark (c : CompId) (s : World) : settled s -> settled (do_atom (AMark c) s).
Proof.
  intros [Sb St Ss]. simpl.
  destruct (_updateBatchNumber (components s c)) as [t0 |] eqn:Htag.
  - constructor.
    + exact Sb.
    + intros c0 t H. destruct (St c0 t H) as [H1 H2].
      split; [exact H1 | apply in_or_app; left; exact H2].
    + exact Ss.
  - constructor.
    + exact Sb.
    + intros c0 t H. rewrite tag_of_mark_tagged in H. simpl.
      destruct (Nat.eqb c0 c) eqn:E.
      * apply Nat.eqb_eq in E. subst c0. inversion H.
        split; [reflexivity | apply in_or_app; right; left; reflexivity].
      * destruct (St c0 t H) as [H1 H2].
        split; [exact H1 | apply in_or_app; left; exact H2].
    + intros c0 t H. rewrite tag_of_mark_tagged. simpl in *.
      apply outstanding_schedule in H. destruct H as [H | H].
      * pose proof (Ss c0 t H) as H1.
        destruct (Nat.eqb c0 c) eqn:E; [| exact H1].
        apply Nat.eqb_eq in E. subst c0. unfold tag_of in H1. congruence.
      * inversion H. subst. rewrite Nat.eqb_refl. reflexivity.
Qed.

Lemma calm_settled (a : Atom) (s : World) :
  calm_atom a -> settled s -> settled (do_atom a s).
Proof.
  intros Ha Hs. destruct a; try (eapply settled_same; [| exact Hs];
    apply calm_same_schedule; [exact Ha | discriminate]).
  apply settled_mark, Hs.
Qed.

Lemma skipn_app_le {A : Type} (n : nat) (l1 l2 : list A) :
  n <= length l1 -> skipn n (l1 ++ l2) = skipn n l1 ++ l2.
Proof.
  intros H. rewrite skipn_app. replace (n - length l1) with 0 by lia. reflexivity.
Qed.

Lemma firstn_app_le {A : Type} (n : nat) (l1 l2 : list A) :
  n <= length l1 -> firstn n (l1 ++ l2) = firstn n l1.
Proof.
  intros H. rewrite firstn_app. replace (n - length l1) with 0 by lia.
  simpl. apply app_nil_r.
Qed.

Lemma in_pass_mark (len i : nat) (c : CompId) (s : World) :
  in_pass len i s -> in_pass len i (do_atom (AMark c) s).
Proof.
  intros [Sb Sl St Ss]. simpl.
  assert (Hgrow : forall c0 t,
            (t = updateBatchNumber s
             /\ In c0 (skipn i (firstn len (dirtyComponents s))))
            \/ (t = updateBatchNumber s + 1
                /\ In c0 (skipn len (dirtyComponents s))) ->
            (t = updateBatchNumber s
             /\ In c0 (skipn i (firstn len (dirtyComponents s ++ [c]))))
            \/ (t = updateBatchNumber s + 1
                /\ In c0 (skipn len (dirtyComponents s ++ [c])))).
  { intros c0 t [[H1 H2] | [H1 H2]].
    - left. rewrite firstn_app_le by exact Sl. auto.
    - right. rewrite skipn_app_le by exact Sl.
      split; [exact H1 | apply in_or_app; left; exact H2]. }
  destruct (_updateBatchNumber (components s c)) as [t0 |] eqn:Htag.
  - constructor.
    + exact Sb.
    + simpl. rewrite length_app. lia.
    + intros c0 t H. apply Hgrow, St, H.
    + exact Ss.
  - constructor.
    + exact Sb.
    + simpl. rewrite length_app. lia.
    + intros c0 t H. rewrite tag_of_mark_tagged in H. simpl.
      destruct (Nat.eqb c0 c) eqn:E.
      * apply Nat.eqb_eq in E. subst c0. inversion H. right.
        rewrite skipn_app_le by exact Sl.
        split; [reflexivity | apply in_or_app; right; left; reflexivity].
      * apply Hgrow, St, H.
    + intros c0 t H. rewrite tag_of_mark_tagged. simpl in *.
      apply outstanding_schedule in H. destruct H as [H | H].
      * pose proof (Ss c0 t H) as H1.
        destruct (Nat.eqb c0 c) eqn:E; [| exact H1].
        apply Nat.eqb_eq in E. subst c0. unfold tag_of in H1. congruence.
      * inversion H. subst. rewrite Nat.eqb_refl. reflexivity.
Qed.

Lemma calm_in_pass (len i : nat) (a : Atom) (s : World) :
  calm_atom a -> in_pass len i s -> in_pass len i (do_atom a s).
Proof.
  intros Ha Hs. destruct a; try (eapply in_pass_same; [| exact Hs];
    apply calm_same_schedule; [exact Ha | discriminate]).
  apply in_pass_mark, Hs.
Qed.

Lemma steps_calm_settled (s s' : World) :
  steps calm_atom s s' -> settled s -> settled s'.
Proof.
  apply steps_invariant. intros a s0 Ha _. apply calm_settled, Ha.
Qed.

Lemma steps_calm_in_pass (len i : nat) (s s' : World) :
  steps calm_atom s s' -> in_pass len i s -> in_pass len i s'.
Proof.
  apply (@steps_invariant calm_atom (in_pass len i)).
  intros a s0 Ha _. apply calm_in_pass, Ha.
Qed.

(** * Every scheduled component is reconciled *)

Lemma runCmds_app (P : Program) (n : nat) (l1 l2 : list Cmd) (s : World) :
  runCmds P n (l1 ++ l2) s = (runCmds P n l1 ;; runCmds P n l2) s.
Proof.
  revert s. induction l1 as [| cmd rest IH]; intros s; simpl.
  - reflexivity.
  - unfold bind in *. destruct (runCmd P n cmd s) as [[] s1 | |]; try reflexivity.
    apply IH.
Qed.

Lemma in_skipn_cases {A : Type} (l : list A) (i : nat) (x : A) :
  In x (skipn i l) -> nth_error l i = Some x \/ In x (skipn (S i) l).
Proof.
  revert i. induction l as [| h t IH]; intros [| i] H; simpl in *;
    try contradiction.
  - destruct H as [-> | H]; [left; reflexivity | right; exact H].
  - destruct t; simpl in *; [destruct i; contradiction |]. apply IH. exact H.
Qed.

Lemma nth_error_firstn_some {A : Type} (l : list A) (len i : nat) (x : A) :
  nth_error (firstn len l) i = Some x -> nth_error l i = Some x.
Proof.
  revert len i. induction l as [| h t IH]; intros [| len] [| i] H; simpl in *;
    try discriminate; auto.
  eapply IH. exact H.
Qed.

(** The component at index [i] does not carry the running generation:
    the pass may move on. *)
Lemma in_pass_skip (len i : nat) (c : CompId) (s : World) :
  in_pass len i s ->
  nth_error (dirtyComponents s) i = Some c ->
  tag_of s c <> Some (updateBatchNumber s) ->
  in_pass len (S i) s.
Proof.
  intros [Sb Sl St Ss] Hi Htag. constructor; auto.
  intros c0 t H. destruct (St c0 t H) as [[H1 H2] | H1]; [| right; exact H1].
  left. split; [exact H1 |].
  destruct (in_skipn_cases _ _ _ H2) as [H3 | H3]; [| exact H3].
  apply nth_error_firstn_some in H3. rewrite Hi in H3. inversion H3. subst c0.
  congruence.
Qed.

Lemma tag_of_clear (s : World) (c c' : CompId) :
  tag_of (do_atom (AClear c) s) c' = if Nat.eqb c' c then None else tag_of s c'.
Proof. unfold tag_of. simpl. unfold upd. destruct (Nat.eqb c' c); reflexivity. Qed.

(** The node kind resets the batch number of the component it updates. *)
Lemma clear_in_pass (len i : nat) (c : CompId) (s : World) :
  updating len i c s -> in_pass len (S i) (do_atom (AClear c) s).
Proof.
  intros [[Sb Sl St Ss] Htag Hi Hrec]. constructor; auto.
  - intros c0 t H. rewrite tag_of_clear in H.
    destruct (Nat.eqb c0 c) eqn:E; [discriminate |].
    apply Nat.eqb_neq in E.
    destruct (St c0 t H) as [[H1 H2] | H1]; [| right; exact H1].
    left. split; [exact H1 |].
    destruct (in_skipn_cases _ _ _ H2) as [H3 | H3]; [| exact H3].
    apply nth_error_firstn_some in H3. simpl in *. congruence.
  - intros c0 t H. rewrite tag_of_clear. simpl in *.
    pose proof (Ss c0 t H) as H1.
    destruct (Nat.eqb c0 c) eqn:E; [| exact H1].
    apply Nat.eqb_eq in E. subst c0. exfalso.
    rewrite Htag in H1. inversion H1. subst t. exact (Hrec H).
Qed.

Lemma nth_error_app_some {A : Type} (l extra : list A) (i : nat) (x : A) :
  nth_error l i = Some x -> nth_error (l ++ extra) i = Some x.
Proof.
  intros H. rewrite nth_error_app1; [exact H |].
  apply nth_error_Some. rewrite H. discriminate.
Qed.

(** The calm atoms of user code keep a component under update as it is. *)
Lemma calm_updating (len i : nat) (c : CompId) (a : Atom) (s : World) :
  calm_atom a -> updating len i c s -> updating len i c (do_atom a s).
Proof.
  intros Ha [Hp Htag Hi Hrec].
  assert (Hcases : (exists c', a = AMark c') \/ (forall c', a <> AMark c')).
  { destruct a; try (right; discriminate). left. eauto. }
  destruct Hcases as [[c' ->] | Hnot].
  - constructor.
    + apply in_pass_mark, Hp.
    + simpl. destruct (_updateBatchNumber (components s c')) as [t0 |] eqn:Ht.
      * exact Htag.
      * rewrite tag_of_mark_tagged. simpl.
        destruct (Nat.eqb c c') eqn:E; [| exact Htag].
        apply Nat.eqb_eq in E. subst c'. unfold tag_of in Htag. congruence.
    + simpl. destruct (_updateBatchNumber (components s c')); simpl;
        apply nth_error_app_some, Hi.
    + simpl. destruct (_updateBatchNumber (components s c')); simpl; [exact Hrec |].
      intros H. apply outstanding_schedule in H. destruct H as [H | H];
        [exact (Hrec H) | inversion H; lia].
  - destruct (@calm_same_schedule a s Ha Hnot) as [Hb Ht Hg Hd Hr]. constructor.
    + apply calm_in_pass; assumption.
    + rewrite Ht, Hg. exact Htag.
    + rewrite Hd. exact Hi.
    + rewrite Hg. intros H. exact (Hrec (Hr _ H)).
Qed.

Lemma steps_calm_updating (len i : nat) (c : CompId) (s s' : World) :
  steps calm_atom s s' -> updating len i c s -> updating len i c s'.
Proof.
  apply (@steps_invariant calm_atom (updating len i c)).
  intros a s0 Ha _. apply calm_updating, Ha.
Qed.

Lemma option_nat_eqb_eq (a b : option nat) : option_nat_eqb a b = true <-> a = b.
Proof.
  destruct a, b; simpl; split; intros H; try discriminate; try reflexivity.
  - apply Nat.eqb_eq in H. congruence.
  - inversion H. apply Nat.eqb_refl.
Qed.

Lemma reconcile_same_schedule (c : CompId) (g : nat) (s : World) :
  same_schedule s (do_atom (AEmit (EvReconcile c g)) s).
Proof.
  constructor; simpl; auto. intros x. apply outstanding_emit. discriminate.
Qed.

Lemma runCmds_raises (P : Program) (n : nat) (l : list Cmd) :
  raises l -> forall s s', runCmds P n l s <> Ok tt s'.
Proof.
  intros [e He]. induction l as [| cmd rest IH]; intros s s'; [destruct He |].
  simpl. unfold bind. destruct He as [-> | He].
  - simpl. discriminate.
  - destruct (runCmd P n cmd s) as [[] s1 | |]; try discriminate. apply IH, He.
Qed.

Section Liveness.
Variable P : Program.
Hypothesis Hwb : well_behaved P.

Lemma calm_steps_of_list (n : nat) (l : list Cmd) (s s' : World) :
  no_clear l -> isBatchingUpdates s = true ->
  runCmds P n l s = Ok tt s' -> steps calm_atom s s'.
Proof.
  intros Hl Hb Hrun.
  apply (@steps_weaken (fun a => user_atom a /\ calm_atom a) calm_atom s s');
    [intros a [_ Ha]; exact Ha |].
  apply (@always_runCmds_in P _ n l (cmd_atoms_calm Hl) s s');
    [rewrite Hrun; reflexivity | exact Hb].
Qed.

(** One returning iteration moves the pass on by one entry. *)
Lemma iteration_in_pass (n : nat) (tx : TxId) (len i : nat) (c : CompId) (s s1 : World) :
  in_pass len i s ->
  nth_error (dirtyComponents s) i = Some c ->
  batchIteration P n tx c s = Ok tt s1 ->
  in_pass len (S i) s1.
Proof.
  intros Hp Hi Hrun.
  pose proof (ip_batching Hp) as Hb.
  rewrite (batchIteration_outcome P n tx c s Hb) in Hrun.
  destruct (nth_error (flushTxs s) tx) as [o |]; [| discriminate].
  set (g := updateBatchNumber s) in *.
  set (s0 := do_atom (AStash c) s) in *.
  set (sp := do_atom (AEmit (EvPerformUpdate c g)) s0) in *.
  assert (Hp0 : in_pass len i s0) by (apply calm_in_pass; [exact I | exact Hp]).
  assert (Hpp : in_pass len i sp) by (apply calm_in_pass; [exact I | exact Hp0]).
  assert (Henq : forall s2, in_pass len (S i) s2 ->
            enqueue_stashed o (_pendingCallbacks (components s c)) c s2 = Ok tt s1 ->
            in_pass len (S i) s1).
  { intros s2 H2 Hq. eapply steps_calm_in_pass; [| exact H2].
    eapply (@always_enqueue_stashed calm_atom o _ c (fun _ _ => I) s2 s1);
      [rewrite Hq; reflexivity | exact (ip_batching H2)]. }
  destruct (option_nat_eqb (_updateBatchNumber (components s c)) (Some g)) eqn:Htag.
  - (* delegated to the node kind *)
    apply option_nat_eqb_eq in Htag.
    set (sr := do_atom (AEmit (EvReconcile c g)) sp) in *.
    destruct (runCmds P n _ sr) as [[] s2 | |] eqn:Himpl; try discriminate.
    destruct (wb_update Hwb c (reconcileTransaction o) sr)
      as [[pre [post [Hlist [Hpre Hpost]]]] | Hraise];
      [| exfalso; exact (@runCmds_raises P n _ Hraise _ _ Himpl)].
    rewrite Hlist, runCmds_app in Himpl.
    apply ok_bind_inv in Himpl. destruct Himpl as [[] [sa [Hrun_pre Himpl]]].
    cbn [runCmds] in Himpl.
    apply ok_bind_inv in Himpl. destruct Himpl as [[] [sb [Hclear Hrun_post]]].
    simpl in Hclear. unfold modify in Hclear. inversion Hclear as [Hsb]. clear Hclear.
    change (with_component c (comp_set_updateBatchNumber None) sa)
      with (do_atom (AClear c) sa) in Hsb.
    assert (Hss : same_schedule s sr).
    { apply same_schedule_trans with sp; [apply same_schedule_trans with s0 |];
        [| | apply reconcile_same_schedule];
        apply calm_same_schedule; try exact I; discriminate. }
    assert (Hur : updating len i c sr).
    { constructor.
      - eapply in_pass_same; [apply reconcile_same_schedule | exact Hpp].
      - rewrite (ss_tags Hss), (ss_generation Hss). exact Htag.
      - rewrite (ss_dirty Hss). exact Hi.
      - rewrite (ss_generation Hss). apply outstanding_reconcile. }
    assert (Hua : updating len i c sa).
    { eapply steps_calm_updating; [| exact Hur].
      eapply calm_steps_of_list; [exact Hpre | | exact Hrun_pre].
      exact (ip_batching (up_pass Hur)). }
    assert (Hpb : in_pass len (S i) sb).
    { rewrite <- Hsb. apply clear_in_pass, Hua. }
    apply (Henq s2); [| exact Hrun].
    eapply steps_calm_in_pass; [| exact Hpb].
    eapply calm_steps_of_list; [exact Hpost | exact (ip_batching Hpb) | exact Hrun_post].
  - (* skipped *)
    assert (Hne : tag_of s c <> Some g).
    { intros Heq. apply option_nat_eqb_eq in Heq. unfold tag_of in Heq. congruence. }
    assert (Hskip : in_pass len (S i) s) by (eapply in_pass_skip; eassumption).
    apply (Henq (skip_world c g (_updateBatchNumber (components s c)) sp)); [| exact Hrun].
    assert (Hsp : in_pass len (S i) sp).
    { apply calm_in_pass; [exact I |]. apply calm_in_pass; [exact I | exact Hskip]. }
    unfold skip_world. destruct (_updateBatchNumber (components s c)) as [t |];
      [| exact Hsp].
    destruct (Nat.eqb t (g + 1)); [exact Hsp |].
    apply calm_in_pass; [exact I | exact Hsp].
Qed.
End Liveness.

(** * The pools leave the schedule alone *)

Ltac same_bind :=
  apply always_bind; [apply same_schedule_trans | | intros ?].

Lemma always_same_state {A : Type} (m : M A) :
  (forall s s', final (m s) = Some s' -> s' = s) -> always same_schedule m.
Proof. intros Hm s s' H. rewrite (Hm s s' H). apply same_schedule_refl. Qed.

Lemma always_same_modify (f : World -> World) :
  (forall s, same_schedule s (f s)) -> always same_schedule (modify f).
Proof. intros Hf s s' H. inversion H. subst. apply Hf. Qed.

Lemma always_same_emit (e : Event) :
  (forall c g, e <> EvSchedule c g) -> always same_schedule (emit e).
Proof.
  intros He s s' H. inversion H. subst. constructor; simpl; auto.
  intros x. apply outstanding_emit, He.
Qed.

Lemma always_same_with_queue (q : QueueId) (f : CallbackQueue -> CallbackQueue) :
  always same_schedule (with_queue q f).
Proof.
  intros s s' H. unfold with_queue in H.
  destruct (nth_error (queues s) q); inversion H; subst;
    [constructor; simpl; auto | apply same_schedule_refl].
Qed.

Lemma always_same_get_flushTx (t : TxId) : always same_schedule (get_flushTx t).
Proof.
  apply always_same_state. intros s s' H. unfold get_flushTx in H.
  destruct (nth_error (flushTxs s) t); inversion H; reflexivity.
Qed.

Lemma always_same_get_reconcileTx (r : RtxId) : always same_schedule (get_reconcileTx r).
Proof.
  apply always_same_state. intros s s' H. unfold get_reconcileTx in H.
  destruct (nth_error (reconcileTxs s) r); inversion H; reflexivity.
Qed.

Ltac same_modify := apply always_same_modify; intros ?; constructor; simpl; auto.
Ltac same_emit := apply always_same_emit; discriminate.

Lemma always_same_CallbackQueue_getPooled (arg : Value) :
  always same_schedule (CallbackQueue_getPooled arg).
Proof.
  intros s s' H. unfold CallbackQueue_getPooled in H.
  destruct (pop_or_construct (queuePool s) (length (queues s))) as [q rest].
  revert s' H.
  assert (Hall : always same_schedule
    (modify (set_queuePool rest) ;;
     modify (fun s => set_queues (store q (CallbackQueue_constructor arg) (queues s)) s) ;;
     emit (EvAcquire KCallbackQueue q) ;;
     ret q)).
  { same_bind; [same_modify |].
    same_bind; [same_modify |].
    same_bind; [same_emit |].
    apply always_ret. apply same_schedule_refl. }
  intros s'. apply Hall.
Qed.

Lemma always_same_CallbackQueue_release (q : QueueId) :
  always same_schedule (CallbackQueue_release q).
Proof.
  unfold CallbackQueue_release.
  same_bind; [apply always_same_with_queue |].
  same_bind; [same_modify | same_emit].
Qed.

Lemma always_same_ReconcileTransaction_getPooled :
  always same_schedule ReconcileTransaction_getPooled.
Proof.
  intros s s' H. unfold ReconcileTransaction_getPooled in H.
  destruct (pop_or_construct (reconcilePool s) (length (reconcileTxs s))) as [r rest].
  revert s' H.
  assert (Hall : always same_schedule
    (modify (set_reconcilePool rest) ;;
     q <- CallbackQueue_getPooled VNull ;;
     modify (fun s => set_reconcileTxs
               (store r {| reactMountReady := Some q |} (reconcileTxs s)) s) ;;
     emit (EvAcquire KReconcileTransaction r) ;;
     ret r)).
  { same_bind; [same_modify |].
    same_bind; [apply always_same_CallbackQueue_getPooled |].
    same_bind; [same_modify |].
    same_bind; [same_emit |].
    apply always_ret. apply same_schedule_refl. }
  intros s'. apply Hall.
Qed.

Lemma always_same_ReconcileTransaction_release (r : RtxId) :
  always same_schedule (ReconcileTransaction_release r).
Proof.
  unfold ReconcileTransaction_release.
  same_bind; [apply always_same_get_reconcileTx |].
  same_bind.
  { destruct (reactMountReady a).
    - apply always_same_CallbackQueue_release.
    - apply always_throw. apply same_schedule_refl. }
  same_bind; [same_modify |].
  same_bind; [same_modify | same_emit].
Qed.

Lemma always_same_FlushTransaction_getPooled :
  always same_schedule FlushTransaction_getPooled.
Proof.
  intros s s' H. unfold FlushTransaction_getPooled in H.
  destruct (pop_or_construct (flushPool s) (length (flushTxs s))) as [t rest].
  revert s' H.
  assert (Hall : always same_schedule
    (modify (set_flushPool rest) ;;
     q <- CallbackQueue_getPooled VUndefined ;;
     (fun s => if ReactReconcileTransaction s then Ok tt s else Throw TypeError s) ;;
     r <- ReconcileTransaction_getPooled ;;
     modify (fun s => set_flushTxs
               (store t {| dirtyComponentsLength := None;
                           callbackQueue := Some q;
                           reconcileTransaction := Some r |} (flushTxs s)) s) ;;
     emit (EvAcquire KFlushTransaction t) ;;
     ret t)).
  { same_bind; [same_modify |].
    same_bind; [apply always_same_CallbackQueue_getPooled |].
    same_bind.
    { apply always_same_state. intros s0 s1 H.
      destruct (ReactReconcileTransaction s0); inversion H; reflexivity. }
    same_bind; [apply always_same_ReconcileTransaction_getPooled |].
    same_bind; [same_modify |].
    same_bind; [same_emit |].
    apply always_ret. apply same_schedule_refl. }
  intros s'. apply Hall.
Qed.

Lemma always_same_FlushTransaction_release (t : TxId) :
  always same_schedule (FlushTransaction_release t).
Proof.
  unfold FlushTransaction_release, FlushTransaction_destructor.
  same_bind.
  { same_bind; [apply always_same_get_flushTx |].
    same_bind; [same_modify |].
    same_bind.
    { destruct (callbackQueue a).
      - apply always_same_CallbackQueue_release.
      - apply always_throw. apply same_schedule_refl. }
    same_bind; [same_modify |].
    same_bind.
    { destruct (reconcileTransaction a).
      - apply always_same_ReconcileTransaction_release.
      - apply always_throw. apply same_schedule_refl. }
    same_modify. }
  same_bind; [same_modify | same_emit].
Qed.

(** * A flush that returns leaves nothing scheduled *)

Lemma every_atom_logs (a : Atom) : atom_events_in (fun _ => True) a.
Proof. destruct a; simpl; auto. Qed.

Lemma steps_flushTxs (K : Atom -> Prop) (s s' : World) :
  steps K s s' -> flushTxs s' = flushTxs s.
Proof.
  intros H. apply (@fr_flushTxs (fun _ => True)).
  eapply steps_frame; [| exact H]. intros a _. apply every_atom_logs.
Qed.

Lemma ok_final {A : Type} (r : Result A) (s' : World) (a : A) :
  r = Ok a s' -> final r = Some s'.
Proof. intros ->. reflexivity. Qed.

Section Flush.
Variable P : Program.
Hypothesis Hwb : well_behaved P.

Lemma batchLoop_in_pass (n : nat) (tx : TxId) (len k : nat) :
  forall i s s',
    in_pass len i s -> i + k = len ->
    batchLoop P n tx i k s = Ok tt s' ->
    in_pass len len s'.
Proof.
  induction k as [| k IH]; intros i s s' Hp Hik Hrun; simpl in Hrun.
  - inversion Hrun. subst s'. replace len with i by lia.
    replace (i + 0) with i in Hp by lia. rewrite Nat.add_0_r in *. subst i. exact Hp.
  - unfold bind at 1 in Hrun. unfold get in Hrun.
    destruct (nth_error (dirtyComponents s) i) as [c |] eqn:Hi; [| discriminate].
    apply ok_bind_inv in Hrun. destruct Hrun as [[] [s1 [Hit Hrest]]].
    apply (@IH (S i) s1 s'); [| lia | exact Hrest].
    eapply (@iteration_in_pass P Hwb); eassumption.
Qed.

(** From the state between passes to the state after the loop. *)
Lemma runBatchedUpdates_in_pass (n : nat) (tx : TxId) (o : FlushTransaction)
    (len : nat) (s s' : World) :
  settled s ->
  nth_error (flushTxs s) tx = Some o ->
  dirtyComponentsLength o = Some len ->
  runBatchedUpdates P n tx s = Ok tt s' ->
  in_pass len len s' /\ flushTxs s' = flushTxs s.
Proof.
  intros [Sb St Ss] Ho Hlen Hrun.
  assert (Hfl : flushTxs s' = flushTxs s).
  { unfold runBatchedUpdates, bind, get_flushTx in Hrun. rewrite Ho, Hlen in Hrun.
    destruct (Nat.eqb len (length (dirtyComponents s))); [| discriminate].
    unfold modify in Hrun.
    match type of Hrun with
    | batchLoop _ _ _ _ _ ?st = _ =>
        assert (Hb : isBatchingUpdates st = true) by exact Sb;
        rewrite (steps_flushTxs (@always_steps_batchLoop P n tx len 0 st s'
                                   (ok_final Hrun) Hb))
    end.
    reflexivity. }
  split; [| exact Hfl].
  unfold runBatchedUpdates, bind, get_flushTx in Hrun. rewrite Ho, Hlen in Hrun.
  destruct (Nat.eqb len (length (dirtyComponents s))) eqn:E; [| discriminate].
  apply Nat.eqb_eq in E. unfold modify in Hrun.
  eapply (@batchLoop_in_pass n tx len len 0); [| reflexivity | exact Hrun].
  pose proof (array_sort_perm (mountOrderComparator s) (dirtyComponents s)) as Hperm.
  constructor; simpl.
  - exact Sb.
  - rewrite (Permutation_length Hperm). lia.
  - intros c t H. left. destruct (St c t H) as [H1 H2]. split; [exact H1 |].
    rewrite firstn_all2 by (rewrite (Permutation_length Hperm); lia).
    eapply Permutation_in; [apply Permutation_sym, Hperm | exact H2].
  - exact Ss.
Qed.

Lemma always_calm_same {A : Type} (m : M A) :
  (forall s s', final (m s) = Some s' -> s' = s) ->
  always (batching_steps calm_atom) m.
Proof. intros Hm s s' H _. rewrite (Hm s s' H). apply steps_refl. Qed.

Lemma always_calm_get_flushTx (t : TxId) :
  always (batching_steps calm_atom) (get_flushTx t).
Proof.
  apply always_calm_same. intros s s' H. unfold get_flushTx in H.
  destruct (nth_error (flushTxs s) t); inversion H; reflexivity.
Qed.

Lemma always_calm_getReactMountReady (r : RtxId) :
  always (batching_steps calm_atom) (getReactMountReady r).
Proof.
  apply always_calm_same. intros s s' H.
  unfold getReactMountReady, get_reconcileTx, bind, ret, throw in H.
  destruct (nth_error (reconcileTxs s) r) as [o |]; simpl in H.
  - destruct (reactMountReady o); inversion H; reflexivity.
  - inversion H; reflexivity.
Qed.

Lemma always_calm_UPDATE_QUEUEING (n : nat) (t : TxId) :
  always (batching_steps calm_atom) (initialize (UPDATE_QUEUEING P n t))
  /\ always (batching_steps calm_atom) (close (UPDATE_QUEUEING P n t)).
Proof.
  split; simpl.
  - steps_bind; [apply always_calm_get_flushTx |].
    destruct (callbackQueue a).
    + apply always_calm_reset.
    + apply always_throw. apply batching_steps_refl.
  - steps_bind; [apply always_calm_get_flushTx |].
    destruct (callbackQueue a).
    + apply always_calm_notifyAll. exact (wb_function Hwb).
    + apply always_throw. apply batching_steps_refl.
Qed.

Lemma always_calm_RECONCILE_WRAPPERS (n : nat) (r : RtxId) (w : Wrapper) :
  In w (RECONCILE_WRAPPERS P n r) ->
  always (batching_steps calm_atom) (initialize w)
  /\ always (batching_steps calm_atom) (close w).
Proof.
  intros [<- | []]. split; simpl.
  - steps_bind; [apply always_calm_getReactMountReady | apply always_calm_reset].
  - steps_bind; [apply always_calm_getReactMountReady |].
    apply always_calm_notifyAll. exact (wb_function Hwb).
Qed.

(** A transaction that returns: every initialize, the method and every
    close returned, in this order. *)
Lemma initializeAll_ok (ws : list Wrapper) :
  forall s done s1,
    initializeAll ws s = (done, Ok tt s1) ->
    done = ws /\ chain (map initialize ws) s s1.
Proof.
  induction ws as [| w rest IH]; intros s done s1 H; simpl in H.
  - inversion H. subst. split; reflexivity.
  - destruct (initialize w s) as [[] sa | |] eqn:Hw; try discriminate.
    destruct (initializeAll rest sa) as [done' r] eqn:Hrest. inversion H. subst.
    destruct (IH sa done' s1 Hrest) as [-> Hc].
    split; [reflexivity |]. simpl. exists sa. split; assumption.
Qed.

Lemma closeAll_ok (ws : list Wrapper) :
  forall s s', closeAll ws None s = Ok tt s' -> chain (map close ws) s s'.
Proof.
  induction ws as [| w rest IH]; intros s s' H; simpl in H.
  - inversion H. reflexivity.
  - destruct (close w s) as [[] sa | e sa |] eqn:Hw; try discriminate.
    + simpl. exists sa. split; [exact Hw | apply IH, H].
    + exfalso. exact (closeAll_error _ _ _ H).
Qed.

Lemma perform_ok_chain (ws : list Wrapper) (method : M unit) (s s' : World) :
  Transaction_perform ws method s = Ok tt s' ->
  exists s1 s2,
    chain (map initialize ws) s s1 /\ method s1 = Ok tt s2
    /\ chain (map close ws) s2 s'.
Proof.
  unfold Transaction_perform. intros H.
  destruct (initializeAll ws s) as [done [[] s1 | e s1 |]] eqn:Hinit.
  - destruct (initializeAll_ok _ _ Hinit) as [-> Hc].
    destruct (method s1) as [[] s2 | e s2 |] eqn:Hm.
    + exists s1, s2. split; [exact Hc |]. split; [exact Hm | apply closeAll_ok, H].
    + exfalso. exact (closeAll_error _ _ _ H).
    + discriminate.
  - exfalso. exact (closeAll_error _ _ _ H).
  - discriminate.
Qed.

(** After the loop, what is still tagged was pushed during the pass. *)
Lemma in_pass_done_settled (len : nat) (s : World) :
  in_pass len len s ->
  settled (set_dirtyComponents (skipn len (dirtyComponents s)) s).
Proof.
  intros [Sb Sl St Ss]. constructor; simpl.
  - exact Sb.
  - intros c t H. destruct (St c t H) as [[_ H2] | H2]; [| exact H2].
    rewrite skipn_all2 in H2; [destruct H2 |]. rewrite length_firstn. lia.
  - exact Ss.
Qed.

Lemma calm_step_settled {A : Type} (m : M A) (s s' : World) (a : A) :
  always (batching_steps calm_atom) m -> settled s -> m s = Ok a s' -> settled s'.
Proof.
  intros Hm Hs H. eapply steps_calm_settled; [| exact Hs].
  exact (Hm s s' (ok_final H) (st_batching Hs)).
Qed.

Lemma calm_step_in_pass {A : Type} (m : M A) (len i : nat) (s s' : World) (a : A) :
  always (batching_steps calm_atom) m -> in_pass len i s -> m s = Ok a s' ->
  in_pass len i s' /\ flushTxs s' = flushTxs s.
Proof.
  intros Hm Hs H.
  pose proof (Hm s s' (ok_final H) (ip_batching Hs)) as Hsteps.
  split; [eapply steps_calm_in_pass; eassumption | eapply steps_flushTxs, Hsteps].
Qed.

Lemma same_step_settled {A : Type} (m : M A) (s s' : World) (a : A) :
  always same_schedule m -> settled s -> m s = Ok a s' -> settled s'.
Proof.
  intros Hm Hs H. eapply settled_same; [| exact Hs]. exact (Hm s s' (ok_final H)).
Qed.

(** The flush transaction, around one pass: a nested flush, if any,
    starts between passes, and so does the notification of the callbacks. *)
Lemma perform_settles (n : nat) (tx : TxId) (s s' : World) :
  (forall s0 s1, settled s0 -> flushBatchedUpdates P n s0 = Ok tt s1 -> settled s1) ->
  settled s ->
  FlushTransaction_perform P n (flushBatchedUpdates P n) tx
    (runBatchedUpdates P n tx) s = Ok tt s' ->
  settled s'.
Proof.
  intros IH Hs Hrun. unfold FlushTransaction_perform in Hrun.
  apply ok_bind_inv in Hrun. destruct Hrun as [o0 [s0 [Hget Hrun]]].
  unfold get_flushTx in Hget.
  destruct (nth_error (flushTxs s) tx) as [o |] eqn:Ho; [| discriminate].
  inversion Hget. subst o0 s0. clear Hget.
  destruct (reconcileTransaction o) as [r |]; [| discriminate].
  apply perform_ok_chain in Hrun.
  destruct Hrun as [s1 [s2 [Hinit [Hinner Hclose]]]].
  (* the initialize hooks *)
  simpl in Hinit. destruct Hinit as [sA [HA [sB [HB ->]]]].
  unfold bind, get_flushTx, modify in HA. rewrite Ho in HA. inversion HA as [HsA].
  clear HA.
  set (len := length (dirtyComponents s)) in *.
  set (oA := {| dirtyComponentsLength := Some len;
                callbackQueue := callbackQueue o;
                reconcileTransaction := reconcileTransaction o |}) in *.
  assert (HoA : nth_error (flushTxs sA) tx = Some oA).
  { rewrite <- HsA. simpl. apply nth_error_list_set_eq.
    apply nth_error_Some. rewrite Ho. discriminate. }
  assert (HsetA : settled sA).
  { rewrite <- HsA. eapply settled_same; [| exact Hs]. constructor; simpl; auto. }
  assert (HsetB : settled sB).
  { exact (calm_step_settled (proj1 (always_calm_UPDATE_QUEUEING n tx)) HsetA HB). }
  assert (HoB : nth_error (flushTxs sB) tx = Some oA).
  { rewrite (steps_flushTxs (proj1 (always_calm_UPDATE_QUEUEING n tx) sA sB
                                (ok_final HB) (st_batching HsetA))).
    exact HoA. }
  (* the reconcile transaction *)
  apply perform_ok_chain in Hinner.
  destruct Hinner as [sC' [sD [HinitR [Hpass HcloseR]]]].
  simpl in HinitR. destruct HinitR as [sC [HC ->]].
  simpl in HcloseR. destruct HcloseR as [sE [HE ->]].
  pose proof (@always_calm_RECONCILE_WRAPPERS n r _ (or_introl eq_refl)) as [HRi HRc].
  simpl in HRi, HRc.
  assert (HsetC : settled sC) by exact (calm_step_settled HRi HsetB HC).
  assert (HoC : nth_error (flushTxs sC) tx = Some oA).
  { rewrite (steps_flushTxs (HRi sB sC (ok_final HC) (st_batching HsetB))). exact HoB. }
  destruct (runBatchedUpdates_in_pass n tx HsetC HoC eq_refl Hpass) as [HpD HfD].
  destruct (calm_step_in_pass HRc HpD HE) as [HpE HfE].
  assert (HoE : nth_error (flushTxs sE) tx = Some oA) by (rewrite HfE, HfD; exact HoC).
  (* the close hooks *)
  simpl in Hclose. destruct Hclose as [sF [HF [sG [HG ->]]]].
  assert (HsetF : settled sF).
  { unfold bind, get_flushTx in HF. rewrite HoE in HF. simpl in HF.
    destruct (negb (Nat.eqb len (length (dirtyComponents sE)))) eqn:Hgrow.
    - unfold modify in HF. eapply IH; [| exact HF].
      apply in_pass_done_settled, HpE.
    - inversion HF. apply negb_false_iff, Nat.eqb_eq in Hgrow.
      pose proof (in_pass_done_settled HpE) as Hdone.
      rewrite Hgrow, skipn_all in Hdone. exact Hdone. }
  exact (calm_step_settled (proj2 (always_calm_UPDATE_QUEUEING n tx)) HsetF HG).
Qed.

(** A flush that returns has emptied dirtyComponents and the asap
    queue flag, between passes. *)
Lemma flush_settles (n : nat) :
  forall s s',
    settled s -> flushBatchedUpdates P n s = Ok tt s' ->
    settled s' /\ dirtyComponents s' = [] /\ asapEnqueued s' = false.
Proof.
  induction n as [| n IH]; intros s s' Hs Hrun; [discriminate |].
  cbn [flushBatchedUpdates] in Hrun.
  destruct (is_nonempty (dirtyComponents s) || asapEnqueued s) eqn:Hcond.
  - apply ok_bind_inv in Hrun. destruct Hrun as [[] [sa [Ha Hrun]]].
    apply ok_bind_inv in Hrun. destruct Hrun as [[] [sb [Hb Hrun]]].
    apply (IH sb s'); [| exact Hrun].
    assert (Hseta : settled sa).
    { destruct (is_nonempty (dirtyComponents s)); [| inversion Ha; subst; exact Hs].
      apply ok_bind_inv in Ha. destruct Ha as [tx [s1 [H1 Ha]]].
      apply ok_bind_inv in Ha. destruct Ha as [[] [s2 [H2 H3]]].
      pose proof (same_step_settled always_same_FlushTransaction_getPooled Hs H1) as Hs1.
      assert (Hs2 : settled s2).
      { eapply perform_settles; [| exact Hs1 | exact H2].
        intros s0 s3 H0 H. apply (IH s0 s3 H0 H). }
      exact (same_step_settled (always_same_FlushTransaction_release tx) Hs2 H3). }
    destruct (asapEnqueued sa); [| inversion Hb; subst; exact Hseta].
    apply ok_bind_inv in Hb. destruct Hb as [[] [s1 [H1 Hb]]].
    apply ok_bind_inv in Hb. destruct Hb as [queue [s2 [H2 Hb]]].
    apply ok_bind_inv in Hb. destruct Hb as [q' [s3 [H3 Hb]]].
    apply ok_bind_inv in Hb. destruct Hb as [[] [s4 [H4 Hb]]].
    apply ok_bind_inv in Hb. destruct Hb as [[] [s5 [H5 H6]]].
    unfold modify in H1, H4. unfold get in H2.
    inversion H1. inversion H2. inversion H4. subst s1 s2 queue s4. clear H1 H2 H4.
    assert (Hs1 : settled (set_asapEnqueued false sa)).
    { eapply settled_same; [| exact Hseta]. constructor; simpl; auto. }
    pose proof (same_step_settled (always_same_CallbackQueue_getPooled VUndefined) Hs1 H3)
      as Hs3.
    assert (Hs4 : settled (set_asapCallbackQueue q' s3)).
    { eapply settled_same; [| exact Hs3]. constructor; simpl; auto. }
    pose proof (calm_step_settled
                  (@always_calm_notifyAll P (wb_function Hwb) n _) Hs4 H5) as Hs5.
    exact (same_step_settled (always_same_CallbackQueue_release _) Hs5 H6).
  - inversion Hrun. subst s'. apply orb_false_iff in Hcond. destruct Hcond as [Hd Ha].
    split; [exact Hs |]. split; [| exact Ha].
    destruct (dirtyComponents s); [reflexivity | discriminate].
Qed.
End Flush.

(** * Taggings and reconciliations in a log *)

(** What stays outstanding to the end of a log was never reconciled. *)
Lemma record_events_kept (l : list Event) :
  forall out x,
    In x out -> ~ In x (fold_left record_event l out) ->
    In (EvReconcile (fst x) (snd x)) l.
Proof.
  induction l as [| e rest IH]; intros out x Hin Hout; simpl in *.
  - contradiction.
  - assert (Hother : In x (record_event out e) -> In (EvReconcile (fst x) (snd x)) rest).
    { intros H. exact (IH _ x H Hout). }
    destruct e; try (right; apply Hother; exact Hin).
    + right. apply Hother. simpl. apply in_or_app. left. exact Hin.
    + destruct (update_eqb x (c, g)) eqn:E.
      * apply update_eqb_eq in E. subst x. left. reflexivity.
      * right. apply Hother. simpl. apply filter_In.
        split; [exact Hin | rewrite E; reflexivity].
Qed.

Lemma schedule_followed (l1 l2 : list Event) (c : CompId) (g : nat) :
  ~ In (c, g) (outstanding (l1 ++ EvSchedule c g :: l2)) ->
  In (EvReconcile c g) l2.
Proof.
  rewrite outstanding_app. simpl. intros H.
  apply (@record_events_kept l2 (outstanding l1 ++ [(c, g)]) (c, g)); [| exact H].
  apply in_or_app. right. left. reflexivity.
Qed.

Lemma settled_world0 : settled world0.
Proof.
  constructor.
  - reflexivity.
  - intros c t H. discriminate.
  - intros c t [].
Qed.

(** Scheduling from the idle state leaves the scheduler between passes. *)
Lemma settled_after (P : Program) (l : list Cmd) : no_clear l -> settled (after P l).
Proof.
  intros Hl. unfold after.
  destruct (runCmds P 1 l world0) as [[] s | |] eqn:Hrun; try apply settled_world0.
  eapply steps_calm_settled; [| apply settled_world0].
  eapply calm_steps_of_list; [exact Hl | reflexivity | exact Hrun].
Qed.

Lemma well_behaved_cascade : well_behaved cascade.
Proof.
  constructor.
  - intros c tx w. simpl.
    destruct c as [| [| [| [| c]]]].
    + left. exists [], []. split; [reflexivity |]. split; intros c0 [].
    + left. exists [], [CEnqueueCallback 2 7; CEnqueueUpdate 2].
      split; [reflexivity |]. split; intros c0 H; simpl in H;
        repeat (destruct H as [H | H]; [discriminate |]); exact H.
    + left. exists [], []. split; [reflexivity |]. split; intros c0 [].
    + right. exists (UserError 3). left. reflexivity.
    + left. exists [], []. split; [reflexivity |]. split; intros c0 [].
  - intros f this arg w c [].
Qed.

(** * No component is reconciled twice in one generation *)

Lemma keeps_once_refl (s : World) : keeps_once s s.
Proof. intros H. exact H. Qed.

Lemma keeps_once_trans (a b c : World) :
  keeps_once a b -> keeps_once b c -> keeps_once a c.
Proof. intros Hab Hbc Ha. apply Hbc, Hab, Ha. Qed.

Ltac once_bind :=
  apply always_bind; [apply keeps_once_trans | | intros ?].

Lemma reconciled_plain (l : list Event) : Forall plain_event l -> reconciled l = [].
Proof.
  induction 1 as [| e rest He _ IH]; [reflexivity |].
  destruct e; simpl in *; try exact IH. contradiction.
Qed.

Lemma plain_atom_events (a : Atom) : plain_atom a -> atom_events_in plain_event a.
Proof. destruct a; simpl; auto. Qed.

(** What a frame with plain events keeps. *)
Lemma frame_reconciled (s s' : World) :
  frame plain_event s s' ->
  isBatchingUpdates s' = isBatchingUpdates s
  /\ updateBatchNumber s' = updateBatchNumber s
  /\ reconciled (log s') = reconciled (log s).
Proof.
  intros H. split; [apply (fr_isBatchingUpdates H) |].
  split; [apply (fr_updateBatchNumber H) |].
  destruct (fr_log H) as [new [Hlog Hnew]].
  rewrite Hlog, reconciled_app, (reconciled_plain Hnew). apply app_nil_r.
Qed.

Lemma frame_once (s s' : World) : frame plain_event s s' -> keeps_once s s'.
Proof.
  intros H [Ob On Og]. destruct (frame_reconciled H) as [Hb [Hg Hr]].
  constructor; rewrite ?Hr, ?Hg; congruence || assumption.
Qed.

Lemma steps_plain_frame (s s' : World) :
  steps plain_atom s s' -> frame plain_event s s'.
Proof. apply steps_frame, plain_atom_events. Qed.

(** An atom leaves a tag, or sets the tag of the next generation. *)
Lemma tag_of_atom (a : Atom) (s : World) (c : CompId) (t : nat) :
  tag_of (do_atom a s) c = Some t ->
  tag_of s c = Some t \/ t = updateBatchNumber s + 1.
Proof.
  destruct a as [c0 | q cb ctx | | c0 f | c0 | q | c0 | c0 e | c0 k | e]; simpl; intros H.
  - destruct (_updateBatchNumber (components s c0)) eqn:E; simpl in H; [left; exact H |].
    rewrite tag_of_mark_tagged in H. destruct (Nat.eqb c c0); [| left; exact H].
    inversion H. right. reflexivity.
  - destruct (nth_error (queues s) q); left; exact H.
  - left. exact H.
  - rewrite tag_of_with_component in H by reflexivity. left. exact H.
  - rewrite tag_of_with_component in H by reflexivity. left. exact H.
  - destruct (nth_error (queues s) q); left; exact H.
  - change (tag_of (do_atom (AClear c0) s) c = Some t) in H.
    rewrite tag_of_clear in H. destruct (Nat.eqb c c0); [discriminate | left; exact H].
  - rewrite tag_of_with_component in H by reflexivity. left. exact H.
  - rewrite tag_of_with_component in H by reflexivity. left. exact H.
  - left. exact H.
Qed.

Lemma plain_cleared (a : Atom) (s : World) (c : CompId) :
  plain_atom a -> cleared s c -> cleared (do_atom a s) c.
Proof.
  intros Ha Hc.
  destruct (frame_reconciled (@frame_atom plain_event a s (plain_atom_events a Ha)))
    as [_ [Hg Hr]].
  unfold cleared. rewrite Hg, Hr. intros Hin Htag.
  destruct (tag_of_atom a s c Htag) as [H | H]; [exact (Hc Hin H) | lia].
Qed.

Lemma steps_plain_cleared (c : CompId) (s s' : World) :
  steps plain_atom s s' -> cleared s c -> cleared s' c.
Proof.
  apply (@steps_invariant plain_atom (fun s => cleared s c)).
  intros a s0 Ha _. apply plain_cleared, Ha.
Qed.

Lemma user_atom_plain (a : Atom) : user_atom a -> plain_atom a.
Proof. destruct a; simpl; tauto. Qed.

Lemma calm_atom_plain (a : Atom) : calm_atom a -> plain_atom a.
Proof. destruct a; simpl; try tauto. destruct e; simpl; tauto. Qed.

Lemma always_once_of_steps {A : Type} (K : Atom -> Prop) (m : M A) :
  (forall a, K a -> plain_atom a) ->
  always (batching_steps K) m -> always keeps_once m.
Proof.
  intros HK Hm s s' H Ho. apply (@frame_once s s'); [| exact Ho].
  apply steps_plain_frame. eapply steps_weaken; [exact HK |].
  exact (Hm s s' H (on_batching Ho)).
Qed.

Lemma always_once_of_pool {A : Type} (m : M A) :
  always same_schedule m -> always (logs pool_event) m -> always keeps_once m.
Proof.
  intros Hs Hl s s' H [Ob On Og].
  destruct (Hl s s' H Ob) as [Hb [new [Hlog Hnew]]].
  assert (Hr : reconciled (log s') = reconciled (log s)).
  { assert (Hn : reconciled new = []).
    { apply reconciled_plain. eapply Forall_impl; [| exact Hnew].
      intros e. destruct e; simpl; tauto. }
    rewrite Hlog, reconciled_app, Hn. apply app_nil_r. }
  constructor; rewrite ?Hr, ?(ss_generation (Hs s s' H)); assumption.
Qed.

Lemma always_once_same_log {A : Type} (m : M A) :
  (forall s s', final (m s) = Some s' ->
     log s' = log s /\ isBatchingUpdates s' = isBatchingUpdates s
     /\ updateBatchNumber s' = updateBatchNumber s) ->
  always keeps_once m.
Proof.
  intros Hm s s' H [Ob On Og]. destruct (Hm s s' H) as [Hl [Hb Hg]].
  constructor; rewrite ?Hl, ?Hg; congruence || assumption.
Qed.

Section Once.
Variable P : Program.
Hypothesis Hwb : well_behaved P.

(** One iteration: whatever its outcome, nothing is reconciled twice;
    when it returns, the component it updated is cleared. *)
Lemma iteration_once (n : nat) (tx : TxId) (c : CompId) (s s1 : World) :
  once s -> (forall c', cleared s c') ->
  final (batchIteration P n tx c s) = Some s1 ->
  once s1
  /\ (forall r, batchIteration P n tx c s = Ok r s1 -> forall c', cleared s1 c').
Proof.
  intros Ho Hc Hrun. pose proof (on_batching Ho) as Hb.
  rewrite (batchIteration_outcome P n tx c s Hb) in *.
  set (g := updateBatchNumber s) in *.
  set (s0 := do_atom (AStash c) s) in *.
  set (sp := do_atom (AEmit (EvPerformUpdate c g)) s0) in *.
  assert (Hsp : steps plain_atom s sp).
  { eapply steps_trans; apply steps_one; exact I. }
  assert (Hs0 : steps plain_atom s s0) by (apply steps_one; exact I).
  destruct (nth_error (flushTxs s) tx) as [o |].
  2:{ inversion Hrun. subst s1. split; [| discriminate].
      exact (frame_once (steps_plain_frame Hs0) Ho). }
  assert (Henq : forall s2,
            steps plain_atom s s2 \/ (once s2 /\ forall c', cleared s2 c') ->
            final (enqueue_stashed o (_pendingCallbacks (components s c)) c s2) = Some s1 ->
            once s1 /\ forall c', cleared s1 c').
  { intros s2 H2 Hq.
    assert (H2' : once s2 /\ forall c', cleared s2 c').
    { destruct H2 as [H2 | H2]; [| exact H2].
      split; [exact (frame_once (steps_plain_frame H2) Ho) |].
      intros c'. exact (steps_plain_cleared H2 (Hc c')). }
    destruct H2' as [Ho2 Hc2].
    assert (Hst : steps plain_atom s2 s1).
    { exact (@always_enqueue_stashed plain_atom o _ c (fun _ _ => I) s2 s1 Hq
               (on_batching Ho2)). }
    split; [exact (frame_once (steps_plain_frame Hst) Ho2) |].
    intros c'. exact (steps_plain_cleared Hst (Hc2 c')). }
  destruct (option_nat_eqb (_updateBatchNumber (components s c)) (Some g)) eqn:Htag.
  - (* delegated to the node kind *)
    apply option_nat_eqb_eq in Htag.
    set (sr := do_atom (AEmit (EvReconcile c g)) sp) in *.
    destruct (frame_reconciled (steps_plain_frame Hsp)) as [Hbp [Hgp Hrp]].
    assert (Hnew : ~ In (c, g) (reconciled (log s))).
    { intros Hin. exact (Hc c Hin Htag). }
    assert (Hor : once sr).
    { destruct Ho as [Ob On Og]. constructor.
      - exact Ob.
      - change (log sr) with (log sp ++ [EvReconcile c g]).
        rewrite reconciled_app, Hrp. simpl.
        apply NoDup_app; [exact On | repeat constructor; intros [] |].
        intros x Hx [<- | []]. exact (Hnew Hx).
      - intros c0 g0 Hin. change (log sr) with (log sp ++ [EvReconcile c g]) in Hin.
        rewrite reconciled_app, Hrp in Hin. apply in_app_or in Hin.
        change (updateBatchNumber sr) with g.
        destruct Hin as [Hin | [Hin | []]]; [exact (Og c0 g0 Hin) | inversion Hin; lia]. }
    assert (Hcr : forall c', c' <> c -> cleared sr c').
    { intros c' Hne Hin Ht.
      change (log sr) with (log sp ++ [EvReconcile c g]) in Hin.
      change (updateBatchNumber sr) with g in *.
      rewrite reconciled_app, Hrp in Hin. apply in_app_or in Hin.
      destruct Hin as [Hin | [Hin | []]]; [| inversion Hin; congruence].
      apply (steps_plain_cleared Hsp (Hc c')).
      - rewrite Hgp, Hrp. exact Hin.
      - rewrite Hgp. exact Ht. }
    destruct (runCmds P n (impl_performUpdateIfNecessary P c (reconcileTransaction o) sr) sr)
      as [[] s2 | e s2 |] eqn:Himpl.
    + (* the update returned *)
      destruct (wb_update Hwb c (reconcileTransaction o) sr)
        as [[pre [post [Hlist [Hpre Hpost]]]] | Hraise];
        [| exfalso; exact (@runCmds_raises P n _ Hraise _ _ Himpl)].
      assert (Hall : steps plain_atom sr s2).
      { eapply steps_weaken; [apply user_atom_plain |].
        exact (@always_runCmds P n _ sr s2 (ok_final Himpl) Hb). }
      rewrite Hlist, runCmds_app in Himpl.
      apply ok_bind_inv in Himpl. destruct Himpl as [[] [sa [Hrun_pre Himpl]]].
      cbn [runCmds] in Himpl.
      apply ok_bind_inv in Himpl. destruct Himpl as [[] [sb [Hclear Hrun_post]]].
      simpl in Hclear. unfold modify in Hclear. inversion Hclear as [Hsb]. clear Hclear.
      assert (Hpost_steps : steps plain_atom sb s2).
      { eapply steps_weaken; [apply user_atom_plain |].
        eapply (@always_runCmds P n post sb s2 (ok_final Hrun_post)).
        rewrite <- Hsb. simpl.
        assert (Hpre_steps : steps user_atom sr sa)
          by exact (@always_runCmds P n pre sr sa (ok_final Hrun_pre) Hb).
        rewrite (steps_isBatchingUpdates Hpre_steps). exact Hb. }
      assert (Hcb : cleared sb c).
      { intros _. rewrite <- Hsb.
        change (with_component c (comp_set_updateBatchNumber None) sa)
          with (do_atom (AClear c) sa).
        rewrite tag_of_clear, Nat.eqb_refl. discriminate. }
      assert (Hres : once s1 /\ forall c', cleared s1 c').
      { apply (Henq s2); [| exact Hrun]. right.
        split; [exact (frame_once (steps_plain_frame Hall) Hor) |].
        intros c'. destruct (Nat.eq_dec c' c) as [-> | Hne].
        - exact (steps_plain_cleared Hpost_steps Hcb).
        - exact (steps_plain_cleared Hall (Hcr c' Hne)). }
      split; [apply Hres | intros _ _; apply Hres].
    + (* the update threw *)
      inversion Hrun. subst s1. split; [| discriminate].
      assert (Hall : steps plain_atom sr s2).
      { eapply steps_weaken; [apply user_atom_plain |].
        exact (@always_runCmds P n _ sr s2 ltac:(rewrite Himpl; reflexivity) Hb). }
      exact (frame_once (steps_plain_frame Hall) Hor).
    + discriminate.
  - (* skipped *)
    assert (Hres : once s1 /\ forall c', cleared s1 c').
    { apply (Henq (skip_world c g (_updateBatchNumber (components s c)) sp)); [| exact Hrun].
      left. unfold skip_world.
      destruct (_updateBatchNumber (components s c)) as [t |]; [| exact Hsp].
      destruct (Nat.eqb t (g + 1)); [exact Hsp |].
      eapply steps_trans; [exact Hsp | apply steps_one; exact I]. }
    split; [apply Hres | intros _ _; apply Hres].
Qed.

Lemma batchLoop_once (n : nat) (tx : TxId) (k : nat) :
  forall i s s',
    once s -> (forall c, cleared s c) ->
    final (batchLoop P n tx i k s) = Some s' -> once s'.
Proof.
  induction k as [| k IH]; intros i s s' Ho Hc Hrun; simpl in Hrun.
  - inversion Hrun. subst s'. exact Ho.
  - unfold bind at 1 in Hrun. unfold get in Hrun.
    destruct (nth_error (dirtyComponents s) i) as [c |]; [| inversion Hrun; subst; exact Ho].
    apply final_bind in Hrun.
    destruct Hrun as [[e [Hthrow _]] | [[] [s1 [Hok [Hrest _]]]]].
    + apply (@iteration_once n tx c s s' Ho Hc). rewrite Hthrow. reflexivity.
    + destruct (@iteration_once n tx c s s1 Ho Hc (ok_final Hok)) as [Ho1 Hc1].
      exact (IH (S i) s1 s' Ho1 (Hc1 tt Hok) Hrest).
Qed.

Lemma always_once_runBatchedUpdates (n : nat) (tx : TxId) :
  always keeps_once (runBatchedUpdates P n tx).
Proof.
  intros s s' Hrun Ho. unfold runBatchedUpdates, bind, get_flushTx in Hrun.
  destruct (nth_error (flushTxs s) tx) as [o |]; [| inversion Hrun; subst; exact Ho].
  destruct (dirtyComponentsLength o) as [len |]; [| inversion Hrun; subst; exact Ho].
  destruct (Nat.eqb len (length (dirtyComponents s)));
    [| inversion Hrun; subst; exact Ho].
  unfold modify in Hrun. simpl in Hrun.
  destruct Ho as [Ob On Og].
  eapply batchLoop_once; [| | exact Hrun].
  - constructor; simpl; auto. intros c g H. apply Og in H. lia.
  - intros c H. simpl in H. apply Og in H. lia.
Qed.

Lemma always_once_get_flushTx (t : TxId) : always keeps_once (get_flushTx t).
Proof.
  apply always_once_same_log. intros s s' H. unfold get_flushTx in H.
  destruct (nth_error (flushTxs s) t); inversion H; auto.
Qed.

Lemma always_once_NESTED_UPDATES (flush : M unit) (t : TxId) :
  always keeps_once flush ->
  always keeps_once (initialize (NESTED_UPDATES flush t))
  /\ always keeps_once (close (NESTED_UPDATES flush t)).
Proof.
  intros Hflush. split; simpl.
  - once_bind; [apply always_once_get_flushTx |].
    apply always_once_same_log. intros s s' H. inversion H. auto.
  - once_bind; [apply always_once_get_flushTx |].
    intros s s' H.
    destruct (negb (option_nat_eqb (dirtyComponentsLength a)
                      (Some (length (dirtyComponents s))))).
    + unfold bind, modify in H. simpl in H. intros Ho.
      apply (Hflush _ _ H). destruct Ho as [Ob On Og]. constructor; assumption.
    + inversion H. subst. intros [Ob On Og]. constructor; assumption.
Qed.

Lemma always_once_perform (n : nat) (flush : M unit) (t : TxId) :
  always keeps_once flush ->
  always keeps_once (FlushTransaction_perform P n flush t (runBatchedUpdates P n t)).
Proof.
  intros Hflush. unfold FlushTransaction_perform.
  once_bind; [apply always_once_get_flushTx |].
  destruct (reconcileTransaction a) as [r |];
    [| apply always_throw; apply keeps_once_refl].
  apply always_perform.
  - apply keeps_once_refl.
  - apply keeps_once_trans.
  - intros w [<- | [<- | []]].
    + apply always_once_NESTED_UPDATES, Hflush.
    + destruct (always_calm_UPDATE_QUEUEING Hwb n t) as [Hi Hc].
      split; eapply always_once_of_steps; try apply calm_atom_plain; assumption.
  - apply always_perform.
    + apply keeps_once_refl.
    + apply keeps_once_trans.
    + intros w Hw.
      destruct (always_calm_RECONCILE_WRAPPERS Hwb Hw) as [Hi Hc].
      split; eapply always_once_of_steps; try apply calm_atom_plain; assumption.
    + apply always_once_runBatchedUpdates.
Qed.

Lemma always_once_transaction_part (n : nat) :
  always keeps_once (flushBatchedUpdates P n) ->
  always keeps_once
    (fun s =>
       if is_nonempty (dirtyComponents s) then
         (transaction <- FlushTransaction_getPooled ;;
          FlushTransaction_perform P n (flushBatchedUpdates P n)
            transaction (runBatchedUpdates P n transaction) ;;
          FlushTransaction_release transaction) s
       else Ok tt s).
Proof.
  intros IH s s' H.
  destruct (is_nonempty (dirtyComponents s));
    [| inversion H; subst; apply keeps_once_refl].
  revert s' H.
  assert (Hall : always keeps_once
    (transaction <- FlushTransaction_getPooled ;;
     FlushTransaction_perform P n (flushBatchedUpdates P n)
       transaction (runBatchedUpdates P n transaction) ;;
     FlushTransaction_release transaction)).
  { once_bind.
    { apply always_once_of_pool;
        [apply always_same_FlushTransaction_getPooled
        | apply always_logs_FlushTransaction_getPooled]. }
    once_bind; [apply always_once_perform, IH |].
    apply always_once_of_pool;
      [apply always_same_FlushTransaction_release
      | apply always_logs_FlushTransaction_release]. }
  intros s'. apply Hall.
Qed.

Lemma always_once_asap_part (n : nat) :
  always keeps_once
    (fun s =>
       if asapEnqueued s then
         (modify (set_asapEnqueued false) ;;
          queue <- get asapCallbackQueue ;;
          q' <- CallbackQueue_getPooled VUndefined ;;
          modify (set_asapCallbackQueue q') ;;
          CallbackQueue_notifyAll P n queue ;;
          CallbackQueue_release queue) s
       else Ok tt s).
Proof.
  intros s s' H.
  destruct (asapEnqueued s); [| inversion H; subst; apply keeps_once_refl].
  revert s' H.
  assert (Hall : always keeps_once
    (modify (set_asapEnqueued false) ;;
     queue <- get asapCallbackQueue ;;
     q' <- CallbackQueue_getPooled VUndefined ;;
     modify (set_asapCallbackQueue q') ;;
     CallbackQueue_notifyAll P n queue ;;
     CallbackQueue_release queue)).
  { once_bind.
    { apply always_once_same_log. intros s0 s1 H. inversion H. auto. }
    once_bind; [apply always_get; apply keeps_once_refl |].
    once_bind.
    { apply always_once_of_pool;
        [apply always_same_CallbackQueue_getPooled
        | apply always_logs_CallbackQueue_getPooled]. }
    once_bind.
    { apply always_once_same_log. intros s0 s1 H. inversion H. auto. }
    once_bind.
    { eapply always_once_of_steps; [apply calm_atom_plain |].
      apply always_calm_notifyAll. exact (wb_function Hwb). }
    apply always_once_of_pool;
      [apply always_same_CallbackQueue_release | apply always_logs_CallbackQueue_release]. }
  intros s'. apply Hall.
Qed.

(** Whatever the outcome of a flush, nothing was reconciled twice. *)
Lemma always_once_flush (n : nat) : always keeps_once (flushBatchedUpdates P n).
Proof.
  induction n as [| n IH]; [intros s s' H; discriminate |].
  intros s s' H. cbn [flushBatchedUpdates] in H.
  destruct (is_nonempty (dirtyComponents s) || asapEnqueued s);
    [| inversion H; subst; apply keeps_once_refl].
  revert s' H.
  pose proof (@always_once_transaction_part n IH) as H1.
  pose proof (always_once_asap_part n) as H2.
  intros s'.
  refine (@always_bind keeps_once keeps_once_trans unit unit _ _ H1 _ s s').
  intros []. 
  refine (@always_bind keeps_once keeps_once_trans unit unit _ _ H2 _).
  intros []. exact IH.
Qed.
End Once.

(** What one iteration adds to the reconciliations on record. *)
Lemma iteration_reconciles (P : Program) (n : nat) (tx : TxId) (o : FlushTransaction)
    (c : CompId) (s s1 : World) :
  isBatchingUpdates s = true ->
  nth_error (flushTxs s) tx = Some o ->
  final (batchIteration P n tx c s) = Some s1 ->
  reconciled (log s1) =
    reconciled (log s)
    ++ (if option_nat_eqb (tag_of s c) (Some (updateBatchNumber s))
        then [(c, updateBatchNumber s)] else []).
Proof.
  intros Hb Ho Hrun. rewrite (batchIteration_outcome P n tx c s Hb), Ho in Hrun.
  set (g := updateBatchNumber s) in *.
  set (sp := do_atom (AEmit (EvPerformUpdate c g)) (do_atom (AStash c) s)) in *.
  assert (Hsp : reconciled (log sp) = reconciled (log s)).
  { simpl. rewrite reconciled_app. apply app_nil_r. }
  assert (Henq : forall s2, isBatchingUpdates s2 = true ->
            final (enqueue_stashed o (_pendingCallbacks (components s c)) c s2) = Some s1 ->
            reconciled (log s1) = reconciled (log s2)).
  { intros s2 Hb2 Hq.
    apply (frame_reconciled (s := s2)). apply steps_plain_frame.
    exact (@always_enqueue_stashed plain_atom o _ c (fun _ _ => I) s2 s1 Hq Hb2). }
  unfold tag_of.
  destruct (option_nat_eqb (_updateBatchNumber (components s c)) (Some g)) eqn:Htag.
  - set (sr := do_atom (AEmit (EvReconcile c g)) sp) in *.
    assert (Hsr : reconciled (log sr) = reconciled (log s) ++ [(c, g)]).
    { change (log sr) with (log sp ++ [EvReconcile c g]).
      rewrite reconciled_app, Hsp. reflexivity. }
    destruct (runCmds P n (impl_performUpdateIfNecessary P c (reconcileTransaction o) sr) sr)
      as [[] s2 | e s2 |] eqn:Himpl; [| | discriminate].
    + assert (Hall : steps user_atom sr s2)
        by exact (@always_runCmds P n _ sr s2 (ok_final Himpl) Hb).
      rewrite (Henq s2); [| rewrite (steps_isBatchingUpdates Hall); exact Hb | exact Hrun].
      rewrite <- Hsr. apply (frame_reconciled (s := sr)). apply steps_plain_frame.
      eapply steps_weaken; [apply user_atom_plain | exact Hall].
    + inversion Hrun. subst s1.
      assert (Hall : steps user_atom sr s2)
        by exact (@always_runCmds P n _ sr s2 ltac:(rewrite Himpl; reflexivity) Hb).
      rewrite <- Hsr. apply (frame_reconciled (s := sr)). apply steps_plain_frame.
      eapply steps_weaken; [apply user_atom_plain | exact Hall].
  - rewrite app_nil_r, <- Hsp.
    rewrite (Henq (skip_world c g (_updateBatchNumber (components s c)) sp));
      [| | exact Hrun].
    + unfold skip_world. destruct (_updateBatchNumber (components s c)) as [t |];
        [| reflexivity].
      destruct (Nat.eqb t (g + 1)); [reflexivity |].
      simpl. rewrite !reconciled_app. simpl. rewrite !app_nil_r. reflexivity.
    + unfold skip_world. destruct (_updateBatchNumber (components s c)) as [t |];
        [| exact Hb].
      destruct (Nat.eqb t (g + 1)); exact Hb.
Qed.

(** Scheduling inside a batching scope keeps both invariants. *)
Lemma enqueues_keep (P : Program) (m : nat) (cs : list CompId) (s0 s : World) :
  settled s0 -> once s0 ->
  runCmds P m (map CEnqueueUpdate cs) s0 = Ok tt s ->
  settled s /\ once s.
Proof.
  intros Hs Ho Hrun.
  assert (Hl : no_clear (map CEnqueueUpdate cs)).
  { intros c H. apply in_map_iff in H. destruct H as [x [H _]]. discriminate. }
  pose proof (@calm_steps_of_list P m _ s0 s Hl (st_batching Hs) Hrun) as Hsteps.
  split; [exact (steps_calm_settled Hsteps Hs) |].
  apply (@frame_once s0 s); [| exact Ho]. apply steps_plain_frame.
  eapply steps_weaken; [apply calm_atom_plain | exact Hsteps].
Qed.

Lemma once_world0 : once world0.
Proof.
  constructor.
  - reflexivity.
  - constructor.
  - intros c g [].
Qed.



(** The reset of _updateBatchNumber by the node kind is what the skip
    relies on: with a node kind that leaves the field as it is,
    component 1, pushed twice, is reconciled twice in generation 1. *)
Example skip_relies_on_the_reset :
  exists s',
    flushBatchedUpdates stubborn 3 (after stubborn [CEnqueueUpdate 1; CEnqueueUpdate 1])
    = Ok tt s'
    /\ reconciled (log s') = [(1, 1); (1, 1)].
Proof.
  destruct (flushBatchedUpdates stubborn 3
              (after stubborn [CEnqueueUpdate 1; CEnqueueUpdate 1]))
    as [[] s' | |] eqn:Hrun;
    [| vm_compute in Hrun; discriminate | vm_compute in Hrun; discriminate].
  exists s'. split; [reflexivity |].
  by_evaluation Hrun (fun r : Result unit =>
    match r with Ok _ s => reconciled (log s) | _ => [] end).
Qed.

(** * Callbacks are notified before the flush returns *)

Lemma rel_refl (Qs : list QueueId) (s : World) : rel Qs s s.
Proof. constructor; auto. Qed.

Lemma rel_trans (Qs : list QueueId) (a b c : World) :
  rel Qs a b -> rel Qs b c -> rel Qs a c.
Proof.
  intros H1 H2. constructor.
  - rewrite (r_batching H2). apply (r_batching H1).
  - rewrite (r_asap H2). apply (r_asap H1).
  - rewrite (r_queuePool H2). apply (r_queuePool H1).
  - rewrite (r_flushPool H2). apply (r_flushPool H1).
  - rewrite (r_reconcilePool H2). apply (r_reconcilePool H1).
  - rewrite (r_flushTxs H2). apply (r_flushTxs H1).
  - rewrite (r_reconcileTxs H2). apply (r_reconcileTxs H1).
  - rewrite (r_length H2). apply (r_length H1).
  - intros q Hq Hn. rewrite (r_other H2); [apply (r_other H1); assumption | | exact Hn].
    rewrite (r_asap H1). exact Hq.
  - intros q x Hx. apply (r_grow H2), (r_grow H1), Hx.
  - intros q Hq. apply (r_ok H2), (r_ok H1), Hq.
  - intros Hf. destruct (r_flag H2 Hf) as [Hf1 He2].
    destruct (r_flag H1 Hf1) as [Hf0 He1].
    split; [exact Hf0 |]. rewrite <- He1, <- (r_asap H1). exact He2.
  - intros x Hx. destruct (r_owed H2 x Hx) as [H | [H | [q [Hq H]]]].
    + destruct (r_owed H1 x H) as [H' | [H' | [q [Hq H']]]].
      * left. exact H'.
      * right. left. apply (r_grow H2). exact H'.
      * right. right. exists q. split; [exact Hq | apply (r_grow H2); exact H'].
    + right. left. rewrite <- (r_asap H1). exact H.
    + right. right. exists q. split; assumption.
Qed.

Lemma brel_refl (Qs : list QueueId) (s : World) : brel Qs s s.
Proof. intros _ _ _. apply rel_refl. Qed.

Lemma brel_trans (Qs : list QueueId) (a b c : World) :
  brel Qs a b -> brel Qs b c -> brel Qs a c.
Proof.
  intros H1 H2 Hb Hok HA. pose proof (H1 Hb Hok HA) as R1.
  apply (rel_trans R1). apply H2.
  - rewrite (r_batching R1). exact Hb.
  - intros q. apply (r_ok R1), Hok.
  - rewrite (r_asap R1). exact HA.
Qed.

Lemma rel_weaken (Qs Qs' : list QueueId) (s s' : World) :
  (forall q, In q Qs -> In q Qs') -> rel Qs s s' -> rel Qs' s s'.
Proof.
  intros HQ [H1 H2 H3 H4 H5 H6 H7 H8 H9 H10 H11 H12 H13]. constructor; auto.
  intros x Hx. destruct (H13 x Hx) as [H | [H | [q [Hq H]]]]; auto.
  right. right. exists q. auto.
Qed.

Ltac owed_bind :=
  apply on_ok_bind; [apply brel_trans | | intros ?].

Lemma unnotified_snoc (l : list Event) (e : Event) :
  unnotified (l ++ [e]) = note (unnotified l) e.
Proof. apply fold_left_app. Qed.

Lemma note_incl (owed : list (Callback * Value)) (e : Event) (x : Callback * Value) :
  (forall q cb ctx, e <> EvEnqueue q cb ctx) -> In x (note owed e) -> In x owed.
Proof.
  intros He H. destruct e; simpl in H; auto.
  - apply filter_In in H. apply H.
  - exfalso. exact (He _ _ _ eq_refl).
Qed.

(** A change of the world that leaves the queues, the heaps and the
    log alone, and does not clear the asap flag. *)
Lemma rel_same (Qs : list QueueId) (s s' : World) :
  isBatchingUpdates s' = isBatchingUpdates s ->
  asapCallbackQueue s' = asapCallbackQueue s ->
  queuePool s' = queuePool s -> flushPool s' = flushPool s ->
  reconcilePool s' = reconcilePool s ->
  flushTxs s' = flushTxs s -> reconcileTxs s' = reconcileTxs s ->
  queues s' = queues s -> log s' = log s ->
  (asapEnqueued s' = false -> asapEnqueued s = false) ->
  rel Qs s s'.
Proof.
  intros H1 H2 H3 H4 H5 H6 H7 H8 H9 H10.
  assert (He : forall q, entries q s' = entries q s).
  { intros q. unfold entries, callbacks_of, contexts_of. rewrite H8. reflexivity. }
  constructor; auto.
  - rewrite H8. reflexivity.
  - intros q _ _. rewrite H8. reflexivity.
  - intros q x. rewrite He. auto.
  - intros q. unfold queue_ok, callbacks_of, contexts_of. rewrite H8. auto.
  - intros x. rewrite H9. auto.
Qed.

Lemma on_ok_owed_modify (Qs : list QueueId) (f : World -> World) :
  (forall s, rel Qs s (f s)) -> on_ok (brel Qs) (modify f).
Proof. intros Hf s a s' H _ _ _. inversion H. subst. apply Hf. Qed.

Lemma on_ok_owed_emit (Qs : list QueueId) (e : Event) :
  (forall q cb ctx, e <> EvEnqueue q cb ctx) -> on_ok (brel Qs) (emit e).
Proof.
  intros He s a s' H _ _ _. inversion H. subst.
  assert (Hent : forall q, entries q (set_log (log s ++ [e]) s) = entries q s)
    by reflexivity.
  constructor; simpl; auto.
  intros x Hx. left. rewrite unnotified_snoc in Hx. eapply note_incl; eassumption.
Qed.

Lemma combine_snoc {A B : Type} (l1 : list A) (l2 : list B) (a : A) (b : B) :
  length l1 = length l2 ->
  combine (l1 ++ [a]) (l2 ++ [b]) = combine l1 l2 ++ [(a, b)].
Proof.
  revert l2. induction l1 as [| h t IH]; intros [| h2 t2] H; simpl in *;
    try discriminate; [reflexivity |].
  rewrite IH by lia. reflexivity.
Qed.

(** The world after [q.enqueue(cb, ctx)]. *)
Lemma queue_enqueue_ok (q : QueueId) (cb : Callback) (ctx : Value) (s s' : World) :
  queue_enqueue q cb ctx s = Ok tt s' ->
  exists this,
    nth_error (queues s) q = Some this
    /\ s' = set_log (log s ++ [EvEnqueue q cb ctx])
              (set_queues (list_set q (CallbackQueue_enqueue cb ctx this) (queues s)) s).
Proof.
  unfold queue_enqueue, bind, with_queue, emit, modify.
  destruct (nth_error (queues s) q) as [this |]; [| discriminate].
  intros H. inversion H. exists this. split; reflexivity.
Qed.

Lemma entries_enqueue (q q' : QueueId) (cb : Callback) (ctx : Value)
    (this : CallbackQueue) (l : list Event) (s : World) :
  nth_error (queues s) q = Some this ->
  queue_ok q s ->
  entries q' (set_log l
                (set_queues (list_set q (CallbackQueue_enqueue cb ctx this) (queues s)) s))
  = if Nat.eqb q q' then entries q s ++ [(Some cb, ctx)] else entries q' s.
Proof.
  intros Hq Hok.
  assert (Hlt : q < length (queues s)) by (apply nth_error_Some; rewrite Hq; discriminate).
  unfold entries. rewrite callbacks_of_put, contexts_of_put by exact Hlt.
  destruct (Nat.eqb q q'); [| reflexivity]. simpl.
  unfold queue_ok, callbacks_of, contexts_of in *. rewrite Hq in *.
  apply combine_snoc. exact Hok.
Qed.

Lemma queue_ok_enqueue (q q' : QueueId) (cb : Callback) (ctx : Value)
    (this : CallbackQueue) (l : list Event) (s : World) :
  nth_error (queues s) q = Some this ->
  queue_ok q' s ->
  queue_ok q' (set_log l
                 (set_queues (list_set q (CallbackQueue_enqueue cb ctx this) (queues s)) s)).
Proof.
  intros Hq Hok.
  assert (Hlt : q < length (queues s)) by (apply nth_error_Some; rewrite Hq; discriminate).
  unfold queue_ok. rewrite callbacks_of_put, contexts_of_put by exact Hlt.
  destruct (Nat.eqb q q') eqn:E; [| exact Hok]. apply Nat.eqb_eq in E. subst q'.
  simpl. unfold queue_ok, callbacks_of, contexts_of in Hok. rewrite Hq in Hok.
  rewrite !length_app. simpl. lia.
Qed.

(** An enqueue on one of the queues [Qs]. *)
Lemma on_ok_owed_enqueue (Qs : list QueueId) (q : QueueId) (cb : Callback) (ctx : Value) :
  In q Qs -> on_ok (brel Qs) (queue_enqueue q cb ctx).
Proof.
  intros HQ s [] s' H Hb Hok HA.
  destruct (queue_enqueue_ok _ _ _ _ H) as [this [Hq ->]].
  assert (HqA : q <> asapCallbackQueue s) by (intros ->; exact (HA HQ)).
  constructor; simpl; auto.
  - apply length_list_set.
  - intros q0 _ Hn. apply nth_error_list_set_neq. intros ->. exact (Hn HQ).
  - intros q0 x Hx. rewrite (entries_enqueue q0 cb ctx _ Hq (Hok q)).
    destruct (Nat.eqb q q0) eqn:E; [| exact Hx].
    apply Nat.eqb_eq in E. subst q0. apply in_or_app. left. exact Hx.
  - intros q0 Hq0. apply queue_ok_enqueue; assumption.
  - intros Hf. split; [exact Hf |].
    rewrite (entries_enqueue (asapCallbackQueue s) cb ctx _ Hq (Hok q)).
    destruct (Nat.eqb q (asapCallbackQueue s)) eqn:E; [| reflexivity].
    apply Nat.eqb_eq in E. contradiction.
  - intros x Hx. rewrite unnotified_snoc in Hx. simpl in Hx.
    apply in_app_or in Hx. destruct Hx as [Hx | [<- | []]]; [left; exact Hx |].
    right. right. exists q. split; [exact HQ |]. unfold holds. simpl.
    rewrite (entries_enqueue q cb ctx _ Hq (Hok q)), Nat.eqb_refl.
    apply in_or_app. right. left. reflexivity.
Qed.

(** ReactUpdates.asap *)
Lemma on_ok_owed_asap (Qs : list QueueId) (cb : Callback) (ctx : Value) :
  on_ok (brel Qs) (asap cb ctx).
Proof.
  intros s [] s' H Hb Hok HA. unfold asap in H.
  destruct (negb (batchingStrategy s)); [discriminate |].
  rewrite Hb in H. simpl in H.
  apply ok_bind_inv in H. destruct H as [[] [s1 [H1 H2]]].
  destruct (queue_enqueue_ok _ _ _ _ H1) as [this [Hq ->]].
  unfold modify in H2. inversion H2. subst s'. clear H2.
  set (A := asapCallbackQueue s) in *.
  constructor; simpl; auto.
  - apply length_list_set.
  - intros q0 Hn _. apply nth_error_list_set_neq. intros E. apply Hn. symmetry. exact E.
  - intros q0 x Hx.
    change (In x (entries q0 (set_log (log s ++ [EvEnqueue A cb ctx])
              (set_queues (list_set A (CallbackQueue_enqueue cb ctx this) (queues s)) s)))).
    rewrite (entries_enqueue q0 cb ctx _ Hq (Hok A)).
    destruct (Nat.eqb A q0) eqn:E; [| exact Hx].
    apply Nat.eqb_eq in E. subst q0. apply in_or_app. left. exact Hx.
  - intros q0 Hq0.
    change (queue_ok q0 (set_log (log s ++ [EvEnqueue A cb ctx])
              (set_queues (list_set A (CallbackQueue_enqueue cb ctx this) (queues s)) s))).
    apply queue_ok_enqueue; assumption.
  - discriminate.
  - intros x Hx. rewrite unnotified_snoc in Hx. simpl in Hx.
    apply in_app_or in Hx. destruct Hx as [Hx | [<- | []]]; [left; exact Hx |].
    right. left. unfold holds. simpl.
    change (In (Some cb, ctx) (entries A (set_log (log s ++ [EvEnqueue A cb ctx])
              (set_queues (list_set A (CallbackQueue_enqueue cb ctx this) (queues s)) s)))).
    rewrite (entries_enqueue A cb ctx _ Hq (Hok A)), Nat.eqb_refl.
    apply in_or_app. right. left. reflexivity.
Qed.

Ltac owed_same := apply on_ok_owed_modify; intros ?; apply rel_same; auto.

Lemma on_ok_owed_markDirty (Qs : list QueueId) (c : CompId) :
  on_ok (brel Qs) (markDirty c).
Proof.
  unfold markDirty. owed_bind; [owed_same |].
  intros s [] s' H.
  destruct (_updateBatchNumber (components s c)).
  - inversion H. subst. apply brel_refl.
  - revert H. revert s'.
    assert (Hall : on_ok (brel Qs)
      (modify (with_component c
                 (comp_set_updateBatchNumber (Some (updateBatchNumber s + 1)))) ;;
       emit (EvSchedule c (updateBatchNumber s + 1)))).
    { owed_bind; [owed_same | apply on_ok_owed_emit; discriminate]. }
    intros s'. apply Hall.
Qed.

Lemma on_ok_owed_enqueueUpdate (Qs : list QueueId) (P : Program) (n : nat) (c : CompId) :
  on_ok (brel Qs) (enqueueUpdate P n c).
Proof.
  intros s [] s' H Hb Hok HA. destruct n as [| n]; [discriminate |].
  simpl in H. unfold bind, ensureInjected in H.
  destruct (ReactReconcileTransaction s && batchingStrategy s); [| discriminate].
  simpl in H. rewrite Hb in H. simpl in H.
  exact (@on_ok_owed_markDirty Qs c s tt s' H Hb Hok HA).
Qed.

Section Owed.
Variable P : Program.
Hypothesis Hnd : no_direct_enqueue P.

Lemma on_ok_owed_runCmd (Qs : list QueueId) (n : nat) (cmd : Cmd) :
  (forall q f ctx, cmd <> CQueueEnqueue q f ctx) ->
  on_ok (brel Qs) (runCmd P n cmd).
Proof.
  intros Hcmd. destruct cmd; simpl.
  - apply on_ok_owed_enqueueUpdate.
  - apply on_ok_owed_asap.
  - owed_same.
  - owed_same.
  - owed_same.
  - owed_same.
  - exfalso. exact (Hcmd _ _ _ eq_refl).
  - apply on_ok_throw.
Qed.

Lemma on_ok_owed_runCmds (Qs : list QueueId) (n : nat) (l : list Cmd) :
  no_direct_enqueue_in l -> on_ok (brel Qs) (runCmds P n l).
Proof.
  induction l as [| cmd rest IH]; intros Hl; simpl.
  - apply on_ok_ret. apply brel_refl.
  - owed_bind.
    + apply on_ok_owed_runCmd. intros q f ctx ->. exact (Hl q f ctx (or_introl eq_refl)).
    + apply IH. intros q f ctx H. exact (Hl q f ctx (or_intror H)).
Qed.

Lemma on_ok_owed_body (Qs : list QueueId) (n : nat) (f : FnId) (this arg : Value) :
  on_ok (brel Qs) (fun s => runCmds P n (fn_body P f this arg s) s).
Proof.
  intros s a s' H. exact (on_ok_owed_runCmds Qs n (nd_function Hnd f this arg s) H).
Qed.

Lemma on_ok_owed_call_ref (Qs : list QueueId) (n : nat) (f : FnId) (arg : Value) :
  on_ok (brel Qs) (call_ref P n f arg).
Proof.
  unfold call_ref. owed_bind; [apply on_ok_owed_emit; discriminate |].
  apply on_ok_owed_body.
Qed.

Lemma on_ok_owed_attachRefs (Qs : list QueueId) (n : nat) (c : CompId) (element : Node) :
  on_ok (brel Qs) (ReactRef_attachRefs P n c element).
Proof.
  destruct element; simpl; try (apply on_ok_ret; apply brel_refl).
  intros s a s' H. destruct (ref (elements s e)) eqn:Hr.
  - inversion H. subst. apply brel_refl.
  - exact (on_ok_owed_call_ref Qs n f (VPublic c) H).
  - exact (@on_ok_owed_emit Qs (EvAddRef c (RefName name) (_owner (elements s e)))
             ltac:(discriminate) s a s' H).
Qed.

Lemma on_ok_owed_callback_body (Qs : list QueueId) (n : nat) (cb : Callback)
    (this arg : Value) :
  on_ok (brel Qs) (callback_body P n cb this arg).
Proof.
  destruct cb; simpl.
  - apply on_ok_owed_body.
  - destruct this; try apply on_ok_throw.
    intros s a s' H. exact (on_ok_owed_attachRefs Qs n c _ H).
Qed.

Lemma invoke_ok (n : nat) (cb : option Callback) (this arg : Value) (s s' : World) :
  invoke P n cb this arg s = Ok tt s' ->
  exists c, cb = Some c
            /\ callback_body P n c this arg (set_log (log s ++ [EvInvoke c this arg]) s)
               = Ok tt s'.
Proof.
  destruct cb as [[f |] |]; simpl; intros H; try discriminate.
  - exists (UserFn f). split; [reflexivity |]. exact H.
  - exists AttachRefs. split; [reflexivity |].
    unfold bind, emit, modify in H. simpl in H. exact H.
Qed.

Lemma value_eqb_eq (a b : Value) : value_eqb a b = true <-> a = b.
Proof.
  destruct a, b; simpl; split; intros H; try discriminate; try reflexivity;
    try (apply Nat.eqb_eq in H; congruence);
    inversion H; apply Nat.eqb_refl.
Qed.

Lemma callback_eqb_eq (a b : Callback) : callback_eqb a b = true <-> a = b.
Proof.
  destruct a, b; simpl; split; intros H; try discriminate; try reflexivity.
  - apply Nat.eqb_eq in H. congruence.
  - inversion H. apply Nat.eqb_refl.
Qed.

Lemma notice_eqb_eq (x y : Callback * Value) : notice_eqb x y = true <-> x = y.
Proof.
  destruct x as [a b], y as [c d]. unfold notice_eqb. simpl.
  rewrite andb_true_iff, callback_eqb_eq, value_eqb_eq.
  split; [intros [-> ->]; reflexivity | intros H; inversion H; auto].
Qed.

Lemma unnotified_invoke (l : list Event) (cb : Callback) (ctx arg : Value)
    (x : Callback * Value) :
  In x (unnotified (l ++ [EvInvoke cb ctx arg])) <-> In x (unnotified l) /\ x <> (cb, ctx).
Proof.
  rewrite unnotified_snoc. simpl. rewrite filter_In, negb_true_iff.
  split; intros [H1 H2]; split; auto.
  - intros E. apply notice_eqb_eq in E. congruence.
  - destruct (notice_eqb x (cb, ctx)) eqn:E; [| reflexivity].
    apply notice_eqb_eq in E. contradiction.
Qed.

(** The calls of notifyAll, one by one: each pair called is no longer
    owed; what the callbacks enqueue is on the asap queue. *)
Lemma invokeAll_owed (n : nat) (arg : Value) (callbacks : list (option Callback)) :
  forall (contexts : list Value) (s s' : World),
    length callbacks = length contexts ->
    isBatchingUpdates s = true -> (forall q, queue_ok q s) ->
    invokeAll P n callbacks contexts arg s = Ok tt s' ->
    rel [] s s'
    /\ forall x, In x (unnotified (log s')) ->
                 (In x (unnotified (log s))
                  /\ ~ In (Some (fst x), snd x) (combine callbacks contexts))
                 \/ holds (asapCallbackQueue s) s' x.
Proof.
  induction callbacks as [| cb rest IH]; intros contexts s s' Hlen Hb Hok H.
  - inversion H. subst s'. split; [apply rel_refl |].
    intros x Hx. left. split; [exact Hx | intros []].
  - destruct contexts as [| ctx ctxs]; [discriminate |]. simpl in Hlen.
    simpl in H. apply ok_bind_inv in H. destruct H as [[] [s1 [H1 H2]]].
    destruct (@invoke_ok n cb ctx arg s s1 H1) as [c [-> Hbody]].
    set (se := set_log (log s ++ [EvInvoke c ctx arg]) s) in *.
    assert (Re : rel [] s se).
    { exact (@on_ok_owed_emit [] (EvInvoke c ctx arg) ltac:(discriminate) s tt se
               eq_refl Hb Hok (fun H => H)). }
    assert (R1 : rel [] se s1).
    { exact (@on_ok_owed_callback_body [] n c ctx arg se tt s1 Hbody Hb Hok
               (fun H => H)). }
    pose proof (rel_trans Re R1) as R01.
    destruct (IH ctxs s1 s') as [R2 Howed]; [lia | | | exact H2 |].
    { rewrite (r_batching R01). exact Hb. }
    { intros q. apply (r_ok R01), Hok. }
    split; [exact (rel_trans R01 R2) |].
    intros x Hx. destruct (Howed x Hx) as [[Hx1 Hrest] | Hx1].
    + destruct (r_owed R1 x Hx1) as [Hxe | [Hxe | [q [[] _]]]].
      * apply unnotified_invoke in Hxe. destruct Hxe as [Hx0 Hne].
        left. split; [exact Hx0 |]. simpl. intros [E | E]; [| exact (Hrest E)].
        apply Hne. inversion E. destruct x. reflexivity.
      * right. apply (r_grow R2). exact Hxe.
    + right. rewrite <- (r_asap R01). exact Hx1.
Qed.

Lemma entries_reset (q q' : QueueId) (this : CallbackQueue) (s : World) :
  nth_error (queues s) q = Some this ->
  entries q' (set_queues (list_set q (CallbackQueue_reset this) (queues s)) s)
  = if Nat.eqb q q' then [] else entries q' s.
Proof.
  intros Hq.
  assert (Hlt : q < length (queues s)) by (apply nth_error_Some; rewrite Hq; discriminate).
  unfold entries, callbacks_of, contexts_of. simpl.
  destruct (Nat.eqb q q') eqn:E.
  - apply Nat.eqb_eq in E. subst q'. rewrite nth_error_list_set_eq by exact Hlt. reflexivity.
  - apply Nat.eqb_neq in E. rewrite nth_error_list_set_neq by exact E. reflexivity.
Qed.

Lemma queue_ok_reset (q q' : QueueId) (this : CallbackQueue) (s : World) :
  nth_error (queues s) q = Some this ->
  queue_ok q' s ->
  queue_ok q' (set_queues (list_set q (CallbackQueue_reset this) (queues s)) s).
Proof.
  intros Hq Hok.
  assert (Hlt : q < length (queues s)) by (apply nth_error_Some; rewrite Hq; discriminate).
  unfold queue_ok, callbacks_of, contexts_of in *. simpl.
  destruct (Nat.eq_dec q q') as [<- | Hne].
  - rewrite nth_error_list_set_eq by exact Hlt. reflexivity.
  - rewrite nth_error_list_set_neq by exact Hne. exact Hok.
Qed.

(** notifyAll on a queue that is not the asap queue. *)
Lemma notifyAll_owed (n : nat) (q0 : QueueId) (s s' : World) :
  isBatchingUpdates s = true -> (forall q, queue_ok q s) ->
  q0 <> asapCallbackQueue s ->
  CallbackQueue_notifyAll P n q0 s = Ok tt s' ->
  notified q0 s s' /\ called q0 s s'.
Proof.
  intros Hb Hok HqA H. unfold CallbackQueue_notifyAll in H.
  destruct (nth_error (queues s) q0) as [this |] eqn:Hq; [| discriminate].
  assert (Hidle : entries q0 s = [] -> s' = s -> notified q0 s s' /\ called q0 s s').
  { intros He ->. split; [constructor; auto |].
    intros x Hx. left. split; [exact Hx |]. unfold holds. rewrite He. intros []. }
  assert (Hcb : callbacks_of q0 s = or_empty (_callbacks this))
    by (unfold callbacks_of; rewrite Hq; reflexivity).
  assert (Hctx : contexts_of q0 s = or_empty (_contexts this))
    by (unfold contexts_of; rewrite Hq; reflexivity).
  destruct (_callbacks this) as [callbacks |] eqn:Hcbs.
  2:{ apply Hidle; [| inversion H; reflexivity].
      unfold entries. rewrite Hcb. reflexivity. }
  destruct (_contexts this) as [contexts |] eqn:Hctxs.
  2:{ apply Hidle; [| inversion H; reflexivity].
      unfold entries. rewrite Hctx. simpl. apply combine_nil. }
  destruct (Nat.eqb (length callbacks) (length contexts)) eqn:Hlen; [| discriminate].
  apply Nat.eqb_eq in Hlen.
  unfold bind, with_queue in H. rewrite Hq in H.
  change {| _callbacks := None; _contexts := None; _arg := _arg this |}
    with (CallbackQueue_reset this) in H.
  set (sr := set_queues (list_set q0 (CallbackQueue_reset this) (queues s)) s) in *.
  assert (Hokr : forall q, queue_ok q sr).
  { intros q. apply queue_ok_reset; [exact Hq | apply Hok]. }
  destruct (@invokeAll_owed n (_arg this) callbacks contexts sr s' Hlen Hb Hokr H)
    as [R Howed].
  assert (Hent : forall q, q <> q0 -> entries q sr = entries q s).
  { intros q Hne. unfold sr. rewrite (@entries_reset q0 q this s Hq).
    destruct (Nat.eqb q0 q) eqn:E; [| reflexivity].
    apply Nat.eqb_eq in E. congruence. }
  split; [constructor |].
  - apply (r_batching R).
  - apply (r_asap R).
  - apply (r_queuePool R).
  - apply (r_flushPool R).
  - apply (r_reconcilePool R).
  - apply (r_flushTxs R).
  - apply (r_reconcileTxs R).
  - rewrite (r_length R). apply length_list_set.
  - intros q HA Hne. rewrite (r_other R); [| exact HA | intros []].
    apply nth_error_list_set_neq. congruence.
  - unfold entries, callbacks_of, contexts_of.
    rewrite (r_other R); [| exact HqA | intros []].
    unfold sr. simpl. rewrite nth_error_list_set_eq; [reflexivity |].
    apply nth_error_Some. rewrite Hq. discriminate.
  - intros x Hx. apply (r_grow R). rewrite Hent by congruence. exact Hx.
  - intros q. apply (r_ok R), Hokr.
  - intros Hf. destruct (r_flag R Hf) as [Hf0 He]. split; [exact Hf0 |].
    change (asapCallbackQueue sr) with (asapCallbackQueue s) in He.
    rewrite He. apply Hent. congruence.
  - intros x Hx. destruct (Howed x Hx) as [[Hx0 Hnot] | Hx0].
    + left. split; [exact Hx0 |]. unfold holds, entries. rewrite Hcb, Hctx. exact Hnot.
    + right. exact Hx0.
Qed.

Lemma lrel_refl (tx : TxId) (q : QueueId) (s : World) : lrel tx q s s.
Proof. intros _. apply brel_refl. Qed.

Lemma lrel_trans (tx : TxId) (q : QueueId) (a b c : World) :
  lrel tx q a b -> lrel tx q b c -> lrel tx q a c.
Proof.
  intros H1 H2 Hpre Hb Hok HA. pose proof (H1 Hpre Hb Hok HA) as R1.
  apply (rel_trans R1). apply H2.
  - rewrite (r_flushTxs R1). exact Hpre.
  - rewrite (r_batching R1). exact Hb.
  - intros q0. apply (r_ok R1), Hok.
  - rewrite (r_asap R1). exact HA.
Qed.

Lemma on_ok_lrel_of_brel {A : Type} (tx : TxId) (q : QueueId) (m : M A) :
  on_ok (brel [q]) m -> on_ok (lrel tx q) m.
Proof. intros Hm s a s' H _. exact (Hm s a s' H). Qed.

Ltac loop_bind :=
  apply on_ok_bind; [apply lrel_trans | | intros ?].

Lemma on_ok_owed_get {A : Type} (Qs : list QueueId) (m : M A) :
  (forall s a s', m s = Ok a s' -> s' = s) -> on_ok (brel Qs) m.
Proof. intros Hm s a s' H. rewrite (Hm s a s' H). apply brel_refl. Qed.

Lemma on_ok_owed_get_flushTx (Qs : list QueueId) (t : TxId) :
  on_ok (brel Qs) (get_flushTx t).
Proof.
  apply on_ok_owed_get. intros s a s' H. unfold get_flushTx in H.
  destruct (nth_error (flushTxs s) t); inversion H; reflexivity.
Qed.

Lemma on_ok_owed_dispatch (Qs : list QueueId) (n : nat) (c : CompId)
    (tx : option RtxId) (g : nat) :
  on_ok (brel Qs) (ReactReconciler_performUpdateIfNecessary P n c tx g).
Proof.
  unfold ReactReconciler_performUpdateIfNecessary.
  owed_bind; [apply on_ok_owed_emit; discriminate |].
  intros s [] s' H.
  destruct (_updateBatchNumber (components s c)) as [t |];
    [| inversion H; subst; apply brel_refl].
  destruct (Nat.eqb t g).
  - revert s' H.
    assert (Hall : on_ok (brel Qs)
      (emit (EvReconcile c g) ;;
       fun s1 => runCmds P n (impl_performUpdateIfNecessary P c tx s1) s1)).
    { owed_bind; [apply on_ok_owed_emit; discriminate |].
      intros s1 a1 s2 H1. exact (on_ok_owed_runCmds Qs n (nd_update Hnd c tx s1) H1). }
    intros s'. apply Hall.
  - destruct (Nat.eqb t (g + 1)); [inversion H; subst; apply brel_refl |].
    exact (@on_ok_owed_emit Qs (EvWarning c g) ltac:(discriminate) s tt s' H).
Qed.

Lemma on_ok_owed_enqueueCallbacks (Qs : list QueueId) (q : QueueId)
    (callbacks : list Callback) (ctx : Value) :
  In q Qs -> on_ok (brel Qs) (enqueueCallbacks (Some q) callbacks ctx).
Proof.
  intros HQ. induction callbacks as [| cb rest IH]; simpl.
  - apply on_ok_ret. apply brel_refl.
  - owed_bind; [apply on_ok_owed_enqueue; exact HQ | exact IH].
Qed.

Lemma on_ok_loop_iteration (n : nat) (tx : TxId) (q : QueueId) (c : CompId) :
  on_ok (lrel tx q) (batchIteration P n tx c).
Proof.
  unfold batchIteration.
  loop_bind; [apply on_ok_get; apply lrel_refl |].
  loop_bind; [apply on_ok_lrel_of_brel; owed_same |].
  loop_bind; [apply on_ok_lrel_of_brel, on_ok_owed_get_flushTx |].
  loop_bind; [apply on_ok_get; apply lrel_refl |].
  loop_bind; [apply on_ok_lrel_of_brel, on_ok_owed_dispatch |].
  destruct a as [cbs |]; [| apply on_ok_ret; apply lrel_refl].
  intros s [] s' H Hpre. unfold bind, get_flushTx in H.
  destruct (nth_error (flushTxs s) tx) as [o |] eqn:Ho; [| discriminate].
  rewrite (Hpre o eq_refl) in H.
  exact (@on_ok_owed_enqueueCallbacks [q] q cbs (VPublic c) (or_introl eq_refl) s tt s' H).
Qed.

Lemma on_ok_loop_batchLoop (n : nat) (tx : TxId) (q : QueueId) (k : nat) :
  forall i, on_ok (lrel tx q) (batchLoop P n tx i k).
Proof.
  induction k as [| k IH]; intros i; simpl.
  - apply on_ok_ret. apply lrel_refl.
  - loop_bind; [apply on_ok_get; apply lrel_refl |].
    destruct (nth_error a i); [| apply on_ok_throw].
    loop_bind; [apply on_ok_loop_iteration | apply IH].
Qed.

Lemma on_ok_loop_runBatchedUpdates (n : nat) (tx : TxId) (q : QueueId) :
  on_ok (lrel tx q) (runBatchedUpdates P n tx).
Proof.
  unfold runBatchedUpdates.
  loop_bind; [apply on_ok_lrel_of_brel, on_ok_owed_get_flushTx |].
  intros s [] s' H.
  destruct (dirtyComponentsLength a) as [len |]; [| discriminate].
  destruct (Nat.eqb len (length (dirtyComponents s))); [| discriminate].
  revert s' H.
  assert (Hall : on_ok (lrel tx q)
    (modify (fun s => set_dirtyComponents
               (array_sort (mountOrderComparator s) (dirtyComponents s)) s) ;;
     modify (fun s => set_updateBatchNumber (updateBatchNumber s + 1) s) ;;
     batchLoop P n tx 0 len)).
  { loop_bind; [apply on_ok_lrel_of_brel; owed_same |].
    loop_bind; [apply on_ok_lrel_of_brel; owed_same |].
    apply on_ok_loop_batchLoop. }
  intros s'. apply Hall.
Qed.
End Owed.

(** ** Live instances are left alone *)

Lemma guards_refl (Xq : list QueueId) (Xt : list TxId) (Xr : list RtxId) (s : World) :
  guards_but Xq Xt Xr s s.
Proof. constructor; auto. Qed.

Lemma guards_trans (Xq : list QueueId) (Xt : list TxId) (Xr : list RtxId) (a b c : World) :
  guards_but Xq Xt Xr a b -> guards_but Xq Xt Xr b c -> guards_but Xq Xt Xr a c.
Proof.
  intros [Q1 T1 R1] [Q2 T2 R2]. constructor.
  - intros q Hl HA HX. destruct (Q1 q Hl HA HX) as [Hl1 [HA1 E1]].
    destruct (Q2 q Hl1 HA1 HX) as [Hl2 [HA2 E2]].
    split; [exact Hl2 |]. split; [exact HA2 | congruence].
  - intros t Hl HX. destruct (T1 t Hl HX) as [Hl1 E1].
    destruct (T2 t Hl1 HX) as [Hl2 E2]. split; [exact Hl2 | congruence].
  - intros r Hl HX. destruct (R1 r Hl HX) as [Hl1 E1].
    destruct (R2 r Hl1 HX) as [Hl2 E2]. split; [exact Hl2 | congruence].
Qed.

Lemma guards_weaken (Xq Xq' : list QueueId) (Xt Xt' : list TxId) (Xr Xr' : list RtxId)
    (s s' : World) :
  (forall q, In q Xq -> In q Xq') -> (forall t, In t Xt -> In t Xt') ->
  (forall r, In r Xr -> In r Xr') ->
  guards_but Xq Xt Xr s s' -> guards_but Xq' Xt' Xr' s s'.
Proof.
  intros HQ HT HR [Q1 T1 R1]. constructor; auto.
Qed.

Lemma rel_guards (Qs : list QueueId) (s s' : World) :
  rel Qs s s' -> guards_but Qs [] [] s s'.
Proof.
  intros R. constructor.
  - intros q [Hlt Hp] HA HX. unfold live.
    rewrite (r_length R), (r_queuePool R), (r_asap R).
    repeat split; auto. apply (r_other R); assumption.
  - intros t Hl _. unfold live in *. rewrite (r_flushTxs R), (r_flushPool R). auto.
  - intros r Hl _. unfold live in *. rewrite (r_reconcileTxs R), (r_reconcilePool R). auto.
Qed.

Lemma notified_guards (q0 : QueueId) (s s' : World) :
  notified q0 s s' -> guards_but [q0] [] [] s s'.
Proof.
  intros R. constructor.
  - intros q [Hlt Hp] HA HX. unfold live.
    rewrite (n_length R), (n_queuePool R), (n_asap R).
    repeat split; auto. apply (n_other R); [exact HA |].
    intros ->. apply HX. left. reflexivity.
  - intros t Hl _. unfold live in *. rewrite (n_flushTxs R), (n_flushPool R). auto.
  - intros r Hl _. unfold live in *. rewrite (n_reconcileTxs R), (n_reconcilePool R). auto.
Qed.

Lemma guards_owns (tx : TxId) (q : QueueId) (r : RtxId) (qr : QueueId) (s s' : World) :
  guards_but [] [] [] s s' -> owns tx q r qr s -> owns tx q r qr s'.
Proof.
  intros [GQ GT GR] [[o [Ho [Hoq Hor]]] H2 H3 H4 H5 H6 [H7 [H8 H9]]].
  assert (Ltx : live (flushTxs s) (flushPool s) tx).
  { split; [apply nth_error_Some; rewrite Ho; discriminate | exact H2]. }
  assert (Lr : live (reconcileTxs s) (reconcilePool s) r).
  { split; [apply nth_error_Some; rewrite H3; discriminate | exact H4]. }
  destruct (GT tx Ltx (fun H => H)) as [[_ Lt'] Et].
  destruct (GR r Lr (fun H => H)) as [[_ Lr'] Er].
  destruct (GQ q H5 H8 (fun H => H)) as [Lq' [Aq' _]].
  destruct (GQ qr H6 H9 (fun H => H)) as [Lqr' [Aqr' _]].
  constructor; auto.
  - exists o. rewrite Et. auto.
  - rewrite Er. exact H3.
Qed.

(** ** What keeps the heaps in order *)

Lemma rel_heap_ok (Qs : list QueueId) (s s' : World) :
  rel Qs s s' -> heap_ok s -> heap_ok s'.
Proof.
  intros R [Hq Hqp Hfp Hrp Ha Hf]. unfold pool_ok, live in *. constructor.
  - intros q. apply (r_ok R), Hq.
  - unfold pool_ok. rewrite (r_queuePool R), (r_length R). exact Hqp.
  - unfold pool_ok. rewrite (r_flushPool R), (r_flushTxs R). exact Hfp.
  - unfold pool_ok. rewrite (r_reconcilePool R), (r_reconcileTxs R). exact Hrp.
  - unfold live. rewrite (r_asap R), (r_queuePool R), (r_length R). exact Ha.
  - intros Hf'. destruct (r_flag R Hf') as [Hf0 He].
    rewrite (r_asap R), He. apply Hf, Hf0.
Qed.

Lemma notified_heap_ok (q0 : QueueId) (s s' : World) :
  notified q0 s s' -> heap_ok s -> heap_ok s'.
Proof.
  intros R [Hq Hqp Hfp Hrp Ha Hf]. constructor.
  - apply (n_ok R).
  - unfold pool_ok. rewrite (n_queuePool R), (n_length R). exact Hqp.
  - unfold pool_ok. rewrite (n_flushPool R), (n_flushTxs R). exact Hfp.
  - unfold pool_ok. rewrite (n_reconcilePool R), (n_reconcileTxs R). exact Hrp.
  - unfold live. rewrite (n_asap R), (n_queuePool R), (n_length R). exact Ha.
  - intros Hf'. destruct (n_flag R Hf') as [Hf0 He].
    rewrite (n_asap R), He. apply Hf, Hf0.
Qed.

Lemma rel_owns (Qs : list QueueId) (tx : TxId) (q : QueueId) (r : RtxId) (qr : QueueId)
    (s s' : World) :
  rel Qs s s' -> owns tx q r qr s -> owns tx q r qr s'.
Proof.
  intros R [H1 H2 H3 H4 H5 H6 H7]. unfold live in *. constructor; unfold live;
    rewrite ?(r_flushTxs R), ?(r_flushPool R), ?(r_reconcileTxs R),
      ?(r_reconcilePool R), ?(r_length R), ?(r_queuePool R), ?(r_asap R); assumption.
Qed.

Lemma notified_owns (q0 : QueueId) (tx : TxId) (q : QueueId) (r : RtxId) (qr : QueueId)
    (s s' : World) :
  notified q0 s s' -> owns tx q r qr s -> owns tx q r qr s'.
Proof.
  intros R [H1 H2 H3 H4 H5 H6 H7]. unfold live in *. constructor; unfold live;
    rewrite ?(n_flushTxs R), ?(n_flushPool R), ?(n_reconcileTxs R),
      ?(n_reconcilePool R), ?(n_length R), ?(n_queuePool R), ?(n_asap R); assumption.
Qed.

(** ** The pools *)

Lemma pop_store {A : Type} (heap : list A) (pool : list nat) (x : A)
    (id : nat) (rest : list nat) :
  pool_ok heap pool ->
  pop_or_construct pool (length heap) = (id, rest) ->
  ~ live heap pool id
  /\ live (store id x heap) rest id
  /\ pool_ok (store id x heap) rest
  /\ nth_error (store id x heap) id = Some x
  /\ (forall j, j <> id -> nth_error (store id x heap) j = nth_error heap j)
  /\ (forall j, live heap pool j -> live (store id x heap) rest j).
Proof.
  intros [Hnd Hbound] Hpop. unfold pop_or_construct in Hpop.
  destruct pool as [| id0 rest0]; inversion Hpop; subst; clear Hpop.
  - (* constructed at the next address *)
    unfold store. rewrite Nat.ltb_irrefl.
    assert (Hlen : length (heap ++ [x]) = S (length heap))
      by (rewrite length_app; simpl; lia).
    split; [intros [H _]; lia |].
    split; [split; [lia | intros []] |].
    split; [split; [constructor | intros j []] |].
    split; [rewrite nth_error_app2, Nat.sub_diag by lia; reflexivity |].
    split.
    + intros j Hj. destruct (Nat.lt_ge_cases j (length heap)) as [Hlt | Hge].
      * apply nth_error_app1. exact Hlt.
      * rewrite (proj2 (nth_error_None heap j)) by lia.
        apply nth_error_None. lia.
    + intros j [Hlt _]. split; [lia | intros []].
  - (* popped *)
    inversion Hnd as [| ? ? Hnotin Hnd']. subst.
    assert (Hlt : id < length heap) by (apply Hbound; left; reflexivity).
    unfold store. rewrite (proj2 (Nat.ltb_lt _ _) Hlt).
    split; [intros [_ H]; apply H; left; reflexivity |].
    split; [split; [rewrite length_list_set; exact Hlt | exact Hnotin] |].
    split.
    { split; [exact Hnd' |]. intros j Hj. rewrite length_list_set.
      apply Hbound. right. exact Hj. }
    split; [apply nth_error_list_set_eq; exact Hlt |].
    split.
    + intros j Hj. apply nth_error_list_set_neq. congruence.
    + intros j [Hj Hp]. split; [rewrite length_list_set; exact Hj |].
      intros H. apply Hp. right. exact H.
Qed.

Lemma push_pool {A : Type} (heap : list A) (pool : list nat) (x : A) (id : nat) :
  pool_ok heap pool -> live heap pool id ->
  pool_ok (list_set id x heap) (id :: pool)
  /\ (forall j, live heap pool j -> j <> id -> live (list_set id x heap) (id :: pool) j).
Proof.
  intros [Hnd Hbound] [Hlt Hp]. split.
  - split; [constructor; assumption |].
    intros j [<- | Hj]; rewrite length_list_set; auto.
  - intros j [Hj Hjp] Hne. split; [rewrite length_list_set; exact Hj |].
    intros [E | E]; [congruence | exact (Hjp E)].
Qed.

(** The world after getPooled of a CallbackQueue. *)
Lemma CallbackQueue_getPooled_ok (arg : Value) (s s1 : World) (q : QueueId) :
  CallbackQueue_getPooled arg s = Ok q s1 ->
  exists rest,
    pop_or_construct (queuePool s) (length (queues s)) = (q, rest)
    /\ s1 = set_log (log s ++ [EvAcquire KCallbackQueue q])
              (set_queues (store q (CallbackQueue_constructor arg) (queues s))
                 (set_queuePool rest s)).
Proof.
  unfold CallbackQueue_getPooled.
  destruct (pop_or_construct (queuePool s) (length (queues s))) as [q0 rest].
  unfold bind, modify, emit, ret. simpl. intros H. inversion H. subst.
  exists rest. split; reflexivity.
Qed.

Lemma CallbackQueue_release_ok (q : QueueId) (s s1 : World) :
  CallbackQueue_release q s = Ok tt s1 ->
  exists this,
    nth_error (queues s) q = Some this
    /\ s1 = set_log (log s ++ [EvRelease KCallbackQueue q])
              (set_queuePool (q :: queuePool s)
                 (set_queues (list_set q (CallbackQueue_reset this) (queues s)) s)).
Proof.
  unfold CallbackQueue_release, bind, with_queue, modify, emit.
  destruct (nth_error (queues s) q) as [this |]; simpl; intros H; inversion H; subst.
  exists this. split; reflexivity.
Qed.

Lemma housekeeping_refl (s : World) : housekeeping s s.
Proof. constructor; reflexivity. Qed.

Lemma housekeeping_trans (a b c : World) :
  housekeeping a b -> housekeeping b c -> housekeeping a c.
Proof. intros [] []. constructor; congruence. Qed.

Lemma unnotified_pool (l : list Event) (e : Event) :
  pool_event e -> unnotified (l ++ [e]) = unnotified l.
Proof. intros He. rewrite unnotified_snoc. destruct e; simpl in *; tauto. Qed.

Lemma entries_same (q : QueueId) (s s' : World) :
  nth_error (queues s') q = nth_error (queues s) q -> entries q s' = entries q s.
Proof. intros H. unfold entries, callbacks_of, contexts_of. rewrite H. reflexivity. Qed.

Lemma queue_ok_same (q : QueueId) (s s' : World) :
  nth_error (queues s') q = nth_error (queues s) q -> queue_ok q s -> queue_ok q s'.
Proof. intros H. unfold queue_ok, callbacks_of, contexts_of. rewrite H. auto. Qed.

Lemma entries_fresh (q : QueueId) (arg : Value) (s : World) :
  nth_error (queues s) q = Some (CallbackQueue_constructor arg) ->
  entries q s = [] /\ queue_ok q s.
Proof.
  intros H. unfold entries, queue_ok, callbacks_of, contexts_of. rewrite H.
  split; reflexivity.
Qed.

(** Acquiring a CallbackQueue. *)
Lemma alloc_queue (arg : Value) (s s1 : World) (q : QueueId) :
  pool_ok (queues s) (queuePool s) ->
  CallbackQueue_getPooled arg s = Ok q s1 ->
  (~ live (queues s) (queuePool s) q
   /\ live (queues s1) (queuePool s1) q
   /\ pool_ok (queues s1) (queuePool s1)
   /\ nth_error (queues s1) q = Some (CallbackQueue_constructor arg)
   /\ (forall j, j <> q -> nth_error (queues s1) j = nth_error (queues s) j)
   /\ (forall j, live (queues s) (queuePool s) j -> live (queues s1) (queuePool s1) j))
  /\ housekeeping s s1
  /\ flushTxs s1 = flushTxs s /\ flushPool s1 = flushPool s
  /\ reconcileTxs s1 = reconcileTxs s /\ reconcilePool s1 = reconcilePool s.
Proof.
  intros Hpool H. destruct (CallbackQueue_getPooled_ok _ _ H) as [rest [Hpop ->]].
  split; [exact (pop_store (CallbackQueue_constructor arg) Hpool Hpop) |].
  split; [| repeat split].
  constructor; try reflexivity. simpl. apply unnotified_pool. exact I.
Qed.

(** Releasing a live CallbackQueue. *)
Lemma free_queue (q : QueueId) (s s1 : World) :
  pool_ok (queues s) (queuePool s) ->
  live (queues s) (queuePool s) q ->
  CallbackQueue_release q s = Ok tt s1 ->
  (pool_ok (queues s1) (queuePool s1)
   /\ (forall j, j <> q -> nth_error (queues s1) j = nth_error (queues s) j)
   /\ (forall j, live (queues s) (queuePool s) j -> j <> q ->
                  live (queues s1) (queuePool s1) j)
   /\ entries q s1 = [] /\ queue_ok q s1)
  /\ housekeeping s s1
  /\ flushTxs s1 = flushTxs s /\ flushPool s1 = flushPool s
  /\ reconcileTxs s1 = reconcileTxs s /\ reconcilePool s1 = reconcilePool s.
Proof.
  intros Hpool Hlive H. destruct (CallbackQueue_release_ok _ _ H) as [this [Hq ->]].
  destruct (push_pool (CallbackQueue_reset this) Hpool Hlive) as [Hp Hk].
  split.
  { split; [exact Hp |]. split.
    - intros j Hj. simpl. apply nth_error_list_set_neq. congruence.
    - split; [exact Hk |].
      unfold entries, queue_ok, callbacks_of, contexts_of. simpl.
      rewrite nth_error_list_set_eq by apply Hlive. split; reflexivity. }
  split; [| repeat split].
  constructor; try reflexivity. simpl. apply unnotified_pool. exact I.
Qed.

Lemma ReconcileTransaction_getPooled_ok (s s1 : World) (r : RtxId) :
  ReconcileTransaction_getPooled s = Ok r s1 ->
  exists rest qr sq,
    pop_or_construct (reconcilePool s) (length (reconcileTxs s)) = (r, rest)
    /\ CallbackQueue_getPooled VNull (set_reconcilePool rest s) = Ok qr sq
    /\ s1 = set_log (log sq ++ [EvAcquire KReconcileTransaction r])
              (set_reconcileTxs (store r {| reactMountReady := Some qr |} (reconcileTxs sq))
                 sq).
Proof.
  unfold ReconcileTransaction_getPooled.
  destruct (pop_or_construct (reconcilePool s) (length (reconcileTxs s))) as [r0 rest].
  unfold bind at 1, modify at 1. simpl.
  unfold bind at 1.
  destruct (CallbackQueue_getPooled VNull (set_reconcilePool rest s))
    as [qr sq | |] eqn:Hq; try discriminate.
  unfold bind, modify, emit, ret. simpl. intros H. inversion H. subst.
  exists rest, qr, sq. split; [reflexivity | split; [exact Hq | reflexivity]].
Qed.

Lemma FlushTransaction_getPooled_ok (s s1 : World) (t : TxId) :
  FlushTransaction_getPooled s = Ok t s1 ->
  exists rest q sq r sr,
    pop_or_construct (flushPool s) (length (flushTxs s)) = (t, rest)
    /\ CallbackQueue_getPooled VUndefined (set_flushPool rest s) = Ok q sq
    /\ ReconcileTransaction_getPooled sq = Ok r sr
    /\ s1 = set_log (log sr ++ [EvAcquire KFlushTransaction t])
              (set_flushTxs
                 (store t {| dirtyComponentsLength := None;
                             callbackQueue := Some q;
                             reconcileTransaction := Some r |} (flushTxs sr)) sr).
Proof.
  unfold FlushTransaction_getPooled.
  destruct (pop_or_construct (flushPool s) (length (flushTxs s))) as [t0 rest].
  unfold bind at 1, modify at 1. simpl.
  unfold bind at 1.
  destruct (CallbackQueue_getPooled VUndefined (set_flushPool rest s))
    as [q sq | |] eqn:Hq; try discriminate.
  unfold bind at 1.
  destruct (ReactReconcileTransaction sq); [| discriminate].
  unfold bind at 1.
  destruct (ReconcileTransaction_getPooled sq) as [r sr | |] eqn:Hr; try discriminate.
  unfold bind, modify, emit, ret. simpl. intros H. inversion H. subst.
  exists rest, q, sq, r, sr.
  split; [reflexivity | split; [exact Hq | split; [exact Hr | reflexivity]]].
Qed.

(** Acquiring a flush transaction: it is live and owns two fresh
    queues and a fresh reconcile transaction; what was live stays as it
    was. *)
Lemma acquire_transaction (s s1 : World) (tx : TxId) :
  heap_ok s ->
  FlushTransaction_getPooled s = Ok tx s1 ->
  exists q r qr,
    owns tx q r qr s1
    /\ heap_ok s1
    /\ guards_but [] [] [] s s1
    /\ housekeeping s s1
    /\ nth_error (queues s1) (asapCallbackQueue s) = nth_error (queues s) (asapCallbackQueue s)
    /\ ~ live (queues s) (queuePool s) q
    /\ ~ live (queues s) (queuePool s) qr
    /\ ~ live (flushTxs s) (flushPool s) tx
    /\ ~ live (reconcileTxs s) (reconcilePool s) r.
Proof.
  intros [Hq Hqp Hfp Hrp Ha Hf] H.
  destruct (FlushTransaction_getPooled_ok _ H) as [restT [q [sq [r [sr [HpopT [Hgq [Hgr ->]]]]]]]].
  destruct (ReconcileTransaction_getPooled_ok _ Hgr) as [restR [qr [sq' [HpopR [Hgqr ->]]]]].
  (* the callback queue *)
  destruct (@alloc_queue VUndefined (set_flushPool restT s) sq q Hqp Hgq)
    as [[Fq [Lq [Pq [Nq [Oq Kq]]]]] [HK1 [E1 [E2 [E3 E4]]]]].
  simpl in Fq, Oq, Kq, E1, E2, E3, E4.
  (* the queue of the reconcile transaction *)
  destruct (@alloc_queue VNull (set_reconcilePool restR sq) sq' qr Pq Hgqr)
    as [[Fqr [Lqr [Pqr [Nqr [Oqr Kqr]]]]] [HK2 [E5 [E6 [E7 E8]]]]].
  simpl in Fqr, Oqr, Kqr, E5, E6, E7, E8.
  (* the two transactions *)
  assert (Hrp' : pool_ok (reconcileTxs sq') (reconcilePool s)).
  { rewrite E7, E3. exact Hrp. }
  assert (HpopR' : pop_or_construct (reconcilePool s) (length (reconcileTxs sq')) = (r, restR)).
  { rewrite E7, <- E4. exact HpopR. }
  destruct (pop_store {| reactMountReady := Some qr |} Hrp' HpopR')
    as [Fr [Lr [Pr [Nr [Or Kr]]]]].
  assert (Hfp' : pool_ok (flushTxs sq') (flushPool s)).
  { rewrite E5, E1. exact Hfp. }
  assert (HpopT' : pop_or_construct (flushPool s) (length (flushTxs sq')) = (tx, restT)).
  { rewrite E5, E1. exact HpopT. }
  destruct (pop_store {| dirtyComponentsLength := None; callbackQueue := Some q;
                         reconcileTransaction := Some r |} Hfp' HpopT')
    as [Ft [Lt [Pt [Nt [Ot Kt]]]]].
  assert (HA1 : asapCallbackQueue sq' = asapCallbackQueue s).
  { rewrite (hk_asap HK2). simpl. apply (hk_asap HK1). }
  assert (Hne_qA : q <> asapCallbackQueue s) by (intros ->; exact (Fq Ha)).
  assert (Hne_qrA : qr <> asapCallbackQueue s).
  { intros ->. apply Fqr. apply Kq. exact Ha. }
  assert (Hne : q <> qr) by (intros ->; exact (Fqr Lq)).
  assert (Hall : forall j, j <> q -> j <> qr ->
                           nth_error (queues sq') j = nth_error (queues s) j).
  { intros j H1 H2. rewrite Oqr by exact H2. simpl. apply Oq. exact H1. }
  exists q, r, qr. split.
  { (* owns *)
    constructor; simpl.
    - eexists. split; [exact Nt |]. split; reflexivity.
    - rewrite E6, E2. simpl. apply Lt.
    - exact Nr.
    - rewrite E8. simpl. apply Lr.
    - apply Kqr. exact Lq.
    - exact Lqr.
    - rewrite HA1. auto. }
  split.
  { (* heap_ok *)
    constructor; simpl.
    - intros j. destruct (Nat.eq_dec j qr) as [-> | Hjqr];
        [exact (proj2 (entries_fresh _ _ Nqr)) |].
      destruct (Nat.eq_dec j q) as [-> | Hjq].
      + apply (@queue_ok_same q sq); [| exact (proj2 (entries_fresh _ _ Nq))].
        simpl. apply Oqr. exact Hne.
      + apply (@queue_ok_same j s); [| apply Hq]. simpl. apply Hall; assumption.
    - exact Pqr.
    - rewrite E6, E2. simpl. exact Pt.
    - rewrite E8. simpl. exact Pr.
    - rewrite HA1. apply Kqr, Kq. exact Ha.
    - rewrite (hk_asapEnqueued HK2). simpl. rewrite (hk_asapEnqueued HK1). simpl.
      intros Hflag. rewrite HA1.
      rewrite <- (Hf Hflag). apply entries_same. simpl.
      apply Hall; congruence. }
  split.
  { (* guards *)
    constructor; simpl.
    - intros j Hj HjA _.
      assert (Hjq : j <> q) by (intros ->; exact (Fq Hj)).
      assert (Hjqr : j <> qr) by (intros ->; apply Fqr, Kq; exact Hj).
      split; [apply Kqr, Kq; exact Hj |]. split; [rewrite HA1; exact HjA |].
      apply Hall; assumption.
    - intros j Hj _.
      assert (Hj' : live (flushTxs sq') (flushPool s) j) by (rewrite E5, E1; exact Hj).
      split; [rewrite E6, E2; simpl; apply Kt; exact Hj' |].
      rewrite Ot; [rewrite E5, E1; reflexivity |].
      intros ->. exact (Ft Hj').
    - intros j Hj _.
      assert (Hj' : live (reconcileTxs sq') (reconcilePool s) j)
        by (rewrite E7, E3; exact Hj).
      split; [rewrite E8; simpl; apply Kr; exact Hj' |].
      rewrite Or; [rewrite E7, E3; reflexivity |].
      intros ->. exact (Fr Hj'). }
  split.
  { (* housekeeping *)
    destruct HK1 as [K1 K2 K3 K4 K5], HK2 as [J1 J2 J3 J4 J5]. simpl in *.
    constructor; simpl; try congruence.
    rewrite !unnotified_pool by exact I. congruence. }
  split; [simpl; apply Hall; congruence |].
  split; [exact Fq |].
  split; [intros Hl; apply Fqr, Kq; exact Hl |].
  split; [rewrite <- E1, <- E5; exact Ft |].
  rewrite <- E3, <- E7. exact Fr.
Qed.

Lemma ReconcileTransaction_release_ok (r : RtxId) (s s1 : World) :
  ReconcileTransaction_release r s = Ok tt s1 ->
  exists o qr sa,
    nth_error (reconcileTxs s) r = Some o
    /\ reactMountReady o = Some qr
    /\ CallbackQueue_release qr s = Ok tt sa
    /\ s1 = set_log (log sa ++ [EvRelease KReconcileTransaction r])
              (set_reconcilePool (r :: reconcilePool sa)
                 (set_reconcileTxs
                    (list_set r {| reactMountReady := None |} (reconcileTxs sa)) sa)).
Proof.
  unfold ReconcileTransaction_release, get_reconcileTx.
  unfold bind at 1.
  destruct (nth_error (reconcileTxs s) r) as [o |]; try discriminate.
  unfold bind at 1.
  destruct (reactMountReady o) as [q |] eqn:Hoq; [| discriminate].
  destruct (CallbackQueue_release q s) as [[] sa | |] eqn:Hq; try discriminate.
  unfold bind, modify, emit. simpl. intros H. inversion H. subst.
  exists o, q, sa.
  split; [reflexivity | split; [exact Hoq | split; [exact Hq | reflexivity]]].
Qed.

Lemma FlushTransaction_release_ok (t : TxId) (s s1 : World) :
  FlushTransaction_release t s = Ok tt s1 ->
  exists o q r sa sb,
    nth_error (flushTxs s) t = Some o
    /\ callbackQueue o = Some q
    /\ reconcileTransaction o = Some r
    /\ CallbackQueue_release q
         (set_flushTxs
            (list_set t {| dirtyComponentsLength := None;
                           callbackQueue := callbackQueue o;
                           reconcileTransaction := reconcileTransaction o |}
               (flushTxs s)) s) = Ok tt sa
    /\ ReconcileTransaction_release r
         (set_flushTxs
            (list_set t {| dirtyComponentsLength := None;
                           callbackQueue := None;
                           reconcileTransaction := reconcileTransaction o |}
               (flushTxs sa)) sa) = Ok tt sb
    /\ s1 = set_log (log sb ++ [EvRelease KFlushTransaction t])
              (set_flushPool (t :: flushPool sb)
                 (set_flushTxs
                    (list_set t {| dirtyComponentsLength := None;
                                   callbackQueue := None;
                                   reconcileTransaction := None |}
                       (flushTxs sb)) sb)).
Proof.
  unfold FlushTransaction_release, FlushTransaction_destructor, get_flushTx.
  unfold bind at 1. unfold bind at 1.
  destruct (nth_error (flushTxs s) t) as [o |]; try discriminate.
  unfold bind at 1, modify at 1. simpl.
  unfold bind at 1.
  destruct (callbackQueue o) as [q |] eqn:Hoq; [| discriminate].
  match goal with
  | |- context [CallbackQueue_release q ?st] =>
      destruct (CallbackQueue_release q st) as [[] sa | |] eqn:Hq; try discriminate
  end.
  unfold bind at 1, modify at 1. simpl.
  unfold bind at 1.
  destruct (reconcileTransaction o) as [r |] eqn:Hor; [| discriminate].
  match goal with
  | |- context [ReconcileTransaction_release r ?st] =>
      destruct (ReconcileTransaction_release r st) as [[] sb | |] eqn:Hr;
        try discriminate
  end.
  unfold bind, modify, emit. simpl. intros H. inversion H. subst.
  exists o, q, r, sa, sb.
  split; [reflexivity |]. split; [exact Hoq |]. split; [exact Hor |].
  split; [rewrite Hoq, Hor; exact Hq |]. split; [rewrite Hor; exact Hr | reflexivity].
Qed.

Lemma pool_ok_length {A : Type} (heap heap' : list A) (pool : list nat) :
  length heap' = length heap -> pool_ok heap pool -> pool_ok heap' pool.
Proof. intros H [H1 H2]. split; [exact H1 |]. intros id Hid. rewrite H. auto. Qed.

Lemma live_length {A : Type} (heap heap' : list A) (pool : list nat) (id : nat) :
  length heap' = length heap -> live heap pool id -> live heap' pool id.
Proof. intros H [H1 H2]. split; [rewrite H; exact H1 | exact H2]. Qed.

(** Releasing a flush transaction: its queues, its reconcile
    transaction and itself go back to their pools; what else was live
    stays as it was. *)
Lemma release_transaction (tx : TxId) (q : QueueId) (r : RtxId) (qr : QueueId)
    (s s1 : World) :
  heap_ok s -> owns tx q r qr s ->
  FlushTransaction_release tx s = Ok tt s1 ->
  heap_ok s1
  /\ guards_but [q; qr] [tx] [r] s s1
  /\ housekeeping s s1
  /\ nth_error (queues s1) (asapCallbackQueue s)
     = nth_error (queues s) (asapCallbackQueue s).
Proof.
  intros [Hq Hqp Hfp Hrp Ha Hf] [[o [Ho [Hoq Hor]]] Htl Hr Hrl Lq Lqr [Hne [HqA HqrA]]] H.
  destruct (@FlushTransaction_release_ok tx s s1 H)
    as [o' [q' [r' [sa [sb [Ho' [Hoq' [Hor' [Hrelq [Hrelr ->]]]]]]]]]].
  rewrite Ho in Ho'. inversion Ho'. subst o'. clear Ho'.
  rewrite Hoq in Hoq'. inversion Hoq'. subst q'. clear Hoq'.
  rewrite Hor in Hor'. inversion Hor'. subst r'. clear Hor'.
  (* the callback queue *)
  match type of Hrelq with
  | CallbackQueue_release q ?st = _ =>
      destruct (@free_queue q st sa Hqp Lq Hrelq)
        as [[Pq [Oq [Kq [Eq Okq]]]] [HK1 [E1 [E2 [E3 E4]]]]]
  end.
  simpl in Oq, Kq, E1, E2, E3, E4.
  (* the reconcile transaction *)
  destruct (@ReconcileTransaction_release_ok r _ sb Hrelr)
    as [o2 [qr' [sa2 [Ho2 [Hoqr [Hrelqr Hsb]]]]]].
  simpl in Ho2. rewrite E3, Hr in Ho2. inversion Ho2. subst o2. clear Ho2.
  simpl in Hoqr. inversion Hoqr. subst qr'. clear Hoqr.
  assert (Lqr' : live (queues sa) (queuePool sa) qr) by (apply Kq; [exact Lqr | congruence]).
  match type of Hrelqr with
  | CallbackQueue_release qr ?st = _ =>
      destruct (@free_queue qr st sa2 Pq Lqr' Hrelqr)
        as [[Pqr [Oqr [Kqr [Eqr Okqr]]]] [HK2 [E5 [E6 [E7 E8]]]]]
  end.
  simpl in Oqr, Kqr, E5, E6, E7, E8.
  subst sb. simpl.
  assert (Hall : forall j, j <> q -> j <> qr ->
                           nth_error (queues sa2) j = nth_error (queues s) j).
  { intros j H1 H2. rewrite Oqr by exact H2. apply Oq. exact H1. }
  assert (Hlive : forall j, live (queues s) (queuePool s) j -> j <> q -> j <> qr ->
                            live (queues sa2) (queuePool sa2) j).
  { intros j Hj H1 H2. apply Kqr; [apply Kq; assumption | exact H2]. }
  assert (Hftx : flushTxs sa2 = list_set tx
            {| dirtyComponentsLength := None; callbackQueue := None;
               reconcileTransaction := Some r |}
            (list_set tx
               {| dirtyComponentsLength := None; callbackQueue := Some q;
                  reconcileTransaction := Some r |} (flushTxs s))).
  { rewrite E5. simpl. rewrite E1, Hoq, Hor. reflexivity. }
  assert (Hfpool : flushPool sa2 = flushPool s) by (rewrite E6; simpl; exact E2).
  assert (Hrtx : reconcileTxs sa2 = reconcileTxs s) by (rewrite E7; simpl; exact E3).
  assert (Hrpool : reconcilePool sa2 = reconcilePool s) by (rewrite E8; simpl; exact E4).
  assert (Hflen : length (flushTxs sa2) = length (flushTxs s)).
  { rewrite Hftx, !length_list_set. reflexivity. }
  assert (Ltx : live (flushTxs sa2) (flushPool sa2) tx).
  { rewrite Hfpool. split; [| exact Htl]. rewrite Hflen.
    apply nth_error_Some. rewrite Ho. discriminate. }
  assert (Lr : live (reconcileTxs sa2) (reconcilePool sa2) r).
  { rewrite Hrtx, Hrpool. split; [| exact Hrl].
    apply nth_error_Some. rewrite Hr. discriminate. }
  destruct (push_pool {| dirtyComponentsLength := None; callbackQueue := None;
                         reconcileTransaction := None |}
              (@pool_ok_length _ (flushTxs s) (flushTxs sa2) (flushPool sa2) Hflen
                 ltac:(rewrite Hfpool; exact Hfp)) Ltx) as [Pt Kt].
  assert (Hrp2 : pool_ok (reconcileTxs sa2) (reconcilePool sa2))
    by (rewrite Hrtx, Hrpool; exact Hrp).
  destruct (push_pool {| reactMountReady := None |} Hrp2 Lr) as [Pr Kr].
  assert (HA : asapCallbackQueue sa2 = asapCallbackQueue s).
  { rewrite (hk_asap HK2). simpl. rewrite (hk_asap HK1). reflexivity. }
  split.
  { (* heap_ok *)
    constructor; simpl.
    - intros j. destruct (Nat.eq_dec j qr) as [-> | Hjqr]; [exact Okqr |].
      destruct (Nat.eq_dec j q) as [-> | Hjq].
      + apply (@queue_ok_same q sa); [| exact Okq]. apply Oqr. exact Hne.
      + apply (@queue_ok_same j s); [| apply Hq]. apply Hall; assumption.
    - exact Pqr.
    - exact Pt.
    - exact Pr.
    - rewrite HA. apply Hlive; [exact Ha | congruence | congruence].
    - rewrite (hk_asapEnqueued HK2). simpl. rewrite (hk_asapEnqueued HK1). simpl.
      intros Hflag. rewrite HA. rewrite <- (Hf Hflag). apply entries_same.
      apply Hall; congruence. }
  split.
  { (* guards *)
    constructor; simpl.
    - intros j Hj HjA HX.
      assert (Hjq : j <> q) by (intros ->; apply HX; left; reflexivity).
      assert (Hjqr : j <> qr) by (intros ->; apply HX; right; left; reflexivity).
      split; [apply Hlive; assumption |]. split; [rewrite HA; exact HjA |].
      apply Hall; assumption.
    - intros j Hj HX.
      assert (Hjt : j <> tx) by (intros ->; apply HX; left; reflexivity).
      split.
      + apply Kt; [| exact Hjt]. rewrite Hfpool.
        apply (@live_length _ (flushTxs s) (flushTxs sa2) (flushPool s) j Hflen). exact Hj.
      + rewrite nth_error_list_set_neq by congruence.
        rewrite Hftx, !nth_error_list_set_neq by congruence. reflexivity.
    - intros j Hj HX.
      assert (Hjr : j <> r) by (intros ->; apply HX; left; reflexivity).
      split.
      + apply Kr; [| exact Hjr]. rewrite Hrtx, Hrpool. exact Hj.
      + rewrite nth_error_list_set_neq by congruence. rewrite Hrtx. reflexivity. }
  split.
  { destruct HK1 as [K1 K2 K3 K4 K5], HK2 as [J1 J2 J3 J4 J5]. simpl in *.
    constructor; simpl; try congruence.
    rewrite !unnotified_pool by exact I. congruence. }
  apply Hall; congruence.
Qed.

(** ** One flush transaction *)

Lemma holds_pairs (q : QueueId) (s : World) (x : Callback * Value) :
  holds q s x <-> In x (pairs_of (entries q s)).
Proof.
  unfold holds, pairs_of. rewrite in_flat_map. split.
  - intros H. exists (Some (fst x), snd x). split; [exact H |]. simpl.
    left. destruct x. reflexivity.
  - intros [[[cb |] ctx] [Hin Hx]]; simpl in Hx; [| destruct Hx].
    destruct Hx as [<- | []]. exact Hin.
Qed.

Lemma holds_same (q : QueueId) (s s' : World) (x : Callback * Value) :
  nth_error (queues s') q = nth_error (queues s) q -> holds q s x -> holds q s' x.
Proof. intros H. unfold holds. rewrite (@entries_same q s s' H). auto. Qed.

(** The reset of a queue that is not the asap queue. *)
Lemma reset_notified (q0 : QueueId) (s s' : World) :
  (forall q, queue_ok q s) -> q0 <> asapCallbackQueue s ->
  with_queue q0 CallbackQueue_reset s = Ok tt s' ->
  notified q0 s s' /\ log s' = log s.
Proof.
  intros Hok HqA H. unfold with_queue in H.
  destruct (nth_error (queues s) q0) as [this |] eqn:Hq; [| discriminate].
  inversion H. subst s'. clear H.
  assert (Hent : forall q, q <> q0 ->
            entries q (set_queues (list_set q0 (CallbackQueue_reset this) (queues s)) s)
            = entries q s).
  { intros q Hne. rewrite (@entries_reset q0 q this s Hq).
    destruct (Nat.eqb q0 q) eqn:E; [| reflexivity].
    apply Nat.eqb_eq in E. congruence. }
  split; [| reflexivity]. constructor; try reflexivity.
  - apply length_list_set.
  - intros q _ Hne. apply nth_error_list_set_neq. congruence.
  - rewrite (@entries_reset q0 q0 this s Hq), Nat.eqb_refl. reflexivity.
  - intros x Hx. simpl. rewrite Hent by congruence. exact Hx.
  - intros q. apply queue_ok_reset; [exact Hq | apply Hok].
  - intros Hf. split; [exact Hf |]. apply Hent. simpl. congruence.
Qed.

Section Transaction.
Variable P : Program.
Hypothesis Hnd : no_direct_enqueue P.
Variables (tx : TxId) (q : QueueId) (r : RtxId) (qr : QueueId).

Lemma session_rel (Qs : list QueueId) (s s' : World) :
  (forall x, In x Qs -> x = q) ->
  rel Qs s s' -> session tx q r qr s ->
  session tx q r qr s' /\ guards_but [q; qr] [tx] [] s s'.
Proof.
  intros HQ R [Sb Sh So]. split.
  - constructor; [rewrite (r_batching R); exact Sb
                 | exact (rel_heap_ok R Sh) | exact (rel_owns R So)].
  - apply (@guards_weaken Qs [q; qr] [] [tx] [] []).
    + intros x Hx. left. symmetry. apply HQ, Hx.
    + intros t Ht. destruct Ht.
    + intros t Ht. destruct Ht.
    + apply rel_guards, R.
Qed.

Lemma session_notified (q0 : QueueId) (s s' : World) :
  q0 = q \/ q0 = qr ->
  notified q0 s s' -> session tx q r qr s ->
  session tx q r qr s' /\ guards_but [q; qr] [tx] [] s s'.
Proof.
  intros HQ R [Sb Sh So]. split.
  - constructor; [rewrite (n_batching R); exact Sb
                 | exact (notified_heap_ok R Sh) | exact (notified_owns R So)].
  - apply (@guards_weaken [q0] [q; qr] [] [tx] [] []).
    + intros x [<- | []]. destruct HQ as [-> | ->]; simpl; auto.
    + intros t Ht. destruct Ht.
    + intros t Ht. destruct Ht.
    + apply notified_guards, R.
Qed.

(** A write to the record of [tx] that keeps what it owns. *)
Lemma session_record (o o' : FlushTransaction) (s : World) :
  nth_error (flushTxs s) tx = Some o ->
  callbackQueue o' = callbackQueue o ->
  reconcileTransaction o' = reconcileTransaction o ->
  session tx q r qr s ->
  session tx q r qr (set_flushTxs (list_set tx o' (flushTxs s)) s)
  /\ guards_but [q; qr] [tx] [] s (set_flushTxs (list_set tx o' (flushTxs s)) s).
Proof.
  intros Ho Hcq Hrt [Sb [Hq Hqp Hfp Hrp Ha Hf] [[o0 [Ho0 [Hoq Hor]]] H2 H3 H4 H5 H6 H7]].
  rewrite Ho in Ho0. inversion Ho0. subst o0. clear Ho0.
  assert (Hlt : tx < length (flushTxs s)) by (apply nth_error_Some; rewrite Ho; discriminate).
  split.
  - constructor; [exact Sb | |].
    + constructor; simpl; auto.
      apply (@pool_ok_length _ (flushTxs s)); [apply length_list_set | exact Hfp].
    + constructor; simpl; auto.
      exists o'. rewrite nth_error_list_set_eq by exact Hlt.
      split; [reflexivity |]. split; congruence.
  - constructor; simpl; auto.
    intros t [Ht Hp] HX. split; [split; [rewrite length_list_set; exact Ht | exact Hp] |].
    apply nth_error_list_set_neq. intros ->. apply HX. left. reflexivity.
Qed.

Lemma session_dirty (l : list CompId) (s : World) :
  session tx q r qr s ->
  session tx q r qr (set_dirtyComponents l s)
  /\ guards_but [q; qr] [tx] [] s (set_dirtyComponents l s).
Proof.
  intros [Sb [Hq Hqp Hfp Hrp Ha Hf] [H1 H2 H3 H4 H5 H6 H7]]. split.
  - constructor; [exact Sb | constructor; assumption | constructor; assumption].
  - constructor; simpl; auto.
Qed.

Lemma owed_in_reset (q0 : QueueId) (O : list (Callback * Value)) (s s' : World) :
  notified q0 s s' -> log s' = log s -> owed_in O s -> owed_in O s'.
Proof.
  intros N L Ho x Hx. rewrite L in Hx. destruct (Ho x Hx) as [H | H]; [left; exact H |].
  right. rewrite (n_asap N). apply (n_grow N). exact H.
Qed.

Lemma owed_with_rel (O : list (Callback * Value)) (s s' : World) :
  rel [q] s s' -> owed_in O s -> owed_with O q s'.
Proof.
  intros R Ho x Hx. rewrite (r_asap R).
  destruct (r_owed R x Hx) as [H | [H | [q' [[<- | []] H]]]]; auto.
  destruct (Ho x H) as [H' | H']; [left; exact H' |].
  right. left. apply (r_grow R). exact H'.
Qed.

Lemma owed_with_notified (q0 : QueueId) (O : list (Callback * Value)) (s s' : World) :
  notified q0 s s' -> called q0 s s' ->
  q <> q0 -> q <> asapCallbackQueue s ->
  owed_with O q s -> owed_with O q s'.
Proof.
  intros N C Hne HA Ho x Hx. rewrite (n_asap N).
  destruct (C x Hx) as [[H _] | H]; [| right; left; exact H].
  destruct (Ho x H) as [H' | [H' | H']].
  - left. exact H'.
  - right. left. apply (n_grow N). exact H'.
  - right. right. apply (@holds_same q s s'); [| exact H'].
    apply (n_other N); assumption.
Qed.

Lemma owed_in_notified (O : list (Callback * Value)) (s s' : World) :
  notified q s s' -> called q s s' -> owed_with O q s -> owed_in O s'.
Proof.
  intros N C Ho x Hx. rewrite (n_asap N).
  destruct (C x Hx) as [[H Hnot] | H]; [| right; exact H].
  destruct (Ho x H) as [H' | [H' | H']].
  - left. exact H'.
  - right. apply (n_grow N). exact H'.
  - contradiction.
Qed.

Lemma getReactMountReady_ok (s : World) :
  owns tx q r qr s -> getReactMountReady r s = Ok qr s.
Proof.
  intros Ho. unfold getReactMountReady, get_reconcileTx, bind.
  rewrite (ow_r Ho). reflexivity.
Qed.

(** The flush transaction around one pass. *)
Lemma perform_owed (n : nat) (O : list (Callback * Value)) (s s' : World) :
  flush_spec P n ->
  session tx q r qr s -> owed_in O s ->
  FlushTransaction_perform P n (flushBatchedUpdates P n) tx
    (runBatchedUpdates P n tx) s = Ok tt s' ->
  session tx q r qr s' /\ guards_but [q; qr] [tx] [] s s' /\ owed_in O s'.
Proof.
  intros IH Hs Ho Hrun. unfold FlushTransaction_perform in Hrun.
  apply ok_bind_inv in Hrun. destruct Hrun as [o0 [s0 [Hget Hrun]]].
  destruct (ow_tx (se_owns Hs)) as [o [Hrec [Hoq Hor]]].
  unfold get_flushTx in Hget. rewrite Hrec in Hget. inversion Hget. subst o0 s0. clear Hget.
  rewrite Hor in Hrun.
  apply perform_ok_chain in Hrun. destruct Hrun as [s1 [s2 [Hinit [Hinner Hclose]]]].
  simpl in Hinit. destruct Hinit as [sA [HA [sB [HB ->]]]].
  (* NESTED_UPDATES.initialize *)
  unfold bind, get_flushTx, modify in HA. rewrite Hrec in HA. inversion HA as [HsA].
  clear HA.
  destruct (@session_record
              o {| dirtyComponentsLength := Some (length (dirtyComponents s));
                   callbackQueue := callbackQueue o;
                   reconcileTransaction := reconcileTransaction o |}
              s Hrec eq_refl eq_refl Hs) as [SA GA].
  rewrite HsA in SA, GA.
  assert (OA : owed_in O sA) by (rewrite <- HsA; exact Ho).
  (* UPDATE_QUEUEING.initialize *)
  destruct (ow_distinct (se_owns SA)) as [Hne [HqA HqrA]].
  destruct (ow_tx (se_owns SA)) as [oA [HrecA [HoqA HorA]]].
  unfold bind, get_flushTx in HB. rewrite HrecA, HoqA in HB.
  destruct (@reset_notified q sA sB (ho_queues (se_heap SA)) HqA HB) as [NB LB].
  destruct (@session_notified q sA sB (or_introl eq_refl) NB SA) as [SB GB].
  pose proof (owed_in_reset NB LB OA) as OB.
  (* the reconcile transaction *)
  apply perform_ok_chain in Hinner.
  destruct Hinner as [sC' [sD [HinitR [Hpass HcloseR]]]].
  simpl in HinitR. destruct HinitR as [sC [HC ->]].
  simpl in HcloseR. destruct HcloseR as [sE [HE ->]].
  unfold bind in HC. rewrite (getReactMountReady_ok (se_owns SB)) in HC.
  destruct (ow_distinct (se_owns SB)) as [_ [HqB HqrB]].
  destruct (@reset_notified qr sB sC (ho_queues (se_heap SB)) HqrB HC) as [NC LC].
  destruct (@session_notified qr sB sC (or_intror eq_refl) NC SB) as [SC GC].
  pose proof (owed_in_reset NC LC OB) as OC.
  (* the pass *)
  destruct (ow_distinct (se_owns SC)) as [_ [HqC HqrC]].
  assert (RD : rel [q] sC sD).
  { apply (@on_ok_loop_runBatchedUpdates P Hnd n tx q sC tt sD Hpass).
    - intros o1 Ho1. destruct (ow_tx (se_owns SC)) as [o2 [Ho2 [Hoq2 _]]].
      rewrite Ho1 in Ho2. inversion Ho2. subst o2. exact Hoq2.
    - exact (se_batching SC).
    - exact (ho_queues (se_heap SC)).
    - intros [E | []]. exact (HqC E). }
  destruct (@session_rel [q] sC sD ltac:(intros x [<- | []]; reflexivity) RD SC) as [SD GD].
  pose proof (owed_with_rel RD OC) as OD.
  (* the close of the reconcile transaction *)
  unfold bind in HE. rewrite (getReactMountReady_ok (se_owns SD)) in HE.
  destruct (ow_distinct (se_owns SD)) as [_ [HqD HqrD]].
  destruct (@notifyAll_owed P Hnd n qr sD sE (se_batching SD) (ho_queues (se_heap SD))
              HqrD HE) as [NE CE].
  destruct (@session_notified qr sD sE (or_intror eq_refl) NE SD) as [SE GE].
  pose proof (owed_with_notified NE CE Hne HqD OD) as OE.
  (* NESTED_UPDATES.close *)
  simpl in Hclose. destruct Hclose as [sF [HF [sG [HG ->]]]].
  destruct (ow_distinct (se_owns SE)) as [_ [HqE HqrE]].
  assert (HNF : session tx q r qr sF /\ guards_but [q; qr] [tx] [] sE sF
                /\ owed_with O q sF).
  { destruct (ow_tx (se_owns SE)) as [oE [HrecE _]].
    unfold bind, get_flushTx in HF. rewrite HrecE in HF.
    destruct (negb (option_nat_eqb (dirtyComponentsLength oE)
                      (Some (length (dirtyComponents sE))))).
    - unfold bind, modify in HF.
      match type of HF with
      | flushBatchedUpdates P n ?st = _ => set (sE' := st) in *
      end.
      destruct (@session_dirty
                  (skipn (match dirtyComponentsLength oE with Some l => l | None => 0 end)
                     (dirtyComponents sE)) sE SE) as [SE' GE'].
      fold sE' in SE', GE'.
      destruct (IH (O ++ pairs_of (entries q sE)) sE' sF (se_batching SE') (se_heap SE'))
        as [HbF [HhF [HgF HuF]]]; [| exact HF |].
      { intros x Hx. destruct (OE x Hx) as [H | [H | H]].
        - left. apply in_or_app. left. exact H.
        - right. exact H.
        - left. apply in_or_app. right. apply holds_pairs. exact H. }
      split; [constructor; [exact HbF | exact HhF | exact (guards_owns HgF (se_owns SE'))] |].
      split.
      { apply (guards_trans GE').
        apply (@guards_weaken [] [q; qr] [] [tx] [] []); try (intros ? H; destruct H).
        exact HgF. }
      intros x Hx. apply HuF, in_app_or in Hx. destruct Hx as [H | H]; [left; exact H |].
      right. right. apply holds_pairs in H.
      apply (@holds_same q sE sF); [| exact H].
      apply (g_queues HgF (ow_q (se_owns SE')) HqE (fun H0 => H0)).
    - inversion HF.
      destruct (@session_dirty [] sE SE) as [SE' GE'].
      split; [exact SE' |]. split; [exact GE' | exact OE]. }
  destruct HNF as [SF [GF OF]].
  (* UPDATE_QUEUEING.close *)
  destruct (ow_tx (se_owns SF)) as [oF [HrecF [HoqF _]]].
  destruct (ow_distinct (se_owns SF)) as [_ [HqF _]].
  unfold bind, get_flushTx in HG. rewrite HrecF, HoqF in HG.
  destruct (@notifyAll_owed P Hnd n q sF sG (se_batching SF) (ho_queues (se_heap SF))
              HqF HG) as [NG CG].
  destruct (@session_notified q sF sG (or_introl eq_refl) NG SF) as [SG GG].
  split; [exact SG |]. split.
  - apply (guards_trans GA), (guards_trans GB), (guards_trans GC), (guards_trans GD),
      (guards_trans GE), (guards_trans GF). exact GG.
  - exact (owed_in_notified NG CG OF).
Qed.
End Transaction.

(** ** The flush *)

Lemma owed_in_housekeeping (O : list (Callback * Value)) (s s' : World) :
  housekeeping s s' ->
  nth_error (queues s') (asapCallbackQueue s) = nth_error (queues s) (asapCallbackQueue s) ->
  owed_in O s -> owed_in O s'.
Proof.
  intros HK HA Ho x Hx. rewrite (hk_owed HK) in Hx.
  destruct (Ho x Hx) as [H | H]; [left; exact H |].
  right. rewrite (hk_asap HK). apply (@holds_same _ s s'); assumption.
Qed.

Section Flush.
Variable P : Program.
Hypothesis Hnd : no_direct_enqueue P.

(** getPooled, perform, release. *)
Lemma transaction_part_owed (n : nat) (O : list (Callback * Value)) (s s' : World) :
  flush_spec P n ->
  isBatchingUpdates s = true -> heap_ok s -> owed_in O s ->
  (transaction <- FlushTransaction_getPooled ;;
   FlushTransaction_perform P n (flushBatchedUpdates P n)
     transaction (runBatchedUpdates P n transaction) ;;
   FlushTransaction_release transaction) s = Ok tt s' ->
  isBatchingUpdates s' = true /\ heap_ok s' /\ guards_but [] [] [] s s' /\ owed_in O s'.
Proof.
  intros IH Hb Hh Ho Hrun.
  apply ok_bind_inv in Hrun. destruct Hrun as [tx [s1 [H1 Hrun]]].
  apply ok_bind_inv in Hrun. destruct Hrun as [[] [s2 [H2 H3]]].
  destruct (acquire_transaction Hh H1)
    as [q [r [qr [Ow1 [Hh1 [G1 [HK1 [HA1 [Fq [Fqr [Ft Fr]]]]]]]]]]].
  assert (S1 : session tx q r qr s1).
  { constructor; [rewrite (hk_batching HK1); exact Hb | exact Hh1 | exact Ow1]. }
  pose proof (owed_in_housekeeping HK1 HA1 Ho) as O1.
  destruct (@perform_owed P Hnd tx q r qr n O s1 s2 IH S1 O1 H2) as [S2 [G2 O2]].
  destruct (release_transaction (se_heap S2) (se_owns S2) H3) as [Hh3 [G3 [HK3 HA3]]].
  split; [rewrite (hk_batching HK3); exact (se_batching S2) |].
  split; [exact Hh3 |].
  split; [| exact (owed_in_housekeeping HK3 HA3 O2)].
  constructor.
  - intros j Hj HjA _.
    destruct (g_queues G1 Hj HjA (fun H => H)) as [L1 [A1 E1]].
    assert (HX : ~ In j [q; qr]).
    { intros [<- | [<- | []]]; [exact (Fq Hj) | exact (Fqr Hj)]. }
    destruct (g_queues G2 L1 A1 HX) as [L2 [A2 E2]].
    destruct (g_queues G3 L2 A2 HX) as [L3 [A3 E3]].
    split; [exact L3 |]. split; [exact A3 | congruence].
  - intros j Hj _.
    destruct (g_flushTxs G1 Hj (fun H => H)) as [L1 E1].
    assert (HX : ~ In j [tx]) by (intros [<- | []]; exact (Ft Hj)).
    destruct (g_flushTxs G2 L1 HX) as [L2 E2].
    destruct (g_flushTxs G3 L2 HX) as [L3 E3].
    split; [exact L3 | congruence].
  - intros j Hj _.
    destruct (g_reconcileTxs G1 Hj (fun H => H)) as [L1 E1].
    assert (HX : ~ In j [r]) by (intros [<- | []]; exact (Fr Hj)).
    destruct (g_reconcileTxs G2 L1 (fun H => H)) as [L2 E2].
    destruct (g_reconcileTxs G3 L2 HX) as [L3 E3].
    split; [exact L3 | congruence].
Qed.

(** The asap queue is swapped for a fresh one, notified and released. *)
Lemma asap_part_owed (n : nat) (O : list (Callback * Value)) (s s' : World) :
  isBatchingUpdates s = true -> heap_ok s -> owed_in O s ->
  (modify (set_asapEnqueued false) ;;
   queue <- get asapCallbackQueue ;;
   q' <- CallbackQueue_getPooled VUndefined ;;
   modify (set_asapCallbackQueue q') ;;
   CallbackQueue_notifyAll P n queue ;;
   CallbackQueue_release queue) s = Ok tt s' ->
  isBatchingUpdates s' = true /\ heap_ok s' /\ guards_but [] [] [] s s' /\ owed_in O s'.
Proof.
  intros Hb [Hq Hqp Hfp Hrp Ha Hf] Ho Hrun.
  apply ok_bind_inv in Hrun. destruct Hrun as [[] [s1 [H1 Hrun]]].
  apply ok_bind_inv in Hrun. destruct Hrun as [old [s2 [H2 Hrun]]].
  apply ok_bind_inv in Hrun. destruct Hrun as [new [s3 [H3 Hrun]]].
  apply ok_bind_inv in Hrun. destruct Hrun as [[] [s4 [H4 Hrun]]].
  apply ok_bind_inv in Hrun. destruct Hrun as [[] [s5 [H5 H6]]].
  unfold modify in H1, H4. unfold get in H2.
  inversion H1. inversion H2. inversion H4. subst s1 s2 old s4. clear H1 H2 H4.
  simpl in *.
  set (old := asapCallbackQueue s) in *.
  (* the fresh queue *)
  destruct (@alloc_queue VUndefined (set_asapEnqueued false s) s3 new Hqp H3)
    as [[Fn [Ln [Pn [Nn [On Kn]]]]] [HK3 [E1 [E2 [E3 E4]]]]].
  simpl in Fn, On, Kn, E1, E2, E3, E4.
  destruct HK3 as [K1 K2 K3 K4 K5]. simpl in K1, K2, K3, K4, K5.
  assert (Hne : old <> new) by (intros E; apply Fn; rewrite <- E; exact Ha).
  set (s4 := set_asapCallbackQueue new s3) in *.
  assert (Hb4 : isBatchingUpdates s4 = true) by (simpl; congruence).
  assert (Hq4 : forall j, queue_ok j s4).
  { intros j. destruct (Nat.eq_dec j new) as [-> | Hj].
    - exact (proj2 (entries_fresh _ _ Nn)).
    - apply (@queue_ok_same j s); [apply On; exact Hj | apply Hq]. }
  assert (Hh4 : heap_ok s4).
  { constructor; simpl; auto.
    - rewrite E1, E2. exact Hfp.
    - rewrite E3, E4. exact Hrp.
    - intros _. exact (proj1 (entries_fresh _ _ Nn)). }
  assert (O4 : forall x, In x (unnotified (log s4)) -> In x O \/ holds old s4 x).
  { intros x Hx. simpl in Hx. rewrite K5 in Hx.
    destruct (Ho x Hx) as [H | H]; [left; exact H |].
    right. apply (@holds_same old s s4); [| exact H]. simpl. apply On. exact Hne. }
  (* its callbacks are called *)
  destruct (@notifyAll_owed P Hnd n old s4 s5 Hb4 Hq4 Hne H5) as [N5 C5].
  pose proof (notified_heap_ok N5 Hh4) as Hh5.
  assert (O5 : owed_in O s5).
  { intros x Hx. rewrite (n_asap N5).
    destruct (C5 x Hx) as [[H Hnot] | H]; [| right; exact H].
    destruct (O4 x H) as [H' | H']; [left; exact H' | contradiction]. }
  (* the old queue goes back to the pool *)
  assert (Lold : live (queues s5) (queuePool s5) old).
  { unfold live. rewrite (n_length N5), (n_queuePool N5). apply Kn. exact Ha. }
  destruct (@free_queue old s5 s' (ho_queuePool Hh5) Lold H6)
    as [[Pf [Of [Kf [Ef Okf]]]] [HK6 [E5 [E6 [E7 E8]]]]].
  assert (HA5 : asapCallbackQueue s5 = new) by (rewrite (n_asap N5); reflexivity).
  assert (HA6 : asapCallbackQueue s' = new) by (rewrite (hk_asap HK6); exact HA5).
  split; [rewrite (hk_batching HK6), (n_batching N5); exact Hb4 |].
  split.
  { destruct Hh5 as [Q5 QP5 FP5 RP5 A5 F5]. constructor.
    - intros j. destruct (Nat.eq_dec j old) as [-> | Hj]; [exact Okf |].
      apply (@queue_ok_same j s5); [apply Of; exact Hj | apply Q5].
    - exact Pf.
    - rewrite E5, E6. exact FP5.
    - rewrite E7, E8. exact RP5.
    - rewrite HA6. apply Kf; [rewrite <- HA5; exact A5 | congruence].
    - rewrite (hk_asapEnqueued HK6). intros Hflag.
      rewrite HA6, <- HA5, <- (F5 Hflag). apply entries_same.
      apply Of. rewrite HA5. congruence. }
  split.
  { constructor.
    - intros j Hj HjA _. fold old in HjA.
      assert (Hjn : j <> new) by (intros ->; exact (Fn Hj)).
      assert (L5 : live (queues s5) (queuePool s5) j).
      { unfold live. rewrite (n_length N5), (n_queuePool N5). apply Kn. exact Hj. }
      split; [apply Kf; assumption |]. split; [rewrite HA6; exact Hjn |].
      rewrite Of by exact HjA. rewrite (n_other N5); [| exact Hjn | exact HjA].
      simpl. apply On. exact Hjn.
    - intros j Hj _. unfold live in *.
      rewrite E5, E6, (n_flushTxs N5), (n_flushPool N5). simpl. rewrite E1, E2.
      split; [exact Hj | reflexivity].
    - intros j Hj _. unfold live in *.
      rewrite E7, E8, (n_reconcileTxs N5), (n_reconcilePool N5). simpl. rewrite E3, E4.
      split; [exact Hj | reflexivity]. }
  apply (owed_in_housekeeping HK6); [| exact O5].
  apply Of. rewrite HA5. congruence.
Qed.

(** Inside a batching scope and with the heaps in order, a flush that
    returns has called every callback that was enqueued. *)
Lemma flush_owed (n : nat) : flush_spec P n.
Proof.
  induction n as [| n IH]; intros O s s' Hb Hh Ho Hrun; [discriminate |].
  cbn [flushBatchedUpdates] in Hrun.
  destruct (is_nonempty (dirtyComponents s) || asapEnqueued s) eqn:Hcond.
  - apply ok_bind_inv in Hrun. destruct Hrun as [[] [sa [Ha Hrun]]].
    apply ok_bind_inv in Hrun. destruct Hrun as [[] [sb [Hbb Hrun]]].
    assert (Ta : isBatchingUpdates sa = true /\ heap_ok sa
                 /\ guards_but [] [] [] s sa /\ owed_in O sa).
    { destruct (is_nonempty (dirtyComponents s)).
      - exact (transaction_part_owed IH Hb Hh Ho Ha).
      - inversion Ha. subst sa.
        split; [exact Hb |]. split; [exact Hh |]. split; [apply guards_refl | exact Ho]. }
    destruct Ta as [Hba [Hha [Ga Oa]]].
    assert (Tb : isBatchingUpdates sb = true /\ heap_ok sb
                 /\ guards_but [] [] [] sa sb /\ owed_in O sb).
    { destruct (asapEnqueued sa).
      - exact (asap_part_owed n Hba Hha Oa Hbb).
      - inversion Hbb. subst sb.
        split; [exact Hba |]. split; [exact Hha |]. split; [apply guards_refl | exact Oa]. }
    destruct Tb as [Hbb' [Hhb [Gb Ob]]].
    destruct (IH O sb s' Hbb' Hhb Ob Hrun) as [Hb' [Hh' [G' Hu']]].
    split; [exact Hb' |]. split; [exact Hh' |]. split; [| exact Hu'].
    exact (guards_trans Ga (guards_trans Gb G')).
  - inversion Hrun. subst s'. apply orb_false_iff in Hcond. destruct Hcond as [_ Hflag].
    split; [exact Hb |]. split; [exact Hh |]. split; [apply guards_refl |].
    intros x Hx. destruct (Ho x Hx) as [H | H]; [exact H |].
    unfold holds in H. rewrite (ho_flag Hh Hflag) in H. destruct H.
Qed.
End Flush.

(** * The flush returns after the nested updates *)

(** What stays owed to the end of a log was never called. *)
Lemma note_kept (l : list Event) :
  forall owed x,
    In x owed -> ~ In x (fold_left note l owed) ->
    exists arg, In (EvInvoke (fst x) (snd x) arg) l.
Proof.
  induction l as [| e rest IH]; intros owed x Hin Hout; simpl in *.
  - contradiction.
  - assert (Hother : In x (note owed e) ->
                     exists arg, In (EvInvoke (fst x) (snd x) arg) (e :: rest)).
    { intros H. destruct (IH _ x H Hout) as [arg Harg]. exists arg. right. exact Harg. }
    destruct e; try (apply Hother; exact Hin).
    + destruct (notice_eqb x (cb, this)) eqn:E.
      * apply notice_eqb_eq in E. subst x. exists arg. left. reflexivity.
      * apply Hother. simpl. apply filter_In.
        split; [exact Hin | rewrite E; reflexivity].
    + apply Hother. simpl. apply in_or_app. left. exact Hin.
Qed.

Lemma enqueue_followed (l1 l2 : list Event) (q : QueueId) (cb : Callback) (ctx : Value) :
  ~ In (cb, ctx) (unnotified (l1 ++ EvEnqueue q cb ctx :: l2)) ->
  exists arg, In (EvInvoke cb ctx arg) l2.
Proof.
  unfold unnotified. rewrite fold_left_app. simpl. intros H.
  apply (@note_kept l2 (fold_left note l1 [] ++ [(cb, ctx)]) (cb, ctx)); [| exact H].
  apply in_or_app. right. left. reflexivity.
Qed.

Lemma enqueueCallbacks_log (q : QueueId) (callbacks : list Callback) (ctx : Value) :
  forall s s',
    enqueueCallbacks (Some q) callbacks ctx s = Ok tt s' ->
    log s' = log s ++ map (fun cb => EvEnqueue q cb ctx) callbacks.
Proof.
  induction callbacks as [| cb rest IH]; intros s s' H; simpl in H.
  - inversion H. rewrite app_nil_r. reflexivity.
  - apply ok_bind_inv in H. destruct H as [[] [s1 [H1 H2]]].
    destruct (@queue_enqueue_ok q cb ctx s s1 H1) as [this [_ Hs1]].
    rewrite (IH s1 s' H2), Hs1. simpl. rewrite <- app_assoc. reflexivity.
Qed.

(** The callbacks pending on a component go to the queue of the flush
    transaction when the loop comes to the component. *)
Lemma iteration_enqueues (P : Program) (n : nat) (tx : TxId) (o : FlushTransaction)
    (q : QueueId) (c : CompId) (callbacks : list Callback) (s s1 : World) :
  isBatchingUpdates s = true ->
  nth_error (flushTxs s) tx = Some o ->
  callbackQueue o = Some q ->
  _pendingCallbacks (components s c) = Some callbacks ->
  batchIteration P n tx c s = Ok tt s1 ->
  exists mid,
    log s1 = log s ++ mid ++ map (fun cb => EvEnqueue q cb (VPublic c)) callbacks.
Proof.
  intros Hb Ho Hq Hcbs Hrun.
  rewrite (batchIteration_outcome P n tx c s Hb), Ho, Hcbs in Hrun.
  unfold enqueue_stashed in Hrun. rewrite Hq in Hrun.
  set (g := updateBatchNumber s) in *.
  set (sp := do_atom (AEmit (EvPerformUpdate c g)) (do_atom (AStash c) s)) in *.
  destruct (option_nat_eqb (_updateBatchNumber (components s c)) (Some g)).
  - set (sr := do_atom (AEmit (EvReconcile c g)) sp) in *.
    destruct (runCmds P n (impl_performUpdateIfNecessary P c (reconcileTransaction o) sr) sr)
      as [[] s2 | |] eqn:Himpl; try discriminate.
    assert (Hall : steps user_atom sr s2)
      by exact (@always_runCmds P n _ sr s2 (ok_final Himpl) Hb).
    destruct (fr_log (steps_user_frame Hall)) as [new [Hlog _]].
    exists ([EvPerformUpdate c g; EvReconcile c g] ++ new).
    rewrite (@enqueueCallbacks_log q callbacks (VPublic c) _ s1 Hrun), Hlog. simpl.
    rewrite <- !app_assoc. reflexivity.
  - unfold skip_world in Hrun.
    destruct (_updateBatchNumber (components s c)) as [t |].
    + destruct (Nat.eqb t (g + 1)).
      * exists [EvPerformUpdate c g].
        rewrite (@enqueueCallbacks_log q callbacks (VPublic c) _ s1 Hrun). simpl.
        rewrite <- !app_assoc. reflexivity.
      * exists [EvPerformUpdate c g; EvWarning c g].
        rewrite (@enqueueCallbacks_log q callbacks (VPublic c) _ s1 Hrun). simpl.
        rewrite <- !app_assoc. reflexivity.
    + exists [EvPerformUpdate c g].
      rewrite (@enqueueCallbacks_log q callbacks (VPublic c) _ s1 Hrun). simpl.
      rewrite <- !app_assoc. reflexivity.
Qed.

Lemma heap_ok_world0 : heap_ok world0.
Proof.
  constructor; simpl.
  - intros q. unfold queue_ok, callbacks_of, contexts_of. simpl.
    destruct q as [| [| q]]; reflexivity.
  - split; [constructor | intros id []].
  - split; [constructor | intros id []].
  - split; [constructor | intros id []].
  - split; [simpl; lia | intros []].
  - intros _. reflexivity.
Qed.

(** User code run from the idle state leaves the heaps in order, and
    owes only what the asap queue holds. *)
Lemma heap_ok_after (P : Program) (l : list Cmd) :
  no_direct_enqueue_in l -> heap_ok (after P l) /\ owed_in [] (after P l).
Proof.
  intros Hl. unfold after.
  destruct (runCmds P 1 l world0) as [[] s | |] eqn:Hrun;
    try (split; [apply heap_ok_world0 | intros x []]).
  assert (R : rel [] world0 s).
  { apply (@on_ok_owed_runCmds P [] 1 l Hl world0 tt s Hrun).
    - reflexivity.
    - exact (ho_queues heap_ok_world0).
    - intros []. }
  split; [exact (rel_heap_ok R heap_ok_world0) |].
  intros x Hx. destruct (r_owed R x Hx) as [[] | [H | [q [[] _]]]].
  right. rewrite (r_asap R). exact H.
Qed.

Lemma no_direct_enqueue_cascade : no_direct_enqueue cascade.
Proof.
  constructor.
  - intros c tx w q f ctx H. simpl in H.
    destruct c as [| [| [| [| c]]]]; simpl in H;
      repeat (destruct H as [H | H]; [discriminate |]); exact H.
  - intros f this arg w q f0 ctx [].
Qed.



(** * CallbackQueue as its clients drive it *)

Lemma length_set_length {A : Type} (hole : A) (len : nat) (l : list A) :
  length (set_length hole len l) = len.
Proof.
  unfold set_length. rewrite length_app, length_firstn, repeat_length. lia.
Qed.

Lemma apply_op_well_formed (op : QueueOp) (q : CallbackQueue) :
  well_formed q -> well_formed (apply_op op q).
Proof.
  destruct q as [[cbs |] [ctxs |] arg]; destruct op; simpl; intros H;
    try contradiction; try exact I;
    unfold well_formed; simpl; rewrite ?length_app, ?length_set_length; simpl; auto.
Qed.

Lemma apply_op_arg (op : QueueOp) (q : CallbackQueue) : _arg (apply_op op q) = _arg q.
Proof.
  destruct op; simpl; try reflexivity.
  unfold CallbackQueue_rollback. destruct (_callbacks q), (_contexts q); reflexivity.
Qed.

Lemma apply_ops_snoc (ops : list QueueOp) (op : QueueOp) (q : CallbackQueue) :
  apply_ops (ops ++ [op]) q = apply_op op (apply_ops ops q).
Proof. unfold apply_ops. rewrite fold_left_app. reflexivity. Qed.

Lemma apply_ops_well_formed (ops : list QueueOp) (q : CallbackQueue) :
  well_formed q -> well_formed (apply_ops ops q).
Proof.
  revert q. induction ops as [| op rest IH]; intros q H; [exact H |].
  simpl. apply IH, apply_op_well_formed, H.
Qed.

Lemma apply_ops_arg (ops : list QueueOp) (q : CallbackQueue) :
  _arg (apply_ops ops q) = _arg q.
Proof.
  revert q. induction ops as [| op rest IH]; intros q; [reflexivity |].
  simpl. fold (apply_ops rest (apply_op op q)). rewrite IH. apply apply_op_arg.
Qed.

(** notifyAll on a well-formed queue: the length check passes. *)
Lemma notifyAll_well_formed (P : Program) (n : nat) (i : QueueId) (s : World)
    (q : CallbackQueue) :
  well_formed q ->
  nth_error (queues s) i = Some q ->
  CallbackQueue_notifyAll P n i s
  = match _callbacks q with
    | Some callbacks =>
        invokeAll P n callbacks (or_empty (_contexts q)) (_arg q)
          (put_queue i (CallbackQueue_reset q) s)
    | None => Ok tt s
    end.
Proof.
  intros Hwf Hi. unfold CallbackQueue_notifyAll. rewrite Hi.
  unfold well_formed in Hwf.
  destruct (_callbacks q) as [cbs |], (_contexts q) as [ctxs |];
    try contradiction; try reflexivity.
  simpl. rewrite (proj2 (Nat.eqb_eq _ _) Hwf).
  unfold bind, with_queue. rewrite Hi. reflexivity.
Qed.

(** X1. Whatever sequence of enqueue, rollback, reset and destructor
    calls a client makes on a queue constructed with argument arg, the
    two arrays stay paired (both null, or of one length), _arg stays arg
    and checkpoint is the common length. So notifyAll on such a queue
    never raises its "Mismatched list of contexts" invariant: it runs the
    calls callbacks[i].call(contexts[i], arg) from the world where both
    fields are null, or returns at once when they were null. *)
Theorem queue_interface_keeps_arrays_paired (arg : Value) (ops : list QueueOp) :
  let q := apply_ops ops (CallbackQueue_constructor arg) in
  well_formed q
  /\ _arg q = arg
  /\ CallbackQueue_checkpoint q = length (or_empty (_contexts q))
  /\ forall (P : Program) (n : nat) (i : QueueId) (s : World),
       nth_error (queues s) i = Some q ->
       CallbackQueue_notifyAll P n i s
       = match _callbacks q with
         | Some callbacks =>
             invokeAll P n callbacks (or_empty (_contexts q)) arg
               (put_queue i (CallbackQueue_reset q) s)
         | None => Ok tt s
         end.
Proof.
  intros q.
  assert (Hwf : well_formed q) by (apply apply_ops_well_formed; exact I).
  assert (Harg : _arg q = arg) by apply apply_ops_arg.
  split; [exact Hwf |]. split; [exact Harg |]. split.
  - unfold CallbackQueue_checkpoint, well_formed in *.
    destruct (_callbacks q), (_contexts q); simpl; try contradiction; auto.
  - intros P n i s Hi. rewrite <- Harg. apply notifyAll_well_formed; assumption.
Qed.

(** Three enqueues, rollback(1), one more enqueue: notifyAll calls the
    first callback and the last one. *)
Lemma queue_interface_keeps_arrays_paired_witness :
  let ops := [QEnqueue (UserFn 1) (VData 10); QEnqueue (UserFn 2) (VData 20);
              QEnqueue (UserFn 3) (VData 30); QRollback 1; QEnqueue AttachRefs (VInternal 4)] in
  let q := apply_ops ops (CallbackQueue_constructor (VData 0)) in
  nth_error (queues (world_with_queue q)) 1 = Some q
  /\ exists s',
       CallbackQueue_notifyAll quiet 1 1 (world_with_queue q) = Ok tt s'
       /\ invocations (log s')
          = [(UserFn 1, VData 10, VData 0); (AttachRefs, VInternal 4, VData 0)].
Proof.
  intros ops q. split; [reflexivity |].
  destruct (queue_interface_keeps_arrays_paired (VData 0) ops) as [_ [_ [_ Hrun]]].
  specialize (Hrun quiet 1 1 (world_with_queue q) eq_refl).
  eexists. split; [rewrite Hrun; reflexivity | reflexivity].
Defined.

(** X2. reset, and destructor, return a queue to the state its
    constructor left it in, whatever was enqueued or rolled back before:
    both arrays null, _arg kept. In every world, notifyAll right after
    reset invokes nothing and returns in the world where the queue is
    reset. *)
Theorem reset_returns_to_the_constructed_state (arg : Value) (ops : list QueueOp) :
  apply_ops (ops ++ [QReset]) (CallbackQueue_constructor arg) = CallbackQueue_constructor arg
  /\ apply_ops (ops ++ [QDestructor]) (CallbackQueue_constructor arg)
     = CallbackQueue_constructor arg
  /\ forall (P : Program) (n : nat) (i : QueueId) (s : World) (this : CallbackQueue),
       nth_error (queues s) i = Some this ->
       (with_queue i CallbackQueue_reset ;; CallbackQueue_notifyAll P n i) s
       = Ok tt (put_queue i (CallbackQueue_reset this) s).
Proof.
  rewrite !apply_ops_snoc. simpl. unfold CallbackQueue_destructor, CallbackQueue_reset.
  rewrite apply_ops_arg. simpl. split; [reflexivity |]. split; [reflexivity |].
  intros P n i s this Hi.
  assert (Hlt : i < length (queues s))
    by (apply nth_error_Some; rewrite Hi; discriminate).
  unfold bind, with_queue. rewrite Hi.
  unfold CallbackQueue_notifyAll. simpl.
  rewrite nth_error_list_set_eq by exact Hlt. reflexivity.
Qed.

Lemma reset_returns_to_the_constructed_state_witness :
  nth_error (queues (world_with_queue two_callbacks)) 1 = Some two_callbacks
  /\ (with_queue 1 CallbackQueue_reset ;; CallbackQueue_notifyAll quiet 1 1)
       (world_with_queue two_callbacks)
     = Ok tt (put_queue 1 (CallbackQueue_constructor (VData 0))
                (world_with_queue two_callbacks)).
Proof.
  split; [reflexivity |].
  destruct (reset_returns_to_the_constructed_state (VData 0) []) as [_ [_ H]].
  exact (H quiet 1 1 (world_with_queue two_callbacks) two_callbacks eq_refl).
Defined.

(** The calls of two stretches of the arrays, one after the other. *)
Lemma invokeAll_app (P : Program) (n : nat) (arg : Value)
    (a b : list (option Callback)) :
  forall (contexts : list Value) (s : World),
    invokeAll P n (a ++ b) contexts arg s
    = (invokeAll P n a contexts arg ;;
       invokeAll P n b (skipn (length a) contexts) arg) s.
Proof.
  induction a as [| cb rest IH]; intros contexts s; simpl.
  - reflexivity.
  - unfold bind in *. destruct (invoke P n cb (hd VUndefined contexts) arg s);
      try reflexivity.
    rewrite IH. destruct contexts; simpl; [| reflexivity].
    rewrite skipn_nil. reflexivity.
Qed.

(** The contexts past the last callback are not read. *)
Lemma invokeAll_contexts (P : Program) (n : nat) (arg : Value)
    (callbacks : list (option Callback)) :
  forall (contexts extra : list Value) (s : World),
    length callbacks <= length contexts ->
    invokeAll P n callbacks (contexts ++ extra) arg s
    = invokeAll P n callbacks contexts arg s.
Proof.
  induction callbacks as [| cb rest IH]; intros contexts extra s Hlen; simpl.
  - reflexivity.
  - destruct contexts as [| x xs]; simpl in *; [lia |].
    unfold bind. destruct (invoke P n cb x arg s); try reflexivity.
    apply IH. lia.
Qed.

(** A hole among the callbacks: the call at it throws. *)
Lemma invokeAll_hole (P : Program) (n : nat) (arg : Value)
    (rest : list (option Callback)) (contexts : list Value) (s : World) :
  invokeAll P n (None :: rest) contexts arg s = Throw TypeError s.
Proof. reflexivity. Qed.



(** * ReactRef.shouldUpdateRefs as a relation on elements *)

Lemma ref_eqb_sym (a b : Ref) : ref_eqb a b = ref_eqb b a.
Proof.
  destruct a, b; simpl; try reflexivity; [apply Nat.eqb_sym | apply String.eqb_sym].
Qed.

Lemma owner_eqb_sym (a b : option CompId) : owner_eqb a b = owner_eqb b a.
Proof. destruct a, b; simpl; try reflexivity. apply Nat.eqb_sym. Qed.

Lemma ref_eqb_refl (a : Ref) : ref_eqb a a = true.
Proof. apply ref_eqb_eq. reflexivity. Qed.

Lemma owner_eqb_refl (a : option CompId) : owner_eqb a a = true.
Proof. apply owner_eqb_eq. reflexivity. Qed.

(** X4. ReactRef.shouldUpdateRefs is symmetric in its two elements, and
    false on an element and itself. Between a node that is not an
    object (null, false, a string, a number) and any node b, in either
    order, it is true exactly when b is an element with a non-null ref. *)
Theorem shouldUpdateRefs_symmetric_irreflexive
    (elems : ElemId -> ReactElement) (a b : Node) :
  ReactRef_shouldUpdateRefs elems a b = ReactRef_shouldUpdateRefs elems b a
  /\ ReactRef_shouldUpdateRefs elems a a = false
  /\ ((forall e, a <> NElement e) ->
      ReactRef_shouldUpdateRefs elems a b = has_ref elems b
      /\ ReactRef_shouldUpdateRefs elems b a = has_ref elems b).
Proof.
  assert (Hsym : forall x y,
            ReactRef_shouldUpdateRefs elems x y = ReactRef_shouldUpdateRefs elems y x).
  { intros x y. unfold ReactRef_shouldUpdateRefs.
    destruct (ref_and_owner elems x) as [xr xo].
    destruct (ref_and_owner elems y) as [yr yo].
    rewrite (ref_eqb_sym yr xr), (owner_eqb_sym xo yo).
    destruct (ref_eqb xr yr) eqn:E; [| reflexivity].
    apply ref_eqb_eq in E. subst yr. reflexivity. }
  split; [apply Hsym |]. split.
  - unfold ReactRef_shouldUpdateRefs. destruct (ref_and_owner elems a) as [r o].
    rewrite ref_eqb_refl, owner_eqb_refl. simpl. apply andb_false_r.
  - intros Ha.
    assert (H : ReactRef_shouldUpdateRefs elems a b = has_ref elems b).
    { unfold ReactRef_shouldUpdateRefs, has_ref.
      assert (Hra : ref_and_owner elems a = (RefNull, None)).
      { destruct a; try reflexivity. exfalso. exact (Ha e eq_refl). }
      rewrite Hra. destruct b as [| | t | z | e]; try reflexivity. simpl.
      destruct (ref (elems e)), (_owner (elems e)); reflexivity. }
    split; [exact H | rewrite Hsym; exact H].
Qed.

Lemma shouldUpdateRefs_symmetric_irreflexive_witness :
  (forall e, NText "label" <> NElement e)
  /\ ReactRef_shouldUpdateRefs (elements world_refs) (NText "label") (NElement 3) = true
  /\ ReactRef_shouldUpdateRefs (elements world_refs) (NElement 3) (NText "label") = true.
Proof.
  split; [discriminate |].
  destruct (shouldUpdateRefs_symmetric_irreflexive (elements world_refs)
              (NText "label") (NElement 3)) as [_ [_ H]].
  destruct (H ltac:(discriminate)) as [H1 H2].
  split; [rewrite H1 | rewrite H2]; reflexivity.
Defined.

(** * A function ref, from mount to unmount *)

Lemma ref_events_app (l1 l2 : list Event) : ref_events (l1 ++ l2) = ref_events l1 ++ ref_events l2.
Proof. apply flat_map_app. Qed.

Lemma attach_enqueues_app (l1 l2 : list Event) :
  attach_enqueues (l1 ++ l2) = attach_enqueues l1 ++ attach_enqueues l2.
Proof. apply flat_map_app. Qed.

Lemma callback_events_quiet (l : list Event) :
  Forall callback_event l -> ref_events l = [] /\ attach_enqueues l = [].
Proof.
  induction 1 as [| e rest He _ [IH1 IH2]]; [split; reflexivity |].
  destruct e; simpl in *; try tauto; destruct cb; simpl in *; tauto.
Qed.

Lemma user_atom_callback_events (a : Atom) :
  user_atom a -> atom_events_in callback_event a.
Proof.
  destruct a; simpl; try tauto; destruct cb; simpl; tauto.
Qed.

Lemma callback_atom_events (c : CompId) (a : Atom) :
  callback_atom c a -> atom_events_in callback_event a.
Proof.
  destruct a; simpl; try tauto;
    try (destruct cb; simpl; tauto);
    destruct e; simpl; try tauto; destruct cb; simpl; tauto.
Qed.

Lemma user_atom_callback (c : CompId) (a : Atom) :
  user_atom a -> (forall e, a <> ASetElement c e) -> callback_atom c a.
Proof.
  destruct a; simpl; try tauto.
  intros _ H Heq. subst. exact (H e eq_refl).
Qed.

(** The element of [c] under these atoms. *)
Lemma callback_atom_element (c : CompId) (a : Atom) (s : World) :
  callback_atom c a ->
  _currentElement (components (do_atom a s) c) = _currentElement (components s c).
Proof.
  intros Ha.
  destruct a; simpl in *;
    try (destruct (nth_error (queues s) q); reflexivity);
    try reflexivity;
    try (destruct (_updateBatchNumber (components s c0)); simpl);
    unfold upd; try (destruct (Nat.eqb c c0) eqn:E; [| reflexivity];
                     apply Nat.eqb_eq in E; subst; try reflexivity;
                     exfalso; apply Ha; reflexivity).
Qed.

Lemma steps_callback_element (c : CompId) (s s' : World) :
  steps (callback_atom c) s s' ->
  _currentElement (components s' c) = _currentElement (components s c).
Proof.
  intros H.
  refine (@steps_relation (callback_atom c)
            (fun a b => _currentElement (components b c) = _currentElement (components a c))
            _ _ _ s s' H).
  - reflexivity.
  - intros a b d H1 H2. congruence.
  - intros a s0 Ha _. apply callback_atom_element, Ha.
Qed.


Lemma not_attach_queue (q : QueueId) (a : Atom) (s : World) :
  not_attach a -> user_queue q s -> user_queue q (do_atom a s).
Proof.
  intros Ha [this [Hq [Hwf Hall]]].
  assert (Hsame : queues (do_atom a s) = queues s -> user_queue q (do_atom a s)).
  { intros E. exists this. unfold user_queue. rewrite E. auto. }
  destruct a as [c0 | q0 cb ctx | | c0 f | c0 | q0 | c0 | c0 e | c0 k | e];
    try (apply Hsame; reflexivity).
  - apply Hsame. simpl. destruct (_updateBatchNumber (components s c0)); reflexivity.
  - simpl. destruct (nth_error (queues s) q0) as [that |] eqn:Hq0;
      [| exists this; auto].
    assert (Hlt : q0 < length (queues s))
      by (apply nth_error_Some; rewrite Hq0; discriminate).
    destruct (Nat.eq_dec q0 q) as [-> | Hne].
    + rewrite Hq in Hq0. inversion Hq0. subst that.
      exists (CallbackQueue_enqueue cb ctx this). simpl.
      split; [apply nth_error_list_set_eq, Hlt |].
      split; [exact (@apply_op_well_formed (QEnqueue cb ctx) this Hwf) |].
      apply Forall_app. split; [exact Hall |].
      constructor; [| constructor]. destruct cb; [eexists; reflexivity | contradiction].
    + exists this. simpl. rewrite nth_error_list_set_neq by exact Hne. auto.
  - simpl. destruct (nth_error (queues s) q0) as [that |] eqn:Hq0;
      [| exists this; auto].
    assert (Hlt : q0 < length (queues s))
      by (apply nth_error_Some; rewrite Hq0; discriminate).
    destruct (Nat.eq_dec q0 q) as [-> | Hne].
    + exists (CallbackQueue_reset that). simpl.
      split; [apply nth_error_list_set_eq, Hlt |].
      split; [exact I | constructor].
    + exists this. simpl. rewrite nth_error_list_set_neq by exact Hne. auto.
Qed.

Lemma steps_user_queue (K : Atom -> Prop) (q : QueueId) (s s' : World) :
  (forall a, K a -> not_attach a) ->
  steps K s s' -> user_queue q s -> user_queue q s'.
Proof.
  intros HK. apply steps_invariant.
  intros a s0 Ha _. apply not_attach_queue, HK, Ha.
Qed.

Lemma user_atom_not_attach (a : Atom) : user_atom a -> not_attach a.
Proof. destruct a; simpl; try tauto; destruct cb; tauto. Qed.

Lemma callback_atom_not_attach (c : CompId) (a : Atom) : callback_atom c a -> not_attach a.
Proof. destruct a; simpl; try tauto; destruct cb; tauto. Qed.

Lemma cmd_atoms_keep (c : CompId) (l : list Cmd) :
  keeps_element c l -> Forall (cmd_atoms_in (callback_atom c)) l.
Proof.
  intros Hl. apply Forall_forall. intros cmd Hin.
  destruct cmd; simpl; auto.
  intros Heq. subst. exact (Hl e Hin).
Qed.

Section Lifecycle.
Variable P : Program.
Variable c : CompId.
Hypothesis Hfn : forall g this arg w, keeps_element c (fn_body P g this arg w).

Lemma always_callback_body (n : nat) (g : FnId) (this arg : Value) :
  always (batching_steps (callback_atom c))
    (fun s => runCmds P n (fn_body P g this arg s) s).
Proof.
  intros s s' H.
  exact (@always_runCmds_in P _ n _ (cmd_atoms_keep (Hfn g this arg s)) s s' H).
Qed.

Lemma always_callback_invokeAll (n : nat) (arg : Value)
    (callbacks : list (option Callback)) :
  Forall is_user callbacks ->
  forall contexts,
    always (batching_steps (callback_atom c)) (invokeAll P n callbacks contexts arg).
Proof.
  induction 1 as [| cb rest [g ->] _ IH]; intros contexts; simpl.
  - apply always_ret. apply batching_steps_refl.
  - steps_bind; [| apply IH].
    unfold call_fn. steps_bind; [apply always_emit; exact I |].
    apply always_callback_body.
Qed.
End Lifecycle.

Lemma getReactMountReady_same (tx : RtxId) (q : QueueId) (s s' : World) :
  reconcileTxs s' = reconcileTxs s ->
  getReactMountReady tx s = Ok q s ->
  getReactMountReady tx s' = Ok q s'.
Proof.
  unfold getReactMountReady, get_reconcileTx, bind, ret, throw. intros ->.
  destruct (nth_error (reconcileTxs s) tx) as [o |]; [| discriminate].
  destruct (reactMountReady o); [| discriminate].
  intros H. inversion H. reflexivity.
Qed.

Lemma frame_quiet (s s' : World) :
  frame callback_event s s' ->
  exists new, log s' = log s ++ new /\ ref_events new = [] /\ attach_enqueues new = [].
Proof.
  intros H. destruct (fr_log H) as [new [Hl F]]. exists new.
  split; [exact Hl | apply callback_events_quiet, F].
Qed.



Section Refs.
Variable P : Program.
Variable c : CompId.
Hypothesis Hfn : forall g this arg w, keeps_element c (fn_body P g this arg w).

(** Attaching or detaching a non-null ref: one event, then the body of
    the function, if it is one. *)
Lemma ref_call_outcome (n : nat) (r : Ref) (owner : option CompId)
    (attach : bool) (s s' : World) :
  r <> RefNull ->
  isBatchingUpdates s = true ->
  (if attach then attachRef P n r c owner else detachRef P n r c owner) s = Ok tt s' ->
  let ev := if attach then attach_event c r owner else detach_event c r owner in
  steps (callback_atom c) (do_atom (AEmit ev) s) s'.
Proof.
  intros Hr Hb Hrun ev. subst ev.
  destruct r as [| f | name]; [contradiction | |].
  - destruct attach; simpl in *; unfold call_ref, bind, emit, modify in Hrun;
      simpl in Hrun;
      match type of Hrun with
      | runCmds _ _ (fn_body _ _ ?this ?arg _) ?st = _ =>
          exact (@always_callback_body P c Hfn n f this arg st s' (ok_final Hrun) Hb)
      end.
  - destruct attach; simpl in *; unfold emit, modify in Hrun; inversion Hrun;
      apply steps_refl.
Qed.
End Refs.



(** * ReactUpdates: injection and the entry points *)


(** X6. In any world where a reconcile transaction class or a batching
    strategy is missing, enqueueUpdate and batchedUpdates throw the
    "must inject" invariant and leave the world as it was; asap does not
    check the injection and fails with a TypeError when there is no
    strategy. injectReconcileTransaction rejects a falsy class, and
    injectBatchingStrategy a falsy argument, one without a batchedUpdates
    function or one without a boolean isBatchingUpdates, each with an
    invariant violation that leaves the previous injection in place.
    After both injections succeed, batchedUpdates is the strategy's
    batchedUpdates, and enqueueUpdate marks the component dirty when the
    strategy is batching and hands itself to the strategy otherwise. *)
Theorem entry_points_need_both_injections
    (P : Program) (n : nat) (c : CompId) (callback : M unit)
    (cb : Callback) (ctx : Value) (s : World) :
  (ReactReconcileTransaction s && batchingStrategy s = false ->
     enqueueUpdate P (S n) c s = Throw must_inject s
     /\ batchedUpdates P callback s = Throw must_inject s)
  /\ (batchingStrategy s = false -> asap cb ctx s = Throw TypeError s)
  /\ (exists msg, injectReconcileTransaction false s = Throw (InvariantViolation msg) s)
  /\ (forall arg,
        match arg with
        | Some o => batchedUpdates_is_function o = false \/ isBatchingUpdates_field o = None
        | None => True
        end ->
        exists msg, injectBatchingStrategy arg s = Throw (InvariantViolation msg) s)
  /\ (forall o b,
        batchedUpdates_is_function o = true ->
        isBatchingUpdates_field o = Some b ->
        exists s1,
          (injectReconcileTransaction true ;; injectBatchingStrategy (Some o)) s = Ok tt s1
          /\ s1 = set_batchingStrategy b (set_ReactReconcileTransaction true s)
          /\ batchedUpdates P callback s1 = strategy_batchedUpdates P callback s1
          /\ enqueueUpdate P (S n) c s1
             = if b then markDirty c s1
               else strategy_batchedUpdates P (enqueueUpdate P n c) s1).
Proof.
  split; [| split; [| split; [| split]]].
  - intros H. unfold batchedUpdates. cbn [enqueueUpdate].
    unfold bind, ensureInjected, must_inject. rewrite H. split; reflexivity.
  - intros H. unfold asap. rewrite H. reflexivity.
  - eexists. reflexivity.
  - intros [o |] H; unfold injectBatchingStrategy.
    + destruct H as [H | H].
      * rewrite H. eexists. reflexivity.
      * rewrite H. destruct (negb (batchedUpdates_is_function o)); eexists; reflexivity.
    + eexists. reflexivity.
  - intros o b Hf Hb. eexists. split; [| split; [reflexivity |]].
    + unfold bind, injectReconcileTransaction, injectBatchingStrategy.
      rewrite Hf, Hb. reflexivity.
    + split.
      * unfold batchedUpdates, bind, ensureInjected. reflexivity.
      * cbn [enqueueUpdate]. unfold bind, ensureInjected. simpl.
        destruct b; reflexivity.
Qed.

Lemma entry_points_need_both_injections_witness :
  ReactReconcileTransaction world_loaded && batchingStrategy world_loaded = false
  /\ enqueueUpdate quiet 1 1 world_loaded = Throw must_inject world_loaded
  /\ exists s1,
       (injectReconcileTransaction true ;;
        injectBatchingStrategy
          (Some {| batchedUpdates_is_function := true;
                   isBatchingUpdates_field := Some true |})) world_loaded = Ok tt s1
       /\ enqueueUpdate quiet 1 1 s1 = markDirty 1 s1.
Proof.
  destruct (entry_points_need_both_injections quiet 0 1 (ret tt) (UserFn 1) VNull
              world_loaded) as [H1 [_ [_ [_ H5]]]].
  split; [reflexivity |]. split; [apply H1; reflexivity |].
  destruct (H5 {| batchedUpdates_is_function := true;
                  isBatchingUpdates_field := Some true |} true eq_refl eq_refl)
    as [s1 [Hrun [_ [_ Henq]]]].
  exists s1. split; [exact Hrun | exact Henq].
Defined.

(** * flushBatchedUpdates returns only when idle *)

(** X7. When flushBatchedUpdates returns, dirtyComponents is empty and
    asapEnqueued is false, whatever the program and the world it was
    called in; and calling it again at once returns in the same world:
    no transaction is acquired, nothing is logged. *)
Theorem flush_returns_idle_and_stays_idle
    (P : Program) (n : nat) (s s' : World)
    (Hrun : flushBatchedUpdates P n s = Ok tt s') :
  dirtyComponents s' = []
  /\ asapEnqueued s' = false
  /\ forall m, flushBatchedUpdates P (S m) s' = Ok tt s'.
Proof.
  assert (Hidle : dirtyComponents s' = [] /\ asapEnqueued s' = false).
  { revert s Hrun. induction n as [| n IH]; intros s Hrun; [discriminate |].
    cbn [flushBatchedUpdates] in Hrun.
    destruct (is_nonempty (dirtyComponents s) || asapEnqueued s) eqn:Hc.
    - apply ok_bind_inv in Hrun. destruct Hrun as [[] [s1 [_ Hrun]]].
      apply ok_bind_inv in Hrun. destruct Hrun as [[] [s2 [_ Hrun]]].
      exact (IH s2 Hrun).
    - inversion Hrun. subst s'. apply orb_false_iff in Hc. destruct Hc as [Hd Ha].
      split; [| exact Ha]. destruct (dirtyComponents s); [reflexivity | discriminate]. }
  destruct Hidle as [Hd Ha]. split; [exact Hd |]. split; [exact Ha |].
  intros m. cbn [flushBatchedUpdates]. rewrite Hd, Ha. reflexivity.
Qed.

Lemma flush_returns_idle_and_stays_idle_witness :
  exists s',
    flushBatchedUpdates cascade 5 (after cascade [CEnqueueUpdate 1; CAsap 8 (VData 1)])
    = Ok tt s'
    /\ dirtyComponents s' = []
    /\ flushBatchedUpdates cascade 1 s' = Ok tt s'.
Proof.
  destruct (flushBatchedUpdates cascade 5
              (after cascade [CEnqueueUpdate 1; CAsap 8 (VData 1)]))
    as [[] s' | |] eqn:Hrun;
    [| vm_compute in Hrun; discriminate | vm_compute in Hrun; discriminate].
  exists s'. split; [reflexivity |].
  destruct (flush_returns_idle_and_stays_idle cascade 5 _ Hrun) as [Hd [_ Hm]].
  split; [exact Hd | apply Hm].
Defined.


(** * The generation counter *)

Lemma generation_grows_refl (s : World) : generation_grows s s.
Proof. intros H. split; [exact H | lia]. Qed.

Lemma generation_grows_trans (a b c : World) :
  generation_grows a b -> generation_grows b c -> generation_grows a c.
Proof.
  intros Hab Hbc Ha. destruct (Hab Ha) as [Hb Hg]. destruct (Hbc Hb) as [Hc Hg'].
  split; [exact Hc | lia].
Qed.

Ltac grows_bind :=
  apply always_bind; [apply generation_grows_trans | | intros ?].

Lemma steps_generation (K : Atom -> Prop) (s s' : World) :
  steps K s s' -> updateBatchNumber s' = updateBatchNumber s.
Proof.
  intros H. apply (@fr_updateBatchNumber (fun _ => True)).
  eapply steps_frame; [| exact H]. intros a _. apply every_atom_logs.
Qed.

Lemma grows_of_steps (K : Atom -> Prop) (s s' : World) :
  batching_steps K s s' -> generation_grows s s'.
Proof.
  intros H Hb. specialize (H Hb).
  rewrite (steps_isBatchingUpdates H), (steps_generation H). split; [exact Hb | lia].
Qed.

Lemma grows_of_same (s s' : World) : same_schedule s s' -> generation_grows s s'.
Proof.
  intros H Hb. rewrite (ss_batching H), (ss_generation H). split; [exact Hb | lia].
Qed.

Lemma always_grows_steps {A : Type} (K : Atom -> Prop) (m : M A) :
  always (batching_steps K) m -> always generation_grows m.
Proof. apply always_weaken. intros s s'. apply grows_of_steps. Qed.

Lemma always_grows_same {A : Type} (m : M A) :
  always same_schedule m -> always generation_grows m.
Proof. apply always_weaken. apply grows_of_same. Qed.

(** The callbacks of any program, as atoms. *)
Lemma always_any_invoke (P : Program) (n : nat) (cb : option Callback)
    (this arg : Value) :
  always (batching_steps any_atom) (invoke P n cb this arg).
Proof.
  destruct cb as [[f |] |]; simpl.
  - unfold call_fn. steps_bind; [apply always_emit; exact I |].
    eapply always_weaken; [| apply always_body].
    intros s s'. apply batching_steps_weaken. intros x _. exact I.
  - steps_bind; [apply always_emit; exact I |].
    destruct this; try (apply always_throw; apply batching_steps_refl).
    intros s s' H.
    eapply batching_steps_weaken; [| exact (always_attachRefs P n c _ s H)].
    intros x _. exact I.
  - apply always_throw. apply batching_steps_refl.
Qed.

Lemma always_any_invokeAll (P : Program) (n : nat) (arg : Value)
    (callbacks : list (option Callback)) :
  forall contexts,
    always (batching_steps any_atom) (invokeAll P n callbacks contexts arg).
Proof.
  induction callbacks as [| cb rest IH]; intros contexts; simpl.
  - apply always_ret. apply batching_steps_refl.
  - steps_bind; [apply always_any_invoke | apply IH].
Qed.

Lemma always_any_reset (q : QueueId) :
  always (batching_steps any_atom) (with_queue q CallbackQueue_reset).
Proof.
  intros s s' H _. unfold with_queue in H.
  pose proof (steps_one any_atom (AReset q) s I I) as Hs. simpl in Hs.
  destruct (nth_error (queues s) q); inversion H; subst;
    [exact Hs | apply steps_refl].
Qed.

Lemma always_any_notifyAll (P : Program) (n : nat) (q : QueueId) :
  always (batching_steps any_atom) (CallbackQueue_notifyAll P n q).
Proof.
  intros s s' H. unfold CallbackQueue_notifyAll in H.
  destruct (nth_error (queues s) q) as [this |] eqn:Hq;
    [| inversion H; subst; apply batching_steps_refl].
  destruct (_callbacks this) as [callbacks |];
    [| inversion H; subst; apply batching_steps_refl].
  destruct (_contexts this) as [contexts |];
    [| inversion H; subst; apply batching_steps_refl].
  destruct (Nat.eqb (length callbacks) (length contexts));
    [| inversion H; subst; apply batching_steps_refl].
  assert (Hall : always (batching_steps any_atom)
            (with_queue q CallbackQueue_reset ;;
             invokeAll P n callbacks contexts (_arg this))).
  { steps_bind; [apply always_any_reset | apply always_any_invokeAll]. }
  exact (Hall s s' H).
Qed.

(** A step that writes neither the flag nor the counter. *)
Lemma always_grows_keeps {A : Type} (m : M A) :
  (forall s s', final (m s) = Some s' ->
     isBatchingUpdates s' = isBatchingUpdates s
     /\ updateBatchNumber s' = updateBatchNumber s) ->
  always generation_grows m.
Proof.
  intros Hm s s' H Hb. destruct (Hm s s' H) as [H1 H2]. rewrite H1, H2.
  split; [exact Hb | lia].
Qed.

Lemma always_grows_get_flushTx (t : TxId) : always generation_grows (get_flushTx t).
Proof.
  apply always_grows_keeps. intros s s' H. unfold get_flushTx in H.
  destruct (nth_error (flushTxs s) t); inversion H; auto.
Qed.

Lemma always_grows_getReactMountReady (r : RtxId) :
  always generation_grows (getReactMountReady r).
Proof.
  apply always_grows_keeps. intros s s' H.
  unfold getReactMountReady, get_reconcileTx, bind, ret, throw in H.
  destruct (nth_error (reconcileTxs s) r) as [o |]; simpl in H.
  - destruct (reactMountReady o); inversion H; auto.
  - inversion H; auto.
Qed.

Section Generation.
Variable P : Program.

(** One pass adds one to the counter, unless the length check fails. *)
Lemma runBatchedUpdates_generation (n : nat) (tx : TxId) (s s' : World) :
  isBatchingUpdates s = true ->
  final (runBatchedUpdates P n tx s) = Some s' ->
  isBatchingUpdates s' = true
  /\ (s' = s \/ updateBatchNumber s' = updateBatchNumber s + 1).
Proof.
  intros Hb Hrun. unfold runBatchedUpdates, bind, get_flushTx in Hrun.
  destruct (nth_error (flushTxs s) tx) as [o |]; [| inversion Hrun; subst; auto].
  destruct (dirtyComponentsLength o) as [len |]; [| inversion Hrun; subst; auto].
  destruct (Nat.eqb len (length (dirtyComponents s)));
    [| inversion Hrun; subst; auto].
  unfold modify in Hrun. simpl in Hrun.
  match type of Hrun with
  | final (batchLoop _ _ _ _ _ ?st) = _ =>
      pose proof (@always_steps_batchLoop P n tx len 0 st s' Hrun Hb) as Hsteps
  end.
  rewrite (steps_isBatchingUpdates Hsteps), (steps_generation Hsteps).
  split; [exact Hb | right; reflexivity].
Qed.

Lemma always_grows_runBatchedUpdates (n : nat) (tx : TxId) :
  always generation_grows (runBatchedUpdates P n tx).
Proof.
  intros s s' H Hb. destruct (@runBatchedUpdates_generation n tx s s' Hb H) as [H1 [-> | H2]];
    (split; [assumption | lia]).
Qed.

Lemma always_grows_NESTED_UPDATES (flush : M unit) (t : TxId) :
  always generation_grows flush ->
  always generation_grows (initialize (NESTED_UPDATES flush t))
  /\ always generation_grows (close (NESTED_UPDATES flush t)).
Proof.
  intros Hflush. split; simpl.
  - grows_bind; [apply always_grows_get_flushTx |].
    apply always_grows_keeps. intros s s' H. inversion H. auto.
  - grows_bind; [apply always_grows_get_flushTx |].
    intros s s' H.
    destruct (negb (option_nat_eqb (dirtyComponentsLength a)
                      (Some (length (dirtyComponents s))))).
    + unfold bind, modify in H. simpl in H. intros Hb.
      exact (Hflush _ _ H Hb).
    + inversion H. subst. intros Hb. split; [exact Hb | simpl; lia].
Qed.

Lemma always_grows_UPDATE_QUEUEING (n : nat) (t : TxId) :
  always generation_grows (initialize (UPDATE_QUEUEING P n t))
  /\ always generation_grows (close (UPDATE_QUEUEING P n t)).
Proof.
  split; simpl.
  - grows_bind; [apply always_grows_get_flushTx |].
    destruct (callbackQueue a).
    + eapply always_grows_steps, always_any_reset.
    + apply always_throw. apply generation_grows_refl.
  - grows_bind; [apply always_grows_get_flushTx |].
    destruct (callbackQueue a).
    + eapply always_grows_steps, always_any_notifyAll.
    + apply always_throw. apply generation_grows_refl.
Qed.

Lemma always_grows_RECONCILE_WRAPPERS (n : nat) (r : RtxId) (w : Wrapper) :
  In w (RECONCILE_WRAPPERS P n r) ->
  always generation_grows (initialize w) /\ always generation_grows (close w).
Proof.
  intros [<- | []]. split; simpl.
  - grows_bind; [apply always_grows_getReactMountReady |].
    eapply always_grows_steps, always_any_reset.
  - grows_bind; [apply always_grows_getReactMountReady |].
    eapply always_grows_steps, always_any_notifyAll.
Qed.

Lemma always_grows_perform (n : nat) (flush : M unit) (t : TxId) :
  always generation_grows flush ->
  always generation_grows
    (FlushTransaction_perform P n flush t (runBatchedUpdates P n t)).
Proof.
  intros Hflush. unfold FlushTransaction_perform.
  grows_bind; [apply always_grows_get_flushTx |].
  destruct (reconcileTransaction a) as [r |];
    [| apply always_throw; apply generation_grows_refl].
  apply always_perform.
  - apply generation_grows_refl.
  - apply generation_grows_trans.
  - intros w [<- | [<- | []]].
    + apply always_grows_NESTED_UPDATES, Hflush.
    + apply always_grows_UPDATE_QUEUEING.
  - apply always_perform.
    + apply generation_grows_refl.
    + apply generation_grows_trans.
    + intros w Hw. exact (always_grows_RECONCILE_WRAPPERS Hw).
    + apply always_grows_runBatchedUpdates.
Qed.

Lemma always_grows_transaction_part (n : nat) :
  always generation_grows (flushBatchedUpdates P n) ->
  always generation_grows
    (fun s =>
       if is_nonempty (dirtyComponents s) then
         (transaction <- FlushTransaction_getPooled ;;
          FlushTransaction_perform P n (flushBatchedUpdates P n)
            transaction (runBatchedUpdates P n transaction) ;;
          FlushTransaction_release transaction) s
       else Ok tt s).
Proof.
  intros IH s s' H.
  destruct (is_nonempty (dirtyComponents s));
    [| inversion H; subst; apply generation_grows_refl].
  revert s' H.
  assert (Hall : always generation_grows
    (transaction <- FlushTransaction_getPooled ;;
     FlushTransaction_perform P n (flushBatchedUpdates P n)
       transaction (runBatchedUpdates P n transaction) ;;
     FlushTransaction_release transaction)).
  { grows_bind;
      [apply always_grows_same, always_same_FlushTransaction_getPooled |].
    grows_bind; [apply always_grows_perform, IH |].
    apply always_grows_same, always_same_FlushTransaction_release. }
  intros s'. apply Hall.
Qed.

Lemma always_grows_asap_part (n : nat) :
  always generation_grows
    (fun s =>
       if asapEnqueued s then
         (modify (set_asapEnqueued false) ;;
          queue <- get asapCallbackQueue ;;
          q' <- CallbackQueue_getPooled VUndefined ;;
          modify (set_asapCallbackQueue q') ;;
          CallbackQueue_notifyAll P n queue ;;
          CallbackQueue_release queue) s
       else Ok tt s).
Proof.
  intros s s' H.
  destruct (asapEnqueued s); [| inversion H; subst; apply generation_grows_refl].
  revert s' H.
  assert (Hall : always generation_grows
    (modify (set_asapEnqueued false) ;;
     queue <- get asapCallbackQueue ;;
     q' <- CallbackQueue_getPooled VUndefined ;;
     modify (set_asapCallbackQueue q') ;;
     CallbackQueue_notifyAll P n queue ;;
     CallbackQueue_release queue)).
  { grows_bind.
    { apply always_grows_keeps. intros s0 s1 H. inversion H. auto. }
    grows_bind; [apply always_get; apply generation_grows_refl |].
    grows_bind; [apply always_grows_same, always_same_CallbackQueue_getPooled |].
    grows_bind.
    { apply always_grows_keeps. intros s0 s1 H. inversion H. auto. }
    grows_bind; [eapply always_grows_steps, always_any_notifyAll |].
    apply always_grows_same, always_same_CallbackQueue_release. }
  intros s'. apply Hall.
Qed.

Lemma always_grows_flush (n : nat) : always generation_grows (flushBatchedUpdates P n).
Proof.
  induction n as [| n IH]; [intros s s' H; discriminate |].
  intros s s' H. cbn [flushBatchedUpdates] in H.
  destruct (is_nonempty (dirtyComponents s) || asapEnqueued s);
    [| inversion H; subst; apply generation_grows_refl].
  revert s' H.
  pose proof (@always_grows_transaction_part n IH) as H1.
  pose proof (always_grows_asap_part n) as H2.
  intros s'.
  refine (@always_bind generation_grows generation_grows_trans unit unit _ _ H1 _ s s').
  intros [].
  refine (@always_bind generation_grows generation_grows_trans unit unit _ _ H2 _).
  intros []. exact IH.
Qed.
End Generation.

(** X8. Inside a batching scope, however flushBatchedUpdates ends (by
    returning, or with an error of user code or of the scheduler), the
    scope is still open and updateBatchNumber is not smaller than
    before. Each pass of runBatchedUpdates adds exactly one to it,
    unless the pass fails its length check and leaves the world as it
    was; enqueueUpdate never changes it. *)
Theorem generation_counter_never_goes_back
    (P : Program) (n : nat) (s s' : World)
    (Hb : isBatchingUpdates s = true)
    (Hrun : final (flushBatchedUpdates P n s) = Some s') :
  isBatchingUpdates s' = true
  /\ updateBatchNumber s <= updateBatchNumber s'
  /\ (forall tx w w',
        isBatchingUpdates w = true ->
        final (runBatchedUpdates P n tx w) = Some w' ->
        w' = w \/ updateBatchNumber w' = updateBatchNumber w + 1)
  /\ (forall c w w',
        isBatchingUpdates w = true ->
        final (enqueueUpdate P n c w) = Some w' ->
        updateBatchNumber w' = updateBatchNumber w).
Proof.
  destruct (@always_grows_flush P n s s' Hrun Hb) as [H1 H2].
  split; [exact H1 |]. split; [exact H2 |]. split.
  - intros tx w w' Hw Hf. exact (proj2 (@runBatchedUpdates_generation P n tx w w' Hw Hf)).
  - intros c w w' Hw Hf.
    exact (steps_generation (@always_enqueueUpdate P any_atom n c I w w' Hf Hw)).
Qed.

Lemma generation_counter_never_goes_back_witness :
  isBatchingUpdates (after cascade [CEnqueueUpdate 1]) = true
  /\ exists s',
       final (flushBatchedUpdates cascade 5 (after cascade [CEnqueueUpdate 1])) = Some s'
       /\ isBatchingUpdates s' = true
       /\ updateBatchNumber (after cascade [CEnqueueUpdate 1]) <= updateBatchNumber s'.
Proof.
  split; [reflexivity |].
  destruct (final (flushBatchedUpdates cascade 5 (after cascade [CEnqueueUpdate 1])))
    as [s' |] eqn:Hrun; [| vm_compute in Hrun; discriminate].
  exists s'. split; [reflexivity |].
  destruct (@generation_counter_never_goes_back cascade 5
              (after cascade [CEnqueueUpdate 1]) s' eq_refl Hrun)
    as [H1 [H2 _]].
  split; [exact H1 | exact H2].
Defined.


(** * The dispatcher's warning *)

Lemma hush_atom_events (a : Atom) : hush_atom a -> atom_events_in no_warning a.
Proof. destruct a; simpl; auto. Qed.

Lemma user_atom_hush (a : Atom) : user_atom a -> hush_atom a.
Proof. destruct a; simpl; tauto. Qed.

Lemma warnings_none (l : list Event) : Forall no_warning l -> warnings l = [].
Proof.
  induction 1 as [| e rest He _ IH]; [reflexivity |].
  destruct e; simpl in *; try exact IH. contradiction.
Qed.

Lemma notify_event_no_warning (e : Event) : notify_event e -> no_warning e.
Proof. destruct e; simpl; auto. Qed.

Lemma pool_event_no_warning (e : Event) : pool_event e -> no_warning e.
Proof. destruct e; simpl; auto. Qed.

Lemma logs_step {A : Type} (Q : Event -> Prop) (m : M A) (s s' : World) (a : A) :
  (forall e, Q e -> no_warning e) ->
  always (logs Q) m -> m s = Ok a s' -> logs no_warning s s'.
Proof.
  intros HQ Hm H. eapply logs_weaken; [exact HQ |]. exact (Hm s s' (ok_final H)).
Qed.

Section Hushed.
Variable P : Program.
Hypothesis Hwb : well_behaved P.

(** During a pass the tag of the component at hand is the running
    generation or the next: the dispatcher has nothing to warn about. *)
Lemma iteration_hushed (n : nat) (tx : TxId) (len i : nat) (c : CompId) (s s1 : World) :
  in_pass len i s ->
  final (batchIteration P n tx c s) = Some s1 ->
  steps hush_atom s s1.
Proof.
  intros Hp Hrun. pose proof (ip_batching Hp) as Hb.
  rewrite (batchIteration_outcome P n tx c s Hb) in Hrun.
  set (g := updateBatchNumber s) in *.
  set (s0 := do_atom (AStash c) s) in *.
  set (sp := do_atom (AEmit (EvPerformUpdate c g)) s0) in *.
  assert (Hs0 : steps hush_atom s s0) by (apply steps_one; exact I).
  assert (Hsp : steps hush_atom s sp).
  { eapply steps_trans; [exact Hs0 | apply steps_one; exact I]. }
  destruct (nth_error (flushTxs s) tx) as [o |];
    [| inversion Hrun; subst s1; exact Hs0].
  assert (Henq : forall s2, steps hush_atom s s2 ->
            final (enqueue_stashed o (_pendingCallbacks (components s c)) c s2) = Some s1 ->
            steps hush_atom s s1).
  { intros s2 H2 Hq. eapply steps_trans; [exact H2 |].
    eapply (@always_enqueue_stashed hush_atom o _ c (fun _ _ => I) s2 s1 Hq).
    rewrite (steps_isBatchingUpdates H2). exact Hb. }
  destruct (option_nat_eqb (_updateBatchNumber (components s c)) (Some g)) eqn:Htag.
  - set (sr := do_atom (AEmit (EvReconcile c g)) sp) in *.
    assert (Hsr : steps hush_atom s sr).
    { eapply steps_trans; [exact Hsp | apply steps_one; exact I]. }
    destruct (runCmds P n _ sr) as [[] s2 | e s2 |] eqn:Himpl; try discriminate.
    + apply (Henq s2); [| exact Hrun].
      eapply steps_trans; [exact Hsr |].
      eapply steps_weaken; [apply user_atom_hush |].
      exact (@always_runCmds P n _ sr s2 (ok_final Himpl) Hb).
    + inversion Hrun. subst s1.
      eapply steps_trans; [exact Hsr |].
      eapply steps_weaken; [apply user_atom_hush |].
      refine (@always_runCmds P n _ sr s2 _ Hb). rewrite Himpl. reflexivity.
  - apply (Henq (skip_world c g (_updateBatchNumber (components s c)) sp));
      [| exact Hrun].
    unfold skip_world.
    destruct (_updateBatchNumber (components s c)) as [t |] eqn:Ht; [| exact Hsp].
    destruct (ip_tags Hp c Ht) as [[Hcur _] | [Hnext _]].
    + subst t. simpl in Htag. fold g in Htag. rewrite Nat.eqb_refl in Htag.
      discriminate.
    + subst t. fold g. rewrite Nat.eqb_refl. exact Hsp.
Qed.

Lemma batchLoop_hushed (n : nat) (tx : TxId) (len k : nat) :
  forall i s s',
    in_pass len i s -> i + k = len ->
    batchLoop P n tx i k s = Ok tt s' ->
    steps hush_atom s s'.
Proof.
  induction k as [| k IH]; intros i s s' Hp Hik Hrun; simpl in Hrun.
  - inversion Hrun. apply steps_refl.
  - unfold bind at 1 in Hrun. unfold get in Hrun.
    destruct (nth_error (dirtyComponents s) i) as [c |] eqn:Hi; [| discriminate].
    apply ok_bind_inv in Hrun. destruct Hrun as [[] [s1 [Hit Hrest]]].
    eapply steps_trans; [exact (@iteration_hushed n tx len i c s s1 Hp (ok_final Hit)) |].
    apply (@IH (S i) s1 s'); [| lia | exact Hrest].
    exact (@iteration_in_pass P Hwb n tx len i c s s1 Hp Hi Hit).
Qed.

Lemma runBatchedUpdates_hushed (n : nat) (tx : TxId) (s s' : World) :
  settled s ->
  runBatchedUpdates P n tx s = Ok tt s' ->
  logs no_warning s s'.
Proof.
  intros [Sb St Ss] Hrun.
  unfold runBatchedUpdates, bind, get_flushTx in Hrun.
  destruct (nth_error (flushTxs s) tx) as [o |]; [| discriminate].
  destruct (dirtyComponentsLength o) as [len |]; [| discriminate].
  destruct (Nat.eqb len (length (dirtyComponents s))) eqn:E; [| discriminate].
  apply Nat.eqb_eq in E. unfold modify in Hrun. simpl in Hrun.
  pose proof (array_sort_perm (mountOrderComparator s) (dirtyComponents s)) as Hperm.
  match type of Hrun with
  | batchLoop _ _ _ _ _ ?st = _ => set (s0 := st) in *
  end.
  assert (Hp : in_pass len 0 s0).
  { constructor; simpl.
    - exact Sb.
    - rewrite (Permutation_length Hperm). lia.
    - intros c t H. left. destruct (St c t H) as [H1 H2]. split; [exact H1 |].
      rewrite firstn_all2 by (rewrite (Permutation_length Hperm); lia).
      eapply Permutation_in; [apply Permutation_sym, Hperm | exact H2].
    - exact Ss. }
  pose proof (@batchLoop_hushed n tx len len 0 s0 s' Hp eq_refl Hrun) as Hsteps.
  intros _. split; [rewrite (steps_isBatchingUpdates Hsteps); exact Sb |].
  assert (Hfr : frame no_warning s0 s')
    by (eapply steps_frame; [exact hush_atom_events | exact Hsteps]).
  exact (fr_log Hfr).
Qed.

Lemma always_logs_UPDATE_QUEUEING (n : nat) (t : TxId) :
  always (logs notify_event) (initialize (UPDATE_QUEUEING P n t))
  /\ always (logs notify_event) (close (UPDATE_QUEUEING P n t)).
Proof.
  split; simpl.
  - logs_bind; [apply always_logs_get_flushTx |].
    destruct (callbackQueue a); [apply always_logs_with_queue |].
    apply always_throw. apply logs_refl.
  - logs_bind; [apply always_logs_get_flushTx |].
    destruct (callbackQueue a); [apply always_logs_notifyAll |].
    apply always_throw. apply logs_refl.
Qed.

(** The flush transaction around one pass. *)
Lemma perform_hushed (n : nat) (tx : TxId) (s s' : World) :
  (forall s0 s1, settled s0 -> flushBatchedUpdates P n s0 = Ok tt s1 ->
     logs no_warning s0 s1) ->
  settled s ->
  FlushTransaction_perform P n (flushBatchedUpdates P n) tx
    (runBatchedUpdates P n tx) s = Ok tt s' ->
  logs no_warning s s'.
Proof.
  intros IH Hs Hrun. unfold FlushTransaction_perform in Hrun.
  apply ok_bind_inv in Hrun. destruct Hrun as [o0 [s0 [Hget Hrun]]].
  unfold get_flushTx in Hget.
  destruct (nth_error (flushTxs s) tx) as [o |] eqn:Ho; [| discriminate].
  inversion Hget. subst o0 s0. clear Hget.
  destruct (reconcileTransaction o) as [r |]; [| discriminate].
  apply perform_ok_chain in Hrun.
  destruct Hrun as [s1 [s2 [Hinit [Hinner Hclose]]]].
  (* the initialize hooks *)
  simpl in Hinit. destruct Hinit as [sA [HA [sB [HB ->]]]].
  unfold bind, get_flushTx, modify in HA. rewrite Ho in HA. inversion HA as [HsA].
  clear HA.
  set (len := length (dirtyComponents s)) in *.
  set (oA := {| dirtyComponentsLength := Some len;
                callbackQueue := callbackQueue o;
                reconcileTransaction := reconcileTransaction o |}) in *.
  assert (HoA : nth_error (flushTxs sA) tx = Some oA).
  { rewrite <- HsA. simpl. apply nth_error_list_set_eq.
    apply nth_error_Some. rewrite Ho. discriminate. }
  assert (HsetA : settled sA).
  { rewrite <- HsA. eapply settled_same; [| exact Hs]. constructor; simpl; auto. }
  assert (HlA : logs no_warning s sA).
  { rewrite <- HsA. intros Hb. split; [exact Hb |]. exists []. simpl.
    rewrite app_nil_r. split; [reflexivity | constructor]. }
  pose proof (always_calm_UPDATE_QUEUEING Hwb n tx) as [HUi HUc].
  pose proof (always_logs_UPDATE_QUEUEING n tx) as [HLi HLc].
  assert (HsetB : settled sB) by exact (calm_step_settled HUi HsetA HB).
  assert (HlB : logs no_warning sA sB)
    by (eapply logs_step; [exact notify_event_no_warning | exact HLi | exact HB]).
  assert (HoB : nth_error (flushTxs sB) tx = Some oA).
  { rewrite (steps_flushTxs (HUi sA sB (ok_final HB) (st_batching HsetA))).
    exact HoA. }
  (* the reconcile transaction *)
  apply perform_ok_chain in Hinner.
  destruct Hinner as [sC' [sD [HinitR [Hpass HcloseR]]]].
  simpl in HinitR. destruct HinitR as [sC [HC ->]].
  simpl in HcloseR. destruct HcloseR as [sE [HE ->]].
  pose proof (@always_calm_RECONCILE_WRAPPERS P Hwb n r _ (or_introl eq_refl))
    as [HRi HRc].
  pose proof (@always_logs_RECONCILE_WRAPPERS P n r _ (or_introl eq_refl))
    as [HMi HMc].
  simpl in HRi, HRc, HMi, HMc.
  assert (HsetC : settled sC) by exact (calm_step_settled HRi HsetB HC).
  assert (HlC : logs no_warning sB sC)
    by (eapply logs_step; [exact notify_event_no_warning | exact HMi | exact HC]).
  assert (HoC : nth_error (flushTxs sC) tx = Some oA).
  { rewrite (steps_flushTxs (HRi sB sC (ok_final HC) (st_batching HsetB))). exact HoB. }
  destruct (@runBatchedUpdates_in_pass P Hwb n tx oA len sC sD HsetC HoC eq_refl Hpass)
    as [HpD HfD].
  pose proof (@runBatchedUpdates_hushed n tx sC sD HsetC Hpass) as HlD.
  destruct (calm_step_in_pass HRc HpD HE) as [HpE HfE].
  assert (HlE : logs no_warning sD sE)
    by (eapply logs_step; [exact notify_event_no_warning | exact HMc | exact HE]).
  assert (HoE : nth_error (flushTxs sE) tx = Some oA) by (rewrite HfE, HfD; exact HoC).
  (* the close hooks *)
  simpl in Hclose. destruct Hclose as [sF [HF [sG [HG ->]]]].
  assert (HlF : logs no_warning sE sF).
  { unfold bind, get_flushTx in HF. rewrite HoE in HF. simpl in HF.
    destruct (negb (Nat.eqb len (length (dirtyComponents sE)))) eqn:Hgrow.
    - unfold modify in HF.
      pose proof (IH _ _ (in_pass_done_settled HpE) HF) as Hl.
      intros Hb. exact (Hl Hb).
    - inversion HF. intros Hb. split; [exact Hb |]. exists []. simpl.
      rewrite app_nil_r. split; [reflexivity | constructor]. }
  assert (HlG : logs no_warning sF sG)
    by (eapply logs_step; [exact notify_event_no_warning | exact HLc | exact HG]).
  repeat (eapply logs_trans; [eassumption |]). apply logs_refl.
Qed.

Lemma flush_hushed (n : nat) :
  forall s s',
    settled s -> flushBatchedUpdates P n s = Ok tt s' -> logs no_warning s s'.
Proof.
  induction n as [| n IH]; intros s s' Hs Hrun; [discriminate |].
  cbn [flushBatchedUpdates] in Hrun.
  destruct (is_nonempty (dirtyComponents s) || asapEnqueued s) eqn:Hcond;
    [| inversion Hrun; subst s'; apply logs_refl].
  apply ok_bind_inv in Hrun. destruct Hrun as [[] [sa [Ha Hrun]]].
  apply ok_bind_inv in Hrun. destruct Hrun as [[] [sb [Hb Hrun]]].
  assert (Hparta : settled sa /\ logs no_warning s sa).
  { destruct (is_nonempty (dirtyComponents s));
      [| inversion Ha; subst; split; [exact Hs | apply logs_refl]].
    apply ok_bind_inv in Ha. destruct Ha as [tx [s1 [H1 Ha]]].
    apply ok_bind_inv in Ha. destruct Ha as [[] [s2 [H2 H3]]].
    pose proof (same_step_settled always_same_FlushTransaction_getPooled Hs H1) as Hs1.
    assert (Hs2 : settled s2).
    { eapply (@perform_settles P Hwb); [| exact Hs1 | exact H2].
      intros s0 s3 H0 H. exact (proj1 (@flush_settles P Hwb n s0 s3 H0 H)). }
    split.
    - exact (same_step_settled (always_same_FlushTransaction_release tx) Hs2 H3).
    - eapply logs_trans;
        [(eapply logs_step; [exact pool_event_no_warning | exact always_logs_FlushTransaction_getPooled | exact H1]) |].
      eapply logs_trans; [exact (@perform_hushed n tx s1 s2 IH Hs1 H2) |].
      (eapply logs_step; [exact pool_event_no_warning | exact (always_logs_FlushTransaction_release tx) | exact H3]). }
  destruct Hparta as [Hseta Hla].
  assert (Hpartb : settled sb /\ logs no_warning sa sb).
  { destruct (asapEnqueued sa);
      [| inversion Hb; subst; split; [exact Hseta | apply logs_refl]].
    apply ok_bind_inv in Hb. destruct Hb as [[] [s1 [H1 Hb]]].
    apply ok_bind_inv in Hb. destruct Hb as [queue [s2 [H2 Hb]]].
    apply ok_bind_inv in Hb. destruct Hb as [q' [s3 [H3 Hb]]].
    apply ok_bind_inv in Hb. destruct Hb as [[] [s4 [H4 Hb]]].
    apply ok_bind_inv in Hb. destruct Hb as [[] [s5 [H5 H6]]].
    unfold modify in H1, H4. unfold get in H2.
    inversion H1. inversion H2. inversion H4. subst s1 s2 queue s4. clear H1 H2 H4.
    assert (Hs1 : settled (set_asapEnqueued false sa)).
    { eapply settled_same; [| exact Hseta]. constructor; simpl; auto. }
    pose proof (same_step_settled (always_same_CallbackQueue_getPooled VUndefined) Hs1 H3)
      as Hs3.
    assert (Hs4 : settled (set_asapCallbackQueue q' s3)).
    { eapply settled_same; [| exact Hs3]. constructor; simpl; auto. }
    pose proof (calm_step_settled
                  (@always_calm_notifyAll P (wb_function Hwb) n _) Hs4 H5) as Hs5.
    split; [exact (same_step_settled (always_same_CallbackQueue_release _) Hs5 H6) |].
    assert (Hl3 : logs no_warning (set_asapEnqueued false sa) s3)
      by (eapply logs_step; [exact pool_event_no_warning
                            | exact (always_logs_CallbackQueue_getPooled VUndefined)
                            | exact H3]).
    assert (Hl5 : logs no_warning (set_asapCallbackQueue q' s3) s5)
      by (eapply logs_step; [exact notify_event_no_warning
                            | apply always_logs_notifyAll
                            | exact H5]).
    assert (Hl6 : logs no_warning s5 sb)
      by (eapply logs_step; [exact pool_event_no_warning
                            | apply always_logs_CallbackQueue_release
                            | exact H6]).
    intros Hbat.
    destruct (Hl3 Hbat) as [Hb3 [n3 [E3 F3]]].
    destruct (Hl5 Hb3) as [Hb5 [n5 [E5 F5]]].
    destruct (Hl6 Hb5) as [Hb6 [n6 [E6 F6]]].
    split; [exact Hb6 |]. exists (n3 ++ n5 ++ n6).
    rewrite E6, E5. simpl. rewrite E3. simpl. rewrite !app_assoc.
    split; [reflexivity |]. repeat (apply Forall_app; split); assumption. }
  destruct Hpartb as [Hsetb Hlb].
  eapply logs_trans; [exact Hla |]. eapply logs_trans; [exact Hlb |].
  exact (IH sb s' Hsetb Hrun).
Qed.
End Hushed.




(** * Callbacks registered while a component is updated *)

Lemma push_all_app (pending : option (list Callback)) (a b : list Callback) :
  push_all (push_all pending a) b = push_all pending (a ++ b).
Proof.
  destruct a as [| x a]; [reflexivity |].
  destruct b as [| y b]; simpl; [rewrite app_nil_r; reflexivity |].
  rewrite <- app_assoc. reflexivity.
Qed.

Lemma pending_with_component (c c0 : CompId) (f : Component -> Component) (s : World) :
  (forall o, _pendingCallbacks (f o) = _pendingCallbacks o) ->
  _pendingCallbacks (components (with_component c0 f s) c)
  = _pendingCallbacks (components s c).
Proof.
  intros Hf. simpl. unfold upd. destruct (Nat.eqb c c0) eqn:E; [| reflexivity].
  apply Nat.eqb_eq in E. subst. apply Hf.
Qed.

Lemma runCmd_pending (P : Program) (n : nat) (c : CompId) (cmd : Cmd) (s s' : World) :
  isBatchingUpdates s = true ->
  runCmd P n cmd s = Ok tt s' ->
  _pendingCallbacks (components s' c)
  = push_all (_pendingCallbacks (components s c)) (registered c [cmd]).
Proof.
  intros Hb Hrun. destruct cmd as [c0 | f ctx | c0 f | c0 | c0 e | c0 k | q f ctx | e];
    simpl in Hrun.
  - destruct n as [| n']; [discriminate |]. cbn [enqueueUpdate] in Hrun.
    unfold bind, ensureInjected in Hrun.
    destruct (ReactReconcileTransaction s && batchingStrategy s); [| discriminate].
    rewrite Hb in Hrun. simpl in Hrun.
    unfold markDirty, bind, modify in Hrun. simpl in Hrun.
    destruct (_updateBatchNumber (components s c0)); inversion Hrun; simpl;
      try reflexivity.
    unfold upd. destruct (Nat.eqb c c0) eqn:E; [| reflexivity].
    apply Nat.eqb_eq in E. subst. reflexivity.
  - unfold asap in Hrun.
    destruct (negb (batchingStrategy s)); [discriminate |].
    destruct (negb (isBatchingUpdates s)); [discriminate |].
    unfold queue_enqueue, bind, with_queue, emit, modify in Hrun.
    destruct (nth_error (queues s) (asapCallbackQueue s)); inversion Hrun. reflexivity.
  - unfold modify in Hrun. inversion Hrun. simpl. unfold upd.
    rewrite (Nat.eqb_sym c0 c).
    destruct (Nat.eqb c c0) eqn:E; [| reflexivity].
    apply Nat.eqb_eq in E. subst. reflexivity.
  - unfold modify in Hrun. inversion Hrun. apply pending_with_component. reflexivity.
  - unfold modify in Hrun. inversion Hrun. apply pending_with_component. reflexivity.
  - unfold modify in Hrun. inversion Hrun. apply pending_with_component. reflexivity.
  - unfold queue_enqueue, bind, with_queue, emit, modify in Hrun.
    destruct (nth_error (queues s) q); inversion Hrun. reflexivity.
  - discriminate.
Qed.

Lemma runCmds_pending (P : Program) (n : nat) (c : CompId) (l : list Cmd) :
  forall s s',
    isBatchingUpdates s = true ->
    runCmds P n l s = Ok tt s' ->
    _pendingCallbacks (components s' c)
    = push_all (_pendingCallbacks (components s c)) (registered c l).
Proof.
  induction l as [| cmd rest IH]; intros s s' Hb Hrun; simpl in Hrun.
  - inversion Hrun. reflexivity.
  - apply ok_bind_inv in Hrun. destruct Hrun as [[] [s1 [H1 Hrest]]].
    assert (Hb1 : isBatchingUpdates s1 = true).
    { pose proof (@always_runCmd_in P user_atom n cmd (cmd_atoms_user cmd) s s1
                    (ok_final H1) Hb) as Hsteps.
      rewrite (steps_isBatchingUpdates Hsteps). exact Hb. }
    rewrite (IH s1 s' Hb1 Hrest), (@runCmd_pending P n c cmd s s1 Hb H1).
    rewrite push_all_app. unfold registered.
    rewrite <- flat_map_app. reflexivity.
Qed.

Lemma enqueue_atom_components (s s' : World) :
  steps enqueue_atom s s' -> components s' = components s.
Proof.
  intros H.
  refine (@steps_relation enqueue_atom (fun a b => components b = components a)
            _ _ _ s s' H).
  - reflexivity.
  - intros a b d H1 H2. congruence.
  - intros a s0 Ha _. destruct a; simpl in Ha; try contradiction. simpl.
    destruct (nth_error (queues s0) q); reflexivity.
Qed.

(** X10. runBatchedUpdates reads component._pendingCallbacks into a
    local and sets the field to null before it calls the dispatcher. So
    when an iteration of the loop returns, what is pending on the
    component is exactly what the node kind pushed on
    _pendingCallbacks during this update, in order (null when it pushed
    nothing, or when the dispatcher skipped the component): these
    callbacks wait for the next pass, they are not among the ones the
    iteration enqueued. *)
Theorem callbacks_registered_during_update_stay_pending
    (P : Program) (n : nat) (tx : TxId) (o : FlushTransaction) (c : CompId)
    (s s1 : World)
    (Hb : isBatchingUpdates s = true)
    (Htx : nth_error (flushTxs s) tx = Some o)
    (Hrun : batchIteration P n tx c s = Ok tt s1) :
  let g := updateBatchNumber s in
  let sr := do_atom (AEmit (EvReconcile c g))
              (do_atom (AEmit (EvPerformUpdate c g)) (do_atom (AStash c) s)) in
  _pendingCallbacks (components s1 c)
  = if option_nat_eqb (tag_of s c) (Some g)
    then push_all None
           (registered c (impl_performUpdateIfNecessary P c (reconcileTransaction o) sr))
    else None.
Proof.
  intros g sr. rewrite (batchIteration_outcome P n tx c s Hb), Htx in Hrun.
  fold g in Hrun. unfold tag_of.
  set (s0 := do_atom (AStash c) s) in *.
  set (sp := do_atom (AEmit (EvPerformUpdate c g)) s0) in *.
  assert (Hp0 : _pendingCallbacks (components sp c) = None).
  { simpl. unfold upd. rewrite Nat.eqb_refl. reflexivity. }
  assert (Henq : forall s2, isBatchingUpdates s2 = true ->
            enqueue_stashed o (_pendingCallbacks (components s c)) c s2 = Ok tt s1 ->
            components s1 = components s2).
  { intros s2 Hb2 Hq. apply enqueue_atom_components.
    exact (@always_enqueue_stashed enqueue_atom o _ c (fun _ _ => I) s2 s1
             (ok_final Hq) Hb2). }
  destruct (option_nat_eqb (_updateBatchNumber (components s c)) (Some g)).
  - fold sr in Hrun.
    destruct (runCmds P n _ sr) as [[] s2 | |] eqn:Himpl; try discriminate.
    assert (Hb2 : isBatchingUpdates s2 = true).
    { pose proof (@always_runCmds P n _ sr s2 (ok_final Himpl) Hb) as Hsteps.
      rewrite (steps_isBatchingUpdates Hsteps). exact Hb. }
    rewrite (Henq s2 Hb2 Hrun).
    rewrite (@runCmds_pending P n c _ sr s2 Hb Himpl).
    change (components sr) with (components sp). rewrite Hp0. reflexivity.
  - set (sk := skip_world c g (_updateBatchNumber (components s c)) sp) in *.
    assert (Hbk : isBatchingUpdates sk = true).
    { unfold sk, skip_world. destruct (_updateBatchNumber (components s c)) as [t |];
        [destruct (Nat.eqb t (g + 1)) |]; exact Hb. }
    rewrite (Henq sk Hbk Hrun). unfold sk, skip_world.
    destruct (_updateBatchNumber (components s c)) as [t |];
      [destruct (Nat.eqb t (g + 1)) |]; exact Hp0.
Qed.


(** Callback 9 is pending on component 2 when the pass of generation 1
    comes to it; the update registers callback 7. After the iteration 9
    is on the queue of the transaction and 7 is pending on the component. *)
Lemma callbacks_registered_during_update_stay_pending_witness :
  let s := set_updateBatchNumber 1 (do_atom (APending 2 9) world_529) in
  isBatchingUpdates s = true
  /\ nth_error (flushTxs s) 0 = Some (recorded 3 1 0)
  /\ exists s1,
       batchIteration reregister 1 0 2 s = Ok tt s1
       /\ _pendingCallbacks (components s1 2) = Some [UserFn 7]
       /\ enqueued_on 1 (log s1) = [(UserFn 9, VPublic 2)].
Proof.
  intros s. split; [reflexivity |]. split; [reflexivity |].
  destruct (batchIteration reregister 1 0 2 s) as [[] s1 | |] eqn:Hrun;
    [| vm_compute in Hrun; discriminate | vm_compute in Hrun; discriminate].
  exists s1. split; [reflexivity |].
  pose proof (@callbacks_registered_during_update_stay_pending reregister 1 0
                (recorded 3 1 0) 2 s s1 eq_refl eq_refl Hrun) as Hp.
  split.
  - rewrite Hp. reflexivity.
  - by_evaluation Hrun (fun r : Result unit =>
      match r with Ok _ w => enqueued_on 1 (log w) | _ => [] end).
Defined.

(** * ReactMount: firstDifferenceIndex *)

Lemma get_out_of_range (s : string) :
  forall i, String.length s <= i -> String.get i s = None.
Proof.
  induction s as [| c s IH]; intros i Hi; simpl in *; [reflexivity |].
  destruct i as [| i]; [lia |]. apply IH. lia.
Qed.

Lemma get_in_range (s : string) :
  forall i, i < String.length s -> String.get i s <> None.
Proof.
  induction s as [| c s IH]; intros i Hi; simpl in *; [lia |].
  destruct i as [| i]; [discriminate |]. apply IH. lia.
Qed.

Lemma charAt_eqb (a b : string) (i : nat) :
  String.eqb (charAt a i) (charAt b i) = true <-> String.get i a = String.get i b.
Proof.
  unfold charAt. rewrite String.eqb_eq.
  destruct (String.get i a), (String.get i b); split; intros H;
    try discriminate; try reflexivity; congruence.
Qed.

(** The loop returns at the first index, from [i] on, where the
    strings differ; it runs out when there is none below [i + k]. *)
Lemma firstDifferenceIndex_loop_spec (a b : string) (k : nat) :
  forall i,
    match firstDifferenceIndex_loop a b i k with
    | Some r =>
        i <= r < i + k
        /\ (forall j, i <= j < r -> String.get j a = String.get j b)
        /\ String.get r a <> String.get r b
    | None => forall j, i <= j < i + k -> String.get j a = String.get j b
    end.
Proof.
  induction k as [| k IH]; intros i; simpl.
  - intros j Hj. lia.
  - destruct (String.eqb (charAt a i) (charAt b i)) eqn:E; simpl.
    + apply charAt_eqb in E. specialize (IH (S i)).
      destruct (firstDifferenceIndex_loop a b (S i) k) as [r |].
      * destruct IH as [Hr [Hpre Hdiff]]. split; [lia |]. split; [| exact Hdiff].
        intros j Hj. destruct (Nat.eq_dec j i) as [-> | Hne]; [exact E |].
        apply Hpre. lia.
      * intros j Hj. destruct (Nat.eq_dec j i) as [-> | Hne]; [exact E |].
        apply IH. lia.
    + split; [lia |]. split; [intros j Hj; lia |].
      intros Heq. apply charAt_eqb in Heq. congruence.
Qed.

Lemma firstDifferenceIndex_loop_sym (a b : string) (k : nat) :
  forall i, firstDifferenceIndex_loop a b i k = firstDifferenceIndex_loop b a i k.
Proof.
  induction k as [| k IH]; intros i; simpl; [reflexivity |].
  rewrite (String.eqb_sym (charAt a i)), IH. reflexivity.
Qed.

(** X11. firstDifferenceIndex(string1, string2) is -1 exactly when the
    strings are equal. Otherwise it is the first index at which they
    differ: an index i, at most the shorter length, such that the
    strings agree at every index below i and differ at i (one of them
    may end there). The result does not depend on the order of the two
    arguments. *)
Theorem firstDifferenceIndex_first_difference (string1 string2 : string) :
  (firstDifferenceIndex string1 string2 = (-1)%Z <-> string1 = string2)
  /\ (string1 <> string2 ->
      exists i,
        firstDifferenceIndex string1 string2 = Z.of_nat i
        /\ i <= Nat.min (String.length string1) (String.length string2)
        /\ (forall j, j < i -> String.get j string1 = String.get j string2)
        /\ String.get i string1 <> String.get i string2)
  /\ firstDifferenceIndex string1 string2 = firstDifferenceIndex string2 string1.
Proof.
  set (minLen := Nat.min (String.length string1) (String.length string2)).
  assert (Hcases :
    (firstDifferenceIndex string1 string2 = (-1)%Z /\ string1 = string2)
    \/ (string1 <> string2 /\
        exists i,
          firstDifferenceIndex string1 string2 = Z.of_nat i
          /\ i <= minLen
          /\ (forall j, j < i -> String.get j string1 = String.get j string2)
          /\ String.get i string1 <> String.get i string2)).
  { unfold firstDifferenceIndex. fold minLen.
    pose proof (firstDifferenceIndex_loop_spec string1 string2 minLen 0) as Hloop.
    destruct (firstDifferenceIndex_loop string1 string2 0 minLen) as [r |].
    - destruct Hloop as [Hr [Hpre Hdiff]]. right. split; [congruence |].
      exists r. split; [reflexivity |]. split; [lia |]. split; [| exact Hdiff].
      intros j Hj. apply Hpre. lia.
    - destruct (Nat.eqb (String.length string1) (String.length string2)) eqn:E.
      + left. split; [reflexivity |]. apply Nat.eqb_eq in E.
        apply String.get_correct. intros j.
        destruct (Nat.lt_ge_cases j minLen) as [Hlt | Hge]; [apply Hloop; lia |].
        rewrite !get_out_of_range by (unfold minLen in Hge; lia). reflexivity.
      + right. apply Nat.eqb_neq in E. split; [congruence |].
        exists minLen. split; [reflexivity |]. split; [lia |].
        split; [intros j Hj; apply Hloop; lia |].
        destruct (Nat.lt_ge_cases (String.length string1) (String.length string2))
          as [Hlt | Hge].
        * rewrite (get_out_of_range string1) by (unfold minLen; lia).
          intros Heq. symmetry in Heq. revert Heq. apply get_in_range.
          unfold minLen. lia.
        * rewrite (get_out_of_range string2) by (unfold minLen; lia).
          apply get_in_range. unfold minLen. lia. }
  split; [| split].
  - destruct Hcases as [[H1 H2] | [Hne [i [Hi _]]]]; split; intros H; try assumption.
    + rewrite Hi in H. lia.
    + contradiction.
  - intros Hne. destruct Hcases as [[_ H] | [_ H]]; [contradiction | exact H].
  - unfold firstDifferenceIndex.
    rewrite firstDifferenceIndex_loop_sym, Nat.min_comm,
      (Nat.eqb_sym (String.length string1)). reflexivity.
Qed.

Lemma firstDifferenceIndex_first_difference_witness :
  "<div data-reactid=1>"%string <> "<div data-reactid=2>"%string
  /\ firstDifferenceIndex "<div data-reactid=1>" "<div data-reactid=2>" = 18%Z
  /\ firstDifferenceIndex "<div>" "<div>tail" = 5%Z.
Proof.
  split; [discriminate |].
  destruct (firstDifferenceIndex_first_difference
              "<div data-reactid=1>" "<div data-reactid=2>") as [_ [H _]].
  destruct (H ltac:(discriminate)) as [i [Hi _]].
  split; [| reflexivity]. rewrite Hi. vm_compute in Hi.
  symmetry. exact Hi.
Defined.

(** * The callbacks of a pass are notified after the nested updates *)

Lemma settled_idle (s : World) :
  settled s -> dirtyComponents s = [] ->
  (forall c, tag_of s c = None) /\ outstanding (log s) = [].
Proof.
  intros [Sb St Ss] Hd.
  assert (Ht : forall c, tag_of s c = None).
  { intros c. destruct (tag_of s c) as [t |] eqn:E; [| reflexivity].
    destruct (St c t E) as [_ Hin]. rewrite Hd in Hin. destruct Hin. }
  split; [exact Ht |].
  assert (Hnone : forall x, ~ In x (outstanding (log s))).
  { intros [c t] Hin. pose proof (Ss c t Hin) as Htag. rewrite Ht in Htag.
    discriminate. }
  destruct (outstanding (log s)) as [| x rest]; [reflexivity |].
  exfalso. apply (Hnone x). left. reflexivity.
Qed.



(** * Nothing is reconciled that was not scheduled *)

Lemma keeps_sound_refl (s : World) : keeps_sound s s.
Proof. intros H. exact H. Qed.

Lemma keeps_sound_trans (a b c : World) :
  keeps_sound a b -> keeps_sound b c -> keeps_sound a c.
Proof. intros Hab Hbc Ha. apply Hbc, Hab, Ha. Qed.

Ltac sound_bind :=
  apply always_bind; [apply keeps_sound_trans | | intros ?].

Lemma justified_nil : justified [].
Proof. intros l1 l2 c g H. destruct l1; discriminate. Qed.

(** Events other than reconciliations may follow. *)
Lemma justified_app (l new : list Event) :
  justified l -> Forall plain_event new -> justified (l ++ new).
Proof.
  intros Hl Hnew l1 l2 c g H.
  apply app_eq_app in H. destruct H as [l' [[H1 H2] | [H1 H2]]].
  - destruct l' as [| e l''].
    + simpl in H2. rewrite <- H2 in Hnew. inversion Hnew as [| x y Hx]. destruct Hx.
    + simpl in H2. inversion H2. subst e.
      apply (Hl l1 l'' c g). exact H1.
  - exfalso. rewrite H2 in Hnew. apply Forall_app in Hnew. destruct Hnew as [_ Hnew].
    inversion Hnew as [| x y Hx]. destruct Hx.
Qed.

(** A reconciliation may follow its scheduling. *)
Lemma justified_reconcile (l : list Event) (c g : nat) :
  justified l -> In (EvSchedule c g) l -> justified (l ++ [EvReconcile c g]).
Proof.
  intros Hl Hin l1 l2 c0 g0 H.
  apply app_eq_app in H. destruct H as [l' [[H1 H2] | [H1 H2]]].
  - destruct l' as [| e l''].
    + simpl in H2. inversion H2. subst. rewrite app_nil_r in Hin. exact Hin.
    + simpl in H2. inversion H2. subst e.
      apply (Hl l1 l'' c0 g0). exact H1.
  - destruct l' as [| e l'']; simpl in H2.
    + inversion H2. subst. rewrite app_nil_r. exact Hin.
    + inversion H2 as [[He Hrest]]. destruct l''; discriminate.
Qed.

(** An atom leaves a tag, or sets it and logs the scheduling. *)
Lemma tag_of_atom_logged (a : Atom) (s : World) (c : CompId) (t : nat) :
  tag_of (do_atom a s) c = Some t ->
  tag_of s c = Some t \/ In (EvSchedule c t) (log (do_atom a s)).
Proof.
  destruct a as [c0 | q cb ctx | | c0 f | c0 | q | c0 | c0 e | c0 k | e]; simpl; intros H.
  - destruct (_updateBatchNumber (components s c0)) eqn:E; simpl in H; [left; exact H |].
    rewrite tag_of_mark_tagged in H. destruct (Nat.eqb c c0) eqn:Ec; [| left; exact H].
    inversion H. apply Nat.eqb_eq in Ec. subst c0. right. simpl.
    apply in_or_app. right. left. reflexivity.
  - destruct (nth_error (queues s) q); left; exact H.
  - left. exact H.
  - rewrite tag_of_with_component in H by reflexivity. left. exact H.
  - rewrite tag_of_with_component in H by reflexivity. left. exact H.
  - destruct (nth_error (queues s) q); left; exact H.
  - change (tag_of (do_atom (AClear c0) s) c = Some t) in H.
    rewrite tag_of_clear in H. destruct (Nat.eqb c c0); [discriminate | left; exact H].
  - rewrite tag_of_with_component in H by reflexivity. left. exact H.
  - rewrite tag_of_with_component in H by reflexivity. left. exact H.
  - left. exact H.
Qed.

Lemma atom_sound (a : Atom) (s : World) :
  plain_atom a -> sound s -> sound (do_atom a s).
Proof.
  intros Ha [Sb St Sj].
  pose proof (@frame_atom plain_event a s (plain_atom_events a Ha)) as Hfr.
  destruct (fr_log Hfr) as [new [Hlog Hnew]].
  constructor.
  - rewrite do_atom_isBatchingUpdates. exact Sb.
  - intros c t H. destruct (tag_of_atom_logged a s c H) as [H1 | H1]; [| exact H1].
    rewrite Hlog. apply in_or_app. left. exact (St c t H1).
  - rewrite Hlog. apply justified_app; assumption.
Qed.

Lemma steps_sound (s s' : World) : steps plain_atom s s' -> sound s -> sound s'.
Proof.
  apply (@steps_invariant plain_atom sound).
  intros a w Ha _. apply atom_sound. exact Ha.
Qed.

Lemma always_sound_of_steps {A : Type} (K : Atom -> Prop) (m : M A) :
  (forall a, K a -> plain_atom a) ->
  always (batching_steps K) m -> always keeps_sound m.
Proof.
  intros HK Hm s s' H Ho. apply (@steps_sound s s'); [| exact Ho].
  eapply steps_weaken; [exact HK |].
  exact (Hm s s' H (so_batching Ho)).
Qed.

Lemma always_sound_of_pool {A : Type} (m : M A) :
  always same_schedule m -> always (logs pool_event) m -> always keeps_sound m.
Proof.
  intros Hs Hl s s' H [Sb St Sj].
  destruct (Hl s s' H Sb) as [Hb [new [Hlog Hnew]]].
  constructor.
  - exact Hb.
  - intros c t Ht. rewrite (ss_tags (Hs s s' H)) in Ht.
    rewrite Hlog. apply in_or_app. left. exact (St c t Ht).
  - rewrite Hlog. apply justified_app; [exact Sj |].
    eapply Forall_impl; [| exact Hnew]. intros e. destruct e; simpl; tauto.
Qed.

(** A step that writes neither the flag, nor the log, nor a batch number. *)
Lemma always_sound_keeps {A : Type} (m : M A) :
  (forall s s', final (m s) = Some s' ->
     log s' = log s /\ isBatchingUpdates s' = isBatchingUpdates s
     /\ forall c, tag_of s' c = tag_of s c) ->
  always keeps_sound m.
Proof.
  intros Hm s s' H [Sb St Sj]. destruct (Hm s s' H) as [Hl [Hb Ht]].
  constructor.
  - congruence.
  - intros c t Hc. rewrite Hl. apply St. rewrite <- Ht. exact Hc.
  - rewrite Hl. exact Sj.
Qed.

Lemma ref_atom_plain (a : Atom) : ref_atom a -> plain_atom a.
Proof. destruct a; simpl; try tauto. destruct e; simpl; tauto. Qed.

(** The callbacks of any program reconcile nothing. *)
Lemma always_plain_invoke (P : Program) (n : nat) (cb : option Callback)
    (this arg : Value) :
  always (batching_steps plain_atom) (invoke P n cb this arg).
Proof.
  destruct cb as [[f |] |]; simpl.
  - unfold call_fn. steps_bind; [apply always_emit; exact I |].
    eapply always_weaken; [| apply always_body].
    intros s s'. apply batching_steps_weaken. apply user_atom_plain.
  - steps_bind; [apply always_emit; exact I |].
    destruct this; try (apply always_throw; apply batching_steps_refl).
    intros s s' H.
    eapply batching_steps_weaken; [| exact (always_attachRefs P n c _ s H)].
    apply ref_atom_plain.
  - apply always_throw. apply batching_steps_refl.
Qed.

Lemma always_plain_invokeAll (P : Program) (n : nat) (arg : Value)
    (callbacks : list (option Callback)) :
  forall contexts,
    always (batching_steps plain_atom) (invokeAll P n callbacks contexts arg).
Proof.
  induction callbacks as [| cb rest IH]; intros contexts; simpl.
  - apply always_ret. apply batching_steps_refl.
  - steps_bind; [apply always_plain_invoke | apply IH].
Qed.

Lemma always_plain_reset (q : QueueId) :
  always (batching_steps plain_atom) (with_queue q CallbackQueue_reset).
Proof.
  intros s s' H _. unfold with_queue in H.
  pose proof (steps_one plain_atom (AReset q) s I I) as Hs. simpl in Hs.
  destruct (nth_error (queues s) q); inversion H; subst;
    [exact Hs | apply steps_refl].
Qed.

Lemma always_plain_notifyAll (P : Program) (n : nat) (q : QueueId) :
  always (batching_steps plain_atom) (CallbackQueue_notifyAll P n q).
Proof.
  intros s s' H. unfold CallbackQueue_notifyAll in H.
  destruct (nth_error (queues s) q) as [this |] eqn:Hq;
    [| inversion H; subst; apply batching_steps_refl].
  destruct (_callbacks this) as [callbacks |];
    [| inversion H; subst; apply batching_steps_refl].
  destruct (_contexts this) as [contexts |];
    [| inversion H; subst; apply batching_steps_refl].
  destruct (Nat.eqb (length callbacks) (length contexts));
    [| inversion H; subst; apply batching_steps_refl].
  assert (Hall : always (batching_steps plain_atom)
            (with_queue q CallbackQueue_reset ;;
             invokeAll P n callbacks contexts (_arg this))).
  { steps_bind; [apply always_plain_reset | apply always_plain_invokeAll]. }
  exact (Hall s s' H).
Qed.

Lemma always_sound_get_flushTx (t : TxId) : always keeps_sound (get_flushTx t).
Proof.
  apply always_sound_keeps. intros s s' H. unfold get_flushTx in H.
  destruct (nth_error (flushTxs s) t); inversion H; auto.
Qed.

Lemma always_sound_getReactMountReady (r : RtxId) :
  always keeps_sound (getReactMountReady r).
Proof.
  apply always_sound_keeps. intros s s' H.
  unfold getReactMountReady, get_reconcileTx, bind, ret, throw in H.
  destruct (nth_error (reconcileTxs s) r) as [o |]; simpl in H.
  - destruct (reactMountReady o); inversion H; auto.
  - inversion H; auto.
Qed.

Section Sound.
Variable P : Program.

(** One iteration, whatever its outcome: the dispatcher delegates to the
    node kind only when the component carries the running generation,
    which a scheduling on record gave it. *)
Lemma iteration_sound (n : nat) (tx : TxId) (c : CompId) (s s1 : World) :
  sound s -> final (batchIteration P n tx c s) = Some s1 -> sound s1.
Proof.
  intros Ho Hrun. pose proof (so_batching Ho) as Hb.
  rewrite (batchIteration_outcome P n tx c s Hb) in *.
  set (g := updateBatchNumber s) in *.
  set (s0 := do_atom (AStash c) s) in *.
  set (sp := do_atom (AEmit (EvPerformUpdate c g)) s0) in *.
  assert (Hsp : steps plain_atom s sp).
  { eapply steps_trans; apply steps_one; exact I. }
  assert (Hs0 : steps plain_atom s s0) by (apply steps_one; exact I).
  destruct (nth_error (flushTxs s) tx) as [o |].
  2:{ inversion Hrun. subst s1. exact (steps_sound Hs0 Ho). }
  assert (Henq : forall s2,
            sound s2 ->
            final (enqueue_stashed o (_pendingCallbacks (components s c)) c s2) = Some s1 ->
            sound s1).
  { intros s2 H2 Hq. apply (@steps_sound s2 s1); [| exact H2].
    exact (@always_enqueue_stashed plain_atom o _ c (fun _ _ => I) s2 s1 Hq
             (so_batching H2)). }
  destruct (option_nat_eqb (_updateBatchNumber (components s c)) (Some g)) eqn:Htag.
  - (* delegated to the node kind *)
    apply option_nat_eqb_eq in Htag.
    set (sr := do_atom (AEmit (EvReconcile c g)) sp) in *.
    pose proof (steps_sound Hsp Ho) as [Ob Ot Oj].
    assert (Htp : tag_of sp c = Some g).
    { change (tag_of (with_component c (comp_set_pendingCallbacks None) s) c = Some g).
      rewrite tag_of_with_component by reflexivity. exact Htag. }
    assert (Hor : sound sr).
    { constructor.
      - exact Ob.
      - intros c0 t H. change (log sr) with (log sp ++ [EvReconcile c g]).
        apply in_or_app. left. apply Ot. exact H.
      - change (log sr) with (log sp ++ [EvReconcile c g]).
        apply justified_reconcile; [exact Oj |]. apply Ot. exact Htp. }
    destruct (runCmds P n (impl_performUpdateIfNecessary P c (reconcileTransaction o) sr) sr)
      as [[] s2 | e s2 |] eqn:Himpl.
    + assert (Hall : steps plain_atom sr s2).
      { eapply steps_weaken; [apply user_atom_plain |].
        exact (@always_runCmds P n _ sr s2 (ok_final Himpl) Hb). }
      apply (Henq s2); [exact (steps_sound Hall Hor) | exact Hrun].
    + inversion Hrun. subst s1.
      assert (Hall : steps plain_atom sr s2).
      { eapply steps_weaken; [apply user_atom_plain |].
        exact (@always_runCmds P n _ sr s2 ltac:(rewrite Himpl; reflexivity) Hb). }
      exact (steps_sound Hall Hor).
    + discriminate.
  - (* skipped *)
    apply (Henq (skip_world c g (_updateBatchNumber (components s c)) sp)); [| exact Hrun].
    apply (@steps_sound s); [| exact Ho]. unfold skip_world.
    destruct (_updateBatchNumber (components s c)) as [t |]; [| exact Hsp].
    destruct (Nat.eqb t (g + 1)); [exact Hsp |].
    eapply steps_trans; [exact Hsp | apply steps_one; exact I].
Qed.

Lemma batchLoop_sound (n : nat) (tx : TxId) (k : nat) :
  forall i, always keeps_sound (batchLoop P n tx i k).
Proof.
  induction k as [| k IH]; intros i s s' Hrun Ho; simpl in Hrun.
  - inversion Hrun. subst s'. exact Ho.
  - unfold bind at 1 in Hrun. unfold get in Hrun.
    destruct (nth_error (dirtyComponents s) i) as [c |]; [| inversion Hrun; subst; exact Ho].
    apply final_bind in Hrun.
    destruct Hrun as [[e [Hthrow _]] | [[] [s1 [Hok [Hrest _]]]]].
    + apply (@iteration_sound n tx c s s' Ho). rewrite Hthrow. reflexivity.
    + exact (IH (S i) s1 s' Hrest (@iteration_sound n tx c s s1 Ho (ok_final Hok))).
Qed.

Lemma always_sound_runBatchedUpdates (n : nat) (tx : TxId) :
  always keeps_sound (runBatchedUpdates P n tx).
Proof.
  intros s s' Hrun Ho. unfold runBatchedUpdates, bind, get_flushTx in Hrun.
  destruct (nth_error (flushTxs s) tx) as [o |]; [| inversion Hrun; subst; exact Ho].
  destruct (dirtyComponentsLength o) as [len |]; [| inversion Hrun; subst; exact Ho].
  destruct (Nat.eqb len (length (dirtyComponents s)));
    [| inversion Hrun; subst; exact Ho].
  unfold modify in Hrun. simpl in Hrun.
  destruct Ho as [Ob Ot Oj].
  eapply batchLoop_sound; [exact Hrun |].
  constructor; simpl; auto.
Qed.

Lemma always_sound_NESTED_UPDATES (flush : M unit) (t : TxId) :
  always keeps_sound flush ->
  always keeps_sound (initialize (NESTED_UPDATES flush t))
  /\ always keeps_sound (close (NESTED_UPDATES flush t)).
Proof.
  intros Hflush. split; simpl.
  - sound_bind; [apply always_sound_get_flushTx |].
    apply always_sound_keeps. intros s s' H. inversion H. auto.
  - sound_bind; [apply always_sound_get_flushTx |].
    intros s s' H.
    destruct (negb (option_nat_eqb (dirtyComponentsLength a)
                      (Some (length (dirtyComponents s))))).
    + unfold bind, modify in H. simpl in H. intros Ho.
      apply (Hflush _ _ H). destruct Ho as [Ob Ot Oj]. constructor; assumption.
    + inversion H. subst. intros [Ob Ot Oj]. constructor; assumption.
Qed.

Lemma always_sound_UPDATE_QUEUEING (n : nat) (t : TxId) :
  always keeps_sound (initialize (UPDATE_QUEUEING P n t))
  /\ always keeps_sound (close (UPDATE_QUEUEING P n t)).
Proof.
  split; simpl.
  - sound_bind; [apply always_sound_get_flushTx |].
    destruct (callbackQueue a).
    + eapply always_sound_of_steps; [| apply always_plain_reset]. auto.
    + apply always_throw. apply keeps_sound_refl.
  - sound_bind; [apply always_sound_get_flushTx |].
    destruct (callbackQueue a).
    + eapply always_sound_of_steps; [| apply always_plain_notifyAll]. auto.
    + apply always_throw. apply keeps_sound_refl.
Qed.

Lemma always_sound_RECONCILE_WRAPPERS (n : nat) (r : RtxId) (w : Wrapper) :
  In w (RECONCILE_WRAPPERS P n r) ->
  always keeps_sound (initialize w) /\ always keeps_sound (close w).
Proof.
  intros [<- | []]. split; simpl.
  - sound_bind; [apply always_sound_getReactMountReady |].
    eapply always_sound_of_steps; [| apply always_plain_reset]. auto.
  - sound_bind; [apply always_sound_getReactMountReady |].
    eapply always_sound_of_steps; [| apply always_plain_notifyAll]. auto.
Qed.

Lemma always_sound_perform (n : nat) (flush : M unit) (t : TxId) :
  always keeps_sound flush ->
  always keeps_sound (FlushTransaction_perform P n flush t (runBatchedUpdates P n t)).
Proof.
  intros Hflush. unfold FlushTransaction_perform.
  sound_bind; [apply always_sound_get_flushTx |].
  destruct (reconcileTransaction a) as [r |];
    [| apply always_throw; apply keeps_sound_refl].
  apply always_perform.
  - apply keeps_sound_refl.
  - apply keeps_sound_trans.
  - intros w [<- | [<- | []]].
    + apply always_sound_NESTED_UPDATES, Hflush.
    + apply always_sound_UPDATE_QUEUEING.
  - apply always_perform.
    + apply keeps_sound_refl.
    + apply keeps_sound_trans.
    + intros w Hw. exact (always_sound_RECONCILE_WRAPPERS Hw).
    + apply always_sound_runBatchedUpdates.
Qed.

Lemma always_sound_transaction_part (n : nat) :
  always keeps_sound (flushBatchedUpdates P n) ->
  always keeps_sound
    (fun s =>
       if is_nonempty (dirtyComponents s) then
         (transaction <- FlushTransaction_getPooled ;;
          FlushTransaction_perform P n (flushBatchedUpdates P n)
            transaction (runBatchedUpdates P n transaction) ;;
          FlushTransaction_release transaction) s
       else Ok tt s).
Proof.
  intros IH s s' H.
  destruct (is_nonempty (dirtyComponents s));
    [| inversion H; subst; apply keeps_sound_refl].
  revert s' H.
  assert (Hall : always keeps_sound
    (transaction <- FlushTransaction_getPooled ;;
     FlushTransaction_perform P n (flushBatchedUpdates P n)
       transaction (runBatchedUpdates P n transaction) ;;
     FlushTransaction_release transaction)).
  { sound_bind.
    { apply always_sound_of_pool;
        [apply always_same_FlushTransaction_getPooled
        | apply always_logs_FlushTransaction_getPooled]. }
    sound_bind; [apply always_sound_perform, IH |].
    apply always_sound_of_pool;
      [apply always_same_FlushTransaction_release
      | apply always_logs_FlushTransaction_release]. }
  intros s'. apply Hall.
Qed.

Lemma always_sound_asap_part (n : nat) :
  always keeps_sound
    (fun s =>
       if asapEnqueued s then
         (modify (set_asapEnqueued false) ;;
          queue <- get asapCallbackQueue ;;
          q' <- CallbackQueue_getPooled VUndefined ;;
          modify (set_asapCallbackQueue q') ;;
          CallbackQueue_notifyAll P n queue ;;
          CallbackQueue_release queue) s
       else Ok tt s).
Proof.
  intros s s' H.
  destruct (asapEnqueued s); [| inversion H; subst; apply keeps_sound_refl].
  revert s' H.
  assert (Hall : always keeps_sound
    (modify (set_asapEnqueued false) ;;
     queue <- get asapCallbackQueue ;;
     q' <- CallbackQueue_getPooled VUndefined ;;
     modify (set_asapCallbackQueue q') ;;
     CallbackQueue_notifyAll P n queue ;;
     CallbackQueue_release queue)).
  { sound_bind.
    { apply always_sound_keeps. intros s0 s1 H. inversion H. auto. }
    sound_bind; [apply always_get; apply keeps_sound_refl |].
    sound_bind.
    { apply always_sound_of_pool;
        [apply always_same_CallbackQueue_getPooled
        | apply always_logs_CallbackQueue_getPooled]. }
    sound_bind.
    { apply always_sound_keeps. intros s0 s1 H. inversion H. auto. }
    sound_bind.
    { eapply always_sound_of_steps; [| apply always_plain_notifyAll]. auto. }
    apply always_sound_of_pool;
      [apply always_same_CallbackQueue_release | apply always_logs_CallbackQueue_release]. }
  intros s'. apply Hall.
Qed.

Lemma always_sound_flush (n : nat) : always keeps_sound (flushBatchedUpdates P n).
Proof.
  induction n as [| n IH]; [intros s s' H; discriminate |].
  intros s s' H. cbn [flushBatchedUpdates] in H.
  destruct (is_nonempty (dirtyComponents s) || asapEnqueued s);
    [| inversion H; subst; apply keeps_sound_refl].
  revert s' H.
  pose proof (@always_sound_transaction_part n IH) as H1.
  pose proof (always_sound_asap_part n) as H2.
  intros s'.
  refine (@always_bind keeps_sound keeps_sound_trans unit unit _ _ H1 _ s s').
  intros [].
  refine (@always_bind keeps_sound keeps_sound_trans unit unit _ _ H2 _).
  intros []. exact IH.
Qed.
End Sound.

Lemma sound_world0 : sound world0.
Proof.
  constructor.
  - reflexivity.
  - intros c t H. discriminate.
  - exact justified_nil.
Qed.

(** X13. Inside a batching scope, start where every batch number a
    component carries, and every reconciliation on record, goes back to
    a scheduling on record. Run any user code, then
    flushBatchedUpdates, with any node kind and any user functions, and
    whatever the two outcomes (a return or an error): every
    reconciliation in the log comes after a scheduling of that
    component for that generation, so the dispatcher never delegates an
    update of a component that enqueueUpdate did not tag for the
    running generation; and the batch number a component carries is the
    one a scheduling on record gave it. *)
Theorem reconciled_only_when_scheduled
    (P : Program) (m n : nat) (l : list Cmd) (s0 s s' : World)
    (Hs0 : sound s0)
    (Hl : final (runCmds P m l s0) = Some s)
    (Hrun : final (flushBatchedUpdates P n s) = Some s') :
  (forall l1 l2 c g,
     log s' = l1 ++ EvReconcile c g :: l2 -> In (EvSchedule c g) l1)
  /\ (forall c t, tag_of s' c = Some t -> In (EvSchedule c t) (log s')).
Proof.
  assert (Hs : sound s).
  { apply (@steps_sound s0 s); [| exact Hs0].
    eapply steps_weaken; [apply user_atom_plain |].
    exact (@always_runCmds P m l s0 s Hl (so_batching Hs0)). }
  destruct (@always_sound_flush P n s s' Hrun Hs) as [_ Ht Hj].
  split; [exact Hj | exact Ht].
Qed.

(** Component 1 of [stubborn], pushed twice and never reset, is
    reconciled twice in generation 1: both times after its one
    scheduling. *)
Lemma reconciled_only_when_scheduled_witness :
  sound world0
  /\ final (runCmds stubborn 1 [CEnqueueUpdate 1; CEnqueueUpdate 1] world0)
     = Some (after stubborn [CEnqueueUpdate 1; CEnqueueUpdate 1])
  /\ exists s',
       flushBatchedUpdates stubborn 3 (after stubborn [CEnqueueUpdate 1; CEnqueueUpdate 1])
       = Ok tt s'
       /\ (forall l1 l2 c g,
             log s' = l1 ++ EvReconcile c g :: l2 -> In (EvSchedule c g) l1)
       /\ scheduled_updates (log s') = [(1, 1)]
       /\ reconciled (log s') = [(1, 1); (1, 1)].
Proof.
  split; [exact sound_world0 |].
  assert (Hl : final (runCmds stubborn 1 [CEnqueueUpdate 1; CEnqueueUpdate 1] world0)
               = Some (after stubborn [CEnqueueUpdate 1; CEnqueueUpdate 1]))
    by (vm_compute; reflexivity).
  split; [exact Hl |].
  destruct (flushBatchedUpdates stubborn 3
              (after stubborn [CEnqueueUpdate 1; CEnqueueUpdate 1]))
    as [[] s' | |] eqn:Hrun;
    [| vm_compute in Hrun; discriminate | vm_compute in Hrun; discriminate].
  exists s'. split; [reflexivity |].
  split.
  { exact (proj1 (@reconciled_only_when_scheduled stubborn 1 3
                    [CEnqueueUpdate 1; CEnqueueUpdate 1] world0 _ s'
                    sound_world0 Hl (ok_final Hrun))). }
  split.
  { by_evaluation Hrun (fun r : Result unit =>
      match r with Ok _ s => scheduled_updates (log s) | _ => [] end). }
  by_evaluation Hrun (fun r : Result unit =>
    match r with Ok _ s => reconciled (log s) | _ => [] end).
Defined.
